(** * Ribbon SFU: room registry and room session state

    A shallow embedding of the mediasoup front end of the secure-call
    service:
    - class [Room] of [sfu/room.js] (in the source tree:
      [src/unnamed/part_007]);
    - the server of [sfu/server.js]: worker selection, the room registry
      and the JSON-RPC dispatcher (in the source tree: the second document
      of [src/secure-call/stop.sh]);
    together with the part of the mediasoup object model that these two
    files call into.

    Layout:
    - [JsMap]: the insertion-ordered [Map] of JavaScript;
    - [Mediasoup]: routers, transports, producers and consumers as the
      server sees them through the mediasoup API;
    - [RoomJs]: the methods of class [Room];
    - [ServerJs]: [getNextWorker], [getOrCreateRoom], [deleteRoom],
      [handleRpcRequest], [processMessage], and the engine events the
      listeners of [room.js] react to;
    - [Props]: the vocabulary of the properties;
    - the facts, ending with the properties of the session core.

    A request is handled in one piece: the interleaving of two handlers
    at an [await] is not part of the model. *)

From Stdlib Require Import List String Bool Arith Lia ZArith.
Import ListNotations.
Local Open Scope string_scope.
Local Open Scope list_scope.

Set Implicit Arguments.

(** ** Keys with a decidable equality *)

Class EqKey (K : Type) := {
  keq : K -> K -> bool;
  keq_true : forall a b, keq a b = true <-> a = b
}.

#[export] Instance EqKey_string : EqKey string :=
  {| keq := String.eqb; keq_true := String.eqb_eq |}.

#[export] Instance EqKey_nat : EqKey nat :=
  {| keq := Nat.eqb; keq_true := Nat.eqb_eq |}.

(** ** JavaScript [Map]

    A [Map] iterates in insertion order; [set] on a key already present
    overwrites the value where it stands, [set] on a new key appends.
    [delete] is written as a filter: on a map (keys pairwise distinct) it
    removes the one entry of the key. *)

Module JsMap.
Section Ops.
Context {K V : Type} `{EqKey K}.

Definition t := list (K * V).

Definition empty : t := [].

Fixpoint get (m : t) (k : K) : option V :=
  match m with
  | [] => None
  | (k', v) :: m' => if keq k k' then Some v else get m' k
  end.

Definition has (m : t) (k : K) : bool :=
  match get m k with Some _ => true | None => false end.

Fixpoint set (m : t) (k : K) (v : V) : t :=
  match m with
  | [] => [(k, v)]
  | (k', v') :: m' =>
      if keq k k' then (k, v) :: m' else (k', v') :: set m' k v
  end.

Definition delete (m : t) (k : K) : t :=
  filter (fun e => negb (keq k (fst e))) m.

Definition keys (m : t) : list K := map fst m.
Definition values (m : t) : list V := map snd m.
Definition size (m : t) : nat := List.length m.

End Ops.
Arguments t : clear implicits.
End JsMap.

(** ** Identifiers and opaque media descriptions

    Room and peer identifiers are strings chosen by the signalling side.
    Identifiers of engine objects (routers, transports, producers,
    consumers) are generated by mediasoup; the model draws them from a
    counter, which keeps what matters of a generated identifier: it is
    new.  A client that names an identifier mediasoup never issued is a
    client that names a number not yet drawn. *)

Definition RoomId := string.
Definition PeerId := string.
Definition Id := nat.

Inductive MediaKind := audio | video.

Definition MediaKind_eqb (a b : MediaKind) : bool :=
  match a, b with
  | audio, audio | video, video => true
  | _, _ => false
  end.

(** [appData] objects: string keys to string values, in key order of
    creation, so that the spread [{ ...appData, peerId }] is a [set]. *)
Definition AppData := JsMap.t string string.

(** The RTP and DTLS descriptions are opaque to the server; it hands them
    to mediasoup, which decides two things about them: whether a receiver
    with given capabilities can decode a producer ([ortc.canConsume]), and
    whether two producers can share a transport (the RTP listener of a
    transport refuses a producer whose MID or SSRC it already knows). *)
Class Ortc := {
  RtpParameters : Type;
  RtpCapabilities : Type;
  DtlsParameters : Type;
  ortc_canConsume : RtpParameters -> RtpCapabilities -> bool;
  rtp_collide : RtpParameters -> RtpParameters -> bool
}.

(** The message of a thrown [Error], or of an error reply. *)
Inductive ErrorMessage :=
| PeerNotFound (peerId : PeerId)            (* `Peer ${peerId} not found` *)
| TransportNotFound (transportId : Id)      (* `Transport ${transportId} not found` *)
| ProducerNotFound (producerId : Id)        (* `Producer ${producerId} not found` *)
| ConsumerNotFound (consumerId : Id)        (* `Consumer ${consumerId} not found` *)
| CannotConsume                             (* 'Cannot consume' *)
| NoTransportForConsuming                   (* 'No transport for consuming' *)
| RoomNotFound                              (* 'Room not found' *)
| UnknownMethod (method : string)           (* `Unknown method: ${method}` *)
| ParseError                                (* 'Parse error' *)
| TypeErrorUndefined                        (* member access on undefined *)
| EngineRejected.                           (* a mediasoup call that rejects *)

(** ** A small state-and-exception monad

    A JavaScript function runs on a mutable state and either returns or
    throws; what it wrote before throwing stays written. *)

Inductive Outcome (A : Type) :=
| Return (a : A)
| Throw (e : ErrorMessage).
Arguments Throw {A} e.

Definition M (S A : Type) := S -> Outcome A * S.

Definition ret {S A} (a : A) : M S A := fun s => (Return a, s).
Definition throw {S A} (e : ErrorMessage) : M S A := fun s => (Throw e, s).
Definition bind {S A B} (m : M S A) (k : A -> M S B) : M S B :=
  fun s => match m s with
           | (Return a, s') => k a s'
           | (Throw e, s') => (Throw e, s')
           end.
Definition getState {S} : M S S := fun s => (Return s, s).
Definition putState {S} (s : S) : M S unit := fun _ => (Return tt, s).
Definition modify {S} (f : S -> S) : M S unit := fun s => (Return tt, f s).

Declare Scope js_scope.
Delimit Scope js_scope with js.
Notation "x <- m ;; k" := (bind m (fun x => k))
  (at level 61, m at next level, right associativity) : js_scope.
Notation "m ;;; k" := (bind m (fun _ => k))
  (at level 61, right associativity) : js_scope.

(** ** The mediasoup objects the server holds

    Every object lives in a store indexed by its identifier; the maps of
    a peer hold references into this store.  The functions below are the
    mediasoup calls made by [room.js] and [server.js]; each returns what
    the call returns, and [None] where the promise rejects.  A call
    rejects when the object it is made on is closed or unknown, and where
    mediasoup refuses its parameters; a worker process that dies takes
    the server down with it ([process.exit] in [createWorkers]) and is
    not a state of the model. *)

Module Mediasoup.
Section Engine.
Context `{Ortc}.

Record Router := mkRouter {
  router_workerPid : nat;
  router_closed : bool
}.

Record Transport := mkTransport {
  transport_routerId : Id;
  transport_appData_peerId : PeerId;
  transport_appData_consuming : bool;
  transport_connected : bool;
  transport_closed : bool
}.

Record Producer := mkProducer {
  producer_transportId : Id;
  producer_kind : MediaKind;
  producer_rtpParameters : RtpParameters;
  producer_appData : AppData;
  producer_paused : bool;
  producer_closed : bool
}.

Record Consumer := mkConsumer {
  consumer_transportId : Id;
  consumer_producerId : Id;
  consumer_kind : MediaKind;
  consumer_paused : bool;
  consumer_preferredLayers : option (nat * nat);
  consumer_closed : bool
}.

Record Engine := mkEngine {
  e_nextId : Id;
  e_routers : JsMap.t Id Router;
  e_transports : JsMap.t Id Transport;
  e_producers : JsMap.t Id Producer;
  e_consumers : JsMap.t Id Consumer;
  e_routerCloseCalls : list Id          (* every [router.close()] made, latest first *)
}.

Definition emptyEngine : Engine := mkEngine 0 [] [] [] [] [].

Definition closeRouter (r : Router) : Router :=
  mkRouter (router_workerPid r) true.

Definition closeTransport (t : Transport) : Transport :=
  mkTransport (transport_routerId t) (transport_appData_peerId t)
              (transport_appData_consuming t) (transport_connected t) true.

Definition closeProducer (p : Producer) : Producer :=
  mkProducer (producer_transportId p) (producer_kind p) (producer_rtpParameters p)
             (producer_appData p) (producer_paused p) true.

Definition setProducerPaused (b : bool) (p : Producer) : Producer :=
  mkProducer (producer_transportId p) (producer_kind p) (producer_rtpParameters p)
             (producer_appData p) b (producer_closed p).

Definition closeConsumer (c : Consumer) : Consumer :=
  mkConsumer (consumer_transportId c) (consumer_producerId c) (consumer_kind c)
             (consumer_paused c) (consumer_preferredLayers c) true.

Definition setConsumerPaused (b : bool) (c : Consumer) : Consumer :=
  mkConsumer (consumer_transportId c) (consumer_producerId c) (consumer_kind c)
             b (consumer_preferredLayers c) (consumer_closed c).

Definition setConsumerLayers (l : nat * nat) (c : Consumer) : Consumer :=
  mkConsumer (consumer_transportId c) (consumer_producerId c) (consumer_kind c)
             (consumer_paused c) (Some l) (consumer_closed c).

(** Update every stored object that satisfies [sel]. *)
Definition updateWhere {V} (sel : V -> bool) (f : V -> V) (m : JsMap.t Id V)
  : JsMap.t Id V :=
  map (fun e => if sel (snd e) then (fst e, f (snd e)) else e) m.

(** Identifiers of the stored objects that satisfy [sel], in creation order. *)
Definition idsWhere {V} (sel : V -> bool) (m : JsMap.t Id V) : list Id :=
  JsMap.keys (filter (fun e => sel (snd e)) m).

(** [worker.createRouter(...)]: a new open router on the worker. *)
Definition createRouter (workerPid : nat) (e : Engine) : Id * Engine :=
  let id := e_nextId e in
  (id, mkEngine (S id) (JsMap.set (e_routers e) id (mkRouter workerPid false))
                (e_transports e) (e_producers e) (e_consumers e)
                (e_routerCloseCalls e)).

(** [router.createWebRtcTransport({ ..., appData: { peerId } })].  The
    store has no count of ports: that mediasoup also rejects when the
    port range of the worker is used up is outside of it. *)
Definition createWebRtcTransport (routerId : Id) (peerId : PeerId) (e : Engine)
  : option (Id * Engine) :=
  match JsMap.get (e_routers e) routerId with
  | Some r =>
      if router_closed r then None else
      let id := e_nextId e in
      Some (id, mkEngine (S id) (e_routers e)
                  (JsMap.set (e_transports e) id
                             (mkTransport routerId peerId false false false))
                  (e_producers e) (e_consumers e) (e_routerCloseCalls e))
  | None => None
  end.

(** [transport.appData.consuming = true]. *)
Definition markConsuming (transportId : Id) (e : Engine) : Engine :=
  match JsMap.get (e_transports e) transportId with
  | Some t =>
      mkEngine (e_nextId e) (e_routers e)
               (JsMap.set (e_transports e) transportId
                  (mkTransport (transport_routerId t) (transport_appData_peerId t)
                               true (transport_connected t) (transport_closed t)))
               (e_producers e) (e_consumers e) (e_routerCloseCalls e)
  | None => e
  end.

(** [transport.connect({ dtlsParameters })]: rejects on a closed transport
    and on a second call. *)
Definition connect (transportId : Id) (e : Engine) : option Engine :=
  match JsMap.get (e_transports e) transportId with
  | Some t =>
      if transport_closed t || transport_connected t then None else
      Some (mkEngine (e_nextId e) (e_routers e)
              (JsMap.set (e_transports e) transportId
                 (mkTransport (transport_routerId t) (transport_appData_peerId t)
                              (transport_appData_consuming t) true false))
              (e_producers e) (e_consumers e) (e_routerCloseCalls e))
  | None => None
  end.

Definition producerOn (transportId : Id) (p : Producer) : bool :=
  Nat.eqb (producer_transportId p) transportId && negb (producer_closed p).

Definition consumerOn (transportId : Id) (c : Consumer) : bool :=
  Nat.eqb (consumer_transportId c) transportId && negb (consumer_closed c).

(** [transport.close()]: nothing on a closed transport; otherwise the
    transport closes, and with it every producer and consumer created on
    it, each of which emits 'transportclose'.  The second component lists
    the producers and the consumers that emit it. *)
Definition transportClose (transportId : Id) (e : Engine)
  : Engine * (list Id * list Id) :=
  match JsMap.get (e_transports e) transportId with
  | Some t =>
      if transport_closed t then (e, ([], [])) else
      (mkEngine (e_nextId e) (e_routers e)
         (JsMap.set (e_transports e) transportId (closeTransport t))
         (updateWhere (producerOn transportId) closeProducer (e_producers e))
         (updateWhere (consumerOn transportId) closeConsumer (e_consumers e))
         (e_routerCloseCalls e),
       (idsWhere (producerOn transportId) (e_producers e),
        idsWhere (consumerOn transportId) (e_consumers e)))
  | None => (e, ([], []))
  end.

Definition transportOfRouter (routerId : Id) (t : Transport) : bool :=
  Nat.eqb (transport_routerId t) routerId && negb (transport_closed t).

(** [router.close()]: the call is logged; an open router closes together
    with the transports still open on it (and, through them, their
    producers and consumers). *)
Definition routerClose (routerId : Id) (e : Engine) : Engine :=
  let e1 := fold_left (fun acc tid => fst (transportClose tid acc))
                      (idsWhere (transportOfRouter routerId) (e_transports e)) e in
  mkEngine (e_nextId e1)
           (match JsMap.get (e_routers e1) routerId with
            | Some r => JsMap.set (e_routers e1) routerId (closeRouter r)
            | None => e_routers e1
            end)
           (e_transports e1) (e_producers e1) (e_consumers e1)
           (routerId :: e_routerCloseCalls e1).

(** [transport.produce({ kind, rtpParameters, appData })]: rejects on a
    closed transport, and when the parameters collide with those of a
    producer open on the transport. *)
Definition collides (transportId : Id) (rtp : RtpParameters) (e : Engine) : bool :=
  existsb (fun entry => producerOn transportId (snd entry)
                        && rtp_collide (producer_rtpParameters (snd entry)) rtp)
          (e_producers e).

Definition produce (transportId : Id) (kind : MediaKind) (rtp : RtpParameters)
    (appData : AppData) (e : Engine) : option (Id * Engine) :=
  match JsMap.get (e_transports e) transportId with
  | Some t =>
      if transport_closed t || collides transportId rtp e then None else
      let id := e_nextId e in
      Some (id, mkEngine (S id) (e_routers e) (e_transports e)
                  (JsMap.set (e_producers e) id
                             (mkProducer transportId kind rtp appData false false))
                  (e_consumers e) (e_routerCloseCalls e))
  | None => None
  end.

(** The producers a router knows: those open on one of its transports. *)
Definition routerProducer (routerId producerId : Id) (e : Engine) : option Producer :=
  match JsMap.get (e_producers e) producerId with
  | Some p =>
      if producer_closed p then None else
      match JsMap.get (e_transports e) (producer_transportId p) with
      | Some t => if Nat.eqb (transport_routerId t) routerId then Some p else None
      | None => None
      end
  | None => None
  end.

(** [router.canConsume({ producerId, rtpCapabilities })]: [false] when
    the router has no such producer, otherwise the verdict of ortc. *)
Definition canConsume (routerId producerId : Id) (caps : RtpCapabilities)
    (e : Engine) : bool :=
  match routerProducer routerId producerId e with
  | Some p => ortc_canConsume (producer_rtpParameters p) caps
  | None => false
  end.

(** [transport.consume({ producerId, rtpCapabilities, paused })]: the
    new consumer, of the kind of its producer. *)
Definition consume (transportId producerId : Id) (caps : RtpCapabilities)
    (paused : bool) (e : Engine) : option (Id * Consumer * Engine) :=
  match JsMap.get (e_transports e) transportId with
  | Some t =>
      if transport_closed t then None else
      match routerProducer (transport_routerId t) producerId e with
      | Some p =>
          if ortc_canConsume (producer_rtpParameters p) caps then
            let id := e_nextId e in
            let c := mkConsumer transportId producerId (producer_kind p)
                                paused None false in
            Some (id, c,
                  mkEngine (S id) (e_routers e) (e_transports e) (e_producers e)
                           (JsMap.set (e_consumers e) id c) (e_routerCloseCalls e))
          else None
      | None => None
      end
  | None => None
  end.

Definition updateProducer (producerId : Id) (f : Producer -> Producer) (e : Engine)
  : option Engine :=
  match JsMap.get (e_producers e) producerId with
  | Some p =>
      if producer_closed p then None else
      Some (mkEngine (e_nextId e) (e_routers e) (e_transports e)
              (JsMap.set (e_producers e) producerId (f p))
              (e_consumers e) (e_routerCloseCalls e))
  | None => None
  end.

Definition updateConsumer (consumerId : Id) (f : Consumer -> Consumer) (e : Engine)
  : option Engine :=
  match JsMap.get (e_consumers e) consumerId with
  | Some c =>
      if consumer_closed c then None else
      Some (mkEngine (e_nextId e) (e_routers e) (e_transports e) (e_producers e)
              (JsMap.set (e_consumers e) consumerId (f c))
              (e_routerCloseCalls e))
  | None => None
  end.

(** [producer.pause()], [producer.resume()]: reject on a closed producer. *)
Definition producerPause (producerId : Id) := updateProducer producerId (setProducerPaused true).
Definition producerResume (producerId : Id) := updateProducer producerId (setProducerPaused false).

(** [producer.close()]: nothing on a closed producer. *)
Definition producerClose (producerId : Id) (e : Engine) : Engine :=
  match updateProducer producerId closeProducer e with
  | Some e' => e'
  | None => e
  end.

(** [consumer.resume()], [consumer.setPreferredLayers(...)]. *)
Definition consumerResume (consumerId : Id) := updateConsumer consumerId (setConsumerPaused false).
Definition consumerSetPreferredLayers (consumerId : Id) (l : nat * nat) :=
  updateConsumer consumerId (setConsumerLayers l).

(** The 'producerclose' notification: mediasoup closes a consumer whose
    producer has closed and tells the server.  [None] when there is
    nothing to notify. *)
Definition producerCloseNotification (consumerId : Id) (e : Engine) : option Engine :=
  match JsMap.get (e_consumers e) consumerId with
  | Some c =>
      if consumer_closed c then None else
      match JsMap.get (e_producers e) (consumer_producerId c) with
      | Some p =>
          if producer_closed p then updateConsumer consumerId closeConsumer e else None
      | None => None
      end
  | None => None
  end.

End Engine.
End Mediasoup.

(** ** [sfu/room.js]: class [Room]

    [peers] maps a peer identifier to [{ displayName, transports,
    producers, consumers }].  The three inner maps are keyed by the
    identifier of the mediasoup object they hold, so each is kept as the
    list of its keys in insertion order; the value under a key is the
    object of that identifier in the store. *)

Module RoomJs.
Section Room.
Context `{Ortc}.
Local Open Scope js_scope.

Abbreviation Engine := Mediasoup.Engine.

(** The key lists of the inner maps. *)
Definition refsHas (l : list Id) (id : Id) : bool := existsb (Nat.eqb id) l.
Definition refsSet (l : list Id) (id : Id) : list Id :=
  if refsHas l id then l else l ++ [id].
Definition refsDelete (l : list Id) (id : Id) : list Id :=
  filter (fun x => negb (Nat.eqb id x)) l.

Record Peer := mkPeer {
  displayName : string;
  transports : list Id;
  producers : list Id;
  consumers : list Id
}.

Record Room := mkRoom {
  roomId : RoomId;
  router : Id;
  peers : JsMap.t PeerId Peer
}.

(** A method of [Room] runs on the room and on the mediasoup store. *)
Definition RoomM := M (Room * Engine).

Definition setPeers (ps : JsMap.t PeerId Peer) : RoomM unit :=
  modify (fun s => (mkRoom (roomId (fst s)) (router (fst s)) ps, snd s)).

Definition setEngine (e : Engine) : RoomM unit :=
  modify (fun s => (fst s, e)).

(** [await] on a mediasoup call: the value, or the rejection rethrown. *)
Definition await {A} (call : Engine -> option (A * Engine)) : RoomM A :=
  fun s => match call (snd s) with
           | Some (a, e') => (Return a, (fst s, e'))
           | None => (Throw EngineRejected, s)
           end.

Definition await_ (call : Engine -> option Engine) : RoomM unit :=
  await (fun e => match call e with Some e' => Some (tt, e') | None => None end).

(** [const peer = this.peers.get(peerId); if (!peer) throw ...] *)
Definition getPeer (peerId : PeerId) : RoomM Peer :=
  s <- getState ;;
  match JsMap.get (peers (fst s)) peerId with
  | Some peer => ret peer
  | None => throw (PeerNotFound peerId)
  end.

(** Writes to the peer object held under [peerId]. *)
Definition putPeer (peerId : PeerId) (peer : Peer) : RoomM unit :=
  s <- getState ;;
  setPeers (JsMap.set (peers (fst s)) peerId peer).

(** [constructor(roomId, router)] *)
Definition newRoom (roomId : RoomId) (router : Id) : Room :=
  mkRoom roomId router JsMap.empty.

(** [getRtpCapabilities()]: the capabilities object of the room's router. *)
Definition getRtpCapabilities (room : Room) : Id := router room.

Definition hasPeer (room : Room) (peerId : PeerId) : bool :=
  JsMap.has (peers room) peerId.

Definition addPeer (peerId : PeerId) (name : string) : RoomM unit :=
  s <- getState ;;
  if JsMap.has (peers (fst s)) peerId then ret tt
  else setPeers (JsMap.set (peers (fst s)) peerId (mkPeer name [] [] [])).

(** The listeners the room installs on the objects it creates:
    - on a producer, 'transportclose' deletes it from [peer.producers];
    - on a consumer, 'transportclose' and 'producerclose' delete it from
      [peer.consumers]. *)
Definition onProducerTransportClose (peer : Peer) (producerId : Id) : Peer :=
  mkPeer (displayName peer) (transports peer)
         (refsDelete (producers peer) producerId) (consumers peer).

Definition onConsumerClose (peer : Peer) (consumerId : Id) : Peer :=
  mkPeer (displayName peer) (transports peer) (producers peer)
         (refsDelete (consumers peer) consumerId).

(** [transport.close()] on a transport of [peer], listeners included. *)
Definition closePeerTransport (st : Peer * Engine) (transportId : Id) : Peer * Engine :=
  let '(e', (ps, cs)) := Mediasoup.transportClose transportId (snd st) in
  (fold_left onConsumerClose cs (fold_left onProducerTransportClose ps (fst st)), e').

Definition removePeer (peerId : PeerId) : RoomM (list Id) :=
  s <- getState ;;
  match JsMap.get (peers (fst s)) peerId with
  | None => ret []
  | Some peer =>
      let producerIds := producers peer in
      let st := fold_left closePeerTransport (transports peer) (peer, snd s) in
      setEngine (snd st) ;;;
      s' <- getState ;;
      setPeers (JsMap.delete (peers (fst s')) peerId) ;;;
      ret producerIds
  end.

Definition getPeerCount (room : Room) : nat := JsMap.size (peers room).

Record PeerInfo := mkPeerInfo {
  pi_peerId : PeerId;
  pi_displayName : string;
  pi_producers : list Id
}.

Definition getPeerList (room : Room) : list PeerInfo :=
  map (fun e => mkPeerInfo (fst e) (displayName (snd e)) (producers (snd e)))
      (peers room).

(** The descriptor [{ id, iceParameters, ... }] is kept as its [id]. *)
Definition createWebRtcTransport (peerId : PeerId) : RoomM Id :=
  peer <- getPeer peerId ;;
  s <- getState ;;
  transportId <- await (Mediasoup.createWebRtcTransport (router (fst s)) peerId) ;;
  putPeer peerId (mkPeer (displayName peer) (refsSet (transports peer) transportId)
                         (producers peer) (consumers peer)) ;;;
  ret transportId.

Definition connectTransport (peerId : PeerId) (transportId : Id)
    (dtlsParameters : DtlsParameters) : RoomM unit :=
  peer <- getPeer peerId ;;
  if refsHas (transports peer) transportId
  then await_ (Mediasoup.connect transportId)
  else throw (TransportNotFound transportId).

Definition produce (peerId : PeerId) (transportId : Id) (kind : MediaKind)
    (rtpParameters : RtpParameters) (appData : AppData) : RoomM Id :=
  peer <- getPeer peerId ;;
  if refsHas (transports peer) transportId then
    producerId <- await (Mediasoup.produce transportId kind rtpParameters
                           (JsMap.set appData "peerId" peerId)) ;;
    putPeer peerId (mkPeer (displayName peer) (transports peer)
                           (refsSet (producers peer) producerId) (consumers peer)) ;;;
    ret producerId
  else throw (TransportNotFound transportId).

(** The receive transport of [consume]: the first transport marked
    consuming, else the first transport, else none. *)
Definition isConsuming (e : Engine) (transportId : Id) : bool :=
  match JsMap.get (Mediasoup.e_transports e) transportId with
  | Some t => Mediasoup.transport_appData_consuming t
  | None => false
  end.

Definition findRecvTransport (e : Engine) (peer : Peer) : option Id :=
  match find (isConsuming e) (transports peer) with
  | Some t => Some t
  | None => hd_error (transports peer)
  end.

Record ConsumerInfo := mkConsumerInfo {
  ci_id : Id;
  ci_producerId : Id;
  ci_kind : MediaKind
}.

Definition consume (peerId : PeerId) (producerId : Id)
    (rtpCapabilities : RtpCapabilities) : RoomM ConsumerInfo :=
  peer <- getPeer peerId ;;
  s <- getState ;;
  if negb (Mediasoup.canConsume (router (fst s)) producerId rtpCapabilities (snd s))
  then throw CannotConsume
  else
    match findRecvTransport (snd s) peer with
    | None => throw NoTransportForConsuming
    | Some recvTransport =>
        consumer <- await (Mediasoup.consume recvTransport producerId
                             rtpCapabilities true) ;;
        putPeer peerId (mkPeer (displayName peer) (transports peer) (producers peer)
                               (refsSet (consumers peer) (fst consumer))) ;;;
        ret (mkConsumerInfo (fst consumer)
                            (Mediasoup.consumer_producerId (snd consumer))
                            (Mediasoup.consumer_kind (snd consumer)))
    end.

Definition resumeConsumer (peerId : PeerId) (consumerId : Id) : RoomM unit :=
  peer <- getPeer peerId ;;
  if refsHas (consumers peer) consumerId
  then await_ (Mediasoup.consumerResume consumerId)
  else throw (ConsumerNotFound consumerId).

Definition pauseProducer (peerId : PeerId) (producerId : Id) : RoomM unit :=
  peer <- getPeer peerId ;;
  if refsHas (producers peer) producerId
  then await_ (Mediasoup.producerPause producerId)
  else throw (ProducerNotFound producerId).

Definition resumeProducer (peerId : PeerId) (producerId : Id) : RoomM unit :=
  peer <- getPeer peerId ;;
  if refsHas (producers peer) producerId
  then await_ (Mediasoup.producerResume producerId)
  else throw (ProducerNotFound producerId).

Definition closeProducer (peerId : PeerId) (producerId : Id) : RoomM unit :=
  peer <- getPeer peerId ;;
  if refsHas (producers peer) producerId then
    s <- getState ;;
    setEngine (Mediasoup.producerClose producerId (snd s)) ;;;
    putPeer peerId (mkPeer (displayName peer) (transports peer)
                           (refsDelete (producers peer) producerId) (consumers peer))
  else throw (ProducerNotFound producerId).

Record ProducerInfo := mkProducerInfo {
  pr_producerId : Id;
  pr_peerId : PeerId;
  pr_kind : MediaKind;
  pr_appData : AppData
}.

(** The entries one peer contributes to [getProducersForPeer].  [kind]
    and [appData] are read from the producer object; a key with no object
    in the store contributes nothing, and no reachable state has such a
    key. *)
Definition producerEntries (e : Engine) (otherPeerId : PeerId) (otherPeer : Peer)
  : list ProducerInfo :=
  flat_map (fun producerId =>
              match JsMap.get (Mediasoup.e_producers e) producerId with
              | Some p => [mkProducerInfo producerId otherPeerId
                             (Mediasoup.producer_kind p) (Mediasoup.producer_appData p)]
              | None => []
              end)
           (producers otherPeer).

Definition getProducersForPeer (room : Room) (e : Engine) (peerId : PeerId)
  : list ProducerInfo :=
  flat_map (fun entry =>
              if keq (fst entry) peerId then []
              else producerEntries e (fst entry) (snd entry))
           (peers room).

Definition setPreferredLayers (peerId : PeerId) (consumerId : Id)
    (spatialLayer temporalLayer : nat) : RoomM unit :=
  peer <- getPeer peerId ;;
  if refsHas (consumers peer) consumerId
  then await_ (Mediasoup.consumerSetPreferredLayers consumerId (spatialLayer, temporalLayer))
  else throw (ConsumerNotFound consumerId).

(** [close()]: every transport of every peer, then [peers.clear()], then
    [router.close()].  The listeners run on peer objects that [clear]
    drops, so only the store keeps a trace of them. *)
Definition closeAllTransports (e : Engine) (ps : JsMap.t PeerId Peer) : Engine :=
  fold_left (fun acc peer =>
               snd (fold_left closePeerTransport (transports peer) (peer, acc)))
            (JsMap.values ps) e.

Definition close : RoomM unit :=
  s <- getState ;;
  setEngine (closeAllTransports (snd s) (peers (fst s))) ;;;
  setPeers JsMap.empty ;;;
  s' <- getState ;;
  setEngine (Mediasoup.routerClose (router (fst s')) (snd s')).

End Room.
End RoomJs.

(** ** [sfu/server.js]: workers, room registry, JSON-RPC *)

Module ServerJs.
Section Server.
Context `{Ortc}.
Local Open Scope js_scope.

Abbreviation Room := RoomJs.Room.
Abbreviation Engine := Mediasoup.Engine.

(** Module state: [workers] (by pid), [nextWorkerIdx], [rooms]; and the
    mediasoup store the objects of all rooms live in. *)
Record Server := mkServer {
  workers : list nat;
  nextWorkerIdx : nat;
  rooms : JsMap.t RoomId Room;
  engine : Engine
}.

Definition ServerM := M Server.

(** State after [createWorkers()]. *)
Definition startServer (pids : list nat) : Server :=
  mkServer pids 0 JsMap.empty Mediasoup.emptyEngine.

(** [workers[nextWorkerIdx]], [undefined] past the end; then the index
    moves on modulo [workers.length].  With no worker the JavaScript index
    becomes NaN and stays so; every lookup in the empty list is
    [undefined] whatever the index, which is all that is observed of it. *)
Definition getNextWorker : ServerM (option nat) :=
  s <- getState ;;
  let worker := nth_error (workers s) (nextWorkerIdx s) in
  putState (mkServer (workers s)
                     ((nextWorkerIdx s + 1) mod List.length (workers s))
                     (rooms s) (engine s)) ;;;
  ret worker.

Definition setRooms (rs : JsMap.t RoomId Room) : ServerM unit :=
  modify (fun s => mkServer (workers s) (nextWorkerIdx s) rs (engine s)).

Definition setServerEngine (e : Engine) : ServerM unit :=
  modify (fun s => mkServer (workers s) (nextWorkerIdx s) (rooms s) e).

Definition getOrCreateRoom (roomId : RoomId) : ServerM Room :=
  s <- getState ;;
  match JsMap.get (rooms s) roomId with
  | Some room => ret room
  | None =>
      worker <- getNextWorker ;;
      match worker with
      | None => throw TypeErrorUndefined
      | Some pid =>
          s1 <- getState ;;
          let '(routerId, e') := Mediasoup.createRouter pid (engine s1) in
          setServerEngine e' ;;;
          let room := RoomJs.newRoom roomId routerId in
          s2 <- getState ;;
          setRooms (JsMap.set (rooms s2) roomId room) ;;;
          ret room
      end
  end.

(** A method call on the room object registered under [roomId]: the
    method runs on the room and the store, and what it wrote to the room
    is what the registry then holds. *)
Definition call {A} (roomId : RoomId) (room : Room) (method : RoomJs.RoomM A)
  : ServerM A :=
  fun s =>
    let '(out, (room', e')) := method (room, engine s) in
    (out, mkServer (workers s) (nextWorkerIdx s)
                   (JsMap.set (rooms s) roomId room') e').

Definition deleteRoom (roomId : RoomId) : ServerM unit :=
  s <- getState ;;
  match JsMap.get (rooms s) roomId with
  | Some room =>
      call roomId room RoomJs.close ;;;
      s' <- getState ;;
      setRooms (JsMap.delete (rooms s') roomId)
  | None => ret tt
  end.

(** The methods of the RPC interface with their parameters. *)
Inductive Request :=
| GetRouterRtpCapabilities (roomId : RoomId)
| Join (roomId : RoomId) (peerId : PeerId) (displayName : string)
| Leave (roomId : RoomId) (peerId : PeerId)
| CreateWebRtcTransport (roomId : RoomId) (peerId : PeerId) (consuming : bool)
| ConnectTransport (roomId : RoomId) (peerId : PeerId) (transportId : Id)
                   (dtlsParameters : DtlsParameters)
| Produce (roomId : RoomId) (peerId : PeerId) (transportId : Id) (kind : MediaKind)
          (rtpParameters : RtpParameters) (appData : AppData)
| Consume (roomId : RoomId) (peerId : PeerId) (producerId : Id)
          (rtpCapabilities : RtpCapabilities)
| ResumeConsumer (roomId : RoomId) (peerId : PeerId) (consumerId : Id)
| PauseProducer (roomId : RoomId) (peerId : PeerId) (producerId : Id)
| ResumeProducer (roomId : RoomId) (peerId : PeerId) (producerId : Id)
| CloseProducer (roomId : RoomId) (peerId : PeerId) (producerId : Id)
| GetProducers (roomId : RoomId) (peerId : PeerId)
| SetPreferredLayers (roomId : RoomId) (peerId : PeerId) (consumerId : Id)
                     (spatialLayer temporalLayer : nat)
| GetRoomStats (roomId : RoomId)
| Ping
| OtherMethod (method : string).

Inductive Result :=
| RtpCapabilitiesOf (router : Id)
| JoinResult (peers : list RoomJs.PeerInfo)
| LeaveResult (closedProducers : list Id)
| TransportData (id : Id)
| EmptyResult
| ProduceResult (id : Id)
| ConsumeResult (consumer : RoomJs.ConsumerInfo)
| ProducersResult (producers : list RoomJs.ProducerInfo)
| RoomStats (peerCount : nat) (peers : list RoomJs.PeerInfo)
| NullResult
| Pong (rooms workers : nat).

(** [const room = rooms.get(params.roomId); if (!room) throw ...] *)
Definition roomOrThrow (roomId : RoomId) : ServerM Room :=
  s <- getState ;;
  match JsMap.get (rooms s) roomId with
  | Some room => ret room
  | None => throw RoomNotFound
  end.

Definition handleRpcRequest (request : Request) : ServerM Result :=
  match request with
  | GetRouterRtpCapabilities roomId =>
      room <- getOrCreateRoom roomId ;;
      ret (RtpCapabilitiesOf (RoomJs.getRtpCapabilities room))

  | Join roomId peerId name =>
      room <- getOrCreateRoom roomId ;;
      call roomId room
           (RoomJs.addPeer peerId name ;;;
            r <- getState ;;
            ret (JoinResult (RoomJs.getPeerList (fst r))))

  | Leave roomId peerId =>
      s <- getState ;;
      match JsMap.get (rooms s) roomId with
      | None => ret (LeaveResult [])
      | Some room =>
          left <- call roomId room
                    (closedProducers <- RoomJs.removePeer peerId ;;
                     r <- getState ;;
                     ret (closedProducers, RoomJs.getPeerCount (fst r))) ;;
          (if Nat.eqb (snd left) 0 then deleteRoom roomId else ret tt) ;;;
          ret (LeaveResult (fst left))
      end

  | CreateWebRtcTransport roomId peerId consuming =>
      room <- roomOrThrow roomId ;;
      call roomId room
           (transportData <- RoomJs.createWebRtcTransport peerId ;;
            (if consuming then
               r <- getState ;;
               match JsMap.get (RoomJs.peers (fst r)) peerId with
               | Some peer =>
                   if RoomJs.refsHas (RoomJs.transports peer) transportData
                   then RoomJs.setEngine (Mediasoup.markConsuming transportData (snd r))
                   else ret tt
               | None => ret tt
               end
             else ret tt) ;;;
            ret (TransportData transportData))

  | ConnectTransport roomId peerId transportId dtlsParameters =>
      room <- roomOrThrow roomId ;;
      call roomId room (RoomJs.connectTransport peerId transportId dtlsParameters) ;;;
      ret EmptyResult

  | Produce roomId peerId transportId kind rtpParameters appData =>
      room <- roomOrThrow roomId ;;
      producerId <- call roomId room
                      (RoomJs.produce peerId transportId kind rtpParameters appData) ;;
      ret (ProduceResult producerId)

  | Consume roomId peerId producerId rtpCapabilities =>
      room <- roomOrThrow roomId ;;
      consumer <- call roomId room (RoomJs.consume peerId producerId rtpCapabilities) ;;
      ret (ConsumeResult consumer)

  | ResumeConsumer roomId peerId consumerId =>
      room <- roomOrThrow roomId ;;
      call roomId room (RoomJs.resumeConsumer peerId consumerId) ;;;
      ret EmptyResult

  | PauseProducer roomId peerId producerId =>
      room <- roomOrThrow roomId ;;
      call roomId room (RoomJs.pauseProducer peerId producerId) ;;;
      ret EmptyResult

  | ResumeProducer roomId peerId producerId =>
      room <- roomOrThrow roomId ;;
      call roomId room (RoomJs.resumeProducer peerId producerId) ;;;
      ret EmptyResult

  | CloseProducer roomId peerId producerId =>
      room <- roomOrThrow roomId ;;
      call roomId room (RoomJs.closeProducer peerId producerId) ;;;
      ret EmptyResult

  | GetProducers roomId peerId =>
      s <- getState ;;
      match JsMap.get (rooms s) roomId with
      | None => ret (ProducersResult [])
      | Some room =>
          ret (ProducersResult (RoomJs.getProducersForPeer room (engine s) peerId))
      end

  | SetPreferredLayers roomId peerId consumerId spatialLayer temporalLayer =>
      room <- roomOrThrow roomId ;;
      call roomId room
           (RoomJs.setPreferredLayers peerId consumerId spatialLayer temporalLayer) ;;;
      ret EmptyResult

  | GetRoomStats roomId =>
      s <- getState ;;
      match JsMap.get (rooms s) roomId with
      | None => ret NullResult
      | Some room =>
          ret (RoomStats (RoomJs.getPeerCount room) (RoomJs.getPeerList room))
      end

  | Ping =>
      s <- getState ;;
      ret (Pong (JsMap.size (rooms s)) (List.length (workers s)))

  | OtherMethod method => throw (UnknownMethod method)
  end.

(** A line read from the socket: JSON that does not parse, or a request
    with its [id]. *)
Inductive Incoming :=
| Unparsable
| Parsed (id : nat) (request : Request).

Record RpcError := mkRpcError { code : Z; message : ErrorMessage }.

(** The reply written by [sendResponse]. *)
Inductive Response :=
| ErrorResponse (id : option nat) (error : RpcError)
| ResultResponse (id : nat) (result : Result).

Definition processMessage (line : Incoming) (s : Server) : Response * Server :=
  match line with
  | Unparsable => (ErrorResponse None (mkRpcError (-32700) ParseError), s)
  | Parsed id request =>
      match handleRpcRequest request s with
      | (Return result, s') => (ResultResponse id result, s')
      | (Throw e, s') => (ErrorResponse (Some id) (mkRpcError (-32000) e), s')
      end
  end.

(** What mediasoup tells the server between requests. *)
Inductive EngineEvent :=
| DtlsStateClosed (transportId : Id)        (* 'dtlsstatechange' with 'closed' *)
| ProducerClosed (consumerId : Id).         (* 'producerclose' on a consumer *)

Definition mapPeers (f : RoomJs.Peer -> RoomJs.Peer) (rs : JsMap.t RoomId Room)
  : JsMap.t RoomId Room :=
  map (fun r => (fst r,
                 RoomJs.mkRoom (RoomJs.roomId (snd r)) (RoomJs.router (snd r))
                   (map (fun p => (fst p, f (snd p))) (RoomJs.peers (snd r)))))
      rs.

(** The listeners of an event run on the peer object they closed over,
    which is the peer that holds the transport, or the consumer. *)
Definition handleEngineEvent (ev : EngineEvent) (s : Server) : Server :=
  match ev with
  | DtlsStateClosed transportId =>
      let '(e', (ps, cs)) := Mediasoup.transportClose transportId (engine s) in
      mkServer (workers s) (nextWorkerIdx s)
        (mapPeers (fun peer =>
                     if RoomJs.refsHas (RoomJs.transports peer) transportId
                     then fold_left RoomJs.onConsumerClose cs
                            (fold_left RoomJs.onProducerTransportClose ps peer)
                     else peer)
                  (rooms s))
        e'
  | ProducerClosed consumerId =>
      match Mediasoup.producerCloseNotification consumerId (engine s) with
      | Some e' =>
          mkServer (workers s) (nextWorkerIdx s)
            (mapPeers (fun peer =>
                         if RoomJs.refsHas (RoomJs.consumers peer) consumerId
                         then RoomJs.onConsumerClose peer consumerId
                         else peer)
                      (rooms s))
            e'
      | None => s
      end
  end.

(** One step of the server: a request line, or an engine event. *)
Inductive Input :=
| Line (line : Incoming)
| Event (ev : EngineEvent).

Definition step (i : Input) (s : Server) : Server :=
  match i with
  | Line line => snd (processMessage line s)
  | Event ev => handleEngineEvent ev s
  end.

(** The inputs handled one after the other, each request to its end
    before the next begins. *)
Definition run (inputs : list Input) (s : Server) : Server :=
  fold_left (fun acc i => step i acc) inputs s.

(** The states of a server whose requests do not overlap: started with
    some workers, then any inputs, one at a time. *)
Definition reachable (s : Server) : Prop :=
  exists pids inputs, s = run inputs (startServer pids).

End Server.
End ServerJs.

(** ** Vocabulary of the properties *)

(** An instance of the opaque media descriptions for worked runs: the
    parameters of a producer are its MID, two producers collide when they
    have the same MID, and a receiver can decode everything or nothing. *)
Definition plainOrtc : Ortc :=
  {| RtpParameters := nat; RtpCapabilities := bool; DtlsParameters := unit;
     ortc_canConsume := fun _ caps => caps;
     rtp_collide := Nat.eqb |}.

Module Props.
Section Vocabulary.
Context `{Ortc}.
Import ServerJs.
Abbreviation Engine := Mediasoup.Engine.
Abbreviation Room := RoomJs.Room.

(** The peer object registered under [peerId] in room [roomId], if any. *)
Definition peerOf (s : Server) (roomId : RoomId) (peerId : PeerId)
  : option RoomJs.Peer :=
  match JsMap.get (rooms s) roomId with
  | Some room => JsMap.get (RoomJs.peers room) peerId
  | None => None
  end.

(** Peer identifiers of a room, in join order; none for a room that is
    not registered. *)
Definition peerIds (s : Server) (roomId : RoomId) : list PeerId :=
  match JsMap.get (rooms s) roomId with
  | Some room => JsMap.keys (RoomJs.peers room)
  | None => []
  end.

Definition registered (s : Server) (roomId : RoomId) : bool :=
  JsMap.has (rooms s) roomId.

(** Join and Leave as the membership operations of the session core. *)
Inductive MemberOp :=
| MJoin (roomId : RoomId) (peerId : PeerId) (displayName : string)
| MLeave (roomId : RoomId) (peerId : PeerId).

Definition memberRequest (op : MemberOp) : Request :=
  match op with
  | MJoin r p n => Join r p n
  | MLeave r p => Leave r p
  end.

Definition memberInput (op : MemberOp) : Input :=
  Line (Parsed 0 (memberRequest op)).

(** Whether [peerId] has joined [roomId] and not left it since: the last
    operation of the history that names the pair is a Join. *)
Definition joinedNotLeft (history : list MemberOp) (roomId : RoomId)
    (peerId : PeerId) : bool :=
  fold_left (fun inside op =>
               match op with
               | MJoin r p _ => if keq r roomId && keq p peerId then true else inside
               | MLeave r p => if keq r roomId && keq p peerId then false else inside
               end)
            history false.

(** The open producers of kind [kind] among the producers a peer holds. *)
Definition activeProducers (e : Engine) (peer : RoomJs.Peer) (kind : MediaKind)
  : list Id :=
  filter (fun id =>
            match JsMap.get (Mediasoup.e_producers e) id with
            | Some p => MediaKind_eqb (Mediasoup.producer_kind p) kind
                        && negb (Mediasoup.producer_closed p)
            | None => false
            end)
         (RoomJs.producers peer).

(** A producer the router of room [roomId] cannot hand to a consumer:
    closed, never created, or created in another room. *)
Definition producerGone (s : Server) (roomId : RoomId) (producerId : Id) : Prop :=
  forall room, JsMap.get (rooms s) roomId = Some room ->
    Mediasoup.routerProducer (RoomJs.router room) producerId (engine s) = None.

(** A reply that carries the error of a missing producer. *)
Definition repliesProducerNotFound (resp : Response) : Prop :=
  exists id c producerId,
    resp = ErrorResponse id (mkRpcError c (ProducerNotFound producerId)).

(** The store only hands out identifiers below [e_nextId]. *)
Definition producersAllocated (e : Engine) : Prop :=
  forall id p, JsMap.get (Mediasoup.e_producers e) id = Some p ->
               id < Mediasoup.e_nextId e.

(** Every producer a peer holds is in the store, stamped with the
    identifier of that peer in its [appData]. *)
Definition producersOwned (e : Engine) (ps : JsMap.t PeerId RoomJs.Peer) : Prop :=
  forall peerId peer id,
    In (peerId, peer) ps -> In id (RoomJs.producers peer) ->
    exists p, JsMap.get (Mediasoup.e_producers e) id = Some p /\
              JsMap.get (Mediasoup.producer_appData p) "peerId" = Some peerId.

Definition consistent (s : Server) : Prop :=
  producersAllocated (engine s) /\
  forall roomId room, In (roomId, room) (rooms s) ->
                      producersOwned (engine s) (RoomJs.peers room).

(** The store grows: identifiers are never reused and a producer keeps
    its kind and its [appData]. *)
Definition extends (e e' : Engine) : Prop :=
  Mediasoup.e_nextId e <= Mediasoup.e_nextId e' /\
  forall id p, JsMap.get (Mediasoup.e_producers e) id = Some p ->
    exists p', JsMap.get (Mediasoup.e_producers e') id = Some p' /\
               Mediasoup.producer_appData p' = Mediasoup.producer_appData p /\
               Mediasoup.producer_kind p' = Mediasoup.producer_kind p.

(** A step of the store that keeps it well allocated while it grows. *)
Definition grows (e e' : Engine) : Prop :=
  producersAllocated e -> extends e e' /\ producersAllocated e'.

(** Where the producers of the peers of a room come from, after a call
    on the room: from the same peer before the call, or out of the store
    with the stamp of the peer. *)
Definition peersEvolve (e' : Engine) (before after : JsMap.t PeerId RoomJs.Peer)
  : Prop :=
  forall peerId peer' id,
    In (peerId, peer') after -> In id (RoomJs.producers peer') ->
    (exists peer, In (peerId, peer) before /\ In id (RoomJs.producers peer)) \/
    (exists p, JsMap.get (Mediasoup.e_producers e') id = Some p /\
               JsMap.get (Mediasoup.producer_appData p) "peerId" = Some peerId).

(** Invariant of the histories made of Join and Leave only. *)
Definition roomsInhabited (s : Server) : Prop :=
  forall roomId room, JsMap.get (rooms s) roomId = Some room ->
    RoomJs.peers room <> [] /\
    NoDup (JsMap.keys (RoomJs.peers room)) /\
    JsMap.has (Mediasoup.e_routers (engine s)) (RoomJs.router room) = true /\
    count_occ Nat.eq_dec (Mediasoup.e_routerCloseCalls (engine s)) (RoomJs.router room) = 0.

Definition routerOfRegisteredRoom (s : Server) (routerId : Id) : Prop :=
  exists roomId room,
    JsMap.get (rooms s) roomId = Some room /\ RoomJs.router room = routerId.

Definition routersAccounted (s : Server) : Prop :=
  (forall routerId, JsMap.has (Mediasoup.e_routers (engine s)) routerId = true ->
     routerId < Mediasoup.e_nextId (engine s) /\
     (routerOfRegisteredRoom s routerId \/
      count_occ Nat.eq_dec (Mediasoup.e_routerCloseCalls (engine s)) routerId = 1)) /\
  (forall r1 r2 room1 room2,
     JsMap.get (rooms s) r1 = Some room1 -> JsMap.get (rooms s) r2 = Some room2 ->
     RoomJs.router room1 = RoomJs.router room2 -> r1 = r2) /\
  (forall routerId, In routerId (Mediasoup.e_routerCloseCalls (engine s)) ->
     JsMap.has (Mediasoup.e_routers (engine s)) routerId = true).

(** What holds along every history of Join and Leave. *)
Definition membershipInvariant (s : Server) : Prop :=
  nextWorkerIdx s < List.length (workers s) /\
  roomsInhabited s /\ routersAccounted s.

(** Objects the store holds closed. *)
Definition transportIsClosed (e : Engine) (id : Id) : Prop :=
  exists t, JsMap.get (Mediasoup.e_transports e) id = Some t /\ Mediasoup.transport_closed t = true.
Definition producerIsClosed (e : Engine) (id : Id) : Prop :=
  exists p, JsMap.get (Mediasoup.e_producers e) id = Some p /\ Mediasoup.producer_closed p = true.
Definition consumerIsClosed (e : Engine) (id : Id) : Prop :=
  exists c, JsMap.get (Mediasoup.e_consumers e) id = Some c /\ Mediasoup.consumer_closed c = true.

(** A producer that [transport.close()] will reach: it sits on the
    transport, and either the transport is open or it is closed already. *)
Definition producerDueOn (e : Engine) (transportId id : Id) : Prop :=
  exists p, JsMap.get (Mediasoup.e_producers e) id = Some p /\
            Mediasoup.producer_transportId p = transportId /\
            (Mediasoup.producer_closed p = true \/
             exists t, JsMap.get (Mediasoup.e_transports e) transportId = Some t /\
                       Mediasoup.transport_closed t = false).

Definition consumerDueOn (e : Engine) (transportId id : Id) : Prop :=
  exists c, JsMap.get (Mediasoup.e_consumers e) id = Some c /\
            Mediasoup.consumer_transportId c = transportId /\
            (Mediasoup.consumer_closed c = true \/
             exists t, JsMap.get (Mediasoup.e_transports e) transportId = Some t /\
                       Mediasoup.transport_closed t = false).

(** Every producer and consumer a peer holds sits on a transport the
    peer holds, and is closed if that transport is. *)
Definition consumersAllocated (e : Engine) : Prop :=
  forall id c, JsMap.get (Mediasoup.e_consumers e) id = Some c ->
               id < Mediasoup.e_nextId e.

Definition placedPeer (e : Engine) (peer : RoomJs.Peer) : Prop :=
  (forall id, In id (RoomJs.producers peer) ->
     exists tid, In tid (RoomJs.transports peer) /\ producerDueOn e tid id) /\
  (forall id, In id (RoomJs.consumers peer) ->
     exists tid, In tid (RoomJs.transports peer) /\ consumerDueOn e tid id).

Definition placed (s : Server) : Prop :=
  producersAllocated (engine s) /\ consumersAllocated (engine s) /\
  forall roomId room peerId peer,
    In (roomId, room) (rooms s) -> In (peerId, peer) (RoomJs.peers room) ->
    placedPeer (engine s) peer.

(** A step of the store that keeps what is due on a transport due. *)
Definition keepsDue (e e' : Engine) : Prop :=
  producersAllocated e -> consumersAllocated e ->
  producersAllocated e' /\ consumersAllocated e' /\
  (forall tid id, producerDueOn e tid id -> producerDueOn e' tid id) /\
  (forall tid id, consumerDueOn e tid id -> consumerDueOn e' tid id).

(** Where what the peers of a room hold comes from, after a call: from
    the same peer before the call, who held no transport it does not
    hold now, or out of the store, placed on a transport of the peer. *)
Definition placesEvolve (e' : Engine) (before after : JsMap.t PeerId RoomJs.Peer)
  : Prop :=
  forall peerId peer',
    In (peerId, peer') after ->
    (forall id, In id (RoomJs.producers peer') ->
       (exists peer, In (peerId, peer) before /\ In id (RoomJs.producers peer) /\
                     incl (RoomJs.transports peer) (RoomJs.transports peer')) \/
       (exists tid, In tid (RoomJs.transports peer') /\ producerDueOn e' tid id)) /\
    (forall id, In id (RoomJs.consumers peer') ->
       (exists peer, In (peerId, peer) before /\ In id (RoomJs.consumers peer) /\
                     incl (RoomJs.transports peer) (RoomJs.transports peer')) \/
       (exists tid, In tid (RoomJs.transports peer') /\ consumerDueOn e' tid id)).

(** The state a peer's departure leaves in the store: its transports
    closed one after the other. *)
Definition engineAfterRemove (e : Engine) (peer : option RoomJs.Peer) : Engine :=
  match peer with
  | Some peer => snd (fold_left RoomJs.closePeerTransport (RoomJs.transports peer) (peer, e))
  | None => e
  end.

Definition closedByRemove (peer : option RoomJs.Peer) : list Id :=
  match peer with
  | Some peer => RoomJs.producers peer
  | None => []
  end.

(** No consumer starts forwarding between [e] and [e']: a consumer that
    [e'] holds resumed was held resumed by [e] already. *)
Definition noResume (e e' : Engine) : Prop :=
  forall id c', JsMap.get (Mediasoup.e_consumers e') id = Some c' ->
                Mediasoup.consumer_paused c' = false ->
                exists c, JsMap.get (Mediasoup.e_consumers e) id = Some c /\
                          Mediasoup.consumer_paused c = false.

(** The peer map of a room after [addPeer]. *)
Definition joinedPeers (room : Room) (peerId : PeerId) (name : string)
  : JsMap.t PeerId RoomJs.Peer :=
  if JsMap.has (RoomJs.peers room) peerId then RoomJs.peers room
  else JsMap.set (RoomJs.peers room) peerId (RoomJs.mkPeer name [] [] []).

(** First creations in a row. *)
Definition createRooms (roomIds : list RoomId) (s : Server) : Server :=
  fold_left (fun acc roomId => snd (getOrCreateRoom roomId acc)) roomIds s.

End Vocabulary.
End Props.

(** ** A worked session

    Two workers; alice joins room r, opens a send transport and produces
    audio; bob joins and opens a receive transport. *)

Module Session.
Import ServerJs.
#[local] Existing Instance plainOrtc.

Definition inputs : list (@Input plainOrtc) :=
  [ Line (Parsed 1 (Join "r" "alice" "Alice"));
    Line (Parsed 2 (CreateWebRtcTransport "r" "alice" false));
    Line (Parsed 3 (Produce "r" "alice" 1 audio 0 []));
    Line (Parsed 4 (Join "r" "bob" "Bob"));
    Line (Parsed 5 (CreateWebRtcTransport "r" "bob" true)) ].

Definition state : @Server plainOrtc :=
  Eval vm_compute in run inputs (startServer [100; 200]).

Definition alice : RoomJs.Peer := RoomJs.mkPeer "Alice" [1] [2] [].
Definition bob : RoomJs.Peer := RoomJs.mkPeer "Bob" [3] [] [].

Definition room : RoomJs.Room :=
  RoomJs.mkRoom "r" 0 [("alice", alice); ("bob", bob)].

(** The same session after alice has closed her producer. *)
Definition stateClosed : @Server plainOrtc :=
  Eval vm_compute in step (Line (Parsed 6 (CloseProducer "r" "alice" 2))) state.

(** A server on which only the capability query of room lobby has run. *)
Definition stateLobby : @Server plainOrtc :=
  Eval vm_compute in
    step (Line (Parsed 1 (GetRouterRtpCapabilities "lobby"))) (startServer [100]).

End Session.


(** ** [sfu/server.js]: the 'data' listener of a socket *)

From Stdlib Require Import NArith.

Module SocketJs.

(** A JavaScript string, by its UTF-16 code units. *)
Definition CodeUnit := N.
Definition JsString := list CodeUnit.

Definition LF : CodeUnit := 10%N.

(** [s.split(sep)] for a separator of one code unit: the pieces between
    the separators, in order; one piece, [s] itself, when [s] has none. *)
Fixpoint split (sep : CodeUnit) (s : JsString) : list JsString :=
  match s with
  | [] => [[]]
  | c :: rest =>
      if N.eqb c sep then [] :: split sep rest
      else match split sep rest with
           | piece :: pieces => (c :: piece) :: pieces
           | [] => [[c]]
           end
  end.

(** The code units [trim] strips: WhiteSpace and LineTerminator of
    ECMAScript. *)
Definition whiteSpace : list CodeUnit :=
  [9; 10; 11; 12; 13; 32; 160; 5760;
   8192; 8193; 8194; 8195; 8196; 8197; 8198; 8199; 8200; 8201; 8202;
   8232; 8233; 8239; 8287; 12288; 65279]%N.

Definition isWhiteSpace (c : CodeUnit) : bool := existsb (N.eqb c) whiteSpace.

Fixpoint trimStart (s : JsString) : JsString :=
  match s with
  | [] => []
  | c :: rest => if isWhiteSpace c then trimStart rest else s
  end.

Definition trimEnd (s : JsString) : JsString := rev (trimStart (rev s)).

Definition trim (s : JsString) : JsString := trimEnd (trimStart s).

(** [lines.pop()]: the last element, [undefined] on an empty array, and
    the array that is left. *)
Definition pop {A} (l : list A) : option A * list A :=
  match rev l with
  | [] => (None, [])
  | x :: before => (Some x, rev before)
  end.

(** The loop over the complete lines: the messages handed to
    [processMessage], in order. *)
Definition forLines (lines : list JsString) : list JsString :=
  flat_map (fun line => match trim line with
                        | [] => []
                        | message => [message]
                        end)
           lines.

(** One run of the listener: [buffer] before, the text of the chunk; the
    messages handed to [processMessage] and [buffer] after.  [split]
    never returns an empty array, so [pop] never yields [undefined]
    here. *)
Definition onData (buffer data : JsString) : list JsString * JsString :=
  let buffer1 := buffer ++ data in
  let '(last, lines) := pop (split LF buffer1) in
  (forLines lines,
   match last with
   | Some rest => rest
   | None => []
   end).

(** The listener run on the chunks of a connection, one after the other.
    A chunk is a [Buffer], and [data.toString()] decodes the bytes of that
    chunk alone: the decoder is Node's, and is taken as it is. *)
Section Receive.
Variable Buffer : Type.
Variable toString : Buffer -> JsString.

Fixpoint receive (chunks : list Buffer) (buffer : JsString)
  : list JsString * JsString :=
  match chunks with
  | [] => ([], buffer)
  | data :: later =>
      let '(messages, buffer1) := onData buffer (toString data) in
      let '(messages', buffer') := receive later buffer1 in
      (messages ++ messages', buffer')
  end.

End Receive.

End SocketJs.

(** ** Vocabulary of the replies *)

Module Replies.
Section Replies.
Context `{Ortc}.
Import ServerJs.

(** [params.roomId] of the methods that read it. *)
Definition roomOfRequest (request : Request) : option RoomId :=
  match request with
  | GetRouterRtpCapabilities r | Join r _ _ | Leave r _
  | CreateWebRtcTransport r _ _ | ConnectTransport r _ _ _
  | Produce r _ _ _ _ _ | Consume r _ _ _ | ResumeConsumer r _ _
  | PauseProducer r _ _ | ResumeProducer r _ _ | CloseProducer r _ _
  | GetProducers r _ | SetPreferredLayers r _ _ _ _ | GetRoomStats r => Some r
  | Ping | OtherMethod _ => None
  end.

(** The methods that go through [getOrCreateRoom]. *)
Definition createsRoom (request : Request) : bool :=
  match request with
  | GetRouterRtpCapabilities _ | Join _ _ _ => true
  | _ => false
  end.

(** [params.peerId] of the methods that act for a peer of the room. *)
Definition actingPeer (request : Request) : option PeerId :=
  match request with
  | CreateWebRtcTransport _ p _ | ConnectTransport _ p _ _
  | Produce _ p _ _ _ _ | Consume _ p _ _ | ResumeConsumer _ p _
  | PauseProducer _ p _ | ResumeProducer _ p _ | CloseProducer _ p _
  | SetPreferredLayers _ p _ _ _ => Some p
  | _ => None
  end.

(** The three maps of a peer. *)
Inductive Held := HeldTransport | HeldProducer | HeldConsumer.

Definition heldBy (peer : RoomJs.Peer) (kind : Held) : list Id :=
  match kind with
  | HeldTransport => RoomJs.transports peer
  | HeldProducer => RoomJs.producers peer
  | HeldConsumer => RoomJs.consumers peer
  end.

(** The object a method looks up in a map of the peer. *)
Definition namedObject (request : Request) : option (Held * Id) :=
  match request with
  | ConnectTransport _ _ t _ | Produce _ _ t _ _ _ => Some (HeldTransport, t)
  | PauseProducer _ _ p | ResumeProducer _ _ p | CloseProducer _ _ p =>
      Some (HeldProducer, p)
  | ResumeConsumer _ _ c | SetPreferredLayers _ _ c _ _ => Some (HeldConsumer, c)
  | _ => None
  end.

Definition notFound (kind : Held) (id : Id) : ErrorMessage :=
  match kind with
  | HeldTransport => TransportNotFound id
  | HeldProducer => ProducerNotFound id
  | HeldConsumer => ConsumerNotFound id
  end.

End Replies.
End Replies.

(** ** Vocabulary of the invariants of the registry *)

Module Sound.
Section Sound.
Context `{Ortc}.
Import ServerJs.
Abbreviation Engine := Mediasoup.Engine.
Abbreviation Room := RoomJs.Room.

(** [nextWorkerIdx] indexes a worker, when there is one. *)
Definition workersInRange (s : Server) : Prop :=
  workers s = [] \/ nextWorkerIdx s < List.length (workers s).

(** The maps are maps: no room identifier and, in a room, no peer
    identifier is there twice; a room object carries the identifier it is
    registered under. *)
Definition wellKeyed (s : Server) : Prop :=
  NoDup (JsMap.keys (rooms s)) /\
  forall roomId room, JsMap.get (rooms s) roomId = Some room ->
    RoomJs.roomId room = roomId /\ NoDup (JsMap.keys (RoomJs.peers room)).

Definition routerOpen (e : Engine) (id : Id) : Prop :=
  exists r, JsMap.get (Mediasoup.e_routers e) id = Some r /\
            Mediasoup.router_closed r = false.

(** A router that is closed, by the one [router.close()] made on it. *)
Definition routerClosedOnce (e : Engine) (id : Id) : Prop :=
  (exists r, JsMap.get (Mediasoup.e_routers e) id = Some r /\
             Mediasoup.router_closed r = true) /\
  count_occ Nat.eq_dec (Mediasoup.e_routerCloseCalls e) id = 1.

(** The router of a registered room is open and was never closed; two
    rooms never share a router; a router of no registered room is closed,
    by one call. *)
Definition routersSound (s : Server) : Prop :=
  (forall roomId room, JsMap.get (rooms s) roomId = Some room ->
     routerOpen (engine s) (RoomJs.router room) /\
     ~ In (RoomJs.router room) (Mediasoup.e_routerCloseCalls (engine s))) /\
  (forall r1 r2 room1 room2,
     JsMap.get (rooms s) r1 = Some room1 -> JsMap.get (rooms s) r2 = Some room2 ->
     RoomJs.router room1 = RoomJs.router room2 -> r1 = r2) /\
  (forall id, JsMap.has (Mediasoup.e_routers (engine s)) id = true ->
     id < Mediasoup.e_nextId (engine s) /\
     (Props.routerOfRegisteredRoom s id \/ routerClosedOnce (engine s) id)) /\
  (forall id, In id (Mediasoup.e_routerCloseCalls (engine s)) ->
     JsMap.has (Mediasoup.e_routers (engine s)) id = true).

Definition registrySound (s : Server) : Prop :=
  workersInRange s /\ wellKeyed s /\ routersSound s.

(** A step of the store that leaves the routers alone. *)
Definition routersKept (e e' : Engine) : Prop :=
  Mediasoup.e_routers e' = Mediasoup.e_routers e /\
  Mediasoup.e_routerCloseCalls e' = Mediasoup.e_routerCloseCalls e /\
  Mediasoup.e_nextId e <= Mediasoup.e_nextId e'.

(** Transports and who holds them: a transport is stamped, in the store,
    with the router it was created on and the peer it was created for. *)
Definition transportsAllocated (e : Engine) : Prop :=
  NoDup (JsMap.keys (Mediasoup.e_transports e)) /\
  forall id t, JsMap.get (Mediasoup.e_transports e) id = Some t ->
               id < Mediasoup.e_nextId e.

Definition transportStamped (e : Engine) (routerId : Id) (peerId : PeerId)
    (transportId : Id) : Prop :=
  exists t, JsMap.get (Mediasoup.e_transports e) transportId = Some t /\
            Mediasoup.transport_routerId t = routerId /\
            Mediasoup.transport_appData_peerId t = peerId.

Definition transportsOwned (s : Server) : Prop :=
  transportsAllocated (engine s) /\
  forall roomId room peerId peer transportId,
    In (roomId, room) (rooms s) -> In (peerId, peer) (RoomJs.peers room) ->
    In transportId (RoomJs.transports peer) ->
    transportStamped (engine s) (RoomJs.router room) peerId transportId.

(** A step of the store that keeps the stamps of the transports. *)
Definition keepsStamps (e e' : Engine) : Prop :=
  transportsAllocated e ->
  transportsAllocated e' /\
  Mediasoup.e_nextId e <= Mediasoup.e_nextId e' /\
  forall routerId peerId transportId,
    transportStamped e routerId peerId transportId ->
    transportStamped e' routerId peerId transportId.

(** A step of the store that does both. *)
Definition steady (e e' : Engine) : Prop := routersKept e e' /\ keepsStamps e e'.

(** Where the transports of the peers of a room come from, after a call
    on the room. *)
Definition transportsEvolve (e' : Engine) (routerId : Id)
    (before after : JsMap.t PeerId RoomJs.Peer) : Prop :=
  forall peerId peer' transportId,
    In (peerId, peer') after -> In transportId (RoomJs.transports peer') ->
    (exists peer, In (peerId, peer) before /\
                  In transportId (RoomJs.transports peer)) \/
    transportStamped e' routerId peerId transportId.

End Sound.
End Sound.

(** ** [sfu/server.js]: shutdown *)

Module ShutdownJs.
Section Shutdown.
Context `{Ortc}.
Import ServerJs.
Local Open Scope js_scope.
Abbreviation Engine := Mediasoup.Engine.
Abbreviation Room := RoomJs.Room.

(** [for (const x of l) body(x)] *)
Fixpoint forEach {S A} (l : list A) (body : A -> M S unit) : M S unit :=
  match l with
  | [] => ret tt
  | a :: rest => body a ;;; forEach rest body
  end.

(** [worker.close()]: mediasoup closes the routers still open on the
    worker, each as [router.close()] does, but it is not the server that
    calls [close()] on them. *)
Definition openOnWorker (pid : nat) (r : Mediasoup.Router) : bool :=
  Nat.eqb (Mediasoup.router_workerPid r) pid && negb (Mediasoup.router_closed r).

Definition workerClosesRouter (e : Engine) (routerId : Id) : Engine :=
  let e1 := Mediasoup.routerClose routerId e in
  Mediasoup.mkEngine (Mediasoup.e_nextId e1) (Mediasoup.e_routers e1)
    (Mediasoup.e_transports e1) (Mediasoup.e_producers e1)
    (Mediasoup.e_consumers e1) (Mediasoup.e_routerCloseCalls e).

Definition workerClose (pid : nat) (e : Engine) : Engine :=
  fold_left workerClosesRouter
            (Mediasoup.idsWhere (openOnWorker pid) (Mediasoup.e_routers e)) e.

(** [shutdown()], up to [process.exit(0)]: every room is closed, then
    every worker.  The socket file is not part of the state. *)
Definition shutdown : ServerM unit :=
  s <- getState ;;
  forEach (rooms s) (fun entry => call (fst entry) (snd entry) RoomJs.close) ;;;
  forEach (workers s)
          (fun pid => s1 <- getState ;;
                      setServerEngine (workerClose pid (engine s1))).

(** A room after [close()], and the store after it. *)
Definition closedRoom (room : Room) : Room :=
  RoomJs.mkRoom (RoomJs.roomId room) (RoomJs.router room) JsMap.empty.

Definition storeAfterClose (e : Engine) (room : Room) : Engine :=
  Mediasoup.routerClose (RoomJs.router room)
    (RoomJs.closeAllTransports e (RoomJs.peers room)).

End Shutdown.
End ShutdownJs.

(** ** [static/js/ourtc.js]: the controls of the client *)

Module RibbonRTC.

(** A producer of mediasoup-client, as far as the controls read and
    write it.  [pause()] and [resume()] do nothing on a closed producer. *)
Record Producer := mkProducer {
  producer_id : string;
  producer_paused : bool;
  producer_closed : bool
}.

Definition pause (p : Producer) : Producer :=
  if producer_closed p then p else mkProducer (producer_id p) true false.

Definition resume (p : Producer) : Producer :=
  if producer_closed p then p else mkProducer (producer_id p) false false.

(** What the controls send on the socket. *)
Inductive Emitted :=
| EmitResumeProducer (producerId : string)
| EmitPauseProducer (producerId : string)
| EmitCloseProducer (producerId : string).

(** The variables of the module the controls use: [_producers], by kind;
    whether [_screenStream] is set; and what went out on [_socket], in
    order. *)
Record Client := mkClient {
  _producers : JsMap.t string Producer;
  _screenStream : bool;
  emitted : list Emitted
}.

Definition emit (message : Emitted) (c : Client) : Client :=
  mkClient (_producers c) (_screenStream c) (emitted c ++ [message]).

(** A method call on the producer object held under [kind]. *)
Definition onProducer (kind : string) (f : Producer -> Producer) (c : Client) : Client :=
  match JsMap.get (_producers c) kind with
  | Some p => mkClient (JsMap.set (_producers c) kind (f p)) (_screenStream c) (emitted c)
  | None => c
  end.

Definition toggleMic (c : Client) : bool * Client :=
  match JsMap.get (_producers c) "audio" with
  | None => (false, c)
  | Some producer =>
      if producer_paused producer
      then (true, emit (EmitResumeProducer (producer_id producer))
                       (onProducer "audio" resume c))
      else (false, emit (EmitPauseProducer (producer_id producer))
                        (onProducer "audio" pause c))
  end.

Definition toggleCamera (c : Client) : bool * Client :=
  match JsMap.get (_producers c) "video" with
  | None => (false, c)
  | Some producer =>
      if producer_paused producer
      then (true, emit (EmitResumeProducer (producer_id producer))
                       (onProducer "video" resume c))
      else (false, emit (EmitPauseProducer (producer_id producer))
                        (onProducer "video" pause c))
  end.

(** [p && !p.paused]: [undefined] when there is no producer. *)
Definition isMicEnabled (c : Client) : option bool :=
  match JsMap.get (_producers c) "audio" with
  | Some p => Some (negb (producer_paused p))
  | None => None
  end.

Definition isCameraEnabled (c : Client) : option bool :=
  match JsMap.get (_producers c) "video" with
  | Some p => Some (negb (producer_paused p))
  | None => None
  end.

(** Whether a value counts as true in a condition. *)
Definition truthy (v : option bool) : bool :=
  match v with
  | Some b => b
  | None => false
  end.

Definition isScreenSharing (c : Client) : bool := JsMap.has (_producers c) "screen".

(** [stopScreen()]: the producer, closed, leaves the map, so its closing
    is seen through the message only. *)
Definition stopScreen (c : Client) : Client :=
  let c1 :=
    match JsMap.get (_producers c) "screen" with
    | Some producer =>
        emit (EmitCloseProducer (producer_id producer))
             (mkClient (JsMap.delete (_producers c) "screen") (_screenStream c)
                       (emitted c))
    | None => c
    end in
  if _screenStream c1 then mkClient (_producers c1) false (emitted c1) else c1.

End RibbonRTC.

(** ** Vocabulary of what is open *)

Module Open.
Section Open.
Context `{Ortc}.
Import ServerJs.
Abbreviation Engine := Mediasoup.Engine.
Abbreviation Room := RoomJs.Room.

Definition producerOpen (e : Engine) (id : Id) : Prop :=
  exists p, JsMap.get (Mediasoup.e_producers e) id = Some p /\
            Mediasoup.producer_closed p = false.

Definition consumerOpen (e : Engine) (id : Id) : Prop :=
  exists c, JsMap.get (Mediasoup.e_consumers e) id = Some c /\
            Mediasoup.consumer_closed c = false.

(** Every producer and consumer a peer holds is open in the store. *)
Definition heldOpen (s : Server) : Prop :=
  forall roomId room peerId peer,
    In (roomId, room) (rooms s) -> In (peerId, peer) (RoomJs.peers room) ->
    (forall id, In id (RoomJs.producers peer) -> producerOpen (engine s) id) /\
    (forall id, In id (RoomJs.consumers peer) -> consumerOpen (engine s) id).

(** A step of the store that closes nothing. *)
Definition keepsOpen (e e' : Engine) : Prop :=
  Props.producersAllocated e -> Props.consumersAllocated e ->
  Props.producersAllocated e' /\ Props.consumersAllocated e' /\
  (forall id, producerOpen e id -> producerOpen e' id) /\
  (forall id, consumerOpen e id -> consumerOpen e' id).

(** Where what the peers of a room hold comes from, after a call that
    closes nothing: from the same peer before the call, or out of the
    store, open. *)
Definition holdsEvolve (e' : Engine) (before after : JsMap.t PeerId RoomJs.Peer)
  : Prop :=
  forall peerId peer',
    In (peerId, peer') after ->
    (forall id, In id (RoomJs.producers peer') ->
       (exists peer, In (peerId, peer) before /\ In id (RoomJs.producers peer)) \/
       producerOpen e' id) /\
    (forall id, In id (RoomJs.consumers peer') ->
       (exists peer, In (peerId, peer) before /\ In id (RoomJs.consumers peer)) \/
       consumerOpen e' id).

End Open.
End Open.

(** ** [sfu/server.js]: requests that overlap

    [handleRpcRequest] is an [async] function, and the 'data' listener
    calls [processMessage] for a line without waiting for it: a request
    runs up to its first [await] that has to wait, and the next line of
    the chunk starts there.  [ServerJs.run] is the server whose requests
    come one after the other, each answered before the next is read.
    For first [join]s of one room that come together, here is
    [getOrCreateRoom] cut at its [await]. *)

Module Overlap.
Section Overlap.
Context `{Ortc}.
Import ServerJs.
Local Open Scope js_scope.

(** [getOrCreateRoom] up to [await worker.createRouter(...)]: the room
    when it is registered, else the worker that [getNextWorker] picked
    and that is now asked for a router. *)
Definition getOrCreateRoom_toAwait (roomId : RoomId) : ServerM (RoomJs.Room + nat) :=
  s <- getState ;;
  match JsMap.get (rooms s) roomId with
  | Some room => ret (inl room)
  | None =>
      worker <- getNextWorker ;;
      match worker with
      | None => throw TypeErrorUndefined
      | Some pid => ret (inr pid)
      end
  end.

(** [getOrCreateRoom] from that [await] on, once the worker has made the
    router: [new Room], [rooms.set], [return room].  Nothing is looked up
    again. *)
Definition getOrCreateRoom_fromAwait (roomId : RoomId) (pid : nat)
  : ServerM RoomJs.Room :=
  s1 <- getState ;;
  let '(routerId, e') := Mediasoup.createRouter pid (engine s1) in
  setServerEngine e' ;;;
  let room := RoomJs.newRoom roomId routerId in
  s2 <- getState ;;
  setRooms (JsMap.set (rooms s2) roomId room) ;;;
  ret room.

(** The [join] case from the same point on. *)
Definition join_fromAwait (roomId : RoomId) (peerId : PeerId) (name : string)
    (pid : nat) : ServerM Result :=
  room <- getOrCreateRoom_fromAwait roomId pid ;;
  call roomId room
       (RoomJs.addPeer peerId name ;;;
        r <- getState ;;
        ret (JoinResult (RoomJs.getPeerList (fst r)))).

End Overlap.
End Overlap.

(** ** A second worked session *)

Module Histories.
Import ServerJs.
Import Props.
#[local] Existing Instance plainOrtc.

(** Room r is registered on router 0; room q, on router 1, was destroyed
    when its one peer left. *)
Definition inputs : list (@Input plainOrtc) :=
  map memberInput [MJoin "r" "a" "A"; MJoin "q" "a" "A"; MLeave "q" "a"].

Definition state : @Server plainOrtc :=
  Eval vm_compute in run inputs (startServer [100]).

End Histories.
(** * Facts *)

Unset Implicit Arguments.

(** ** Key equality *)

Lemma keq_refl {K} `{EqKey K} (a : K) : keq a a = true.
Proof. now apply keq_true. Qed.

Lemma keq_false {K} `{EqKey K} (a b : K) : keq a b = false <-> a <> b.
Proof.
  split.
  - intros E Heq. apply keq_true in Heq. congruence.
  - intros N. destruct (keq a b) eqn:E; [apply keq_true in E; contradiction | reflexivity].
Qed.

Lemma keq_sym {K} `{EqKey K} (a b : K) : keq a b = keq b a.
Proof.
  destruct (keq a b) eqn:E.
  - apply keq_true in E. subst. now rewrite keq_refl.
  - apply keq_false in E. symmetry. apply keq_false. congruence.
Qed.

(** ** Maps *)

Module JsMapFacts.
Section Facts.
Context {K V : Type} `{EqKey K}.
Import JsMap.
Implicit Types (m : JsMap.t K V) (k : K) (v : V).

Lemma get_set_same m k v : get (set m k v) k = Some v.
Proof.
  induction m as [|[k' v'] m IH]; simpl.
  - now rewrite keq_refl.
  - destruct (keq k k') eqn:E; simpl; [now rewrite keq_refl | now rewrite E].
Qed.

Lemma get_set_other m k k' v : k' <> k -> get (set m k v) k' = get m k'.
Proof.
  intros N. induction m as [|[k0 v0] m IH]; simpl.
  - assert (keq k' k = false) as -> by now apply keq_false. reflexivity.
  - destruct (keq k k0) eqn:E; simpl.
    + apply keq_true in E. subst k0.
      assert (keq k' k = false) as -> by now apply keq_false. reflexivity.
    + destruct (keq k' k0); [reflexivity | exact IH].
Qed.

Lemma get_delete_same m k : get (delete m k) k = None.
Proof.
  induction m as [|[k0 v0] m IH]; simpl; [reflexivity|].
  destruct (keq k k0) eqn:E; simpl; [exact IH | now rewrite E].
Qed.

Lemma get_delete_other m k k' : k' <> k -> get (delete m k) k' = get m k'.
Proof.
  intros N. induction m as [|[k0 v0] m IH]; simpl; [reflexivity|].
  destruct (keq k k0) eqn:E; simpl.
  - apply keq_true in E. subst k0.
    assert (keq k' k = false) as -> by now apply keq_false. exact IH.
  - destruct (keq k' k0); [reflexivity | exact IH].
Qed.

Lemma get_None_not_in m k : get m k = None <-> ~ In k (keys m).
Proof.
  induction m as [|[k0 v0] m IH]; simpl.
  - tauto.
  - destruct (keq k k0) eqn:E.
    + apply keq_true in E. subst. split; [discriminate | intros N; exfalso; auto].
    + apply keq_false in E. rewrite IH. split.
      * intros N [Heq | Hin]; [congruence | contradiction].
      * intros N Hin. apply N. now right.
Qed.

Lemma get_Some_in m k v : get m k = Some v -> In (k, v) m.
Proof.
  induction m as [|[k0 v0] m IH]; simpl; [discriminate|].
  destruct (keq k k0) eqn:E.
  - apply keq_true in E. subst. intros [= ->]. now left.
  - intros G. right. now apply IH.
Qed.

Lemma in_get_NoDup m k v : NoDup (keys m) -> In (k, v) m -> get m k = Some v.
Proof.
  induction m as [|[k0 v0] m IH]; simpl; [tauto|].
  intros ND [E | Hin].
  - inversion E; subst. now rewrite keq_refl.
  - inversion ND as [|? ? Hn ND']; subst.
    destruct (keq k k0) eqn:E.
    + apply keq_true in E. subst k0. exfalso. apply Hn.
      change k with (fst (k, v)). now apply in_map.
    + now apply IH.
Qed.

Lemma delete_absent m k : get m k = None -> delete m k = m.
Proof.
  induction m as [|[k0 v0] m IH]; simpl; [reflexivity|].
  destruct (keq k k0) eqn:E; [discriminate|]. simpl.
  intros G. now rewrite IH.
Qed.

Lemma set_absent m k v : get m k = None -> set m k v = m ++ [(k, v)].
Proof.
  induction m as [|[k0 v0] m IH]; simpl; [reflexivity|].
  destruct (keq k k0) eqn:E; [discriminate|].
  intros G. now rewrite IH.
Qed.

Lemma keys_set_present m k v v' : get m k = Some v' -> keys (set m k v) = keys m.
Proof.
  induction m as [|[k0 v0] m IH]; simpl; [discriminate|].
  destruct (keq k k0) eqn:E; simpl.
  - apply keq_true in E. now subst.
  - intros G. f_equal. now apply IH.
Qed.

Lemma keys_delete m k : keys (delete m k) = filter (fun k' => negb (keq k k')) (keys m).
Proof.
  induction m as [|[k0 v0] m IH]; simpl; [reflexivity|].
  destruct (keq k k0); simpl; now rewrite IH.
Qed.

Lemma has_true m k : has m k = true <-> In k (keys m).
Proof.
  unfold has. destruct (get m k) eqn:G.
  - split; [|reflexivity]. intros _.
    apply get_Some_in in G. change k with (fst (k, v)). now apply in_map.
  - split; [discriminate|]. intros Hin. now apply get_None_not_in in G.
Qed.

Lemma set_same m k v : get m k = Some v -> set m k v = m.
Proof.
  induction m as [|[k0 v0] m IH]; simpl; [discriminate|].
  destruct (keq k k0) eqn:E.
  - apply keq_true in E. subst k0. now intros [= ->].
  - intros G. now rewrite IH.
Qed.

Lemma in_set m k v x : In x (set m k v) -> x = (k, v) \/ In x m.
Proof.
  induction m as [|[k0 v0] m IH]; simpl.
  - intros [E | []]. now left.
  - destruct (keq k k0); simpl.
    + intros [E | Hin]; [now left | right; now right].
    + intros [E | Hin]; [right; now left |].
      destruct (IH Hin) as [E | Hin']; [now left | right; now right].
Qed.

Lemma in_delete m k x : In x (delete m k) -> In x m.
Proof. unfold delete. intros Hin. now apply filter_In in Hin. Qed.

Lemma has_get m k : has m k = true <-> exists v, get m k = Some v.
Proof.
  unfold has. destruct (get m k).
  - split; [eauto | reflexivity].
  - split; [discriminate | intros [v E]; discriminate].
Qed.

Lemma has_false m k : has m k = false <-> get m k = None.
Proof. unfold has. destruct (get m k); split; congruence. Qed.

Lemma NoDup_keys_delete m k : NoDup (keys m) -> NoDup (keys (delete m k)).
Proof. intros ND. rewrite keys_delete. now apply NoDup_filter. Qed.

Lemma NoDup_keys_set m k v : NoDup (keys m) -> NoDup (keys (set m k v)).
Proof.
  intros ND. destruct (get m k) eqn:G.
  - now rewrite (keys_set_present _ _ _ _ G).
  - rewrite (set_absent _ _ _ G). unfold keys. rewrite map_app. simpl.
    apply NoDup_app; [exact ND | repeat constructor; intros [] | ].
    intros a Ha [E | []]. subst a. now apply get_None_not_in in G.
Qed.

Lemma delete_set_same m k v : delete (set m k v) k = delete m k.
Proof.
  unfold delete. induction m as [|[k0 v0] m IH]; simpl.
  - now rewrite keq_refl.
  - destruct (keq k k0) eqn:E; simpl.
    + now rewrite keq_refl.
    + rewrite E. simpl. now rewrite IH.
Qed.

Lemma set_set_same m k v v' : set (set m k v) k v' = set m k v'.
Proof.
  induction m as [|[k0 v0] m IH]; simpl.
  - now rewrite keq_refl.
  - destruct (keq k k0) eqn:E; simpl.
    + now rewrite keq_refl.
    + rewrite E. now rewrite IH.
Qed.

End Facts.
End JsMapFacts.

(** ** The mediasoup store *)

Module MediasoupFacts.
Section Facts.
Context `{Ortc}.
Import Mediasoup.
Import Props.

Lemma get_updateWhere {V} (sel : V -> bool) (f : V -> V) (m : JsMap.t Id V) k :
  JsMap.get (updateWhere sel f m) k
  = option_map (fun v => if sel v then f v else v) (JsMap.get m k).
Proof.
  induction m as [|[k0 v0] m IH]; simpl; [reflexivity|].
  destruct (sel v0) eqn:S0; simpl; destruct (Nat.eqb k k0); simpl;
    rewrite ?S0; auto.
Qed.

(** The three possible effects of [transportClose]. *)
Lemma transportClose_cases transportId e :
  (transportClose transportId e = (e, ([], [])) /\
   (JsMap.get (e_transports e) transportId = None \/
    exists t, JsMap.get (e_transports e) transportId = Some t /\ transport_closed t = true))
  \/
  (exists t, JsMap.get (e_transports e) transportId = Some t /\
             transport_closed t = false /\
             transportClose transportId e =
             (mkEngine (e_nextId e) (e_routers e)
                (JsMap.set (e_transports e) transportId (closeTransport t))
                (updateWhere (producerOn transportId) closeProducer (e_producers e))
                (updateWhere (consumerOn transportId) closeConsumer (e_consumers e))
                (e_routerCloseCalls e),
              (idsWhere (producerOn transportId) (e_producers e),
               idsWhere (consumerOn transportId) (e_consumers e)))).
Proof.
  unfold transportClose.
  destruct (JsMap.get (e_transports e) transportId) as [t|] eqn:G.
  - destruct (transport_closed t) eqn:C.
    + left. split; [reflexivity|]. right. eauto.
    + right. exists t. auto.
  - left. split; [reflexivity|]. now left.
Qed.

Lemma transportClose_nextId transportId e :
  e_nextId (fst (transportClose transportId e)) = e_nextId e.
Proof.
  destruct (transportClose_cases transportId e) as [[-> _] | (t & _ & _ & ->)];
    reflexivity.
Qed.

Lemma transportClose_routers transportId e :
  e_routers (fst (transportClose transportId e)) = e_routers e.
Proof.
  destruct (transportClose_cases transportId e) as [[-> _] | (t & _ & _ & ->)];
    reflexivity.
Qed.

Lemma transportClose_calls transportId e :
  e_routerCloseCalls (fst (transportClose transportId e)) = e_routerCloseCalls e.
Proof.
  destruct (transportClose_cases transportId e) as [[-> _] | (t & _ & _ & ->)];
    reflexivity.
Qed.

Lemma transportClose_closes transportId e t :
  JsMap.get (e_transports e) transportId = Some t ->
  transportIsClosed (fst (transportClose transportId e)) transportId.
Proof.
  intros G.
  destruct (transportClose_cases transportId e)
    as [[-> [N | (t' & G' & C)]] | (t' & G' & C & ->)]; cbn [fst].
  - congruence.
  - now exists t'.
  - exists (closeTransport t'). cbn [e_transports].
    now rewrite JsMapFacts.get_set_same.
Qed.

Lemma transportClose_keeps_transport x e id :
  transportIsClosed e id -> transportIsClosed (fst (transportClose x e)) id.
Proof.
  intros (t & G & C).
  destruct (transportClose_cases x e) as [[-> _] | (t' & G' & C' & ->)]; cbn [fst].
  - now exists t.
  - unfold transportIsClosed. cbn [e_transports].
    destruct (Nat.eq_dec id x) as [->|N].
    + exists (closeTransport t'). now rewrite JsMapFacts.get_set_same.
    + exists t. now rewrite JsMapFacts.get_set_other.
Qed.

Lemma transportClose_keeps_producer x e id :
  producerIsClosed e id -> producerIsClosed (fst (transportClose x e)) id.
Proof.
  intros (p & G & C).
  destruct (transportClose_cases x e) as [[-> _] | (t' & G' & C' & ->)]; cbn [fst].
  - now exists p.
  - unfold producerIsClosed. cbn [e_producers].
    rewrite get_updateWhere, G. cbn [option_map].
    destruct (producerOn x p); eauto.
Qed.

Lemma transportClose_keeps_consumer x e id :
  consumerIsClosed e id -> consumerIsClosed (fst (transportClose x e)) id.
Proof.
  intros (c & G & C).
  destruct (transportClose_cases x e) as [[-> _] | (t' & G' & C' & ->)]; cbn [fst].
  - now exists c.
  - unfold consumerIsClosed. cbn [e_consumers].
    rewrite get_updateWhere, G. cbn [option_map].
    destruct (consumerOn x c); eauto.
Qed.

Lemma transportClose_reaches_producer transportId e id :
  producerDueOn e transportId id ->
  producerIsClosed (fst (transportClose transportId e)) id.
Proof.
  intros (p & G & T & D).
  destruct D as [C | (t & Gt & Ct)].
  - apply transportClose_keeps_producer. now exists p.
  - destruct (transportClose_cases transportId e)
      as [[_ [N | (t' & G' & C')]] | (t' & G' & C' & ->)]; try congruence.
    unfold producerIsClosed. cbn [fst e_producers].
    rewrite get_updateWhere, G. cbn [option_map].
    unfold producerOn. rewrite T, Nat.eqb_refl. cbn [andb].
    destruct (producer_closed p) eqn:C; cbn [negb]; eauto.
Qed.

Lemma transportClose_reaches_consumer transportId e id :
  consumerDueOn e transportId id ->
  consumerIsClosed (fst (transportClose transportId e)) id.
Proof.
  intros (c & G & T & D).
  destruct D as [C | (t & Gt & Ct)].
  - apply transportClose_keeps_consumer. now exists c.
  - destruct (transportClose_cases transportId e)
      as [[_ [N | (t' & G' & C')]] | (t' & G' & C' & ->)]; try congruence.
    unfold consumerIsClosed. cbn [fst e_consumers].
    rewrite get_updateWhere, G. cbn [option_map].
    unfold consumerOn. rewrite T, Nat.eqb_refl. cbn [andb].
    destruct (consumer_closed c) eqn:C; cbn [negb]; eauto.
Qed.

Lemma transportClose_other_producer x transportId e id :
  x <> transportId ->
  producerDueOn e transportId id ->
  producerDueOn (fst (transportClose x e)) transportId id.
Proof.
  intros N (p & G & T & D).
  destruct (transportClose_cases x e) as [[-> _] | (t' & G' & C' & ->)]; cbn [fst].
  - now exists p.
  - unfold producerDueOn. cbn [e_producers e_transports].
    rewrite get_updateWhere, G. cbn [option_map].
    unfold producerOn. rewrite T.
    assert (Nat.eqb transportId x = false) as -> by (apply Nat.eqb_neq; congruence).
    cbn [andb]. exists p. repeat split; auto.
    destruct D as [C | (t & Gt & Ct)]; [now left | right].
    exists t. rewrite JsMapFacts.get_set_other by congruence. auto.
Qed.

Lemma transportClose_other_consumer x transportId e id :
  x <> transportId ->
  consumerDueOn e transportId id ->
  consumerDueOn (fst (transportClose x e)) transportId id.
Proof.
  intros N (c & G & T & D).
  destruct (transportClose_cases x e) as [[-> _] | (t' & G' & C' & ->)]; cbn [fst].
  - now exists c.
  - unfold consumerDueOn. cbn [e_consumers e_transports].
    rewrite get_updateWhere, G. cbn [option_map].
    unfold consumerOn. rewrite T.
    assert (Nat.eqb transportId x = false) as -> by (apply Nat.eqb_neq; congruence).
    cbn [andb]. exists c. repeat split; auto.
    destruct D as [C | (t & Gt & Ct)]; [now left | right].
    exists t. rewrite JsMapFacts.get_set_other by congruence. auto.
Qed.

Lemma transportClose_keeps_known x e id t :
  JsMap.get (e_transports e) id = Some t ->
  exists t', JsMap.get (e_transports (fst (transportClose x e))) id = Some t'.
Proof.
  intros G.
  destruct (transportClose_cases x e) as [[-> _] | (t' & G' & C' & ->)]; cbn [fst].
  - eauto.
  - cbn [e_transports]. destruct (Nat.eq_dec id x) as [->|N].
    + rewrite JsMapFacts.get_set_same. eauto.
    + rewrite JsMapFacts.get_set_other by assumption. eauto.
Qed.

(** [router.close()] keeps what is closed closed, and logs the call. *)
Lemma fold_transportClose_keeps (P : Engine -> Prop) l e :
  (forall x e0, P e0 -> P (fst (transportClose x e0))) ->
  P e -> P (fold_left (fun acc tid => fst (transportClose tid acc)) l e).
Proof.
  intros Step. revert e. induction l as [|x l IH]; intros e Pe; simpl; auto.
Qed.

Lemma routerClose_keeps_transport routerId e id :
  transportIsClosed e id -> transportIsClosed (routerClose routerId e) id.
Proof.
  intros C. unfold routerClose, transportIsClosed. cbn [e_transports].
  apply (fold_transportClose_keeps (fun e0 => transportIsClosed e0 id)); auto.
  intros. now apply transportClose_keeps_transport.
Qed.

Lemma routerClose_keeps_producer routerId e id :
  producerIsClosed e id -> producerIsClosed (routerClose routerId e) id.
Proof.
  intros C. unfold routerClose, producerIsClosed. cbn [e_producers].
  apply (fold_transportClose_keeps (fun e0 => producerIsClosed e0 id)); auto.
  intros. now apply transportClose_keeps_producer.
Qed.

Lemma routerClose_keeps_consumer routerId e id :
  consumerIsClosed e id -> consumerIsClosed (routerClose routerId e) id.
Proof.
  intros C. unfold routerClose, consumerIsClosed. cbn [e_consumers].
  apply (fold_transportClose_keeps (fun e0 => consumerIsClosed e0 id)); auto.
  intros. now apply transportClose_keeps_consumer.
Qed.

Lemma routerClose_calls routerId e :
  e_routerCloseCalls (routerClose routerId e) = routerId :: e_routerCloseCalls e.
Proof.
  unfold routerClose. cbn [e_routerCloseCalls]. f_equal.
  apply (fold_transportClose_keeps
           (fun e0 => e_routerCloseCalls e0 = e_routerCloseCalls e)); auto.
  intros x e0 E. now rewrite transportClose_calls.
Qed.

Lemma routerClose_nextId routerId e :
  e_nextId (routerClose routerId e) = e_nextId e.
Proof.
  unfold routerClose. cbn [e_nextId].
  apply (fold_transportClose_keeps (fun e0 => e_nextId e0 = e_nextId e)); auto.
  intros x e0 E. now rewrite transportClose_nextId.
Qed.

Lemma routerClose_has_router routerId e id :
  JsMap.has (e_routers (routerClose routerId e)) id = JsMap.has (e_routers e) id.
Proof.
  unfold routerClose. cbn [e_routers].
  set (e1 := fold_left _ _ e).
  assert (E : e_routers e1 = e_routers e).
  { apply (fold_transportClose_keeps (fun e0 => e_routers e0 = e_routers e)); auto.
    intros x e0 E. now rewrite transportClose_routers. }
  rewrite E. destruct (JsMap.get (e_routers e) routerId) as [r|] eqn:G; [|reflexivity].
  unfold JsMap.has. destruct (Nat.eq_dec id routerId) as [->|N].
  - now rewrite JsMapFacts.get_set_same, G.
  - now rewrite JsMapFacts.get_set_other.
Qed.

(** *** Paused consumers stay paused, but for [consumer.resume()] *)

Lemma noResume_refl e : noResume e e.
Proof. intros id c' G P. eauto. Qed.

Lemma noResume_trans e1 e2 e3 : noResume e1 e2 -> noResume e2 e3 -> noResume e1 e3.
Proof.
  intros A B id c3 G3 P3. destruct (B id c3 G3 P3) as (c2 & G2 & P2). eauto.
Qed.

Lemma noResume_same e e' : e_consumers e' = e_consumers e -> noResume e e'.
Proof. intros E id c' G P. rewrite E in G. eauto. Qed.

Lemma transportClose_noResume x e : noResume e (fst (transportClose x e)).
Proof.
  destruct (transportClose_cases x e) as [[-> _] | (t' & G' & C' & ->)]; cbn [fst].
  - apply noResume_refl.
  - intros id c' G P. cbn [e_consumers] in G.
    rewrite get_updateWhere in G.
    destruct (JsMap.get (e_consumers e) id) as [c|]; [|discriminate].
    cbn [option_map] in G. exists c. split; [reflexivity|].
    destruct (consumerOn x c); injection G as <-; exact P.
Qed.

Lemma routerClose_noResume x e : noResume e (routerClose x e).
Proof.
  apply noResume_trans with
    (fold_left (fun acc tid => fst (transportClose tid acc))
               (idsWhere (transportOfRouter x) (e_transports e)) e).
  - apply (fold_transportClose_keeps (fun e0 => noResume e e0)).
    + intros y e0 N. eapply noResume_trans; [exact N | apply transportClose_noResume].
    + apply noResume_refl.
  - now apply noResume_same.
Qed.

Lemma createRouter_noResume pid e : noResume e (snd (createRouter pid e)).
Proof. now apply noResume_same. Qed.

Lemma createWebRtcTransport_noResume r p e x e' :
  createWebRtcTransport r p e = Some (x, e') -> noResume e e'.
Proof.
  unfold createWebRtcTransport. intros E. apply noResume_same.
  destruct (JsMap.get (e_routers e) r) as [rt|]; [|discriminate].
  destruct (router_closed rt); [discriminate|]. now injection E as _ <-.
Qed.

Lemma markConsuming_noResume t e : noResume e (markConsuming t e).
Proof.
  apply noResume_same. unfold markConsuming.
  now destruct (JsMap.get (e_transports e) t).
Qed.

Lemma connect_noResume t e e' : connect t e = Some e' -> noResume e e'.
Proof.
  unfold connect. intros E. apply noResume_same.
  destruct (JsMap.get (e_transports e) t) as [tr|]; [|discriminate].
  destruct (transport_closed tr || transport_connected tr); [discriminate|].
  now injection E as <-.
Qed.

Lemma produce_noResume t k rtp ad e x e' :
  produce t k rtp ad e = Some (x, e') -> noResume e e'.
Proof.
  unfold produce. intros E. apply noResume_same.
  destruct (JsMap.get (e_transports e) t) as [tr|]; [|discriminate].
  destruct (transport_closed tr || collides t rtp e); [discriminate|].
  now injection E as _ <-.
Qed.

Lemma updateProducer_noResume id f e e' :
  updateProducer id f e = Some e' -> noResume e e'.
Proof.
  unfold updateProducer. intros E. apply noResume_same.
  destruct (JsMap.get (e_producers e) id) as [p|]; [|discriminate].
  destruct (producer_closed p); [discriminate|]. now injection E as <-.
Qed.

Lemma producerClose_noResume id e : noResume e (producerClose id e).
Proof.
  unfold producerClose. destruct (updateProducer id closeProducer e) eqn:E.
  - now apply (updateProducer_noResume id closeProducer).
  - apply noResume_refl.
Qed.

(** What [transport.consume] creates. *)
Lemma consume_creates t p caps paused e id c e' :
  consume t p caps paused e = Some (id, c, e') ->
  id = e_nextId e /\
  e_consumers e' = JsMap.set (e_consumers e) id c /\
  consumer_paused c = paused /\ consumer_producerId c = p /\
  consumer_transportId c = t /\ consumer_closed c = false.
Proof.
  unfold consume. intros E.
  destruct (JsMap.get (e_transports e) t) as [tr|]; [|discriminate].
  destruct (transport_closed tr); [discriminate|].
  destruct (routerProducer (transport_routerId tr) p e) as [pr|]; [|discriminate].
  destruct (ortc_canConsume (producer_rtpParameters pr) caps); [|discriminate].
  injection E as <- <- <-. cbn [e_consumers consumer_paused consumer_producerId
    consumer_transportId consumer_closed]. repeat split; reflexivity.
Qed.

Lemma consume_noResume t p caps e x e' :
  consume t p caps true e = Some (x, e') -> noResume e e'.
Proof.
  destruct x as [id c]. intros E.
  destruct (consume_creates _ _ _ _ _ _ _ _ E) as (-> & Ec & Pc & _).
  intros id' c' G P. rewrite Ec in G.
  destruct (Nat.eq_dec id' (e_nextId e)) as [->|N].
  - rewrite JsMapFacts.get_set_same in G. injection G as <-. congruence.
  - rewrite JsMapFacts.get_set_other in G by assumption. eauto.
Qed.

Lemma updateConsumer_cases id f e e' :
  updateConsumer id f e = Some e' ->
  exists c, JsMap.get (e_consumers e) id = Some c /\
            e_consumers e' = JsMap.set (e_consumers e) id (f c).
Proof.
  unfold updateConsumer. intros E.
  destruct (JsMap.get (e_consumers e) id) as [c|]; [|discriminate].
  destruct (consumer_closed c); [discriminate|]. injection E as <-. eauto.
Qed.

Lemma updateConsumer_noResume id f e e' :
  (forall c, consumer_paused (f c) = consumer_paused c) ->
  updateConsumer id f e = Some e' -> noResume e e'.
Proof.
  intros Keep E. destruct (updateConsumer_cases _ _ _ _ E) as (c & G & Ec).
  intros id' c' G' P. rewrite Ec in G'.
  destruct (Nat.eq_dec id' id) as [->|N].
  - rewrite JsMapFacts.get_set_same in G'. injection G' as <-.
    rewrite Keep in P. eauto.
  - rewrite JsMapFacts.get_set_other in G' by assumption. eauto.
Qed.

Lemma consumerSetPreferredLayers_noResume id l e e' :
  consumerSetPreferredLayers id l e = Some e' -> noResume e e'.
Proof. apply updateConsumer_noResume. reflexivity. Qed.

Lemma producerCloseNotification_noResume id e e' :
  producerCloseNotification id e = Some e' -> noResume e e'.
Proof.
  unfold producerCloseNotification. intros E.
  destruct (JsMap.get (e_consumers e) id) as [c|]; [|discriminate].
  destruct (consumer_closed c); [discriminate|].
  destruct (JsMap.get (e_producers e) (consumer_producerId c)) as [p|]; [|discriminate].
  destruct (producer_closed p); [|discriminate].
  revert E. apply updateConsumer_noResume. reflexivity.
Qed.

(** [consumer.resume()] starts the one consumer it is called on. *)
Lemma consumerResume_only id e e' :
  consumerResume id e = Some e' ->
  forall id' c', JsMap.get (e_consumers e') id' = Some c' ->
                 consumer_paused c' = false ->
                 id' = id \/
                 exists c, JsMap.get (e_consumers e) id' = Some c /\
                           consumer_paused c = false.
Proof.
  intros E id' c' G' P.
  destruct (updateConsumer_cases _ _ _ _ E) as (c & G & Ec). rewrite Ec in G'.
  destruct (Nat.eq_dec id' id) as [->|N]; [now left | right].
  rewrite JsMapFacts.get_set_other in G' by assumption. eauto.
Qed.

(** *** The store grows *)

Lemma grows_refl e : grows e e.
Proof.
  intros A. split; [|exact A]. split; [lia|]. intros id p G. eauto.
Qed.

Lemma grows_trans e1 e2 e3 : grows e1 e2 -> grows e2 e3 -> grows e1 e3.
Proof.
  intros G12 G23 A1. destruct (G12 A1) as ((L12 & K12) & A2).
  destruct (G23 A2) as ((L23 & K23) & A3). split; [|exact A3].
  split; [lia|]. intros id p G.
  destruct (K12 id p G) as (p2 & G2 & Ea & Ek).
  destruct (K23 id p2 G2) as (p3 & G3 & Ea3 & Ek3).
  exists p3. repeat split; congruence.
Qed.

Lemma grows_same e e' :
  e_producers e' = e_producers e -> e_nextId e <= e_nextId e' -> grows e e'.
Proof.
  intros Ep Le A. split.
  - split; [exact Le|]. intros id p G. rewrite Ep. eauto.
  - intros id p G. rewrite Ep in G. apply A in G. lia.
Qed.

Lemma grows_updateWhere sel e e' :
  e_producers e' = updateWhere sel closeProducer (e_producers e) ->
  e_nextId e' = e_nextId e -> grows e e'.
Proof.
  intros Ep En A. split.
  - split; [lia|]. intros id p G. rewrite Ep, get_updateWhere, G. cbn [option_map].
    destruct (sel p); eauto.
  - intros id p G. rewrite Ep, get_updateWhere in G.
    destruct (JsMap.get (e_producers e) id) as [p0|] eqn:G0; [|discriminate].
    apply A in G0. lia.
Qed.

Lemma transportClose_grows x e : grows e (fst (transportClose x e)).
Proof.
  destruct (transportClose_cases x e) as [[-> _] | (t' & G' & C' & ->)]; cbn [fst].
  - apply grows_refl.
  - now apply (grows_updateWhere (producerOn x)).
Qed.

Lemma routerClose_grows x e : grows e (routerClose x e).
Proof.
  apply grows_trans with
    (fold_left (fun acc tid => fst (transportClose tid acc))
               (idsWhere (transportOfRouter x) (e_transports e)) e).
  - apply (fold_transportClose_keeps (fun e0 => grows e e0)).
    + intros y e0 N. eapply grows_trans; [exact N | apply transportClose_grows].
    + apply grows_refl.
  - apply grows_same; cbn; auto.
Qed.

Lemma createRouter_grows pid e : grows e (snd (createRouter pid e)).
Proof. apply grows_same; cbn; auto. Qed.

Lemma createWebRtcTransport_grows r p e x e' :
  createWebRtcTransport r p e = Some (x, e') -> grows e e'.
Proof.
  unfold createWebRtcTransport. intros E.
  destruct (JsMap.get (e_routers e) r) as [rt|]; [|discriminate].
  destruct (router_closed rt); [discriminate|]. injection E as _ <-.
  apply grows_same; cbn; auto.
Qed.

Lemma markConsuming_grows t e : grows e (markConsuming t e).
Proof.
  unfold markConsuming.
  destruct (JsMap.get (e_transports e) t); [apply grows_same; cbn; auto | apply grows_refl].
Qed.

Lemma connect_grows t e e' : connect t e = Some e' -> grows e e'.
Proof.
  unfold connect. intros E.
  destruct (JsMap.get (e_transports e) t) as [tr|]; [|discriminate].
  destruct (transport_closed tr || transport_connected tr); [discriminate|].
  injection E as <-. apply grows_same; cbn; auto.
Qed.

(** What [transport.produce] creates. *)
Lemma produce_creates t k rtp ad e id e' :
  produce t k rtp ad e = Some (id, e') ->
  id = e_nextId e /\
  e_nextId e' = S (e_nextId e) /\
  e_producers e' = JsMap.set (e_producers e) id (mkProducer t k rtp ad false false).
Proof.
  unfold produce. intros E.
  destruct (JsMap.get (e_transports e) t) as [tr|]; [|discriminate].
  destruct (transport_closed tr || collides t rtp e); [discriminate|].
  injection E as <- <-. cbn. auto.
Qed.

Lemma produce_grows t k rtp ad e x e' :
  produce t k rtp ad e = Some (x, e') -> grows e e'.
Proof.
  intros E A. destruct (produce_creates _ _ _ _ _ _ _ E) as (-> & En & Ep). split.
  - split; [lia|]. intros id p G. rewrite Ep.
    rewrite JsMapFacts.get_set_other; [eauto|]. apply A in G. lia.
  - intros id p G. rewrite Ep in G. rewrite En.
    destruct (Nat.eq_dec id (e_nextId e)) as [->|N]; [lia|].
    rewrite JsMapFacts.get_set_other in G by exact N. apply A in G. lia.
Qed.

Lemma consume_grows t p caps paused e x e' :
  consume t p caps paused e = Some (x, e') -> grows e e'.
Proof.
  unfold consume. intros E.
  destruct (JsMap.get (e_transports e) t) as [tr|]; [|discriminate].
  destruct (transport_closed tr); [discriminate|].
  destruct (routerProducer (transport_routerId tr) p e) as [pr|]; [|discriminate].
  destruct (ortc_canConsume (producer_rtpParameters pr) caps); [|discriminate].
  injection E as _ <-. apply grows_same; cbn; auto.
Qed.

Lemma updateProducer_grows id f e e' :
  (forall p, producer_appData (f p) = producer_appData p /\
             producer_kind (f p) = producer_kind p) ->
  updateProducer id f e = Some e' -> grows e e'.
Proof.
  unfold updateProducer. intros Keep E A.
  destruct (JsMap.get (e_producers e) id) as [p0|] eqn:G0; [|discriminate].
  destruct (producer_closed p0); [discriminate|]. injection E as <-. split.
  - split; [cbn; lia|]. intros id' p G. cbn [e_producers].
    destruct (Nat.eq_dec id' id) as [->|N].
    + rewrite JsMapFacts.get_set_same. exists (f p0).
      assert (p = p0) as -> by congruence. destruct (Keep p0). auto.
    + rewrite JsMapFacts.get_set_other by exact N. eauto.
  - intros id' p G. cbn [e_producers e_nextId] in *.
    destruct (Nat.eq_dec id' id) as [->|N].
    + now apply A in G0.
    + rewrite JsMapFacts.get_set_other in G by exact N. now apply A in G.
Qed.

Lemma producerPause_grows id e e' : producerPause id e = Some e' -> grows e e'.
Proof. apply updateProducer_grows. intros p. split; reflexivity. Qed.

Lemma producerResume_grows id e e' : producerResume id e = Some e' -> grows e e'.
Proof. apply updateProducer_grows. intros p. split; reflexivity. Qed.

Lemma producerClose_grows id e : grows e (producerClose id e).
Proof.
  unfold producerClose. destruct (updateProducer id closeProducer e) eqn:E.
  - revert E. apply updateProducer_grows. intros p. split; reflexivity.
  - apply grows_refl.
Qed.

Lemma updateConsumer_grows id f e e' : updateConsumer id f e = Some e' -> grows e e'.
Proof.
  unfold updateConsumer. intros E.
  destruct (JsMap.get (e_consumers e) id) as [c|]; [|discriminate].
  destruct (consumer_closed c); [discriminate|]. injection E as <-.
  apply grows_same; cbn; auto.
Qed.

Lemma producerCloseNotification_grows id e e' :
  producerCloseNotification id e = Some e' -> grows e e'.
Proof.
  unfold producerCloseNotification. intros E.
  destruct (JsMap.get (e_consumers e) id) as [c|]; [|discriminate].
  destruct (consumer_closed c); [discriminate|].
  destruct (JsMap.get (e_producers e) (consumer_producerId c)) as [p|]; [|discriminate].
  destruct (producer_closed p); [|discriminate].
  revert E. apply updateConsumer_grows.
Qed.

(** *** What is due on a transport stays due *)

Lemma keepsDue_refl e : keepsDue e e.
Proof. intros A B. auto. Qed.

Lemma keepsDue_trans e1 e2 e3 : keepsDue e1 e2 -> keepsDue e2 e3 -> keepsDue e1 e3.
Proof.
  intros K12 K23 A1 B1. destruct (K12 A1 B1) as (A2 & B2 & P12 & C12).
  destruct (K23 A2 B2) as (A3 & B3 & P23 & C23). repeat split; auto.
Qed.

(** Transports rewritten without closing any, objects untouched. *)
Lemma keepsDue_transports e e' :
  e_producers e' = e_producers e -> e_consumers e' = e_consumers e ->
  e_nextId e <= e_nextId e' ->
  (forall tid t, JsMap.get (e_transports e) tid = Some t -> transport_closed t = false ->
     exists t', JsMap.get (e_transports e') tid = Some t' /\ transport_closed t' = false) ->
  keepsDue e e'.
Proof.
  intros Ep Ec Le Tr A B. split; [|split; [|split]].
  - intros id p G. rewrite Ep in G. apply A in G. lia.
  - intros id c G. rewrite Ec in G. apply B in G. lia.
  - intros tid id (p & G & T & D). exists p. rewrite Ep. repeat split; auto.
    destruct D as [C | (t & Gt & Ct)]; [now left | right]. eauto.
  - intros tid id (c & G & T & D). exists c. rewrite Ec. repeat split; auto.
    destruct D as [C | (t & Gt & Ct)]; [now left | right]. eauto.
Qed.

Lemma transportClose_due_producer x e tid id :
  producerDueOn e tid id -> producerDueOn (fst (transportClose x e)) tid id.
Proof.
  intros D. destruct (Nat.eq_dec x tid) as [->|N].
  - destruct D as (p & G & T & D).
    destruct (transportClose_cases tid e) as [[-> _] | (t' & G' & C' & ->)]; cbn [fst].
    + now exists p.
    + unfold producerDueOn. cbn [e_producers e_transports].
      rewrite get_updateWhere, G. cbn [option_map].
      unfold producerOn. rewrite T, Nat.eqb_refl. cbn [andb].
      destruct (producer_closed p) eqn:C; cbn [negb].
      * exists p. auto.
      * exists (closeProducer p). cbn. auto.
  - now apply transportClose_other_producer.
Qed.

Lemma transportClose_due_consumer x e tid id :
  consumerDueOn e tid id -> consumerDueOn (fst (transportClose x e)) tid id.
Proof.
  intros D. destruct (Nat.eq_dec x tid) as [->|N].
  - destruct D as (c & G & T & D).
    destruct (transportClose_cases tid e) as [[-> _] | (t' & G' & C' & ->)]; cbn [fst].
    + now exists c.
    + unfold consumerDueOn. cbn [e_consumers e_transports].
      rewrite get_updateWhere, G. cbn [option_map].
      unfold consumerOn. rewrite T, Nat.eqb_refl. cbn [andb].
      destruct (consumer_closed c) eqn:C; cbn [negb].
      * exists c. auto.
      * exists (closeConsumer c). cbn. auto.
  - now apply transportClose_other_consumer.
Qed.

Lemma transportClose_keepsDue x e : keepsDue e (fst (transportClose x e)).
Proof.
  intros A B. split; [|split; [|split]].
  - destruct (transportClose_cases x e) as [[-> _] | (t' & G' & C' & ->)]; cbn [fst];
      [exact A|].
    intros id p G. cbn [e_producers e_nextId] in *. rewrite get_updateWhere in G.
    destruct (JsMap.get (e_producers e) id) as [p0|] eqn:G0; [|discriminate].
    now apply A in G0.
  - destruct (transportClose_cases x e) as [[-> _] | (t' & G' & C' & ->)]; cbn [fst];
      [exact B|].
    intros id c G. cbn [e_consumers e_nextId] in *. rewrite get_updateWhere in G.
    destruct (JsMap.get (e_consumers e) id) as [c0|] eqn:G0; [|discriminate].
    now apply B in G0.
  - intros tid id. apply transportClose_due_producer.
  - intros tid id. apply transportClose_due_consumer.
Qed.

Lemma routerClose_keepsDue x e : keepsDue e (routerClose x e).
Proof.
  apply keepsDue_trans with
    (fold_left (fun acc tid => fst (transportClose tid acc))
               (idsWhere (transportOfRouter x) (e_transports e)) e).
  - apply (fold_transportClose_keeps (fun e0 => keepsDue e e0)).
    + intros y e0 N. eapply keepsDue_trans; [exact N | apply transportClose_keepsDue].
    + apply keepsDue_refl.
  - apply keepsDue_transports; cbn; eauto.
Qed.

Lemma createRouter_keepsDue pid e : keepsDue e (snd (createRouter pid e)).
Proof. apply keepsDue_transports; cbn; eauto. Qed.

Lemma createWebRtcTransport_keepsDue r p e x e' :
  createWebRtcTransport r p e = Some (x, e') -> keepsDue e e'.
Proof.
  unfold createWebRtcTransport. intros E.
  destruct (JsMap.get (e_routers e) r) as [rt|]; [|discriminate].
  destruct (router_closed rt); [discriminate|]. injection E as _ <-.
  apply keepsDue_transports; cbn; auto.
  intros tid t G C. destruct (Nat.eq_dec tid (e_nextId e)) as [->|N].
  - rewrite JsMapFacts.get_set_same. eauto.
  - rewrite JsMapFacts.get_set_other by exact N. eauto.
Qed.

Lemma markConsuming_keepsDue x e : keepsDue e (markConsuming x e).
Proof.
  unfold markConsuming.
  destruct (JsMap.get (e_transports e) x) as [t0|] eqn:G0; [|apply keepsDue_refl].
  apply keepsDue_transports; cbn; auto.
  intros tid t G C. destruct (Nat.eq_dec tid x) as [->|N].
  - rewrite JsMapFacts.get_set_same. eexists. split; [reflexivity|]. cbn. congruence.
  - rewrite JsMapFacts.get_set_other by exact N. eauto.
Qed.

Lemma connect_keepsDue x e e' : connect x e = Some e' -> keepsDue e e'.
Proof.
  unfold connect. intros E.
  destruct (JsMap.get (e_transports e) x) as [t0|] eqn:G0; [|discriminate].
  destruct (transport_closed t0 || transport_connected t0); [discriminate|].
  injection E as <-. apply keepsDue_transports; cbn; auto.
  intros tid t G C. destruct (Nat.eq_dec tid x) as [->|N].
  - rewrite JsMapFacts.get_set_same. eauto.
  - rewrite JsMapFacts.get_set_other by exact N. eauto.
Qed.

Lemma produce_transport_open t k rtp ad e x e' :
  produce t k rtp ad e = Some (x, e') ->
  exists tr, JsMap.get (e_transports e') t = Some tr /\ transport_closed tr = false.
Proof.
  unfold produce. intros E.
  destruct (JsMap.get (e_transports e) t) as [tr|] eqn:G; [|discriminate].
  destruct (transport_closed tr) eqn:C; [discriminate|].
  destruct (collides t rtp e); [discriminate|]. injection E as _ <-.
  exists tr. cbn. auto.
Qed.

Lemma produce_places t k rtp ad e id e' :
  produce t k rtp ad e = Some (id, e') -> producerDueOn e' t id.
Proof.
  intros E. destruct (produce_creates _ _ _ _ _ _ _ E) as (_ & _ & Ep).
  destruct (produce_transport_open _ _ _ _ _ _ _ E) as (tr & G & C).
  eexists. rewrite Ep, JsMapFacts.get_set_same.
  split; [reflexivity|]. split; [reflexivity|]. right. eauto.
Qed.

Lemma produce_keepsDue t k rtp ad e x e' :
  produce t k rtp ad e = Some (x, e') -> keepsDue e e'.
Proof.
  intros E A B. destruct (produce_creates _ _ _ _ _ _ _ E) as (-> & En & Ep).
  assert (Et : e_transports e' = e_transports e /\ e_consumers e' = e_consumers e).
  { revert E. unfold produce.
    destruct (JsMap.get (e_transports e) t) as [tr|]; [|discriminate].
    destruct (transport_closed tr || collides t rtp e); [discriminate|].
    intros E. injection E as <-. auto. }
  destruct Et as (Et & Ec). split; [|split; [|split]].
  - intros id p G. rewrite Ep in G. rewrite En.
    destruct (Nat.eq_dec id (e_nextId e)) as [->|N]; [lia|].
    rewrite JsMapFacts.get_set_other in G by exact N. apply A in G. lia.
  - intros id c G. rewrite Ec in G. apply B in G. lia.
  - intros tid id (p & G & T & D). exists p. rewrite Ep, Et.
    rewrite JsMapFacts.get_set_other; [auto|]. apply A in G. lia.
  - intros tid id (c & G & T & D). exists c. rewrite Ec, Et. auto.
Qed.

Lemma consume_places t p caps paused e id c e' :
  consume t p caps paused e = Some (id, c, e') -> consumerDueOn e' t id.
Proof.
  intros E. destruct (consume_creates _ _ _ _ _ _ _ _ E) as (_ & Ec & _ & _ & Tc & Cc).
  revert E. unfold consume.
  destruct (JsMap.get (e_transports e) t) as [tr|] eqn:G; [|discriminate].
  destruct (transport_closed tr) eqn:C; [discriminate|].
  destruct (routerProducer (transport_routerId tr) p e) as [pr|]; [|discriminate].
  destruct (ortc_canConsume (producer_rtpParameters pr) caps); [|discriminate].
  intros E. injection E as _ _ <-.
  exists c. cbn [e_consumers e_transports]. cbn [e_consumers] in Ec.
  rewrite Ec, JsMapFacts.get_set_same.
  split; [reflexivity|]. split; [exact Tc|]. right. eauto.
Qed.

Lemma consume_keepsDue t p caps paused e x e' :
  consume t p caps paused e = Some (x, e') -> keepsDue e e'.
Proof.
  destruct x as [id c]. intros E A B.
  destruct (consume_creates _ _ _ _ _ _ _ _ E) as (-> & Ec & _).
  assert (Et : e_transports e' = e_transports e /\ e_producers e' = e_producers e
               /\ e_nextId e' = S (e_nextId e)).
  { revert E. unfold consume.
    destruct (JsMap.get (e_transports e) t) as [tr|]; [|discriminate].
    destruct (transport_closed tr); [discriminate|].
    destruct (routerProducer (transport_routerId tr) p e) as [pr|]; [|discriminate].
    destruct (ortc_canConsume (producer_rtpParameters pr) caps); [|discriminate].
    intros E. injection E as _ <-. auto. }
  destruct Et as (Et & Ep & En). split; [|split; [|split]].
  - intros id p0 G. rewrite Ep in G. apply A in G. lia.
  - intros id c0 G. rewrite Ec in G. rewrite En.
    destruct (Nat.eq_dec id (e_nextId e)) as [->|N]; [lia|].
    rewrite JsMapFacts.get_set_other in G by exact N. apply B in G. lia.
  - intros tid id (p0 & G & T & D). exists p0. rewrite Ep, Et. auto.
  - intros tid id (c0 & G & T & D). exists c0. rewrite Ec, Et.
    rewrite JsMapFacts.get_set_other; [auto|]. apply B in G. lia.
Qed.

Lemma updateProducer_keepsDue id f e e' :
  (forall p, producer_transportId (f p) = producer_transportId p /\
             (producer_closed p = true -> producer_closed (f p) = true)) ->
  updateProducer id f e = Some e' -> keepsDue e e'.
Proof.
  unfold updateProducer. intros Keep E A B.
  destruct (JsMap.get (e_producers e) id) as [p0|] eqn:G0; [|discriminate].
  destruct (producer_closed p0) eqn:C0; [discriminate|]. injection E as <-.
  split; [|split; [|split]]; cbn [e_producers e_consumers e_transports e_nextId].
  - intros id' p G. cbn [e_producers e_nextId] in *.
    destruct (Nat.eq_dec id' id) as [->|N].
    + now apply A in G0.
    + rewrite JsMapFacts.get_set_other in G by exact N. now apply A in G.
  - exact B.
  - intros tid id' (p & G & T & D). unfold producerDueOn.
    cbn [e_producers e_transports].
    destruct (Nat.eq_dec id' id) as [->|N].
    + rewrite JsMapFacts.get_set_same. exists (f p0).
      assert (p = p0) as -> by congruence. destruct (Keep p0) as (Kt & Kc).
      split; [reflexivity|]. split; [congruence|].
      destruct D as [C | D]; [congruence | now right].
    + rewrite JsMapFacts.get_set_other by exact N. now exists p.
  - intros tid id' D. exact D.
Qed.

Lemma producerPause_keepsDue id e e' : producerPause id e = Some e' -> keepsDue e e'.
Proof. apply updateProducer_keepsDue. intros p. split; auto. Qed.

Lemma producerResume_keepsDue id e e' : producerResume id e = Some e' -> keepsDue e e'.
Proof. apply updateProducer_keepsDue. intros p. split; auto. Qed.

Lemma producerClose_keepsDue id e : keepsDue e (producerClose id e).
Proof.
  unfold producerClose. destruct (updateProducer id closeProducer e) eqn:E.
  - revert E. apply updateProducer_keepsDue. intros p. split; auto.
  - apply keepsDue_refl.
Qed.

Lemma updateConsumer_keepsDue id f e e' :
  (forall c, consumer_transportId (f c) = consumer_transportId c /\
             (consumer_closed c = true -> consumer_closed (f c) = true)) ->
  updateConsumer id f e = Some e' -> keepsDue e e'.
Proof.
  unfold updateConsumer. intros Keep E A B.
  destruct (JsMap.get (e_consumers e) id) as [c0|] eqn:G0; [|discriminate].
  destruct (consumer_closed c0) eqn:C0; [discriminate|]. injection E as <-.
  split; [|split; [|split]]; cbn [e_producers e_consumers e_transports e_nextId].
  - exact A.
  - intros id' c G. cbn [e_consumers e_nextId] in *.
    destruct (Nat.eq_dec id' id) as [->|N].
    + now apply B in G0.
    + rewrite JsMapFacts.get_set_other in G by exact N. now apply B in G.
  - intros tid id' D. exact D.
  - intros tid id' (c & G & T & D). unfold consumerDueOn.
    cbn [e_consumers e_transports].
    destruct (Nat.eq_dec id' id) as [->|N].
    + rewrite JsMapFacts.get_set_same. exists (f c0).
      assert (c = c0) as -> by congruence. destruct (Keep c0) as (Kt & Kc).
      split; [reflexivity|]. split; [congruence|].
      destruct D as [C | D]; [congruence | now right].
    + rewrite JsMapFacts.get_set_other by exact N. now exists c.
Qed.

Lemma consumerResume_keepsDue id e e' : consumerResume id e = Some e' -> keepsDue e e'.
Proof. apply updateConsumer_keepsDue. intros c. split; auto. Qed.

Lemma consumerSetPreferredLayers_keepsDue id l e e' :
  consumerSetPreferredLayers id l e = Some e' -> keepsDue e e'.
Proof. apply updateConsumer_keepsDue. intros c. split; auto. Qed.

Lemma producerCloseNotification_keepsDue id e e' :
  producerCloseNotification id e = Some e' -> keepsDue e e'.
Proof.
  unfold producerCloseNotification. intros E.
  destruct (JsMap.get (e_consumers e) id) as [c|]; [|discriminate].
  destruct (consumer_closed c); [discriminate|].
  destruct (JsMap.get (e_producers e) (consumer_producerId c)) as [p|]; [|discriminate].
  destruct (producer_closed p); [|discriminate].
  revert E. apply updateConsumer_keepsDue. intros c0. split; auto.
Qed.

End Facts.
End MediasoupFacts.

(** ** Key lists of the peer maps *)

Section Refs.
Import RoomJs.

Lemma refsHas_In l id : refsHas l id = true <-> In id l.
Proof.
  unfold refsHas. rewrite existsb_exists. split.
  - intros (x & Hin & E). apply Nat.eqb_eq in E. now subst.
  - intros Hin. exists id. split; [exact Hin | apply Nat.eqb_refl].
Qed.

Lemma refsHas_not_In l id : refsHas l id = false <-> ~ In id l.
Proof.
  rewrite <- refsHas_In. destruct (refsHas l id); split; congruence.
Qed.

Lemma In_refsSet l id x : In x (refsSet l id) <-> In x l \/ x = id.
Proof.
  unfold refsSet. destruct (refsHas l id) eqn:E.
  - apply refsHas_In in E. split; [now left | intros [Hin | ->]; assumption].
  - rewrite in_app_iff. simpl. intuition congruence.
Qed.

Lemma refsSet_fresh l id : ~ In id l -> refsSet l id = l ++ [id].
Proof.
  intros N. unfold refsSet. apply refsHas_not_In in N. now rewrite N.
Qed.

Lemma In_refsDelete l id x : In x (refsDelete l id) <-> In x l /\ x <> id.
Proof.
  unfold refsDelete. rewrite filter_In. split; intros [Hin E]; split; auto.
  - intros ->. now rewrite Nat.eqb_refl in E.
  - apply Bool.negb_true_iff, Nat.eqb_neq. congruence.
Qed.

Lemma In_fold_refsDelete ids l x :
  In x (fold_left refsDelete ids l) -> In x l.
Proof.
  revert l. induction ids as [|i ids IH]; intros l Hin; simpl in Hin; auto.
  apply IH in Hin. now apply In_refsDelete in Hin.
Qed.

End Refs.

(** Unfolds the monadic plumbing down to the state transformer. *)
Ltac unfold_js :=
  cbv beta iota delta
    [bind ret throw getState putState modify ServerJs.call
     RoomJs.setPeers RoomJs.setEngine RoomJs.getPeer RoomJs.putPeer
     RoomJs.await RoomJs.await_ ServerJs.setRooms ServerJs.setServerEngine
     ServerJs.roomOrThrow].

Ltac proj_js :=
  cbn [fst snd RoomJs.peers RoomJs.router RoomJs.roomId ServerJs.workers
       ServerJs.nextWorkerIdx ServerJs.rooms ServerJs.engine].

(** ** The registry and the membership calls *)

Section Registry.
Context `{Ortc}.
Import ServerJs.
Import Props.
Abbreviation Engine := Mediasoup.Engine.
Abbreviation Room := RoomJs.Room.

Lemma server_eta (s : Server) :
  mkServer (workers s) (nextWorkerIdx s) (rooms s) (engine s) = s.
Proof. now destruct s. Qed.

Lemma room_eta (room : Room) :
  RoomJs.mkRoom (RoomJs.roomId room) (RoomJs.router room) (RoomJs.peers room) = room.
Proof. now destruct room. Qed.

Lemma getOrCreateRoom_registered s roomId room :
  JsMap.get (rooms s) roomId = Some room ->
  getOrCreateRoom roomId s = (Return room, s).
Proof.
  intros G. unfold getOrCreateRoom. unfold_js. now rewrite G.
Qed.

Lemma call_unchanged {A} s roomId room (a : Outcome A) (m : RoomJs.RoomM A) :
  JsMap.get (rooms s) roomId = Some room ->
  m (room, engine s) = (a, (room, engine s)) ->
  call roomId room m s = (a, s).
Proof.
  intros G E. unfold call. rewrite E.
  rewrite (JsMapFacts.set_same _ _ _ G). now rewrite server_eta.
Qed.

Lemma leave_unregistered s roomId peerId :
  JsMap.get (rooms s) roomId = None ->
  handleRpcRequest (Leave roomId peerId) s = (Return (LeaveResult []), s).
Proof.
  intros G. cbn [handleRpcRequest]. unfold_js. now rewrite G.
Qed.

(** What a Leave on a registered room does, in one equation. *)
Lemma leave_registered s roomId room peerId :
  JsMap.get (rooms s) roomId = Some room ->
  let peer := JsMap.get (RoomJs.peers room) peerId in
  let peers' := JsMap.delete (RoomJs.peers room) peerId in
  let e1 := engineAfterRemove (engine s) peer in
  handleRpcRequest (Leave roomId peerId) s
  = (Return (LeaveResult (closedByRemove peer)),
     if Nat.eqb (JsMap.size peers') 0
     then mkServer (workers s) (nextWorkerIdx s) (JsMap.delete (rooms s) roomId)
                   (Mediasoup.routerClose (RoomJs.router room) e1)
     else mkServer (workers s) (nextWorkerIdx s)
                   (JsMap.set (rooms s) roomId
                      (RoomJs.mkRoom (RoomJs.roomId room) (RoomJs.router room) peers'))
                   e1).
Proof.
  intros G peer peers' e1. subst peer peers' e1.
  cbn [handleRpcRequest]. unfold RoomJs.removePeer, deleteRoom, RoomJs.close,
    RoomJs.getPeerCount.
  unfold_js. rewrite G. proj_js.
  destruct (JsMap.get (RoomJs.peers room) peerId) as [peer|] eqn:P;
    proj_js; cbn [engineAfterRemove closedByRemove].
  - destruct (Nat.eqb (JsMap.size (JsMap.delete (RoomJs.peers room) peerId)) 0) eqn:Z;
      proj_js; [|reflexivity].
    rewrite JsMapFacts.get_set_same. proj_js.
    rewrite JsMapFacts.set_set_same, JsMapFacts.delete_set_same.
    apply Nat.eqb_eq in Z. unfold JsMap.size in Z.
    apply length_zero_iff_nil in Z. rewrite Z. reflexivity.
  - rewrite (JsMapFacts.delete_absent _ _ P).
    destruct (Nat.eqb (JsMap.size (RoomJs.peers room)) 0) eqn:Z;
      proj_js; [|now rewrite room_eta].
    rewrite JsMapFacts.get_set_same. proj_js.
    rewrite JsMapFacts.set_set_same, JsMapFacts.delete_set_same.
    apply Nat.eqb_eq in Z. unfold JsMap.size in Z.
    apply length_zero_iff_nil in Z. rewrite Z. reflexivity.
Qed.

(** C7. A Join that names a peer already in the room changes nothing: the
    reply is the current peer list and the server state, hence the peer's
    display name, transports, producers and consumers, is the one before
    the call. *)
Theorem join_present_is_noop s roomId room peerId peer name :
  JsMap.get (rooms s) roomId = Some room ->
  JsMap.get (RoomJs.peers room) peerId = Some peer ->
  handleRpcRequest (Join roomId peerId name) s
  = (Return (JoinResult (RoomJs.getPeerList room)), s)
  /\ peerOf (snd (handleRpcRequest (Join roomId peerId name) s)) roomId peerId
     = Some peer.
Proof.
  intros G P.
  assert (E : handleRpcRequest (Join roomId peerId name) s
              = (Return (JoinResult (RoomJs.getPeerList room)), s)).
  { cbn [handleRpcRequest]. unfold bind at 1.
    rewrite (getOrCreateRoom_registered _ _ _ G).
    apply call_unchanged; [exact G|].
    unfold RoomJs.addPeer. unfold_js. cbn [fst snd].
    unfold JsMap.has. now rewrite P. }
  split; [exact E|]. rewrite E. cbn [snd]. unfold peerOf. now rewrite G.
Qed.

Lemma closePeerTransport_engine (st : RoomJs.Peer * Engine) x :
  snd (RoomJs.closePeerTransport st x) = fst (Mediasoup.transportClose x (snd st)).
Proof.
  unfold RoomJs.closePeerTransport.
  now destruct (Mediasoup.transportClose x (snd st)) as [e' [ps cs]].
Qed.

Lemma closePeerTransports_keep (P : Engine -> Prop) l (st : RoomJs.Peer * Engine) :
  (forall x e0, P e0 -> P (fst (Mediasoup.transportClose x e0))) ->
  P (snd st) -> P (snd (fold_left RoomJs.closePeerTransport l st)).
Proof.
  intros Step. revert st. induction l as [|x l IH]; intros st Pst; simpl; auto.
  apply IH. rewrite closePeerTransport_engine. now apply Step.
Qed.

(** Closing the transports of a list one by one reaches the goal [Q] as
    soon as the transport [tid] comes up, provided the closes before it
    keep [tid] due ([D]) and the closes after it keep [Q]. *)
Lemma closePeerTransports_reach (D Q : Engine -> Prop) tid l
    (st : RoomJs.Peer * Engine) :
  (forall e0, D e0 -> Q (fst (Mediasoup.transportClose tid e0))) ->
  (forall x e0, x <> tid -> D e0 -> D (fst (Mediasoup.transportClose x e0))) ->
  (forall x e0, Q e0 -> Q (fst (Mediasoup.transportClose x e0))) ->
  In tid l -> D (snd st) ->
  Q (snd (fold_left RoomJs.closePeerTransport l st)).
Proof.
  intros Hit Miss Keep. revert st.
  induction l as [|x l IH]; intros st Hin Dst; [destruct Hin|].
  simpl. destruct (Nat.eq_dec x tid) as [->|N].
  - apply closePeerTransports_keep; [exact Keep|].
    rewrite closePeerTransport_engine. now apply Hit.
  - destruct Hin as [E|Hin]; [congruence|].
    apply IH; [exact Hin|]. rewrite closePeerTransport_engine. now apply Miss.
Qed.

Lemma leave_engine s roomId room peerId (P : Engine -> Prop) :
  JsMap.get (rooms s) roomId = Some room ->
  (forall x e0, P e0 -> P (Mediasoup.routerClose x e0)) ->
  P (engineAfterRemove (engine s) (JsMap.get (RoomJs.peers room) peerId)) ->
  P (engine (snd (handleRpcRequest (Leave roomId peerId) s))).
Proof.
  intros G Keep Pe. rewrite (leave_registered _ _ _ _ G). cbn [snd].
  destruct (Nat.eqb _ 0); cbn [engine]; auto.
Qed.

Lemma peerOf_after_leave s roomId peerId :
  peerOf (snd (handleRpcRequest (Leave roomId peerId) s)) roomId peerId = None.
Proof.
  unfold peerOf. destruct (JsMap.get (rooms s) roomId) as [room|] eqn:G.
  - rewrite (leave_registered _ _ _ _ G). cbn [snd].
    destruct (Nat.eqb _ 0); cbn [rooms].
    + now rewrite JsMapFacts.get_delete_same.
    + rewrite JsMapFacts.get_set_same. cbn [RoomJs.peers].
      apply JsMapFacts.get_delete_same.
  - rewrite (leave_unregistered _ _ _ G). cbn [snd]. now rewrite G.
Qed.

Lemma leave_absent_reply s roomId peerId :
  peerOf s roomId peerId = None ->
  fst (handleRpcRequest (Leave roomId peerId) s) = Return (LeaveResult []).
Proof.
  unfold peerOf. destruct (JsMap.get (rooms s) roomId) as [room|] eqn:G; intros P.
  - rewrite (leave_registered _ _ _ _ G). cbn [fst]. now rewrite P.
  - now rewrite (leave_unregistered _ _ _ G).
Qed.

Lemma leave_absent_state s roomId peerId :
  peerOf s roomId peerId = None ->
  registered s roomId = false \/ peerIds s roomId <> [] ->
  snd (handleRpcRequest (Leave roomId peerId) s) = s.
Proof.
  unfold peerOf, registered, peerIds, JsMap.has.
  destruct (JsMap.get (rooms s) roomId) as [room|] eqn:G; intros P Hs.
  - destruct Hs as [Hs|Hs]; [discriminate|].
    rewrite (leave_registered _ _ _ _ G). cbn [snd]. rewrite P.
    rewrite (JsMapFacts.delete_absent _ _ P). cbn [engineAfterRemove].
    destruct (RoomJs.peers room) as [|entry rest] eqn:Ps; [now elim Hs|].
    cbn [JsMap.size List.length Nat.eqb]. rewrite <- Ps, room_eta.
    rewrite (JsMapFacts.set_same _ _ _ G). apply server_eta.
  - now rewrite (leave_unregistered _ _ _ G).
Qed.

Lemma leave_absent_empty_room s roomId room peerId :
  JsMap.get (rooms s) roomId = Some room ->
  RoomJs.peers room = [] ->
  snd (handleRpcRequest (Leave roomId peerId) s)
  = mkServer (workers s) (nextWorkerIdx s) (JsMap.delete (rooms s) roomId)
             (Mediasoup.routerClose (RoomJs.router room) (engine s)).
Proof.
  intros G E. rewrite (leave_registered _ _ _ _ G). cbn [snd]. now rewrite E.
Qed.

(** C2, as the code has it. After any Leave the peer is gone and a Leave
    repeated on the result replies with the empty list and changes
    nothing. A Leave for a peer that is not in the room replies with the
    empty list and no error; it changes nothing when the room is not
    registered or still has a peer, and destroys the room (unregistered,
    router closed) when the room is registered with no peer at all. *)
Theorem leave_of_absent_peer s roomId peerId :
  let s1 := snd (handleRpcRequest (Leave roomId peerId) s) in
  peerOf s1 roomId peerId = None /\
  handleRpcRequest (Leave roomId peerId) s1 = (Return (LeaveResult []), s1) /\
  (peerOf s roomId peerId = None ->
   fst (handleRpcRequest (Leave roomId peerId) s) = Return (LeaveResult []) /\
   (registered s roomId = false \/ peerIds s roomId <> [] -> s1 = s) /\
   (forall room, JsMap.get (rooms s) roomId = Some room -> RoomJs.peers room = [] ->
      s1 = mkServer (workers s) (nextWorkerIdx s) (JsMap.delete (rooms s) roomId)
                    (Mediasoup.routerClose (RoomJs.router room) (engine s)))).
Proof.
  intros s1. subst s1.
  pose proof (peerOf_after_leave s roomId peerId) as Gone.
  split; [exact Gone|]. split.
  - set (s1 := snd (handleRpcRequest (Leave roomId peerId) s)) in *.
    rewrite (surjective_pairing (handleRpcRequest (Leave roomId peerId) s1)).
    f_equal; [now apply leave_absent_reply|].
    apply leave_absent_state; [exact Gone|].
    subst s1. unfold registered, peerIds, JsMap.has.
    destruct (JsMap.get (rooms s) roomId) as [room|] eqn:G.
    + rewrite (leave_registered _ _ _ _ G). cbn [snd].
      destruct (Nat.eqb _ 0) eqn:Z; cbn [rooms].
      * left. now rewrite JsMapFacts.get_delete_same.
      * right. rewrite JsMapFacts.get_set_same. cbn [RoomJs.peers].
        intros E. apply Nat.eqb_neq in Z. apply Z. unfold JsMap.size.
        unfold JsMap.keys in E. apply map_eq_nil in E. now rewrite E.
    + rewrite (leave_unregistered _ _ _ G). cbn [snd]. rewrite G. now left.
  - intros P. split; [now apply leave_absent_reply|]. split.
    + now apply leave_absent_state.
    + intros room G E. now apply leave_absent_empty_room.
Qed.

(** The effects of a Leave of a peer that is in the room, in any state. *)
Lemma leave_removes_and_closes_due s roomId room peerId peer :
  JsMap.get (rooms s) roomId = Some room ->
  JsMap.get (RoomJs.peers room) peerId = Some peer ->
  let out := handleRpcRequest (Leave roomId peerId) s in
  let e' := engine (snd out) in
  fst out = Return (LeaveResult (RoomJs.producers peer)) /\
  peerOf (snd out) roomId peerId = None /\
  peerIds (snd out) roomId
  = filter (fun q => negb (keq peerId q)) (peerIds s roomId) /\
  (forall q, q <> peerId -> peerOf s roomId q <> None ->
             peerOf (snd out) roomId q = peerOf s roomId q) /\
  (forall tid t, In tid (RoomJs.transports peer) ->
     JsMap.get (Mediasoup.e_transports (engine s)) tid = Some t ->
     transportIsClosed e' tid) /\
  (forall tid id, In tid (RoomJs.transports peer) ->
     producerDueOn (engine s) tid id ->
     producerIsClosed e' id) /\
  (forall tid id, In tid (RoomJs.transports peer) ->
     consumerDueOn (engine s) tid id ->
     consumerIsClosed e' id).
Proof.
  intros G P out e'. subst out e'.
  split; [|split; [|split; [|split; [|split; [|split]]]]].
  - rewrite (leave_registered _ _ _ _ G). cbn [fst]. now rewrite P.
  - apply peerOf_after_leave.
  - unfold peerIds. rewrite G, (leave_registered _ _ _ _ G). cbn [snd].
    rewrite <- JsMapFacts.keys_delete.
    destruct (Nat.eqb _ 0) eqn:Z; cbn [rooms].
    + rewrite JsMapFacts.get_delete_same.
      apply Nat.eqb_eq in Z. unfold JsMap.size in Z.
      apply length_zero_iff_nil in Z. now rewrite Z.
    + now rewrite JsMapFacts.get_set_same.
  - intros q N Q. unfold peerOf in *. rewrite G in *.
    rewrite (leave_registered _ _ _ _ G). cbn [snd].
    destruct (Nat.eqb _ 0) eqn:Z; cbn [rooms].
    + exfalso. apply Nat.eqb_eq in Z. unfold JsMap.size in Z.
      apply length_zero_iff_nil in Z.
      rewrite <- (JsMapFacts.get_delete_other (RoomJs.peers room) _ _ N) in Q.
      rewrite Z in Q. now apply Q.
    + rewrite JsMapFacts.get_set_same. cbn [RoomJs.peers].
      now apply JsMapFacts.get_delete_other.
  - intros tid t Hin Gt.
    apply (leave_engine _ _ _ peerId
             (fun e0 => transportIsClosed e0 tid) G).
    + intros. now apply MediasoupFacts.routerClose_keeps_transport.
    + rewrite P. cbn [engineAfterRemove].
      apply (closePeerTransports_reach
               (fun e0 => exists t0, JsMap.get (Mediasoup.e_transports e0) tid = Some t0)
               (fun e0 => transportIsClosed e0 tid) tid); auto.
      * intros e0 (t0 & G0). now apply (MediasoupFacts.transportClose_closes _ _ _ G0).
      * intros x e0 _ (t0 & G0).
        now apply (MediasoupFacts.transportClose_keeps_known _ _ _ _ G0).
      * intros. now apply MediasoupFacts.transportClose_keeps_transport.
      * cbn [snd]. eauto.
  - intros tid id Hin Due.
    apply (leave_engine _ _ _ peerId
             (fun e0 => producerIsClosed e0 id) G).
    + intros. now apply MediasoupFacts.routerClose_keeps_producer.
    + rewrite P. cbn [engineAfterRemove].
      apply (closePeerTransports_reach
               (fun e0 => producerDueOn e0 tid id)
               (fun e0 => producerIsClosed e0 id) tid); auto.
      * intros. now apply MediasoupFacts.transportClose_reaches_producer.
      * intros. now apply MediasoupFacts.transportClose_other_producer.
      * intros. now apply MediasoupFacts.transportClose_keeps_producer.
  - intros tid id Hin Due.
    apply (leave_engine _ _ _ peerId
             (fun e0 => consumerIsClosed e0 id) G).
    + intros. now apply MediasoupFacts.routerClose_keeps_consumer.
    + rewrite P. cbn [engineAfterRemove].
      apply (closePeerTransports_reach
               (fun e0 => consumerDueOn e0 tid id)
               (fun e0 => consumerIsClosed e0 id) tid); auto.
      * intros. now apply MediasoupFacts.transportClose_reaches_consumer.
      * intros. now apply MediasoupFacts.transportClose_other_consumer.
      * intros. now apply MediasoupFacts.transportClose_keeps_consumer.
Qed.

(** A first creation: the next worker gets a new router, the room is
    registered with no peer, the worker index moves on. *)
Lemma getOrCreateRoom_unregistered s roomId :
  JsMap.get (rooms s) roomId = None ->
  getOrCreateRoom roomId s
  = match nth_error (workers s) (nextWorkerIdx s) with
    | Some pid =>
        let id := Mediasoup.e_nextId (engine s) in
        (Return (RoomJs.newRoom roomId id),
         mkServer (workers s) ((nextWorkerIdx s + 1) mod List.length (workers s))
                  (JsMap.set (rooms s) roomId (RoomJs.newRoom roomId id))
                  (snd (Mediasoup.createRouter pid (engine s))))
    | None =>
        (Throw TypeErrorUndefined,
         mkServer (workers s) ((nextWorkerIdx s + 1) mod List.length (workers s))
                  (rooms s) (engine s))
    end.
Proof.
  intros G. unfold getOrCreateRoom, getNextWorker. unfold_js. rewrite G. proj_js.
  destruct (nth_error (workers s) (nextWorkerIdx s)); reflexivity.
Qed.

Lemma worker_in_range s :
  nextWorkerIdx s < List.length (workers s) ->
  exists pid, nth_error (workers s) (nextWorkerIdx s) = Some pid.
Proof.
  intros L. destruct (nth_error (workers s) (nextWorkerIdx s)) eqn:E; eauto.
  apply nth_error_None in E. lia.
Qed.

(** C10. The capability query of a room that is not registered creates
    it: with a worker to take, the reply is the capabilities of a router
    allocated by this very call, and the room is afterwards registered
    with that router and no peer, before any Join. *)
Theorem capabilities_query_registers_empty_room s roomId :
  JsMap.get (rooms s) roomId = None ->
  nextWorkerIdx s < List.length (workers s) ->
  let out := handleRpcRequest (GetRouterRtpCapabilities roomId) s in
  let id := Mediasoup.e_nextId (engine s) in
  exists pid,
    nth_error (workers s) (nextWorkerIdx s) = Some pid /\
    fst out = Return (RtpCapabilitiesOf id) /\
    JsMap.get (rooms (snd out)) roomId = Some (RoomJs.newRoom roomId id) /\
    registered (snd out) roomId = true /\
    peerIds (snd out) roomId = [] /\
    JsMap.get (Mediasoup.e_routers (engine (snd out))) id
    = Some (Mediasoup.mkRouter pid false).
Proof.
  intros G L out id. subst out id.
  destruct (worker_in_range s L) as [pid W]. exists pid.
  cbn [handleRpcRequest]. unfold bind.
  rewrite (getOrCreateRoom_unregistered _ _ G), W. unfold ret. cbn [fst snd rooms engine].
  unfold registered, peerIds, JsMap.has. cbn [rooms].
  rewrite JsMapFacts.get_set_same.
  repeat split; auto.
  unfold Mediasoup.createRouter. cbn [snd Mediasoup.e_routers].
  apply JsMapFacts.get_set_same.
Qed.

Lemma createRooms_spec roomIds : forall s,
  NoDup roomIds ->
  (forall r, In r roomIds -> JsMap.get (rooms s) r = None) ->
  nextWorkerIdx s < List.length (workers s) ->
  let s' := createRooms roomIds s in
  workers s' = workers s /\
  nextWorkerIdx s' < List.length (workers s) /\
  Mediasoup.e_nextId (engine s') = Mediasoup.e_nextId (engine s) + List.length roomIds /\
  (forall r, ~ In r roomIds -> JsMap.get (rooms s') r = JsMap.get (rooms s) r) /\
  (forall id, id < Mediasoup.e_nextId (engine s) ->
     JsMap.get (Mediasoup.e_routers (engine s')) id
     = JsMap.get (Mediasoup.e_routers (engine s)) id) /\
  (forall i r, nth_error roomIds i = Some r ->
     exists pid,
       nth_error (workers s) ((nextWorkerIdx s + i) mod List.length (workers s))
       = Some pid /\
       JsMap.get (rooms s') r
       = Some (RoomJs.newRoom r (Mediasoup.e_nextId (engine s) + i)) /\
       JsMap.get (Mediasoup.e_routers (engine s')) (Mediasoup.e_nextId (engine s) + i)
       = Some (Mediasoup.mkRouter pid false)).
Proof.
  induction roomIds as [|r0 rest IH]; intros s ND Un L; cbn zeta.
  - cbn [createRooms fold_left List.length]. repeat split; auto; try lia.
    intros [|i] r E; discriminate.
  - inversion ND as [|? ? Hn ND']; subst.
    unfold createRooms. cbn [fold_left].
    fold (createRooms rest (snd (getOrCreateRoom r0 s))).
    destruct (worker_in_range s L) as [pid W].
    assert (G0 : JsMap.get (rooms s) r0 = None) by (apply Un; now left).
    pose proof (getOrCreateRoom_unregistered s r0 G0) as E1. rewrite W in E1.
    cbn zeta in E1. rewrite E1. cbn [snd].
    set (s1 := mkServer _ _ _ _).
    assert (L1 : nextWorkerIdx s1 < List.length (workers s1)).
    { subst s1. cbn [nextWorkerIdx workers]. apply Nat.mod_upper_bound. lia. }
    assert (Un1 : forall r, In r rest -> JsMap.get (rooms s1) r = None).
    { intros r Hin. subst s1. cbn [rooms].
      rewrite JsMapFacts.get_set_other; [apply Un; now right|].
      intros ->. contradiction. }
    destruct (IH s1 ND' Un1 L1) as (Ws & Ls & Ns & Fr & Fe & Each).
    assert (N1 : Mediasoup.e_nextId (engine s1) = S (Mediasoup.e_nextId (engine s)))
      by reflexivity.
    repeat split.
    + exact Ws.
    + exact Ls.
    + rewrite Ns, N1. cbn [List.length]. lia.
    + intros r Nin. rewrite Fr by (intros Hin; apply Nin; now right).
      subst s1. cbn [rooms]. apply JsMapFacts.get_set_other.
      intros ->. apply Nin. now left.
    + intros id Lt. rewrite Fe by lia.
      subst s1. cbn [engine]. unfold Mediasoup.createRouter.
      cbn [snd Mediasoup.e_routers]. apply JsMapFacts.get_set_other. lia.
    + intros [|i] r E.
      * cbn in E. injection E as <-. exists pid.
        rewrite !Nat.add_0_r. rewrite Nat.mod_small by exact L.
        split; [exact W|]. split.
        -- rewrite Fr by exact Hn. subst s1. cbn [rooms].
           apply JsMapFacts.get_set_same.
        -- rewrite Fe by lia. subst s1. cbn [engine].
           unfold Mediasoup.createRouter. cbn [snd Mediasoup.e_routers].
           apply JsMapFacts.get_set_same.
      * cbn in E. destruct (Each i r E) as (pid' & W' & R' & T').
        exists pid'. rewrite N1 in R', T'.
        replace (Mediasoup.e_nextId (engine s) + S i)
          with (S (Mediasoup.e_nextId (engine s)) + i) by lia.
        split; [|split; assumption].
        rewrite <- W'. subst s1. cbn [nextWorkerIdx workers]. f_equal.
        rewrite Nat.Div0.add_mod_idemp_l. f_equal. lia.
Qed.

(** C5. [getOrCreateRoom] on a registered room returns that room and
    leaves the whole state, store included, as it was: no router is
    allocated. First creations of distinct rooms allocate one router
    each, the i-th of them on the worker i places after the current one,
    round the worker list; and each room so created is returned as it is
    by the next call. *)
Theorem getOrCreateRoom_idempotent_round_robin s roomIds :
  (forall r room, JsMap.get (rooms s) r = Some room ->
                  getOrCreateRoom r s = (Return room, s)) /\
  (NoDup roomIds ->
   (forall r, In r roomIds -> JsMap.get (rooms s) r = None) ->
   nextWorkerIdx s < List.length (workers s) ->
   let s' := createRooms roomIds s in
   Mediasoup.e_nextId (engine s')
   = Mediasoup.e_nextId (engine s) + List.length roomIds /\
   forall i r, nth_error roomIds i = Some r ->
     exists pid,
       nth_error (workers s) ((nextWorkerIdx s + i) mod List.length (workers s))
       = Some pid /\
       JsMap.get (Mediasoup.e_routers (engine s')) (Mediasoup.e_nextId (engine s) + i)
       = Some (Mediasoup.mkRouter pid false) /\
       getOrCreateRoom r s'
       = (Return (RoomJs.newRoom r (Mediasoup.e_nextId (engine s) + i)), s')).
Proof.
  split.
  - intros r room G. now apply getOrCreateRoom_registered.
  - intros ND Un L s'.
    destruct (createRooms_spec roomIds s ND Un L) as (_ & _ & Ns & _ & _ & Each).
    split; [exact Ns|].
    intros i r E. destruct (Each i r E) as (pid & W & G & Rt).
    exists pid. split; [exact W|]. split; [exact Rt|].
    now apply getOrCreateRoom_registered.
Qed.

End Registry.

(** ** Consuming *)

(** Case analysis on a scrutinee that does not itself hide a [match]. *)
Ltac break_match :=
  match goal with
  | |- context [match ?x with _ => _ end] =>
      lazymatch x with
      | context [match _ with _ => _ end] => fail
      | _ => destruct x eqn:?
      end
  end.

Ltac unfold_room :=
  unfold RoomJs.addPeer, RoomJs.removePeer, RoomJs.createWebRtcTransport,
    RoomJs.connectTransport, RoomJs.produce, RoomJs.consume,
    RoomJs.resumeConsumer, RoomJs.pauseProducer, RoomJs.resumeProducer,
    RoomJs.closeProducer, RoomJs.setPreferredLayers, RoomJs.close.

Create HintDb engine.

#[export] Hint Resolve
  MediasoupFacts.noResume_refl
  MediasoupFacts.createRouter_noResume
  MediasoupFacts.createWebRtcTransport_noResume
  MediasoupFacts.markConsuming_noResume
  MediasoupFacts.connect_noResume
  MediasoupFacts.produce_noResume
  MediasoupFacts.updateProducer_noResume
  MediasoupFacts.producerClose_noResume
  MediasoupFacts.consume_noResume
  MediasoupFacts.consumerSetPreferredLayers_noResume
  MediasoupFacts.producerCloseNotification_noResume
  MediasoupFacts.transportClose_noResume
  MediasoupFacts.routerClose_noResume : engine.

Section Consuming.
Context `{Ortc}.
Import ServerJs.
Import Props.
Abbreviation Engine := Mediasoup.Engine.
Abbreviation Room := RoomJs.Room.

Lemma closed_producer_gone s roomId producerId :
  match JsMap.get (Mediasoup.e_producers (engine s)) producerId with
  | Some p => Mediasoup.producer_closed p = true
  | None => True
  end ->
  producerGone s roomId producerId.
Proof.
  intros C room _. unfold Mediasoup.routerProducer.
  destruct (JsMap.get (Mediasoup.e_producers (engine s)) producerId) as [p|];
    [|reflexivity].
  now rewrite C.
Qed.

Lemma consume_refused s id roomId room peerId peer producerId caps :
  JsMap.get (rooms s) roomId = Some room ->
  JsMap.get (RoomJs.peers room) peerId = Some peer ->
  Mediasoup.canConsume (RoomJs.router room) producerId caps (engine s) = false ->
  processMessage (Parsed id (Consume roomId peerId producerId caps)) s
  = (ErrorResponse (Some id) (mkRpcError (-32000) CannotConsume), s).
Proof.
  intros G P C. unfold processMessage. cbn [handleRpcRequest].
  unfold bind at 1. unfold roomOrThrow at 1. unfold bind at 1.
  unfold getState at 1. rewrite G. unfold ret at 1. unfold bind at 1.
  rewrite (call_unchanged s roomId room (Throw CannotConsume));
    [reflexivity | exact G | ].
  unfold RoomJs.consume. unfold_js. cbv beta iota delta [fst snd]. now rewrite P, C.
Qed.

(** C4, as the code has it. A Consume that names a producer the router
    of the room does not know (closed, never created, or of another room)
    always gets an error reply of code -32000 and changes nothing. The message does not name the producer: it is
    'Cannot consume' when the requesting peer is in the room, as for
    capabilities that do not fit, and 'Peer ... not found' or 'Room not
    found' when the peer or the room is missing. *)
Theorem consume_of_gone_producer s id roomId peerId producerId caps :
  producerGone s roomId producerId ->
  processMessage (Parsed id (Consume roomId peerId producerId caps)) s
  = (ErrorResponse (Some id)
       (mkRpcError (-32000)
          match JsMap.get (rooms s) roomId with
          | None => RoomNotFound
          | Some room =>
              match JsMap.get (RoomJs.peers room) peerId with
              | None => PeerNotFound peerId
              | Some _ => CannotConsume
              end
          end),
     s).
Proof.
  intros Gone.
  destruct (JsMap.get (rooms s) roomId) as [room|] eqn:G.
  - destruct (JsMap.get (RoomJs.peers room) peerId) as [peer|] eqn:P.
    + apply (consume_refused s id roomId room peerId peer); auto.
      unfold Mediasoup.canConsume. now rewrite (Gone room G).
    + unfold processMessage. cbn [handleRpcRequest].
      unfold bind at 1. unfold roomOrThrow at 1. unfold bind at 1.
      unfold getState at 1. rewrite G. unfold ret at 1. unfold bind at 1.
      rewrite (call_unchanged s roomId room (Throw (PeerNotFound peerId)));
        [reflexivity | exact G | ].
      unfold RoomJs.consume. unfold_js. cbv beta iota delta [fst snd]. now rewrite P.
  - unfold processMessage. cbn [handleRpcRequest]. unfold_js. now rewrite G.
Qed.

Lemma leave_noResume s roomId peerId :
  noResume (engine s) (engine (snd (handleRpcRequest (Leave roomId peerId) s))).
Proof.
  destruct (JsMap.get (rooms s) roomId) as [room|] eqn:G.
  - apply (leave_engine s roomId room peerId (fun e0 => noResume (engine s) e0) G).
    + intros x e0 N. eapply MediasoupFacts.noResume_trans; eauto with engine.
    + unfold engineAfterRemove.
      destruct (JsMap.get (RoomJs.peers room) peerId) as [peer|]; auto with engine.
      apply (closePeerTransports_keep (fun e0 => noResume (engine s) e0));
        cbn [snd]; auto with engine.
      intros x e0 N. eapply MediasoupFacts.noResume_trans; eauto with engine.
  - rewrite (leave_unregistered _ _ _ G). cbn [snd]. auto with engine.
Qed.

Lemma getOrCreateRoom_noResume s roomId :
  noResume (engine s) (engine (snd (getOrCreateRoom roomId s))).
Proof.
  destruct (JsMap.get (rooms s) roomId) as [room|] eqn:G.
  - rewrite (getOrCreateRoom_registered _ _ _ G). auto with engine.
  - rewrite (getOrCreateRoom_unregistered _ _ G).
    destruct (nth_error (workers s) (nextWorkerIdx s)); cbn [snd engine];
      auto with engine.
Qed.

Lemma capabilities_noResume s roomId :
  noResume (engine s)
    (engine (snd (handleRpcRequest (GetRouterRtpCapabilities roomId) s))).
Proof.
  cbn [handleRpcRequest]. unfold bind, ret.
  pose proof (getOrCreateRoom_noResume s roomId) as N.
  destruct (getOrCreateRoom roomId s) as [[room|e] s1]; exact N.
Qed.

Lemma join_noResume s roomId peerId name :
  noResume (engine s) (engine (snd (handleRpcRequest (Join roomId peerId name) s))).
Proof.
  cbn [handleRpcRequest]. unfold bind at 1.
  pose proof (getOrCreateRoom_noResume s roomId) as N.
  destruct (getOrCreateRoom roomId s) as [[room|e] s1]; cbn [snd] in *; [|exact N].
  unfold_room. unfold_js. cbv beta iota delta [fst snd].
  repeat break_match; cbn [engine]; exact N.
Qed.

Ltac solve_noResume :=
  solve [ eauto with engine
        | eapply MediasoupFacts.noResume_trans;
          [ | apply MediasoupFacts.markConsuming_noResume ]; eauto with engine ].

(** Every request but [resumeConsumer] leaves paused consumers paused. *)
Lemma request_noResume request s :
  (forall r p c, request <> ResumeConsumer r p c) ->
  noResume (engine s) (engine (snd (handleRpcRequest request s))).
Proof.
  intros NotResume.
  destruct request;
    try apply leave_noResume; try apply capabilities_noResume;
    try apply join_noResume;
    try (exfalso; eapply NotResume; reflexivity);
    cbn [handleRpcRequest];
    unfold_room; unfold_js; cbv beta iota delta [fst snd];
    repeat (break_match; cbn [engine]; try discriminate);
    solve_noResume.
Qed.

(** [resumeConsumer] starts no consumer but the one it names, and that
    one only for a peer that holds it. *)
Lemma resumeConsumer_only s roomId peerId consumerId :
  forall id c',
    JsMap.get (Mediasoup.e_consumers
                 (engine (snd (handleRpcRequest
                                 (ResumeConsumer roomId peerId consumerId) s))))
              id = Some c' ->
    Mediasoup.consumer_paused c' = false ->
    (id = consumerId /\
     exists peer, peerOf s roomId peerId = Some peer /\
                  RoomJs.refsHas (RoomJs.consumers peer) consumerId = true) \/
    exists c, JsMap.get (Mediasoup.e_consumers (engine s)) id = Some c /\
              Mediasoup.consumer_paused c = false.
Proof.
  cbn [handleRpcRequest]. unfold peerOf.
  unfold_room; unfold_js; cbv beta iota delta [fst snd].
  repeat (break_match; cbn [engine]; try discriminate);
    intros id c' G P; eauto.
  match goal with
  | E : Mediasoup.consumerResume _ _ = Some _ |- _ =>
      destruct (MediasoupFacts.consumerResume_only _ _ _ E id c' G P) as [->|B]
  end; [left | now right].
  split; [reflexivity|]. eauto.
Qed.

Lemma event_noResume ev s :
  noResume (engine s) (engine (handleEngineEvent ev s)).
Proof.
  destruct ev; cbn [handleEngineEvent].
  - pose proof (MediasoupFacts.transportClose_noResume transportId (engine s)) as N.
    destruct (Mediasoup.transportClose transportId (engine s)) as [e' [ps cs]].
    exact N.
  - destruct (Mediasoup.producerCloseNotification consumerId (engine s)) eqn:E;
      cbn [engine]; eauto with engine.
Qed.

(** One step starts a consumer only by a [resumeConsumer] request that
    names it, sent for a peer that holds it. *)
Lemma step_resumes input s id c' :
  JsMap.get (Mediasoup.e_consumers (engine (step input s))) id = Some c' ->
  Mediasoup.consumer_paused c' = false ->
  (exists c, JsMap.get (Mediasoup.e_consumers (engine s)) id = Some c /\
             Mediasoup.consumer_paused c = false) \/
  (exists n r p peer,
     input = Line (Parsed n (ResumeConsumer r p id)) /\
     peerOf s r p = Some peer /\
     RoomJs.refsHas (RoomJs.consumers peer) id = true).
Proof.
  intros G P. destruct input as [[|n request]|ev]; cbn [step processMessage] in G.
  - left. eauto.
  - assert (E : engine (snd (let (o, s') := handleRpcRequest request s in
                             match o with
                             | Return result => (ResultResponse n result, s')
                             | Throw e => (ErrorResponse (Some n) (mkRpcError (-32000) e), s')
                             end))
                = engine (snd (handleRpcRequest request s))).
    { destruct (handleRpcRequest request s) as [[r|e] s']; reflexivity. }
    rewrite E in G. clear E.
    destruct request;
      try (left; refine (request_noResume _ s _ id c' G P); discriminate).
    destruct (resumeConsumer_only s roomId peerId consumerId id c' G P)
      as [[-> (peer & Pe & Hc)] | B]; [right | now left].
    exists n, roomId, peerId, peer. auto.
  - left. exact (event_noResume ev s id c' G P).
Qed.

Lemma run_resumes inputs : forall s id c',
  JsMap.get (Mediasoup.e_consumers (engine (run inputs s))) id = Some c' ->
  Mediasoup.consumer_paused c' = false ->
  (exists c, JsMap.get (Mediasoup.e_consumers (engine s)) id = Some c /\
             Mediasoup.consumer_paused c = false) \/
  (exists before after n r p peer,
     inputs = before ++ Line (Parsed n (ResumeConsumer r p id)) :: after /\
     peerOf (run before s) r p = Some peer /\
     RoomJs.refsHas (RoomJs.consumers peer) id = true).
Proof.
  induction inputs as [|i rest IH]; intros s id c' G P.
  - left. eauto.
  - cbn [run fold_left] in G. fold (run rest (step i s)) in G.
    destruct (IH _ _ _ G P) as [(c & Gc & Pc) | (pre & post & n & r & p & peer & E & Pe & Hc)].
    + destruct (step_resumes i s id c Gc Pc) as [B | (n & r & p & peer & E & Pe & Hc)];
        [now left | right].
      exists [], rest, n, r, p, peer. subst i. auto.
    + right. exists (i :: pre), post, n, r, p, peer. subst rest. auto.
Qed.

(** C8. A successful Consume leaves a consumer that the store holds
    paused, on the producer asked for and held by the consuming peer.
    Whatever the server processes next, requests or engine events, that
    consumer is found resumed only if a [resumeConsumer] request naming
    it came in meanwhile, for a peer that held it at that moment. *)
Theorem consumer_paused_until_resumed s roomId peerId producerId caps info s' :
  handleRpcRequest (Consume roomId peerId producerId caps) s
  = (Return (ConsumeResult info), s') ->
  (exists c peer,
     JsMap.get (Mediasoup.e_consumers (engine s')) (RoomJs.ci_id info) = Some c /\
     Mediasoup.consumer_paused c = true /\
     Mediasoup.consumer_closed c = false /\
     Mediasoup.consumer_producerId c = producerId /\
     peerOf s' roomId peerId = Some peer /\
     In (RoomJs.ci_id info) (RoomJs.consumers peer)) /\
  (forall inputs c',
     JsMap.get (Mediasoup.e_consumers (engine (run inputs s'))) (RoomJs.ci_id info)
     = Some c' ->
     Mediasoup.consumer_paused c' = false ->
     exists before after n r p peer,
       inputs = before ++ Line (Parsed n (ResumeConsumer r p (RoomJs.ci_id info))) :: after /\
       peerOf (run before s') r p = Some peer /\
       RoomJs.refsHas (RoomJs.consumers peer) (RoomJs.ci_id info) = true).
Proof.
  intros E.
  assert (Created : exists c peer,
     JsMap.get (Mediasoup.e_consumers (engine s')) (RoomJs.ci_id info) = Some c /\
     Mediasoup.consumer_paused c = true /\
     Mediasoup.consumer_closed c = false /\
     Mediasoup.consumer_producerId c = producerId /\
     peerOf s' roomId peerId = Some peer /\
     In (RoomJs.ci_id info) (RoomJs.consumers peer)).
  { revert E. cbn [handleRpcRequest].
    unfold_room; unfold_js; cbv beta iota delta [fst snd].
    repeat (break_match; try discriminate). intros E.
    injection E as <- <-. cbn [RoomJs.ci_id engine].
    match goal with
    | E : Mediasoup.consume _ _ _ _ _ = Some _ |- _ =>
        destruct (MediasoupFacts.consume_creates _ _ _ _ _ _ _ _ E)
          as (_ & Ec & Pc & Pp & _ & Cc)
    end.
    eexists. eexists. unfold peerOf. cbn [rooms].
    rewrite Ec, !JsMapFacts.get_set_same. cbn [RoomJs.peers RoomJs.consumers].
    rewrite JsMapFacts.get_set_same.
    repeat split; try eassumption; try reflexivity.
    cbn [RoomJs.consumers]. apply In_refsSet. now right. }
  split; [exact Created|].
  intros inputs c' G P.
  destruct (run_resumes inputs s' _ c' G P) as [(c0 & G0 & P0) | R]; [|exact R].
  destruct Created as (c & peer & Gc & Pc & _). congruence.
Qed.


End Consuming.

(** ** Histories of Join and Leave *)

Section Histories.
Context `{Ortc}.
Import ServerJs.
Import Props.
Abbreviation Engine := Mediasoup.Engine.
Abbreviation Room := RoomJs.Room.

Lemma join_registered s roomId room peerId name :
  JsMap.get (rooms s) roomId = Some room ->
  snd (handleRpcRequest (Join roomId peerId name) s)
  = mkServer (workers s) (nextWorkerIdx s)
      (JsMap.set (rooms s) roomId
         (RoomJs.mkRoom (RoomJs.roomId room) (RoomJs.router room)
                        (joinedPeers room peerId name)))
      (engine s).
Proof.
  intros G. cbn [handleRpcRequest]. unfold bind at 1.
  rewrite (getOrCreateRoom_registered _ _ _ G).
  unfold RoomJs.addPeer, joinedPeers. unfold_js. cbv beta iota delta [fst snd].
  destruct (JsMap.has (RoomJs.peers room) peerId); [|reflexivity].
  now rewrite room_eta.
Qed.

Lemma join_unregistered s roomId peerId name pid :
  JsMap.get (rooms s) roomId = None ->
  nth_error (workers s) (nextWorkerIdx s) = Some pid ->
  snd (handleRpcRequest (Join roomId peerId name) s)
  = mkServer (workers s) ((nextWorkerIdx s + 1) mod List.length (workers s))
      (JsMap.set (rooms s) roomId
         (RoomJs.mkRoom roomId (Mediasoup.e_nextId (engine s))
                        [(peerId, RoomJs.mkPeer name [] [] [])]))
      (snd (Mediasoup.createRouter pid (engine s))).
Proof.
  intros G W. cbn [handleRpcRequest]. unfold bind at 1.
  rewrite (getOrCreateRoom_unregistered _ _ G), W.
  unfold RoomJs.addPeer, RoomJs.newRoom. unfold_js. cbv beta iota delta [fst snd].
  cbn [RoomJs.peers JsMap.has JsMap.get JsMap.empty JsMap.set RoomJs.roomId
       RoomJs.router rooms workers nextWorkerIdx engine].
  now rewrite JsMapFacts.set_set_same.
Qed.

Lemma filter_other_key_In (peerId q : PeerId) (l : list PeerId) :
  In q (filter (fun k => negb (keq peerId k)) l) <-> In q l /\ q <> peerId.
Proof.
  rewrite filter_In. split; intros [Hin E]; split; auto.
  - intros ->. now rewrite keq_refl in E.
  - apply Bool.negb_true_iff. apply keq_false. congruence.
Qed.

Lemma peerIds_join s roomId peerId name r q :
  nextWorkerIdx s < List.length (workers s) ->
  In q (peerIds (snd (handleRpcRequest (Join roomId peerId name) s)) r)
  <-> In q (peerIds s r) \/ (r = roomId /\ q = peerId).
Proof.
  intros L. unfold peerIds.
  destruct (JsMap.get (rooms s) roomId) as [room|] eqn:G.
  - rewrite (join_registered _ _ _ _ _ G). cbn [rooms].
    destruct (string_dec r roomId) as [->|N].
    + rewrite JsMapFacts.get_set_same, G. cbn [RoomJs.peers]. unfold joinedPeers.
      destruct (JsMap.has (RoomJs.peers room) peerId) eqn:Hs.
      * apply JsMapFacts.has_true in Hs. split; [now left|].
        intros [Hin | [_ ->]]; assumption.
      * apply JsMapFacts.has_false in Hs.
        rewrite (JsMapFacts.set_absent _ _ _ Hs). unfold JsMap.keys.
        rewrite map_app, in_app_iff. cbn. intuition congruence.
    + rewrite JsMapFacts.get_set_other by exact N. intuition congruence.
  - destruct (worker_in_range s L) as [pid W].
    rewrite (join_unregistered _ _ _ _ _ G W). cbn [rooms].
    destruct (string_dec r roomId) as [->|N].
    + rewrite JsMapFacts.get_set_same, G. cbn. intuition congruence.
    + rewrite JsMapFacts.get_set_other by exact N. intuition congruence.
Qed.

Lemma peerIds_leave s roomId peerId r q :
  In q (peerIds (snd (handleRpcRequest (Leave roomId peerId) s)) r)
  <-> In q (peerIds s r) /\ ~ (r = roomId /\ q = peerId).
Proof.
  unfold peerIds.
  destruct (JsMap.get (rooms s) roomId) as [room|] eqn:G.
  - rewrite (leave_registered _ _ _ _ G). cbn [snd].
    destruct (string_dec r roomId) as [->|N].
    + rewrite G.
      destruct (Nat.eqb _ 0) eqn:Z; cbn [rooms].
      * rewrite JsMapFacts.get_delete_same.
        apply Nat.eqb_eq in Z. unfold JsMap.size in Z.
        apply length_zero_iff_nil in Z.
        split; [intros []|]. intros [Hin N].
        assert (In q (JsMap.keys (JsMap.delete (RoomJs.peers room) peerId))) as X.
        { rewrite JsMapFacts.keys_delete. apply filter_other_key_In.
          split; [exact Hin|]. intros ->. now apply N. }
        now rewrite Z in X.
      * rewrite JsMapFacts.get_set_same. cbn [RoomJs.peers].
        rewrite JsMapFacts.keys_delete, filter_other_key_In. intuition congruence.
    + destruct (Nat.eqb _ 0); cbn [rooms].
      * rewrite JsMapFacts.get_delete_other by exact N. intuition congruence.
      * rewrite JsMapFacts.get_set_other by exact N. intuition congruence.
  - rewrite (leave_unregistered _ _ _ G). cbn [snd].
    destruct (string_dec r roomId) as [->|N]; [rewrite G; cbn|]; intuition congruence.
Qed.

Lemma joinedNotLeft_snoc history op roomId peerId :
  joinedNotLeft (history ++ [op]) roomId peerId
  = match op with
    | MJoin r p _ =>
        if keq r roomId && keq p peerId then true
        else joinedNotLeft history roomId peerId
    | MLeave r p =>
        if keq r roomId && keq p peerId then false
        else joinedNotLeft history roomId peerId
    end.
Proof. unfold joinedNotLeft. now rewrite fold_left_app. Qed.

Lemma run_snoc inputs i s : run (inputs ++ [i]) s = step i (run inputs s).
Proof. unfold run. now rewrite fold_left_app. Qed.

Lemma keq_pair_true (r roomId p peerId : string) :
  keq r roomId && keq p peerId = true <-> roomId = r /\ peerId = p.
Proof.
  rewrite Bool.andb_true_iff, !keq_true. intuition congruence.
Qed.

Lemma step_memberInput op s :
  step (memberInput op) s = snd (handleRpcRequest (memberRequest op) s).
Proof.
  unfold memberInput. cbn [step processMessage].
  now destruct (handleRpcRequest (memberRequest op) s) as [[r|e] s'].
Qed.

(** *** The invariant of the histories *)

Lemma engineAfterRemove_frame (e : Engine) peer :
  Mediasoup.e_routers (engineAfterRemove e peer) = Mediasoup.e_routers e /\
  Mediasoup.e_nextId (engineAfterRemove e peer) = Mediasoup.e_nextId e /\
  Mediasoup.e_routerCloseCalls (engineAfterRemove e peer)
  = Mediasoup.e_routerCloseCalls e.
Proof.
  destruct peer as [peer|]; cbn [engineAfterRemove]; auto.
  apply (closePeerTransports_keep
           (fun e0 => Mediasoup.e_routers e0 = Mediasoup.e_routers e /\
                      Mediasoup.e_nextId e0 = Mediasoup.e_nextId e /\
                      Mediasoup.e_routerCloseCalls e0
                      = Mediasoup.e_routerCloseCalls e)); cbn [snd]; auto.
  intros x e0 (A & B & C).
  now rewrite MediasoupFacts.transportClose_routers,
    MediasoupFacts.transportClose_nextId, MediasoupFacts.transportClose_calls.
Qed.

Lemma invariant_update_room s roomId room peers' (e' : Engine) :
  membershipInvariant s ->
  JsMap.get (rooms s) roomId = Some room ->
  peers' <> [] -> NoDup (JsMap.keys peers') ->
  Mediasoup.e_routers e' = Mediasoup.e_routers (engine s) ->
  Mediasoup.e_nextId e' = Mediasoup.e_nextId (engine s) ->
  Mediasoup.e_routerCloseCalls e' = Mediasoup.e_routerCloseCalls (engine s) ->
  membershipInvariant
    (mkServer (workers s) (nextWorkerIdx s)
       (JsMap.set (rooms s) roomId
          (RoomJs.mkRoom (RoomJs.roomId room) (RoomJs.router room) peers'))
       e').
Proof.
  intros (W & A & B1 & B2 & B3) G Ne ND Er En Ec.
  assert (Back : forall k x,
            JsMap.get (JsMap.set (rooms s) roomId
                         (RoomJs.mkRoom (RoomJs.roomId room) (RoomJs.router room) peers'))
                      k = Some x ->
            exists y, JsMap.get (rooms s) k = Some y /\
                      RoomJs.router y = RoomJs.router x /\
                      (k <> roomId -> y = x)).
  { intros k x Gk. destruct (string_dec k roomId) as [->|N].
    - rewrite JsMapFacts.get_set_same in Gk. injection Gk as <-.
      exists room. cbn [RoomJs.router]. intuition congruence.
    - rewrite JsMapFacts.get_set_other in Gk by exact N. eauto. }
  assert (Forth : forall k y, JsMap.get (rooms s) k = Some y ->
            exists x,
              JsMap.get (JsMap.set (rooms s) roomId
                           (RoomJs.mkRoom (RoomJs.roomId room) (RoomJs.router room) peers'))
                        k = Some x /\
              RoomJs.router x = RoomJs.router y).
  { intros k y Gk. destruct (string_dec k roomId) as [->|N].
    - rewrite JsMapFacts.get_set_same. eexists. split; [reflexivity|].
      cbn [RoomJs.router]. congruence.
    - rewrite JsMapFacts.get_set_other by exact N. eauto. }
  split; [exact W|]. split; [|split; [|split]].
  - intros k x Gk. cbn [rooms engine] in *. rewrite Er, Ec.
    destruct (string_dec k roomId) as [->|N].
    + rewrite JsMapFacts.get_set_same in Gk. injection Gk as <-.
      cbn [RoomJs.peers RoomJs.router]. destruct (A _ _ G) as (_ & _ & Hr & Hc). auto.
    + rewrite JsMapFacts.get_set_other in Gk by exact N. exact (A _ _ Gk).
  - intros rid Hr. cbn [rooms engine] in *. rewrite Er in Hr. rewrite En, Ec.
    destruct (B1 rid Hr) as (Lt & [(k & y & Gk & Ek) | Cnt]); split; auto.
    left. destruct (Forth k y Gk) as (x & Gx & Ex).
    exists k, x. cbn [rooms]. split; congruence.
  - intros r1 r2 x1 x2 G1 G2 E. cbn [rooms] in *.
    destruct (Back _ _ G1) as (y1 & Gy1 & E1 & _).
    destruct (Back _ _ G2) as (y2 & Gy2 & E2 & _).
    apply (B2 r1 r2 y1 y2); congruence.
  - intros rid Hin. cbn [engine] in *. rewrite Er. rewrite Ec in Hin. now apply B3.
Qed.

Lemma has_set_inv {V} (m : JsMap.t Id V) k v x :
  JsMap.has (JsMap.set m k v) x = true -> x = k \/ JsMap.has m x = true.
Proof.
  intros Hs. destruct (Nat.eq_dec x k) as [->|N]; [now left | right].
  unfold JsMap.has in *. now rewrite JsMapFacts.get_set_other in Hs.
Qed.

Lemma has_set_mono {V} (m : JsMap.t Id V) k v x :
  JsMap.has m x = true -> JsMap.has (JsMap.set m k v) x = true.
Proof.
  intros Hx. destruct (Nat.eq_dec x k) as [->|N]; unfold JsMap.has in *.
  - now rewrite JsMapFacts.get_set_same.
  - now rewrite JsMapFacts.get_set_other.
Qed.

Lemma invariant_new_room s roomId peerId name pid :
  membershipInvariant s ->
  JsMap.get (rooms s) roomId = None ->
  membershipInvariant
    (mkServer (workers s) ((nextWorkerIdx s + 1) mod List.length (workers s))
       (JsMap.set (rooms s) roomId
          (RoomJs.mkRoom roomId (Mediasoup.e_nextId (engine s))
                         [(peerId, RoomJs.mkPeer name [] [] [])]))
       (snd (Mediasoup.createRouter pid (engine s)))).
Proof.
  intros (W & A & B1 & B2 & B3) G.
  assert (Fresh : forall k y, JsMap.get (rooms s) k = Some y ->
                              RoomJs.router y < Mediasoup.e_nextId (engine s)).
  { intros k y Gk. destruct (A _ _ Gk) as (_ & _ & Hr & _). now apply B1. }
  assert (NoCall : count_occ Nat.eq_dec (Mediasoup.e_routerCloseCalls (engine s))
                     (Mediasoup.e_nextId (engine s)) = 0).
  { apply count_occ_not_In. intros Hin. apply B3, B1 in Hin. lia. }
  unfold Mediasoup.createRouter. cbn [snd].
  split; [|split; [|split; [|split]]].
  - cbn [nextWorkerIdx workers]. apply Nat.mod_upper_bound. lia.
  - intros k x Gk. cbn [rooms engine Mediasoup.e_routers Mediasoup.e_routerCloseCalls] in *.
    destruct (string_dec k roomId) as [->|N].
    + rewrite JsMapFacts.get_set_same in Gk. injection Gk as <-.
      cbn [RoomJs.peers RoomJs.router]. repeat split; auto.
      * discriminate.
      * cbn. constructor; [intros []|constructor].
      * unfold JsMap.has. now rewrite JsMapFacts.get_set_same.
    + rewrite JsMapFacts.get_set_other in Gk by exact N.
      destruct (A _ _ Gk) as (P1 & P2 & P3 & P4). repeat split; auto.
      now apply has_set_mono.
  - intros rid Hr.
    cbn [rooms engine Mediasoup.e_routers Mediasoup.e_routerCloseCalls
         Mediasoup.e_nextId] in *.
    apply has_set_inv in Hr. destruct Hr as [->|Hr].
    + split; [lia|]. left. eexists roomId, _. cbn [rooms].
      rewrite JsMapFacts.get_set_same. split; reflexivity.
    + destruct (B1 rid Hr) as (Lt & [(k & y & Gk & Ek) | Cnt]); split; auto.
      left. exists k, y. cbn [rooms]. split; [|exact Ek].
      rewrite JsMapFacts.get_set_other; [exact Gk|]. congruence.
  - intros r1 r2 x1 x2 G1 G2 E. cbn [rooms] in *.
    destruct (string_dec r1 roomId) as [->|N1];
      destruct (string_dec r2 roomId) as [->|N2]; auto.
    + rewrite JsMapFacts.get_set_same in G1. injection G1 as <-.
      rewrite JsMapFacts.get_set_other in G2 by exact N2.
      apply Fresh in G2. cbn [RoomJs.router] in E. lia.
    + rewrite JsMapFacts.get_set_same in G2. injection G2 as <-.
      rewrite JsMapFacts.get_set_other in G1 by exact N1.
      apply Fresh in G1. cbn [RoomJs.router] in E. lia.
    + rewrite JsMapFacts.get_set_other in G1 by exact N1.
      rewrite JsMapFacts.get_set_other in G2 by exact N2.
      now apply (B2 r1 r2 x1 x2).
  - intros rid Hin. cbn [engine Mediasoup.e_routers Mediasoup.e_routerCloseCalls] in *.
    now apply has_set_mono, B3.
Qed.

Lemma invariant_delete_room s roomId room (e1 : Engine) :
  membershipInvariant s ->
  JsMap.get (rooms s) roomId = Some room ->
  Mediasoup.e_routers e1 = Mediasoup.e_routers (engine s) ->
  Mediasoup.e_nextId e1 = Mediasoup.e_nextId (engine s) ->
  Mediasoup.e_routerCloseCalls e1 = Mediasoup.e_routerCloseCalls (engine s) ->
  membershipInvariant
    (mkServer (workers s) (nextWorkerIdx s) (JsMap.delete (rooms s) roomId)
              (Mediasoup.routerClose (RoomJs.router room) e1)).
Proof.
  intros (W & A & B1 & B2 & B3) G Er En Ec.
  destruct (A _ _ G) as (_ & _ & HasR & NoCall).
  assert (Back : forall k x, JsMap.get (JsMap.delete (rooms s) roomId) k = Some x ->
                             k <> roomId /\ JsMap.get (rooms s) k = Some x).
  { intros k x Gk. destruct (string_dec k roomId) as [->|N].
    - now rewrite JsMapFacts.get_delete_same in Gk.
    - now rewrite JsMapFacts.get_delete_other in Gk. }
  assert (HasEq : forall x,
            JsMap.has (Mediasoup.e_routers
                         (Mediasoup.routerClose (RoomJs.router room) e1)) x
            = JsMap.has (Mediasoup.e_routers (engine s)) x).
  { intros x. now rewrite MediasoupFacts.routerClose_has_router, Er. }
  split; [exact W|]. split; [|split; [|split]].
  - intros k x Gk. cbn [rooms engine] in *. destruct (Back _ _ Gk) as (N & Gk').
    destruct (A _ _ Gk') as (P1 & P2 & P3 & P4).
    rewrite HasEq, MediasoupFacts.routerClose_calls, Ec.
    repeat split; auto.
    cbn [count_occ]. destruct (Nat.eq_dec (RoomJs.router room) (RoomJs.router x)) as [E|_];
      [|exact P4].
    exfalso. apply N. now apply (B2 k roomId x room).
  - intros rid Hr. cbn [rooms engine] in *. rewrite HasEq in Hr.
    rewrite MediasoupFacts.routerClose_nextId, En,
      MediasoupFacts.routerClose_calls, Ec.
    destruct (B1 rid Hr) as (Lt & St). split; [exact Lt|].
    cbn [count_occ].
    destruct (Nat.eq_dec (RoomJs.router room) rid) as [E|N].
    + right. subst rid. now rewrite NoCall.
    + destruct St as [(k & y & Gk & Ek) | Cnt]; [left | now right].
      exists k, y. cbn [rooms]. split; [|exact Ek].
      rewrite JsMapFacts.get_delete_other; [exact Gk|].
      intros ->. congruence.
  - intros r1 r2 x1 x2 G1 G2 E. cbn [rooms] in *.
    destruct (Back _ _ G1) as (_ & G1'). destruct (Back _ _ G2) as (_ & G2').
    now apply (B2 r1 r2 x1 x2).
  - intros rid Hin. cbn [engine] in *.
    rewrite HasEq. rewrite MediasoupFacts.routerClose_calls, Ec in Hin.
    destruct Hin as [<-|Hin]; [exact HasR | now apply B3].
Qed.

Lemma set_not_nil {V} (m : JsMap.t PeerId V) k v : JsMap.set m k v <> [].
Proof.
  destruct m as [|[k0 v0] m]; cbn; [discriminate|].
  destruct (String.eqb k k0); discriminate.
Qed.

Lemma join_keeps_invariant s roomId peerId name :
  membershipInvariant s ->
  membershipInvariant (snd (handleRpcRequest (Join roomId peerId name) s)).
Proof.
  intros I. destruct (JsMap.get (rooms s) roomId) as [room|] eqn:G.
  - rewrite (join_registered _ _ _ _ _ G).
    pose proof I as (W & A & B). destruct (A _ _ G) as (Ne & ND & _).
    apply invariant_update_room; auto;
      unfold joinedPeers; destruct (JsMap.has (RoomJs.peers room) peerId); auto.
    + apply set_not_nil.
    + now apply JsMapFacts.NoDup_keys_set.
  - destruct (worker_in_range s (proj1 I)) as [pid W].
    rewrite (join_unregistered _ _ _ _ _ G W). now apply invariant_new_room.
Qed.

Lemma leave_keeps_invariant s roomId peerId :
  membershipInvariant s ->
  membershipInvariant (snd (handleRpcRequest (Leave roomId peerId) s)).
Proof.
  intros I. destruct (JsMap.get (rooms s) roomId) as [room|] eqn:G.
  - rewrite (leave_registered _ _ _ _ G). cbn [snd].
    destruct (engineAfterRemove_frame (engine s)
                (JsMap.get (RoomJs.peers room) peerId)) as (Er & En & Ec).
    destruct (Nat.eqb _ 0) eqn:Z.
    + now apply invariant_delete_room.
    + pose proof I as (W & A & B). destruct (A _ _ G) as (_ & ND & _).
      apply invariant_update_room; auto.
      * intros E. rewrite E in Z. discriminate.
      * now apply JsMapFacts.NoDup_keys_delete.
  - now rewrite (leave_unregistered _ _ _ G).
Qed.

Lemma start_invariant pids :
  pids <> [] -> membershipInvariant (startServer pids).
Proof.
  intros Ne. unfold startServer. split; [|split; [|split; [|split]]].
  - cbn. destruct pids; [contradiction | cbn; lia].
  - intros k x Gk. discriminate.
  - intros rid Hr. discriminate.
  - intros r1 r2 x1 x2 G1. discriminate.
  - intros rid [].
Qed.

Lemma history_invariant pids history :
  pids <> [] ->
  membershipInvariant (run (map memberInput history) (startServer pids)).
Proof.
  intros Ne. induction history as [|op history IH] using rev_ind.
  - now apply start_invariant.
  - rewrite map_app. cbn [map]. rewrite run_snoc, step_memberInput.
    destruct op; cbn [memberRequest];
      [now apply join_keeps_invariant | now apply leave_keeps_invariant].
Qed.

Lemma history_members pids history roomId peerId :
  pids <> [] ->
  In peerId (peerIds (run (map memberInput history) (startServer pids)) roomId)
  <-> joinedNotLeft history roomId peerId = true.
Proof.
  intros Ne. induction history as [|op history IH] using rev_ind.
  - cbn. split; [intros [] | discriminate].
  - rewrite map_app. cbn [map]. rewrite run_snoc, step_memberInput.
    rewrite joinedNotLeft_snoc.
    pose proof (history_invariant pids history Ne) as (W & _).
    destruct op as [r p n | r p]; cbn [memberRequest].
    + rewrite (peerIds_join _ _ _ _ _ _ W), IH.
      destruct (keq r roomId && keq p peerId) eqn:E.
      * apply keq_pair_true in E. intuition congruence.
      * split; [intros [X | [-> ->]]; [exact X|] | now left].
        rewrite !keq_refl in E. discriminate.
    + rewrite peerIds_leave, IH.
      destruct (keq r roomId && keq p peerId) eqn:E.
      * apply keq_pair_true in E. intuition congruence.
      * split; [now intros [X _] | intros X; split; [exact X|]].
        intros [-> ->]. rewrite !keq_refl in E. discriminate.
Qed.


End Histories.

(** ** Producers and their owners, in every reachable state *)

Create HintDb grows.

#[export] Hint Resolve
  MediasoupFacts.grows_refl
  MediasoupFacts.createRouter_grows
  MediasoupFacts.createWebRtcTransport_grows
  MediasoupFacts.markConsuming_grows
  MediasoupFacts.connect_grows
  MediasoupFacts.produce_grows
  MediasoupFacts.consume_grows
  MediasoupFacts.producerPause_grows
  MediasoupFacts.producerResume_grows
  MediasoupFacts.producerClose_grows
  MediasoupFacts.updateConsumer_grows
  MediasoupFacts.producerCloseNotification_grows
  MediasoupFacts.transportClose_grows
  MediasoupFacts.routerClose_grows : grows.

Section Consistency.
Context `{Ortc}.
Import ServerJs.
Import Props.
Abbreviation Engine := Mediasoup.Engine.
Abbreviation Room := RoomJs.Room.

Lemma producersOwned_grows (e e' : Engine) ps :
  producersAllocated e -> grows e e' -> producersOwned e ps -> producersOwned e' ps.
Proof.
  intros A Gr O q peer id Hq Hid.
  destruct (O q peer id Hq Hid) as (p & G & Ea).
  destruct (Gr A) as ((_ & K) & _). destruct (K id p G) as (p' & G' & Ea' & _).
  exists p'. split; congruence.
Qed.

Lemma peersEvolve_refl (e' : Engine) ps : peersEvolve e' ps ps.
Proof. intros q peer id Hq Hid. left. eauto. Qed.

Lemma peersEvolve_set (e' : Engine) ps q peer peer' :
  JsMap.get ps q = Some peer ->
  (forall id, In id (RoomJs.producers peer') ->
     In id (RoomJs.producers peer) \/
     exists p, JsMap.get (Mediasoup.e_producers e') id = Some p /\
               JsMap.get (Mediasoup.producer_appData p) "peerId" = Some q) ->
  peersEvolve e' ps (JsMap.set ps q peer').
Proof.
  intros G Each q' peer'' id Hq Hid.
  apply JsMapFacts.in_set in Hq. destruct Hq as [E | Hq].
  - injection E as -> ->. destruct (Each id Hid) as [Old | New]; [left | now right].
    exists peer. split; [now apply JsMapFacts.get_Some_in | exact Old].
  - left. eauto.
Qed.

Lemma peersEvolve_join (e' : Engine) ps q name :
  peersEvolve e' ps (JsMap.set ps q (RoomJs.mkPeer name [] [] [])).
Proof.
  intros q' peer'' id Hq Hid.
  apply JsMapFacts.in_set in Hq. destruct Hq as [E | Hq].
  - injection E as -> ->. destruct Hid.
  - left. eauto.
Qed.

Lemma peersEvolve_delete (e' : Engine) ps q : peersEvolve e' ps (JsMap.delete ps q).
Proof.
  intros q' peer'' id Hq Hid. apply JsMapFacts.in_delete in Hq. left. eauto.
Qed.

Lemma consistent_after_call s roomId room room' idx' (e' : Engine) :
  consistent s ->
  JsMap.get (rooms s) roomId = Some room ->
  grows (engine s) e' ->
  peersEvolve e' (RoomJs.peers room) (RoomJs.peers room') ->
  consistent (mkServer (workers s) idx' (JsMap.set (rooms s) roomId room') e').
Proof.
  intros (A & O) G Gr Ev. destruct (Gr A) as ((Le & K) & A').
  split; [exact A'|]. cbn [rooms engine].
  intros r2 room2 Hin. apply JsMapFacts.in_set in Hin. destruct Hin as [E | Hin].
  - injection E as -> ->. intros q peer' id Hq Hid.
    destruct (Ev q peer' id Hq Hid) as [(peer & Hp & Hi) | New]; [|exact New].
    apply JsMapFacts.get_Some_in in G.
    destruct (O _ _ G q peer id Hp Hi) as (p & Gp & Ea).
    destruct (K id p Gp) as (p' & G' & Ea' & _). exists p'. split; congruence.
  - apply (producersOwned_grows (engine s)); [exact A | exact Gr | exact (O _ _ Hin)].
Qed.

Lemma consistent_changed_store s idx' rs (e' : Engine) :
  consistent s ->
  grows (engine s) e' ->
  (forall r room', In (r, room') rs ->
     RoomJs.peers room' = [] \/
     exists room, In (r, room) (rooms s) /\
                  peersEvolve e' (RoomJs.peers room) (RoomJs.peers room')) ->
  consistent (mkServer (workers s) idx' rs e').
Proof.
  intros (A & O) Gr Sub. destruct (Gr A) as ((Le & K) & A').
  split; [exact A'|]. cbn [rooms engine].
  intros r2 room2 Hin q peer' id Hq Hid.
  destruct (Sub _ _ Hin) as [E | (room & Hr & Ev)].
  - rewrite E in Hq. destruct Hq.
  - destruct (Ev q peer' id Hq Hid) as [(peer & Hp & Hi) | New]; [|exact New].
    destruct (O _ _ Hr q peer id Hp Hi) as (p & Gp & Ea).
    destruct (K id p Gp) as (p' & G' & Ea' & _). exists p'. split; congruence.
Qed.

Lemma engineAfterRemove_grows (e : Engine) peer : grows e (engineAfterRemove e peer).
Proof.
  destruct peer as [peer|]; cbn [engineAfterRemove]; auto with grows.
  apply (closePeerTransports_keep (fun e0 => grows e e0)); cbn [snd];
    auto with grows.
  intros x e0 N. eapply MediasoupFacts.grows_trans; eauto with grows.
Qed.

Lemma leave_consistent s roomId peerId :
  consistent s -> consistent (snd (handleRpcRequest (Leave roomId peerId) s)).
Proof.
  intros C. destruct (JsMap.get (rooms s) roomId) as [room|] eqn:G.
  - rewrite (leave_registered _ _ _ _ G). cbn [snd].
    pose proof (engineAfterRemove_grows (engine s)
                  (JsMap.get (RoomJs.peers room) peerId)) as Gr.
    destruct (Nat.eqb _ 0).
    + apply consistent_changed_store; auto.
      * eapply MediasoupFacts.grows_trans; eauto with grows.
      * intros r room' Hin. right. apply JsMapFacts.in_delete in Hin.
        exists room'. split; [exact Hin | apply peersEvolve_refl].
    + apply (consistent_after_call s roomId room); auto.
      cbn [RoomJs.peers]. apply peersEvolve_delete.
  - now rewrite (leave_unregistered _ _ _ G).
Qed.

Lemma getOrCreateRoom_consistent s roomId :
  consistent s -> consistent (snd (getOrCreateRoom roomId s)).
Proof.
  intros C. destruct (JsMap.get (rooms s) roomId) as [room|] eqn:G.
  - now rewrite (getOrCreateRoom_registered _ _ _ G).
  - rewrite (getOrCreateRoom_unregistered _ _ G).
    destruct (nth_error (workers s) (nextWorkerIdx s)); cbn [snd].
    + apply consistent_changed_store; auto with grows.
      intros r room' Hin. apply JsMapFacts.in_set in Hin. destruct Hin as [E | Hin].
      * left. now injection E as -> ->.
      * right. exists room'. split; [exact Hin | apply peersEvolve_refl].
    + apply consistent_changed_store; auto with grows.
      intros r room' Hin. right. exists room'. split; [exact Hin | apply peersEvolve_refl].
Qed.

Lemma join_consistent s roomId peerId name :
  consistent s -> consistent (snd (handleRpcRequest (Join roomId peerId name) s)).
Proof.
  intros C. cbn [handleRpcRequest]. unfold bind at 1.
  pose proof (getOrCreateRoom_consistent s roomId C) as C1.
  destruct (JsMap.get (rooms s) roomId) as [room|] eqn:G.
  - rewrite (getOrCreateRoom_registered _ _ _ G) in *.
    unfold RoomJs.addPeer. unfold_js. cbv beta iota delta [fst snd].
    destruct (JsMap.has (RoomJs.peers room) peerId); cbn [snd].
    + apply (consistent_after_call s roomId room); auto with grows.
      apply peersEvolve_refl.
    + apply (consistent_after_call s roomId room); auto with grows.
      cbn [RoomJs.peers]. apply peersEvolve_join.
  - rewrite (getOrCreateRoom_unregistered _ _ G) in *.
    destruct (nth_error (workers s) (nextWorkerIdx s)); cbn [snd] in *; [|exact C1].
    unfold RoomJs.addPeer, RoomJs.newRoom. unfold_js. cbv beta iota delta [fst snd].
    cbn [RoomJs.peers JsMap.has JsMap.get JsMap.empty snd].
    match goal with
    | |- consistent (mkServer ?w ?i (JsMap.set ?rs ?r ?room') ?e) =>
        apply (consistent_after_call (mkServer w i rs e) r
                 (RoomJs.newRoom roomId (Mediasoup.e_nextId (engine s))) room' i e)
    end; auto with grows.
    + cbn [rooms]. apply JsMapFacts.get_set_same.
    + cbn [RoomJs.peers RoomJs.newRoom]. apply peersEvolve_join.
Qed.

Ltac solve_grows :=
  solve [ eauto with grows
        | eapply MediasoupFacts.grows_trans;
          [ | apply MediasoupFacts.markConsuming_grows ]; eauto with grows ].

(** The producers of the peer written back by a method. *)
Ltac solve_producers_of :=
  let id := fresh "id" in
  let Hid := fresh "Hid" in
  intros id Hid; cbn [RoomJs.producers] in Hid;
  first
    [ left; exact Hid
    | apply In_refsDelete in Hid; left; exact (proj1 Hid)
    | apply In_refsSet in Hid; destruct Hid as [Hid | ->]; [left; exact Hid | right];
      match goal with
      | E : Mediasoup.produce _ _ _ _ _ = Some _ |- _ =>
          destruct (MediasoupFacts.produce_creates _ _ _ _ _ _ _ E) as (_ & _ & ->)
      end;
      eexists; split; [apply JsMapFacts.get_set_same|];
      cbn [Mediasoup.producer_appData]; apply JsMapFacts.get_set_same ].

Ltac solve_call :=
  match goal with
  | C : consistent ?s, G : JsMap.get (rooms ?s) ?r = Some ?room
    |- consistent (mkServer _ _ (JsMap.set (rooms ?s) ?r _) _) =>
      apply (consistent_after_call s r room); [exact C | exact G | solve_grows | ];
      cbn [RoomJs.peers];
      first [ apply peersEvolve_refl
            | eapply peersEvolve_set; [eassumption | solve_producers_of] ]
  | C : consistent ?s |- consistent ?s => exact C
  end.

Lemma capabilities_consistent s roomId :
  consistent s ->
  consistent (snd (handleRpcRequest (GetRouterRtpCapabilities roomId) s)).
Proof.
  intros C. cbn [handleRpcRequest]. unfold bind, ret.
  pose proof (getOrCreateRoom_consistent s roomId C) as C1.
  now destruct (getOrCreateRoom roomId s) as [[room|e] s1].
Qed.

Lemma request_consistent request s :
  consistent s -> consistent (snd (handleRpcRequest request s)).
Proof.
  intros C.
  destruct request;
    try (now apply leave_consistent); try (now apply join_consistent);
    try (now apply capabilities_consistent);
    cbn [handleRpcRequest];
    unfold_room; unfold_js; cbv beta iota delta [fst snd];
    repeat (break_match; cbn [snd]; try discriminate); solve_call.
Qed.

Lemma producers_onConsumerClose cs peer :
  RoomJs.producers (fold_left RoomJs.onConsumerClose cs peer) = RoomJs.producers peer.
Proof.
  revert peer. induction cs as [|c cs IH]; intros peer; cbn [fold_left]; auto.
  now rewrite IH.
Qed.

Lemma producers_onProducerTransportClose ps peer id :
  In id (RoomJs.producers (fold_left RoomJs.onProducerTransportClose ps peer)) ->
  In id (RoomJs.producers peer).
Proof.
  revert peer. induction ps as [|p ps IH]; intros peer Hin; cbn [fold_left] in Hin; auto.
  apply IH in Hin. cbn [RoomJs.onProducerTransportClose RoomJs.producers] in Hin.
  now apply In_refsDelete in Hin.
Qed.

Lemma in_mapPeers f rs r room' :
  In (r, room') (mapPeers f rs) ->
  exists room, In (r, room) rs /\
               RoomJs.peers room'
               = map (fun p => (fst p, f (snd p))) (RoomJs.peers room).
Proof.
  unfold mapPeers. intros Hin. apply in_map_iff in Hin.
  destruct Hin as ([r0 room] & E & Hin). injection E as -> <-.
  exists room. split; [exact Hin | reflexivity].
Qed.

Lemma consistent_mapPeers s f (e' : Engine) :
  consistent s ->
  grows (engine s) e' ->
  (forall peer id, In id (RoomJs.producers (f peer)) -> In id (RoomJs.producers peer)) ->
  consistent (mkServer (workers s) (nextWorkerIdx s) (mapPeers f (rooms s)) e').
Proof.
  intros C Gr Sub. apply consistent_changed_store; auto.
  intros r room' Hin. right.
  destruct (in_mapPeers _ _ _ _ Hin) as (room & Hr & Ep).
  exists room. split; [exact Hr|]. rewrite Ep.
  intros q peer' id Hq Hid. left.
  apply in_map_iff in Hq. destruct Hq as ([q0 peer] & E & Hq). injection E as -> <-.
  exists peer. split; [exact Hq | now apply Sub].
Qed.

Lemma event_consistent ev s :
  consistent s -> consistent (handleEngineEvent ev s).
Proof.
  intros C. destruct ev; cbn [handleEngineEvent].
  - pose proof (MediasoupFacts.transportClose_grows transportId (engine s)) as Gr.
    destruct (Mediasoup.transportClose transportId (engine s)) as [e' [ps cs]].
    apply consistent_mapPeers; auto.
    intros peer id Hin.
    destruct (RoomJs.refsHas (RoomJs.transports peer) transportId); auto.
    rewrite producers_onConsumerClose in Hin.
    now apply producers_onProducerTransportClose in Hin.
  - destruct (Mediasoup.producerCloseNotification consumerId (engine s)) eqn:E; auto.
    apply consistent_mapPeers; eauto with grows.
    intros peer id Hin.
    now destruct (RoomJs.refsHas (RoomJs.consumers peer) consumerId).
Qed.

Lemma step_consistent i s : consistent s -> consistent (step i s).
Proof.
  intros C. destruct i as [[|n request]|ev]; cbn [step processMessage]; auto.
  - pose proof (request_consistent request s C) as C1.
    now destruct (handleRpcRequest request s) as [[r|e] s'].
  - now apply event_consistent.
Qed.

Lemma run_consistent inputs : forall s, consistent s -> consistent (run inputs s).
Proof.
  induction inputs as [|i inputs IH]; intros s C; [exact C|].
  cbn [run fold_left]. apply IH. now apply step_consistent.
Qed.

Lemma reachable_consistent s : reachable s -> consistent s.
Proof.
  intros (pids & inputs & ->). apply run_consistent.
  split; [intros id p G; discriminate | intros r room []].
Qed.

End Consistency.

(** ** What a peer holds sits on its transports, in every reachable state *)

Create HintDb due.

#[export] Hint Resolve
  MediasoupFacts.keepsDue_refl
  MediasoupFacts.createRouter_keepsDue
  MediasoupFacts.createWebRtcTransport_keepsDue
  MediasoupFacts.markConsuming_keepsDue
  MediasoupFacts.connect_keepsDue
  MediasoupFacts.produce_keepsDue
  MediasoupFacts.consume_keepsDue
  MediasoupFacts.producerPause_keepsDue
  MediasoupFacts.producerResume_keepsDue
  MediasoupFacts.producerClose_keepsDue
  MediasoupFacts.consumerResume_keepsDue
  MediasoupFacts.consumerSetPreferredLayers_keepsDue
  MediasoupFacts.producerCloseNotification_keepsDue
  MediasoupFacts.transportClose_keepsDue
  MediasoupFacts.routerClose_keepsDue : due.

Section Placement.
Context `{Ortc}.
Import ServerJs.
Import Props.
Abbreviation Engine := Mediasoup.Engine.
Abbreviation Room := RoomJs.Room.

Lemma findRecvTransport_In (e : Engine) peer t :
  RoomJs.findRecvTransport e peer = Some t -> In t (RoomJs.transports peer).
Proof.
  unfold RoomJs.findRecvTransport.
  destruct (find (RoomJs.isConsuming e) (RoomJs.transports peer)) as [t0|] eqn:F.
  - intros [= ->]. now apply find_some in F.
  - destruct (RoomJs.transports peer) as [|t0 rest]; [discriminate|].
    intros [= ->]. now left.
Qed.

Lemma placesEvolve_refl (e' : Engine) ps : placesEvolve e' ps ps.
Proof.
  intros q peer Hq. split; intros id Hid; left; exists peer;
    repeat split; auto using incl_refl.
Qed.

Lemma placesEvolve_set (e' : Engine) ps q peer peer' :
  JsMap.get ps q = Some peer ->
  incl (RoomJs.transports peer) (RoomJs.transports peer') ->
  (forall id, In id (RoomJs.producers peer') ->
     In id (RoomJs.producers peer) \/
     exists tid, In tid (RoomJs.transports peer') /\ producerDueOn e' tid id) ->
  (forall id, In id (RoomJs.consumers peer') ->
     In id (RoomJs.consumers peer) \/
     exists tid, In tid (RoomJs.transports peer') /\ consumerDueOn e' tid id) ->
  placesEvolve e' ps (JsMap.set ps q peer').
Proof.
  intros G Inc Ps Cs q' peer'' Hq.
  apply JsMapFacts.in_set in Hq. destruct Hq as [E | Hq].
  - injection E as -> ->. apply JsMapFacts.get_Some_in in G.
    split; intros id Hid.
    + destruct (Ps id Hid) as [Old | New]; [left | now right]. eauto.
    + destruct (Cs id Hid) as [Old | New]; [left | now right]. eauto.
  - now apply (placesEvolve_refl e' ps).
Qed.

Lemma placesEvolve_join (e' : Engine) ps q name :
  placesEvolve e' ps (JsMap.set ps q (RoomJs.mkPeer name [] [] [])).
Proof.
  intros q' peer'' Hq.
  apply JsMapFacts.in_set in Hq. destruct Hq as [E | Hq].
  - injection E as -> ->. split; intros id [].
  - now apply (placesEvolve_refl e' ps).
Qed.

Lemma placesEvolve_delete (e' : Engine) ps q : placesEvolve e' ps (JsMap.delete ps q).
Proof.
  intros q' peer'' Hq. apply JsMapFacts.in_delete in Hq.
  now apply (placesEvolve_refl e' ps).
Qed.

Lemma placed_changed_store s idx' rs (e' : Engine) :
  placed s ->
  keepsDue (engine s) e' ->
  (forall r room', In (r, room') rs ->
     RoomJs.peers room' = [] \/
     exists room, In (r, room) (rooms s) /\
                  placesEvolve e' (RoomJs.peers room) (RoomJs.peers room')) ->
  placed (mkServer (workers s) idx' rs e').
Proof.
  intros (A & B & P) K Sub. destruct (K A B) as (A' & B' & Kp & Kc).
  split; [exact A'|]. split; [exact B'|]. cbn [rooms engine].
  intros r room' q peer' Hr Hq.
  destruct (Sub _ _ Hr) as [E | (room & Hroom & Ev)].
  - rewrite E in Hq. destruct Hq.
  - destruct (Ev q peer' Hq) as (Ps & Cs). split; intros id Hid.
    + destruct (Ps id Hid) as [(peer & Hp & Hi & Inc) | New]; [|exact New].
      destruct (P r room q peer Hroom Hp) as (Pp & _).
      destruct (Pp id Hi) as (tid & Ht & D). exists tid. auto.
    + destruct (Cs id Hid) as [(peer & Hp & Hi & Inc) | New]; [|exact New].
      destruct (P r room q peer Hroom Hp) as (_ & Pc).
      destruct (Pc id Hi) as (tid & Ht & D). exists tid. auto.
Qed.

Lemma placed_after_call s roomId room room' idx' (e' : Engine) :
  placed s ->
  JsMap.get (rooms s) roomId = Some room ->
  keepsDue (engine s) e' ->
  placesEvolve e' (RoomJs.peers room) (RoomJs.peers room') ->
  placed (mkServer (workers s) idx' (JsMap.set (rooms s) roomId room') e').
Proof.
  intros P G K Ev. apply placed_changed_store; auto.
  intros r room2 Hin. right. apply JsMapFacts.in_set in Hin.
  destruct Hin as [E | Hin].
  - injection E as -> ->. exists room.
    split; [now apply JsMapFacts.get_Some_in | exact Ev].
  - exists room2. split; [exact Hin | apply placesEvolve_refl].
Qed.

Lemma engineAfterRemove_keepsDue (e : Engine) peer :
  keepsDue e (engineAfterRemove e peer).
Proof.
  destruct peer as [peer|]; cbn [engineAfterRemove]; auto with due.
  apply (closePeerTransports_keep (fun e0 => keepsDue e e0)); cbn [snd];
    auto with due.
  intros x e0 N. eapply MediasoupFacts.keepsDue_trans; eauto with due.
Qed.

Lemma leave_placed s roomId peerId :
  placed s -> placed (snd (handleRpcRequest (Leave roomId peerId) s)).
Proof.
  intros P. destruct (JsMap.get (rooms s) roomId) as [room|] eqn:G.
  - rewrite (leave_registered _ _ _ _ G). cbn [snd].
    pose proof (engineAfterRemove_keepsDue (engine s)
                  (JsMap.get (RoomJs.peers room) peerId)) as K.
    destruct (Nat.eqb _ 0).
    + apply placed_changed_store; auto.
      * eapply MediasoupFacts.keepsDue_trans; eauto with due.
      * intros r room' Hin. right. apply JsMapFacts.in_delete in Hin.
        exists room'. split; [exact Hin | apply placesEvolve_refl].
    + apply (placed_after_call s roomId room); auto.
      cbn [RoomJs.peers]. apply placesEvolve_delete.
  - now rewrite (leave_unregistered _ _ _ G).
Qed.

Lemma getOrCreateRoom_placed s roomId :
  placed s -> placed (snd (getOrCreateRoom roomId s)).
Proof.
  intros P. destruct (JsMap.get (rooms s) roomId) as [room|] eqn:G.
  - now rewrite (getOrCreateRoom_registered _ _ _ G).
  - rewrite (getOrCreateRoom_unregistered _ _ G).
    destruct (nth_error (workers s) (nextWorkerIdx s)); cbn [snd].
    + apply placed_changed_store; auto with due.
      intros r room' Hin. apply JsMapFacts.in_set in Hin. destruct Hin as [E | Hin].
      * left. now injection E as -> ->.
      * right. exists room'. split; [exact Hin | apply placesEvolve_refl].
    + apply placed_changed_store; auto with due.
      intros r room' Hin. right. exists room'. split; [exact Hin | apply placesEvolve_refl].
Qed.

Lemma join_placed s roomId peerId name :
  placed s -> placed (snd (handleRpcRequest (Join roomId peerId name) s)).
Proof.
  intros P. cbn [handleRpcRequest]. unfold bind at 1.
  pose proof (getOrCreateRoom_placed s roomId P) as P1.
  destruct (JsMap.get (rooms s) roomId) as [room|] eqn:G.
  - rewrite (getOrCreateRoom_registered _ _ _ G) in *.
    unfold RoomJs.addPeer. unfold_js. cbv beta iota delta [fst snd].
    destruct (JsMap.has (RoomJs.peers room) peerId); cbn [snd].
    + apply (placed_after_call s roomId room); auto with due.
      apply placesEvolve_refl.
    + apply (placed_after_call s roomId room); auto with due.
      cbn [RoomJs.peers]. apply placesEvolve_join.
  - rewrite (getOrCreateRoom_unregistered _ _ G) in *.
    destruct (nth_error (workers s) (nextWorkerIdx s)); cbn [snd] in *; [|exact P1].
    unfold RoomJs.addPeer, RoomJs.newRoom. unfold_js. cbv beta iota delta [fst snd].
    cbn [RoomJs.peers JsMap.has JsMap.get JsMap.empty snd].
    match goal with
    | |- placed (mkServer ?w ?i (JsMap.set ?rs ?r ?room') ?e) =>
        apply (placed_after_call (mkServer w i rs e) r
                 (RoomJs.newRoom roomId (Mediasoup.e_nextId (engine s))) room' i e)
    end; auto with due.
    + cbn [rooms]. apply JsMapFacts.get_set_same.
    + cbn [RoomJs.peers RoomJs.newRoom]. apply placesEvolve_join.
Qed.

Lemma capabilities_placed s roomId :
  placed s ->
  placed (snd (handleRpcRequest (GetRouterRtpCapabilities roomId) s)).
Proof.
  intros P. cbn [handleRpcRequest]. unfold bind, ret.
  pose proof (getOrCreateRoom_placed s roomId P) as P1.
  now destruct (getOrCreateRoom roomId s) as [[room|e] s1].
Qed.

Ltac solve_keepsDue :=
  solve [ eauto with due
        | eapply MediasoupFacts.keepsDue_trans;
          [ | apply MediasoupFacts.markConsuming_keepsDue ]; eauto with due ].

(** What the peer written back by a method holds. *)
Ltac solve_held :=
  let id := fresh "id" in
  let Hid := fresh "Hid" in
  intros id Hid; cbn [RoomJs.producers RoomJs.consumers fst] in Hid;
  first
    [ left; exact Hid
    | apply In_refsDelete in Hid; left; exact (proj1 Hid)
    | apply In_refsSet in Hid; destruct Hid as [Hid | ->]; [left; exact Hid | right];
      eexists; split;
      [ cbn [RoomJs.transports];
        first [ apply refsHas_In; eassumption
              | eapply findRecvTransport_In; eassumption ]
      | first [ eapply MediasoupFacts.produce_places; eassumption
              | eapply MediasoupFacts.consume_places; eassumption ] ] ].

Ltac solve_transports :=
  cbn [RoomJs.transports];
  first [ apply incl_refl
        | let x := fresh "x" in
          let Hx := fresh "Hx" in
          intros x Hx; apply In_refsSet; left; exact Hx ].

Ltac solve_placed_call :=
  match goal with
  | P : placed ?s, G : JsMap.get (rooms ?s) ?r = Some ?room
    |- placed (mkServer _ _ (JsMap.set (rooms ?s) ?r _) _) =>
      apply (placed_after_call s r room); [exact P | exact G | solve_keepsDue | ];
      cbn [RoomJs.peers];
      first [ apply placesEvolve_refl
            | eapply placesEvolve_set;
              [eassumption | solve_transports | solve_held | solve_held] ]
  | P : placed ?s |- placed ?s => exact P
  end.

Lemma request_placed request s :
  placed s -> placed (snd (handleRpcRequest request s)).
Proof.
  intros P.
  destruct request;
    try (now apply leave_placed); try (now apply join_placed);
    try (now apply capabilities_placed);
    cbn [handleRpcRequest];
    unfold_room; unfold_js; cbv beta iota delta [fst snd];
    repeat (break_match; cbn [snd]; try discriminate); solve_placed_call.
Qed.

Lemma held_onConsumerClose cs peer :
  RoomJs.producers (fold_left RoomJs.onConsumerClose cs peer) = RoomJs.producers peer /\
  RoomJs.transports (fold_left RoomJs.onConsumerClose cs peer) = RoomJs.transports peer /\
  incl (RoomJs.consumers (fold_left RoomJs.onConsumerClose cs peer))
       (RoomJs.consumers peer).
Proof.
  revert peer. induction cs as [|c cs IH]; intros peer; cbn [fold_left].
  - auto using incl_refl.
  - destruct (IH (RoomJs.onConsumerClose peer c)) as (Ep & Et & Ic).
    rewrite Ep, Et. repeat split; auto.
    intros x Hx. apply Ic in Hx. cbn in Hx. now apply In_refsDelete in Hx.
Qed.

Lemma held_onProducerTransportClose ps peer :
  RoomJs.consumers (fold_left RoomJs.onProducerTransportClose ps peer)
  = RoomJs.consumers peer /\
  RoomJs.transports (fold_left RoomJs.onProducerTransportClose ps peer)
  = RoomJs.transports peer /\
  incl (RoomJs.producers (fold_left RoomJs.onProducerTransportClose ps peer))
       (RoomJs.producers peer).
Proof.
  revert peer. induction ps as [|p ps IH]; intros peer; cbn [fold_left].
  - auto using incl_refl.
  - destruct (IH (RoomJs.onProducerTransportClose peer p)) as (Ec & Et & Ip).
    rewrite Ec, Et. repeat split; auto.
    intros x Hx. apply Ip in Hx. cbn in Hx. now apply In_refsDelete in Hx.
Qed.

Lemma placed_mapPeers s f (e' : Engine) :
  placed s ->
  keepsDue (engine s) e' ->
  (forall peer, RoomJs.transports (f peer) = RoomJs.transports peer /\
                incl (RoomJs.producers (f peer)) (RoomJs.producers peer) /\
                incl (RoomJs.consumers (f peer)) (RoomJs.consumers peer)) ->
  placed (mkServer (workers s) (nextWorkerIdx s) (mapPeers f (rooms s)) e').
Proof.
  intros P K Sub. apply placed_changed_store; auto.
  intros r room' Hin. right.
  destruct (in_mapPeers _ _ _ _ Hin) as (room & Hr & Ep).
  exists room. split; [exact Hr|]. rewrite Ep.
  intros q peer' Hq.
  apply in_map_iff in Hq. destruct Hq as ([q0 peer] & E & Hq). injection E as -> <-.
  cbn [snd]. destruct (Sub peer) as (Et & Ip & Ic).
  split; intros id Hid; left; exists peer; rewrite Et;
    repeat split; auto using incl_refl.
Qed.

Lemma event_placed ev s : placed s -> placed (handleEngineEvent ev s).
Proof.
  intros P. destruct ev; cbn [handleEngineEvent].
  - pose proof (MediasoupFacts.transportClose_keepsDue transportId (engine s)) as K.
    destruct (Mediasoup.transportClose transportId (engine s)) as [e' [ps cs]].
    apply placed_mapPeers; auto.
    intros peer.
    destruct (RoomJs.refsHas (RoomJs.transports peer) transportId);
      [|auto using incl_refl].
    destruct (held_onConsumerClose cs
                (fold_left RoomJs.onProducerTransportClose ps peer)) as (Ep & Et & Ic).
    destruct (held_onProducerTransportClose ps peer) as (Ec' & Et' & Ip').
    rewrite Ep, Et, Et'. repeat split; auto.
    intros x Hx. apply Ic in Hx. now rewrite Ec' in Hx.
  - destruct (Mediasoup.producerCloseNotification consumerId (engine s)) eqn:E; auto.
    apply placed_mapPeers; eauto with due.
    intros peer.
    destruct (RoomJs.refsHas (RoomJs.consumers peer) consumerId);
      [|auto using incl_refl].
    cbn. repeat split; auto using incl_refl.
    intros x Hx. now apply In_refsDelete in Hx.
Qed.

Lemma step_placed i s : placed s -> placed (step i s).
Proof.
  intros P. destruct i as [[|n request]|ev]; cbn [step processMessage]; auto.
  - pose proof (request_placed request s P) as P1.
    now destruct (handleRpcRequest request s) as [[r|e] s'].
  - now apply event_placed.
Qed.

Lemma run_placed inputs : forall s, placed s -> placed (run inputs s).
Proof.
  induction inputs as [|i inputs IH]; intros s P; [exact P|].
  cbn [run fold_left]. apply IH. now apply step_placed.
Qed.

Lemma reachable_placed s : reachable s -> placed s.
Proof.
  intros (pids & inputs & ->). apply run_placed.
  split; [intros id p G; discriminate|].
  split; [intros id c G; discriminate|]. intros r room q peer [].
Qed.

(** C6. A Leave of a peer that is in the room replies with exactly the
    producers the peer held when called, takes the peer out of the peer
    map and leaves the other entries in place, and closes every transport
    the peer held, and with each of them the producers and consumers on
    it; in a reachable state these are all the producers and consumers
    the peer held. *)
Theorem leave_closes_and_removes s roomId room peerId peer :
  JsMap.get (rooms s) roomId = Some room ->
  JsMap.get (RoomJs.peers room) peerId = Some peer ->
  let out := handleRpcRequest (Leave roomId peerId) s in
  let e' := engine (snd out) in
  fst out = Return (LeaveResult (RoomJs.producers peer)) /\
  peerOf (snd out) roomId peerId = None /\
  peerIds (snd out) roomId
  = filter (fun q => negb (keq peerId q)) (peerIds s roomId) /\
  (forall q, q <> peerId -> peerOf s roomId q <> None ->
             peerOf (snd out) roomId q = peerOf s roomId q) /\
  (forall tid t, In tid (RoomJs.transports peer) ->
     JsMap.get (Mediasoup.e_transports (engine s)) tid = Some t ->
     transportIsClosed e' tid) /\
  (forall tid id, In tid (RoomJs.transports peer) ->
     producerDueOn (engine s) tid id -> producerIsClosed e' id) /\
  (forall tid id, In tid (RoomJs.transports peer) ->
     consumerDueOn (engine s) tid id -> consumerIsClosed e' id) /\
  (reachable s ->
   (forall id, In id (RoomJs.producers peer) -> producerIsClosed e' id) /\
   (forall id, In id (RoomJs.consumers peer) -> consumerIsClosed e' id)).
Proof.
  intros G P out e'.
  destruct (leave_removes_and_closes_due s roomId room peerId peer G P)
    as (Reply & Gone & Ids & Others & Tr & Pr & Cs).
  fold out in Reply, Gone, Ids, Others. fold e' in Tr, Pr, Cs.
  repeat (split; [assumption|]).
  intros R. destruct (reachable_placed s R) as (_ & _ & Pl).
  destruct (Pl roomId room peerId peer (JsMapFacts.get_Some_in _ _ _ G)
              (JsMapFacts.get_Some_in _ _ _ P)) as (Pp & Pc).
  split; intros id Hid.
  - destruct (Pp id Hid) as (tid & Ht & D). now apply (Pr tid id).
  - destruct (Pc id Hid) as (tid & Ht & D). now apply (Cs tid id).
Qed.

End Placement.

(** ** Producing and listing producers *)

Section Producers.
Context `{Ortc}.
Import ServerJs.
Import Props.
Abbreviation Engine := Mediasoup.Engine.
Abbreviation Room := RoomJs.Room.

(** What a Produce that succeeds has done. *)
Lemma produce_success s roomId peerId transportId kind rtp appData producerId s' :
  handleRpcRequest (Produce roomId peerId transportId kind rtp appData) s
  = (Return (ProduceResult producerId), s') ->
  exists room peer e',
    JsMap.get (rooms s) roomId = Some room /\
    JsMap.get (RoomJs.peers room) peerId = Some peer /\
    RoomJs.refsHas (RoomJs.transports peer) transportId = true /\
    Mediasoup.produce transportId kind rtp (JsMap.set appData "peerId" peerId) (engine s)
    = Some (producerId, e') /\
    s' = mkServer (workers s) (nextWorkerIdx s)
           (JsMap.set (rooms s) roomId
              (RoomJs.mkRoom (RoomJs.roomId room) (RoomJs.router room)
                 (JsMap.set (RoomJs.peers room) peerId
                    (RoomJs.mkPeer (RoomJs.displayName peer) (RoomJs.transports peer)
                       (RoomJs.refsSet (RoomJs.producers peer) producerId)
                       (RoomJs.consumers peer)))))
           e'.
Proof.
  cbn [handleRpcRequest]. unfold_room; unfold_js; cbv beta iota delta [fst snd].
  repeat (break_match; try discriminate). intros E. injection E as <- <-.
  repeat match goal with
         | E : (_, _) = (_, _) |- _ => injection E as <- <-
         end.
  do 3 eexists. repeat split; eauto.
Qed.

Lemma MediaKind_eqb_refl k : MediaKind_eqb k k = true.
Proof. now destruct k. Qed.

(** C1, as the code has it. In a reachable state, a Produce that
    succeeds for a peer that already holds an open producer of the same
    kind adds a new producer after the ones the peer holds: the prior
    producer stays in the peer's map and untouched in the store, the new
    one is a different producer, and both are open producers of that
    kind of the peer, which now has one more of them. *)
Theorem produce_adds_next_to_prior
    s roomId peerId transportId kind rtp appData producerId s' peer prior :
  reachable s ->
  peerOf s roomId peerId = Some peer ->
  In prior (activeProducers (engine s) peer kind) ->
  handleRpcRequest (Produce roomId peerId transportId kind rtp appData) s
  = (Return (ProduceResult producerId), s') ->
  exists peer',
    peerOf s' roomId peerId = Some peer' /\
    RoomJs.producers peer' = RoomJs.producers peer ++ [producerId] /\
    producerId <> prior /\
    JsMap.get (Mediasoup.e_producers (engine s')) prior
    = JsMap.get (Mediasoup.e_producers (engine s)) prior /\
    In prior (activeProducers (engine s') peer' kind) /\
    In producerId (activeProducers (engine s') peer' kind) /\
    List.length (activeProducers (engine s') peer' kind)
    = S (List.length (activeProducers (engine s) peer kind)).
Proof.
  intros R P Prior E.
  destruct (produce_success _ _ _ _ _ _ _ _ _ E)
    as (room & peer0 & e' & G & Gp & Ht & Ep & ->).
  unfold peerOf in P. rewrite G, Gp in P. injection P as ->.
  destruct (reachable_consistent s R) as (A & O).
  destruct (MediasoupFacts.produce_creates _ _ _ _ _ _ _ Ep) as (Eid & En & Es).
  assert (Old : forall id, In id (RoomJs.producers peer) ->
                           id <> producerId /\
                           JsMap.get (Mediasoup.e_producers e') id
                           = JsMap.get (Mediasoup.e_producers (engine s)) id).
  { intros id Hid.
    destruct (O roomId room (JsMapFacts.get_Some_in _ _ _ G) peerId peer id
                (JsMapFacts.get_Some_in _ _ _ Gp) Hid) as (p & Gid & _).
    apply A in Gid. split; [lia|]. rewrite Es.
    apply JsMapFacts.get_set_other. lia. }
  assert (Fresh : ~ In producerId (RoomJs.producers peer)).
  { intros Hin. now destruct (Old _ Hin). }
  assert (PriorIn : In prior (RoomJs.producers peer)).
  { unfold activeProducers in Prior. now apply filter_In in Prior. }
  eexists. unfold peerOf. cbn [rooms engine].
  rewrite JsMapFacts.get_set_same. cbn [RoomJs.peers].
  rewrite JsMapFacts.get_set_same. split; [reflexivity|].
  cbn [RoomJs.producers]. rewrite (refsSet_fresh _ _ Fresh).
  assert (Active : activeProducers e'
                     (RoomJs.mkPeer (RoomJs.displayName peer) (RoomJs.transports peer)
                        (RoomJs.producers peer ++ [producerId]) (RoomJs.consumers peer))
                     kind
                   = activeProducers (engine s) peer kind ++ [producerId]).
  { unfold activeProducers. cbn [RoomJs.producers]. rewrite filter_app. f_equal.
    - apply filter_ext_in. intros id Hid. now rewrite (proj2 (Old id Hid)).
    - cbn [filter]. rewrite Es, JsMapFacts.get_set_same.
      cbn [Mediasoup.producer_kind Mediasoup.producer_closed].
      now rewrite MediaKind_eqb_refl. }
  rewrite Active.
  split; [reflexivity|]. split; [intros ->; contradiction|].
  split; [apply (Old prior PriorIn)|].
  split; [apply in_or_app; now left|].
  split; [apply in_or_app; right; now left|].
  rewrite length_app. cbn. lia.
Qed.

(** C9. In a reachable state, the list made for peer X of a registered
    room, which is what the getProducers request replies with, has no
    entry of X and no producer X holds, one entry for each producer of
    each other peer of the room, and nothing else. *)
Theorem getProducers_excludes_self_lists_others s roomId room peerId :
  reachable s ->
  JsMap.get (rooms s) roomId = Some room ->
  let listed := RoomJs.getProducersForPeer room (engine s) peerId in
  handleRpcRequest (GetProducers roomId peerId) s
  = (Return (ProducersResult listed), s) /\
  (forall entry, In entry listed ->
     RoomJs.pr_peerId entry <> peerId /\
     (exists other,
        In (RoomJs.pr_peerId entry, other) (RoomJs.peers room) /\
        In (RoomJs.pr_producerId entry) (RoomJs.producers other)) /\
     (forall own, JsMap.get (RoomJs.peers room) peerId = Some own ->
                  ~ In (RoomJs.pr_producerId entry) (RoomJs.producers own))) /\
  (forall otherId other id,
     otherId <> peerId ->
     JsMap.get (RoomJs.peers room) otherId = Some other ->
     In id (RoomJs.producers other) ->
     exists entry, In entry listed /\
                   RoomJs.pr_producerId entry = id /\
                   RoomJs.pr_peerId entry = otherId).
Proof.
  intros R G listed. subst listed.
  destruct (reachable_consistent s R) as (A & O).
  pose proof (O roomId room (JsMapFacts.get_Some_in _ _ _ G)) as Or.
  split; [|split].
  - cbn [handleRpcRequest]. unfold_js. now rewrite G.
  - intros entry Hin. unfold RoomJs.getProducersForPeer in Hin.
    apply in_flat_map in Hin. destruct Hin as ([q other] & Hq & Hin).
    cbn [fst snd] in Hin.
    destruct (keq q peerId) eqn:Eq; [destruct Hin|]. apply keq_false in Eq.
    unfold RoomJs.producerEntries in Hin. apply in_flat_map in Hin.
    destruct Hin as (id & Hid & Hin).
    destruct (JsMap.get (Mediasoup.e_producers (engine s)) id) as [p|] eqn:Gid;
      [|destruct Hin].
    destruct Hin as [<-|[]]. cbn [RoomJs.pr_peerId RoomJs.pr_producerId].
    split; [exact Eq|]. split; [eauto|].
    intros own Gown Hown. apply JsMapFacts.get_Some_in in Gown.
    destruct (Or q other id Hq Hid) as (p1 & G1 & E1).
    destruct (Or peerId own id Gown Hown) as (p2 & G2 & E2).
    congruence.
  - intros q other id Nq Gq Hid. apply JsMapFacts.get_Some_in in Gq.
    destruct (Or q other id Gq Hid) as (p & Gid & _).
    exists (RoomJs.mkProducerInfo id q (Mediasoup.producer_kind p)
                                  (Mediasoup.producer_appData p)).
    split; [|split; reflexivity].
    unfold RoomJs.getProducersForPeer. apply in_flat_map.
    exists (q, other). split; [exact Gq|]. cbn [fst snd].
    apply keq_false in Nq. rewrite Nq.
    unfold RoomJs.producerEntries. apply in_flat_map.
    exists id. split; [exact Hid|]. rewrite Gid. now left.
Qed.

End Producers.

(** * The properties on the worked session *)

Section Worked.
Import ServerJs.
Import Props.
#[local] Existing Instance plainOrtc.

Lemma session_reachable : reachable Session.state.
Proof. exists [100; 200], Session.inputs. reflexivity. Qed.

Lemma sessionClosed_reachable : reachable Session.stateClosed.
Proof.
  exists [100; 200],
    (Session.inputs ++ [Line (Parsed 6 (CloseProducer "r" "alice" 2))]).
  reflexivity.
Qed.

(** C1, the claim as stated, fails: alice holds the open audio producer
    2; her second Produce of audio is answered with producer 4, after
    which she holds two open audio producers, and producer 2 was not
    closed. *)
Lemma second_produce_leaves_two_active :
  let out := handleRpcRequest (Produce "r" "alice" 1 audio 1 []) Session.state in
  peerOf Session.state "r" "alice" = Some Session.alice /\
  activeProducers (engine Session.state) Session.alice audio = [2] /\
  fst out = Return (ProduceResult 4) /\
  (exists peer', peerOf (snd out) "r" "alice" = Some peer' /\
                 activeProducers (engine (snd out)) peer' audio = [2; 4]) /\
  ~ producerIsClosed (engine (snd out)) 2.
Proof.
  cbv zeta. split; [reflexivity|]. split; [reflexivity|]. split; [reflexivity|].
  split.
  - eexists. split; reflexivity.
  - intros (p & G & C). vm_compute in G. injection G as <-. discriminate C.
Qed.

(** A retry with the very parameters of producer 2 is refused by the
    transport: the request fails and alice still holds producer 2 only,
    open. *)
Lemma identical_produce_is_rejected :
  let out := handleRpcRequest (Produce "r" "alice" 1 audio 0 []) Session.state in
  fst out = Throw EngineRejected /\
  snd out = Session.state /\
  activeProducers (engine (snd out)) Session.alice audio = [2].
Proof. cbv zeta. repeat split; reflexivity. Qed.

Lemma produce_adds_next_to_prior_witness :
  let s' := snd (handleRpcRequest (Produce "r" "alice" 1 audio 1 []) Session.state) in
  reachable Session.state /\
  In 2 (activeProducers (engine Session.state) Session.alice audio) /\
  exists peer',
    peerOf s' "r" "alice" = Some peer' /\
    RoomJs.producers peer' = [2] ++ [4] /\
    4 <> 2 /\
    List.length (activeProducers (engine s') peer' audio) = 2.
Proof.
  cbv zeta. split; [exact session_reachable|]. split; [now left|].
  destruct (produce_adds_next_to_prior Session.state "r" "alice" 1 audio 1 []
              4 _ Session.alice 2 session_reachable eq_refl
              (or_introl eq_refl) eq_refl)
    as (peer' & P & Ps & N & _ & _ & _ & L).
  exists peer'. repeat split; assumption.
Defined.

(** C2, the claim as stated, fails: room lobby is registered with no
    peer; a Leave for zed, who was never in it, replies with the empty
    list but unregisters the room and closes its router. *)
Lemma leave_unknown_peer_destroys_empty_room :
  let out := handleRpcRequest (Leave "lobby" "zed") Session.stateLobby in
  peerOf Session.stateLobby "lobby" "zed" = None /\
  fst out = Return (LeaveResult []) /\
  snd out <> Session.stateLobby /\
  registered Session.stateLobby "lobby" = true /\
  registered (snd out) "lobby" = false /\
  Mediasoup.e_routerCloseCalls (engine (snd out)) = [0].
Proof.
  cbv zeta. repeat split; try reflexivity.
  intros E. apply (f_equal (fun s => registered s "lobby")) in E.
  vm_compute in E. discriminate E.
Qed.

Lemma leave_of_absent_peer_witness :
  peerOf Session.state "r" "zed" = None /\
  fst (handleRpcRequest (Leave "r" "zed") Session.state) = Return (LeaveResult []) /\
  snd (handleRpcRequest (Leave "r" "zed") Session.state) = Session.state.
Proof.
  split; [reflexivity|].
  destruct (leave_of_absent_peer Session.state "r" "zed") as (_ & _ & Absent).
  destruct (Absent eq_refl) as (Reply & Same & _).
  split; [exact Reply|]. apply Same. right. discriminate.
Defined.

(** C4, the claim as stated, fails: producer 2 is closed; bob's Consume
    of it is answered with the message 'Cannot consume', which does not
    name a missing producer. *)
Lemma consume_closed_producer_cannot_consume :
  let reply := fst (processMessage (Parsed 7 (Consume "r" "bob" 2 true))
                                   Session.stateClosed) in
  producerIsClosed (engine Session.stateClosed) 2 /\
  producerGone Session.stateClosed "r" 2 /\
  reply = ErrorResponse (Some 7) (mkRpcError (-32000) CannotConsume) /\
  ~ repliesProducerNotFound reply.
Proof.
  cbv zeta. split; [eexists; split; reflexivity|].
  split; [now apply closed_producer_gone|]. split; [reflexivity|].
  intros (id & c & producerId & E). vm_compute in E. discriminate E.
Qed.

Lemma consume_of_gone_producer_witness :
  producerGone Session.state "r" 17 /\
  processMessage (Parsed 7 (Consume "r" "bob" 17 true)) Session.state
  = (ErrorResponse (Some 7) (mkRpcError (-32000) CannotConsume), Session.state).
Proof.
  assert (Gone : producerGone Session.state "r" 17).
  { intros room G. reflexivity. }
  split; [exact Gone|].
  exact (consume_of_gone_producer Session.state 7 "r" "bob" 17 true Gone).
Defined.

Lemma getOrCreateRoom_idempotent_round_robin_witness :
  let s := startServer [100; 200] in
  let s' := createRooms ["a"; "b"; "c"] s in
  NoDup ["a"; "b"; "c"] /\
  nextWorkerIdx s < List.length (workers s) /\
  Mediasoup.e_nextId (engine s') = 3 /\
  exists pid, nth_error [100; 200] ((0 + 2) mod 2) = Some pid /\
              JsMap.get (Mediasoup.e_routers (engine s')) (0 + 2)
              = Some (Mediasoup.mkRouter pid false) /\
              getOrCreateRoom "c" s' = (Return (RoomJs.newRoom "c" (0 + 2)), s').
Proof.
  cbv zeta.
  assert (ND : NoDup ["a"; "b"; "c"]).
  { repeat constructor; cbn; intuition discriminate. }
  assert (L : nextWorkerIdx (startServer [100; 200])
              < List.length (workers (startServer [100; 200]))) by (cbn; lia).
  split; [exact ND|]. split; [exact L|].
  destruct (getOrCreateRoom_idempotent_round_robin (startServer [100; 200])
              ["a"; "b"; "c"]) as (_ & Fresh).
  destruct (Fresh ND (fun r _ => eq_refl) L) as (N & Each).
  split; [exact N|].
  destruct (Each 2 "c" eq_refl) as (pid & W & Rt & Again).
  exists pid. repeat split; assumption.
Defined.

Lemma leave_closes_and_removes_witness :
  let out := handleRpcRequest (Leave "r" "alice") Session.state in
  JsMap.get (rooms Session.state) "r" = Some Session.room /\
  JsMap.get (RoomJs.peers Session.room) "alice" = Some Session.alice /\
  reachable Session.state /\
  fst out = Return (LeaveResult [2]) /\
  peerOf (snd out) "r" "alice" = None /\
  transportIsClosed (engine (snd out)) 1 /\
  producerIsClosed (engine (snd out)) 2.
Proof.
  cbv zeta. split; [reflexivity|]. split; [reflexivity|].
  split; [exact session_reachable|].
  destruct (leave_closes_and_removes Session.state "r" Session.room "alice"
              Session.alice eq_refl eq_refl)
    as (Reply & Gone & _ & _ & Tr & _ & _ & Held).
  split; [exact Reply|]. split; [exact Gone|]. split.
  - eapply (Tr 1); [now left | reflexivity].
  - destruct (Held session_reachable) as (Pr & _). apply (Pr 2). now left.
Defined.

Lemma join_present_is_noop_witness :
  JsMap.get (rooms Session.state) "r" = Some Session.room /\
  JsMap.get (RoomJs.peers Session.room) "alice" = Some Session.alice /\
  handleRpcRequest (Join "r" "alice" "Alicia") Session.state
  = (Return (JoinResult (RoomJs.getPeerList Session.room)), Session.state).
Proof.
  split; [reflexivity|]. split; [reflexivity|].
  exact (proj1 (join_present_is_noop Session.state "r" Session.room "alice"
                  Session.alice "Alicia" eq_refl eq_refl)).
Defined.

Lemma consumer_paused_until_resumed_witness :
  let out := handleRpcRequest (Consume "r" "bob" 2 true) Session.state in
  fst out = Return (ConsumeResult (RoomJs.mkConsumerInfo 4 2 audio)) /\
  exists c, JsMap.get (Mediasoup.e_consumers (engine (snd out))) 4 = Some c /\
            Mediasoup.consumer_paused c = true.
Proof.
  cbv zeta. split; [reflexivity|].
  destruct (consumer_paused_until_resumed Session.state "r" "bob" 2 true
              (RoomJs.mkConsumerInfo 4 2 audio) _ eq_refl)
    as ((c & peer & G & P & _) & _).
  exists c. split; assumption.
Defined.

Lemma getProducers_excludes_self_lists_others_witness :
  reachable Session.state /\
  JsMap.get (rooms Session.state) "r" = Some Session.room /\
  handleRpcRequest (GetProducers "r" "bob") Session.state
  = (Return (ProducersResult
               (RoomJs.getProducersForPeer Session.room (engine Session.state) "bob")),
     Session.state) /\
  exists entry,
    In entry (RoomJs.getProducersForPeer Session.room (engine Session.state) "bob") /\
    RoomJs.pr_producerId entry = 2 /\ RoomJs.pr_peerId entry = "alice".
Proof.
  split; [exact session_reachable|]. split; [reflexivity|].
  destruct (getProducers_excludes_self_lists_others Session.state "r" Session.room
              "bob" session_reachable eq_refl)
    as (Reply & _ & Others).
  split; [exact Reply|].
  apply (Others "alice" Session.alice 2); [discriminate | reflexivity | now left].
Defined.

Lemma capabilities_query_registers_empty_room_witness :
  let s := startServer [100] in
  let out := handleRpcRequest (GetRouterRtpCapabilities "lobby") s in
  JsMap.get (rooms s) "lobby" = None /\
  nextWorkerIdx s < List.length (workers s) /\
  exists pid,
    fst out = Return (RtpCapabilitiesOf 0) /\
    registered (snd out) "lobby" = true /\
    peerIds (snd out) "lobby" = [] /\
    JsMap.get (Mediasoup.e_routers (engine (snd out))) 0
    = Some (Mediasoup.mkRouter pid false).
Proof.
  cbv zeta. split; [reflexivity|].
  assert (L : nextWorkerIdx (startServer [100])
              < List.length (workers (startServer [100]))) by (cbn; lia).
  split; [exact L|].
  destruct (capabilities_query_registers_empty_room (startServer [100]) "lobby"
              eq_refl L)
    as (pid & _ & Reply & _ & Reg & Empty & Rt).
  exists pid. repeat split; assumption.
Defined.

End Worked.

(** * The socket listener *)

Section Socket.
Import SocketJs.

Lemma split_cons_sep sep rest : split sep (sep :: rest) = [] :: split sep rest.
Proof. cbn [split]. now rewrite N.eqb_refl. Qed.

Lemma split_cons_other sep c rest :
  c <> sep ->
  split sep (c :: rest)
  = match split sep rest with
    | piece :: pieces => (c :: piece) :: pieces
    | [] => [[c]]
    end.
Proof. intros N. cbn [split]. apply N.eqb_neq in N. now rewrite N. Qed.

Lemma split_nonempty sep s : split sep s <> [].
Proof.
  destruct s as [|c rest]; [discriminate|].
  cbn [split]. destruct (N.eqb c sep); [discriminate|].
  destruct (split sep rest); discriminate.
Qed.

(** [split] cuts at every separator and nowhere else. *)
Lemma split_snoc sep s :
  exists lines rest,
    split sep s = lines ++ [rest] /\
    s = List.concat (map (fun l => l ++ [sep]) lines) ++ rest /\
    (forall l, In l lines -> ~ In sep l) /\
    ~ In sep rest.
Proof.
  induction s as [|c s IH].
  - exists [], []. split; [reflexivity|]. split; [reflexivity|].
    split; [intros l [] | intros []].
  - destruct IH as (lines & rest & E & Es & Nl & Nr).
    destruct (N.eq_dec c sep) as [->|N].
    + exists ([] :: lines), rest. rewrite split_cons_sep, E.
      split; [reflexivity|]. split; [|split; [|exact Nr]].
      * cbn [map List.concat app]. now rewrite <- Es.
      * intros l [<-|Hin]; [intros [] | now apply Nl].
    + rewrite (split_cons_other _ _ _ N), E.
      destruct lines as [|l0 lines]; cbn [app].
      * exists [], (c :: rest). split; [reflexivity|].
        split; [|split; [intros l []|]].
        -- cbn [map List.concat app] in *. now rewrite Es.
        -- intros [E1|Hin]; [congruence | now apply Nr].
      * exists ((c :: l0) :: lines), rest. split; [reflexivity|].
        split; [|split; [|exact Nr]].
        -- cbn [map List.concat app] in *. now rewrite Es.
        -- intros l [<-|Hin].
           ++ intros [E1|Hin]; [congruence|]. apply (Nl l0); [now left | exact Hin].
           ++ apply Nl. now right.
Qed.

Lemma split_without_sep sep s : ~ In sep s -> split sep s = [s].
Proof.
  induction s as [|c s IH]; intros N; [reflexivity|].
  rewrite split_cons_other by (intros ->; apply N; now left).
  rewrite IH; [reflexivity|]. intros Hin. apply N. now right.
Qed.

Lemma split_app sep x : forall y lines rest,
  split sep x = lines ++ [rest] ->
  split sep (x ++ y) = lines ++ split sep (rest ++ y).
Proof.
  induction x as [|c x IH]; intros y lines rest E.
  - destruct lines as [|l0 [|l1 lines]]; try discriminate E.
    cbn in E. now injection E as <-.
  - destruct (split_snoc sep x) as (lines' & rest' & E' & _).
    cbn [app]. destruct (N.eq_dec c sep) as [->|N].
    + rewrite split_cons_sep. rewrite split_cons_sep, E' in E.
      change ([] :: lines' ++ [rest']) with (([] :: lines') ++ [rest']) in E.
      apply app_inj_tail in E. destruct E as [<- <-].
      cbn [app]. f_equal. now apply IH.
    + rewrite (split_cons_other _ _ _ N), (IH y _ _ E').
      rewrite (split_cons_other _ _ _ N), E' in E. destruct lines' as [|l0 lines']; cbn [app] in *.
      * change [c :: rest'] with ([] ++ [c :: rest']) in E.
        apply app_inj_tail in E. destruct E as [<- <-]. cbn [app].
        now rewrite (split_cons_other _ _ _ N).
      * change ((c :: l0) :: lines' ++ [rest'])
          with (((c :: l0) :: lines') ++ [rest']) in E.
        apply app_inj_tail in E. destruct E as [<- <-]. reflexivity.
Qed.

Lemma pop_snoc {A} (l : list A) x : pop (l ++ [x]) = (Some x, l).
Proof. unfold pop. rewrite rev_app_distr. cbn. now rewrite rev_involutive. Qed.

Lemma forLines_app l1 l2 : forLines (l1 ++ l2) = forLines l1 ++ forLines l2.
Proof. unfold forLines. apply flat_map_app. Qed.

Lemma onData_split buffer data lines rest :
  split LF (buffer ++ data) = lines ++ [rest] ->
  onData buffer data = (forLines lines, rest).
Proof. intros E. unfold onData. now rewrite E, pop_snoc. Qed.

(** A chunk cut in two is handled as the two pieces one after the other. *)
Lemma onData_app buffer a b :
  onData buffer (a ++ b)
  = (fst (onData buffer a) ++ fst (onData (snd (onData buffer a)) b),
     snd (onData (snd (onData buffer a)) b)).
Proof.
  destruct (split_snoc LF (buffer ++ a)) as (l1 & r1 & E1 & _).
  destruct (split_snoc LF (r1 ++ b)) as (l2 & r2 & E2 & _).
  rewrite (onData_split _ _ _ _ E1). cbn [fst snd].
  rewrite (onData_split _ _ _ _ E2). cbn [fst snd].
  rewrite <- forLines_app. apply onData_split.
  rewrite app_assoc, (split_app _ _ _ _ _ E1), E2. now rewrite app_assoc.
Qed.

Lemma onData_buffer_no_LF buffer data : ~ In LF (snd (onData buffer data)).
Proof.
  destruct (split_snoc LF (buffer ++ data)) as (l1 & r1 & E1 & _ & _ & N).
  now rewrite (onData_split _ _ _ _ E1).
Qed.

Lemma onData_nothing buffer : ~ In LF buffer -> onData buffer [] = ([], buffer).
Proof.
  intros N. apply (onData_split buffer [] []). rewrite app_nil_r.
  now apply split_without_sep.
Qed.

Lemma receive_concat {Buffer} (toString : Buffer -> JsString) chunks : forall buffer,
  ~ In LF buffer ->
  receive toString chunks buffer = onData buffer (List.concat (map toString chunks)).
Proof.
  induction chunks as [|data later IH]; intros buffer N.
  - cbn [receive map List.concat]. now rewrite onData_nothing.
  - cbn [receive map List.concat]. rewrite onData_app.
    destruct (onData buffer (toString data)) as [messages buffer1] eqn:E1.
    cbn [fst snd].
    rewrite IH; [now destruct (onData buffer1 (List.concat (map toString later)))|].
    pose proof (onData_buffer_no_LF buffer (toString data)) as N1.
    now rewrite E1 in N1.
Qed.

(** X1. The listener decodes every chunk on its own.  What it hands to
    [processMessage] over a connection, and the buffer it is left with,
    are those of one run on the decoded texts of the chunks put end to
    end: the way the bytes are cut into chunks matters through what each
    chunk decodes to, and through nothing else.  (Where a cut falls inside
    a multi-byte character the chunks do not decode to the text of the
    whole, and nothing is said about the whole.) *)
Theorem receive_is_one_run_on_the_decoded_chunks
    (Buffer : Type) (toString : Buffer -> JsString) chunks :
  receive toString chunks [] = onData [] (List.concat (map toString chunks)).
Proof. apply receive_concat. intros []. Qed.

(** X2. A run of the listener accounts for every code unit: the buffer
    and the chunk together are a number of lines, each ended by a line
    feed and free of line feeds, followed by the new buffer, which holds
    no line feed; the messages processed are those lines, trimmed, the
    blank ones left out. *)
Theorem onData_accounts_for_the_text buffer data :
  exists lines,
    buffer ++ data
    = List.concat (map (fun l => l ++ [LF]) lines) ++ snd (onData buffer data) /\
    (forall l, In l lines -> ~ In LF l) /\
    ~ In LF (snd (onData buffer data)) /\
    fst (onData buffer data) = forLines lines.
Proof.
  destruct (split_snoc LF (buffer ++ data)) as (lines & rest & E & Es & Nl & Nr).
  exists lines. rewrite (onData_split _ _ _ _ E). cbn [fst snd]. auto.
Qed.

Lemma trimStart_suffix s : exists ws, s = ws ++ trimStart s.
Proof.
  induction s as [|c s (ws & IH)]; [now exists []|].
  cbn [trimStart]. destruct (isWhiteSpace c).
  - exists (c :: ws). cbn [app]. now f_equal.
  - now exists [].
Qed.

Lemma trimStart_head s c : hd_error (trimStart s) = Some c -> isWhiteSpace c = false.
Proof.
  induction s as [|c0 s IH]; [discriminate|].
  cbn [trimStart]. destruct (isWhiteSpace c0) eqn:W; [exact IH|].
  cbn. intros E. now injection E as <-.
Qed.

Lemma trimStart_keeps s c :
  hd_error s = Some c -> isWhiteSpace c = false -> trimStart s = s.
Proof.
  destruct s as [|c0 s]; [discriminate|]. cbn. intros E W.
  injection E as ->. now rewrite W.
Qed.

Lemma trim_In s c : In c (trim s) -> In c s.
Proof.
  unfold trim, trimEnd. intros Hin. apply in_rev in Hin.
  destruct (trimStart_suffix (rev (trimStart s))) as (ws & E).
  assert (H1 : In c (rev (trimStart s))) by (rewrite E; apply in_or_app; now right).
  apply in_rev in H1. destruct (trimStart_suffix s) as (ws' & E').
  rewrite E'. apply in_or_app. now right.
Qed.

Lemma last_cons_indep {A} (l : list A) : forall a d1 d2,
  last (a :: l) d1 = last (a :: l) d2.
Proof.
  induction l as [|b l IH]; intros a d1 d2; [reflexivity|].
  change (last (b :: l) d1 = last (b :: l) d2). apply IH.
Qed.

(** What [trim] leaves begins and ends with a unit that is no white
    space. *)
Lemma trim_ends s c d :
  trim s = c :: d ->
  isWhiteSpace c = false /\ isWhiteSpace (last (c :: d) c) = false.
Proof.
  unfold trim, trimEnd. intros E.
  set (t := trimStart s) in *.
  assert (Hl : isWhiteSpace (last (c :: d) c) = false).
  { destruct (rev (c :: d)) as [|x r] eqn:R.
    - apply (f_equal (@rev _)) in R. rewrite rev_involutive in R. discriminate R.
    - assert (X : hd_error (trimStart (rev t)) = Some x).
      { rewrite <- (rev_involutive (trimStart (rev t))), E, R. reflexivity. }
      apply trimStart_head in X.
      assert (L : last (c :: d) c = x).
      { apply (f_equal (@rev _)) in R. rewrite rev_involutive in R. rewrite R.
        cbn [rev]. apply last_last. }
      now rewrite L. }
  split; [|exact Hl].
  (* the first unit of the result is the first unit of [trimStart s] *)
  destruct (trimStart_suffix (rev t)) as (ws & Ew).
  apply (f_equal (@rev _)) in Ew. rewrite rev_involutive, rev_app_distr, E in Ew.
  apply (trimStart_head s). subst t. rewrite Ew. reflexivity.
Qed.

(** X3. Every message handed to [processMessage] is a line of the text
    trimmed: it is not empty, holds no line feed, and neither begins nor
    ends with white space. *)
Theorem onData_messages_are_trimmed_lines buffer data message :
  In message (fst (onData buffer data)) ->
  message <> [] /\
  ~ In LF message /\
  (forall c, hd_error message = Some c -> isWhiteSpace c = false) /\
  (forall c, isWhiteSpace (last message c) = false).
Proof.
  destruct (split_snoc LF (buffer ++ data)) as (lines & rest & E & _ & Nl & _).
  rewrite (onData_split _ _ _ _ E). cbn [fst]. unfold forLines.
  intros Hin. apply in_flat_map in Hin. destruct Hin as (line & Hl & Hin).
  destruct (trim line) as [|c d] eqn:T; [destruct Hin|].
  destruct Hin as [<-|[]].
  destruct (trim_ends _ _ _ T) as (Wc & Wl).
  split; [discriminate|]. split; [|split].
  - intros Hin. apply (Nl line Hl). apply trim_In. now rewrite T.
  - intros c0 E0. cbn in E0. now injection E0 as <-.
  - intros c0. now rewrite (last_cons_indep d c c0 c).
Qed.

(** X4. Text with no line feed is only buffered: nothing is processed
    before the line feed that ends a message has come. *)
Theorem onData_waits_for_the_line_feed buffer data :
  ~ In LF (buffer ++ data) -> onData buffer data = ([], buffer ++ data).
Proof.
  intros N. apply (onData_split buffer data []). now apply split_without_sep.
Qed.

Lemma onData_waits_for_the_line_feed_witness :
  ~ In LF ([123; 34] ++ [34; 125])%N /\
  onData [123; 34]%N [34; 125]%N = ([], [123; 34; 34; 125]%N).
Proof.
  assert (N : ~ In LF ([123; 34] ++ [34; 125])%N).
  { cbn. intros [E|[E|[E|[E|[]]]]]; discriminate E. }
  split; [exact N | exact (onData_waits_for_the_line_feed _ _ N)].
Defined.

End Socket.

(** * Requests that cannot be served *)

Section ErrorReplies.
Context `{Ortc}.
Import ServerJs.
Import Props.
Import Replies.
Abbreviation Engine := Mediasoup.Engine.
Abbreviation Room := RoomJs.Room.

(** The state after a method threw before it wrote anything. *)
Ltac state_unchanged G :=
  cbv beta iota delta [fst snd]; rewrite ?G; cbv beta iota delta [fst snd];
  rewrite ?(JsMapFacts.set_same _ _ _ G), ?server_eta.

(** X5. On a room that is not registered only [getRouterRtpCapabilities]
    and [join] create it. [leave], [getProducers] and [getRoomStats]
    reply with the empty list, the empty list and null; every other
    method that names the room fails with 'Room not found'. None of them
    changes the state. *)
Theorem request_on_unregistered_room s request roomId :
  roomOfRequest request = Some roomId ->
  createsRoom request = false ->
  JsMap.get (rooms s) roomId = None ->
  handleRpcRequest request s
  = (match request with
     | Leave _ _ => Return (LeaveResult [])
     | GetProducers _ _ => Return (ProducersResult [])
     | GetRoomStats _ => Return NullResult
     | _ => Throw RoomNotFound
     end, s).
Proof.
  intros R C G.
  destruct request; try discriminate C; try discriminate R;
    cbn [roomOfRequest] in R; injection R as ->;
    cbn [handleRpcRequest]; unfold_js; rewrite G; reflexivity.
Qed.

(** X6. The methods that act for a peer fail with 'Peer not found' when
    the room is registered and has no such peer, and change nothing. *)
Theorem acting_peer_not_in_room s request roomId room peerId :
  roomOfRequest request = Some roomId ->
  actingPeer request = Some peerId ->
  JsMap.get (rooms s) roomId = Some room ->
  JsMap.get (RoomJs.peers room) peerId = None ->
  handleRpcRequest request s = (Throw (PeerNotFound peerId), s).
Proof.
  intros R A G P.
  destruct request; try discriminate A;
    cbn [roomOfRequest actingPeer] in R, A; injection R as ->; injection A as ->;
    cbn [handleRpcRequest]; unfold_room; unfold_js;
    state_unchanged G; rewrite P; state_unchanged G; reflexivity.
Qed.

(** X7. A method that names a transport, a producer or a consumer finds
    it in the maps of the acting peer only: when that peer does not hold
    the identifier the reply is the 'not found' error of the kind, and
    nothing changes, whatever the store holds under the identifier. *)
Theorem object_not_held_by_peer s request roomId room peerId peer kind id :
  roomOfRequest request = Some roomId ->
  actingPeer request = Some peerId ->
  namedObject request = Some (kind, id) ->
  JsMap.get (rooms s) roomId = Some room ->
  JsMap.get (RoomJs.peers room) peerId = Some peer ->
  ~ In id (heldBy peer kind) ->
  handleRpcRequest request s = (Throw (notFound kind id), s).
Proof.
  intros R A O G P N.
  destruct request; try discriminate O;
    cbn [roomOfRequest actingPeer namedObject] in R, A, O;
    injection R as ->; injection A as ->; injection O as <- <-;
    cbn [heldBy] in N; apply refsHas_not_In in N;
    cbn [handleRpcRequest]; unfold_room; unfold_js;
    state_unchanged G; rewrite P; state_unchanged G; rewrite N;
    state_unchanged G; reflexivity.
Qed.

(** X8. A request that is answered with an error has changed nothing,
    neither the registry nor the store, on a server whose worker index
    is in range. *)
Theorem failed_request_changes_nothing s request e :
  nextWorkerIdx s < List.length (workers s) ->
  fst (handleRpcRequest request s) = Throw e ->
  snd (handleRpcRequest request s) = s.
Proof.
  intros L.
  destruct request.
  1: { cbn [handleRpcRequest]. unfold bind, ret.
       destruct (JsMap.get (rooms s) roomId) as [room|] eqn:G.
       - now rewrite (getOrCreateRoom_registered _ _ _ G).
       - rewrite (getOrCreateRoom_unregistered _ _ G).
         destruct (worker_in_range s L) as [pid ->]. discriminate. }
  1: { cbn [handleRpcRequest]. unfold bind at 1.
       destruct (JsMap.get (rooms s) roomId) as [room|] eqn:G.
       - rewrite (getOrCreateRoom_registered _ _ _ G).
         unfold RoomJs.addPeer. unfold_js. cbv beta iota delta [fst snd].
         destruct (JsMap.has (RoomJs.peers room) peerId); discriminate.
       - rewrite (getOrCreateRoom_unregistered _ _ G).
         destruct (worker_in_range s L) as [pid ->].
         unfold RoomJs.addPeer. unfold_js. cbv beta iota delta [fst snd].
         destruct (JsMap.has _ peerId); discriminate. }
  1: { destruct (JsMap.get (rooms s) roomId) as [room|] eqn:G.
       - rewrite (leave_registered _ _ _ _ G). discriminate.
       - rewrite (leave_unregistered _ _ _ G). discriminate. }
  all: cbn [handleRpcRequest]; unfold_room; unfold_js;
    cbv beta iota delta [fst snd];
    repeat (break_match; cbn [fst snd]; try discriminate);
    intros _; try reflexivity;
    match goal with
    | G : JsMap.get (rooms _) _ = Some _ |- _ =>
        rewrite ?(JsMapFacts.set_same _ _ _ G), ?server_eta
    end; reflexivity.
Qed.

End ErrorReplies.

(** * Joining, consuming and listing together *)

Section Composition.
Context `{Ortc}.
Import ServerJs.
Import Props.
Abbreviation Engine := Mediasoup.Engine.
Abbreviation Room := RoomJs.Room.

(** The three ways a Join goes. *)
Lemma join_of_member s roomId room peerId peer name :
  JsMap.get (rooms s) roomId = Some room ->
  JsMap.get (RoomJs.peers room) peerId = Some peer ->
  handleRpcRequest (Join roomId peerId name) s
  = (Return (JoinResult (RoomJs.getPeerList room)), s).
Proof.
  intros G P. cbn [handleRpcRequest]. unfold bind at 1.
  rewrite (getOrCreateRoom_registered _ _ _ G).
  apply call_unchanged; [exact G|].
  unfold RoomJs.addPeer. unfold_js. cbn [fst snd].
  unfold JsMap.has. now rewrite P.
Qed.

Lemma join_of_newcomer s roomId room peerId name :
  JsMap.get (rooms s) roomId = Some room ->
  JsMap.get (RoomJs.peers room) peerId = None ->
  handleRpcRequest (Join roomId peerId name) s
  = (Return (JoinResult (RoomJs.getPeerList room
                         ++ [RoomJs.mkPeerInfo peerId name []])),
     mkServer (workers s) (nextWorkerIdx s)
       (JsMap.set (rooms s) roomId
          (RoomJs.mkRoom (RoomJs.roomId room) (RoomJs.router room)
             (RoomJs.peers room ++ [(peerId, RoomJs.mkPeer name [] [] [])])))
       (engine s)).
Proof.
  intros G P. cbn [handleRpcRequest]. unfold bind at 1.
  rewrite (getOrCreateRoom_registered _ _ _ G).
  unfold RoomJs.addPeer. unfold_js. cbv beta iota delta [fst snd].
  apply JsMapFacts.has_false in P. rewrite P. cbn [fst snd].
  apply JsMapFacts.has_false in P. rewrite (JsMapFacts.set_absent _ _ _ P).
  unfold RoomJs.getPeerList. cbn [RoomJs.peers]. now rewrite map_app.
Qed.

Lemma join_of_first_peer s roomId peerId name pid :
  JsMap.get (rooms s) roomId = None ->
  nth_error (workers s) (nextWorkerIdx s) = Some pid ->
  handleRpcRequest (Join roomId peerId name) s
  = (Return (JoinResult [RoomJs.mkPeerInfo peerId name []]),
     mkServer (workers s) ((nextWorkerIdx s + 1) mod List.length (workers s))
       (JsMap.set (rooms s) roomId
          (RoomJs.mkRoom roomId (Mediasoup.e_nextId (engine s))
             [(peerId, RoomJs.mkPeer name [] [] [])]))
       (snd (Mediasoup.createRouter pid (engine s)))).
Proof.
  intros G W. cbn [handleRpcRequest]. unfold bind at 1.
  rewrite (getOrCreateRoom_unregistered _ _ G), W.
  unfold RoomJs.addPeer, RoomJs.newRoom. unfold_js.
  cbv beta iota delta [fst snd].
  cbn [RoomJs.peers JsMap.has JsMap.get JsMap.empty JsMap.set RoomJs.roomId
       RoomJs.router rooms workers nextWorkerIdx engine fst snd
       RoomJs.getPeerList map RoomJs.displayName RoomJs.producers].
  now rewrite JsMapFacts.set_set_same.
Qed.

(** X9. A Join of a peer that is not in the room, on a server whose
    worker index is in range, is answered with the peers already in the
    room, in the order they joined, followed by the joiner with no
    producer; the joiner is then the last peer of the room, with its
    display name and nothing else. *)
Theorem join_appends_the_peer s roomId peerId name :
  peerOf s roomId peerId = None ->
  nextWorkerIdx s < List.length (workers s) ->
  let out := handleRpcRequest (Join roomId peerId name) s in
  fst out
  = Return (JoinResult
              (match JsMap.get (rooms s) roomId with
               | Some room => RoomJs.getPeerList room
               | None => []
               end ++ [RoomJs.mkPeerInfo peerId name []])) /\
  peerIds (snd out) roomId = peerIds s roomId ++ [peerId] /\
  peerOf (snd out) roomId peerId = Some (RoomJs.mkPeer name [] [] []).
Proof.
  intros P L out. unfold peerOf, peerIds in *.
  destruct (JsMap.get (rooms s) roomId) as [room|] eqn:G.
  - subst out. rewrite (join_of_newcomer _ _ _ _ _ G P). cbn [fst snd rooms].
    rewrite JsMapFacts.get_set_same. cbn [RoomJs.peers].
    rewrite <- (JsMapFacts.set_absent _ _ _ P), JsMapFacts.get_set_same.
    rewrite (JsMapFacts.set_absent _ _ _ P). unfold JsMap.keys.
    rewrite map_app. repeat split; reflexivity.
  - destruct (worker_in_range s L) as [pid W].
    subst out. rewrite (join_of_first_peer _ _ _ _ _ G W).
    cbn [fst snd rooms]. rewrite JsMapFacts.get_set_same.
    cbn [RoomJs.peers JsMap.get]. rewrite keq_refl.
    repeat split; reflexivity.
Qed.

(** X10. Join and then Leave is a round trip: when the peer was not in
    the room and the room had a peer, the Leave that follows the Join is
    answered with no closed producer and puts the server back in the very
    state before the Join. *)
Theorem join_then_leave_restores s roomId peerId name :
  peerOf s roomId peerId = None ->
  peerIds s roomId <> [] ->
  handleRpcRequest (Leave roomId peerId)
    (snd (handleRpcRequest (Join roomId peerId name) s))
  = (Return (LeaveResult []), s).
Proof.
  intros P N. unfold peerOf, peerIds in *.
  destruct (JsMap.get (rooms s) roomId) as [room|] eqn:G; [|now elim N].
  rewrite (join_registered _ _ _ _ _ G).
  unfold joinedPeers. apply JsMapFacts.has_false in P. rewrite P.
  apply JsMapFacts.has_false in P.
  match goal with
  | |- handleRpcRequest _ ?s1 = _ =>
      rewrite (leave_registered s1 roomId _ peerId
                 (JsMapFacts.get_set_same _ _ _))
  end.
  cbn [RoomJs.peers RoomJs.router RoomJs.roomId workers nextWorkerIdx rooms engine].
  rewrite JsMapFacts.get_set_same, JsMapFacts.delete_set_same,
    (JsMapFacts.delete_absent _ _ P).
  cbn [engineAfterRemove closedByRemove RoomJs.transports RoomJs.producers
       fold_left snd].
  destruct (RoomJs.peers room) as [|entry rest] eqn:Ps; [now elim N|].
  cbn [JsMap.size List.length Nat.eqb]. rewrite <- Ps.
  rewrite JsMapFacts.set_set_same, room_eta, (JsMapFacts.set_same _ _ _ G).
  now rewrite server_eta.
Qed.

Lemma producerEntries_ids (e : Engine) q peer :
  (forall id, In id (RoomJs.producers peer) ->
     exists p, JsMap.get (Mediasoup.e_producers e) id = Some p) ->
  map RoomJs.pr_producerId (RoomJs.producerEntries e q peer) = RoomJs.producers peer.
Proof.
  unfold RoomJs.producerEntries.
  induction (RoomJs.producers peer) as [|id ids IH]; intros Each; [reflexivity|].
  cbn [flat_map]. rewrite map_app, IH by (intros; apply Each; now right).
  destruct (Each id (or_introl eq_refl)) as (p & ->). reflexivity.
Qed.

(** X11. In a reachable state the two ways a client learns of the
    producers of the others agree: the identifiers [getProducers] lists
    for a peer are, in the same order, the producers the peer list of
    the room (the reply to [join] and to [getRoomStats]) shows for the
    other peers. *)
Theorem getProducers_agrees_with_peer_list s roomId room peerId :
  reachable s ->
  JsMap.get (rooms s) roomId = Some room ->
  map RoomJs.pr_producerId (RoomJs.getProducersForPeer room (engine s) peerId)
  = flat_map RoomJs.pi_producers
      (filter (fun info => negb (keq (RoomJs.pi_peerId info) peerId))
              (RoomJs.getPeerList room)).
Proof.
  intros R G.
  destruct (reachable_consistent s R) as (_ & O).
  pose proof (O roomId room (JsMapFacts.get_Some_in _ _ _ G)) as Or.
  unfold RoomJs.getProducersForPeer, RoomJs.getPeerList.
  revert Or. generalize (RoomJs.peers room) as ps.
  induction ps as [|[q peer] ps IH]; intros Or; [reflexivity|].
  cbn [flat_map map filter fst snd RoomJs.pi_peerId].
  rewrite map_app, IH.
  - destruct (keq q peerId); cbn [negb flat_map app RoomJs.pi_producers];
      [reflexivity|].
    f_equal. apply producerEntries_ids. intros id Hid.
    destruct (Or q peer id (or_introl eq_refl) Hid) as (p & Gp & _). eauto.
  - intros q' peer' id Hq Hid. apply (Or q' peer' id); [now right | exact Hid].
Qed.

(** What a Consume that succeeds has done. *)
Lemma consume_success s roomId peerId producerId caps info s' :
  handleRpcRequest (Consume roomId peerId producerId caps) s
  = (Return (ConsumeResult info), s') ->
  exists room peer tid c e',
    JsMap.get (rooms s) roomId = Some room /\
    JsMap.get (RoomJs.peers room) peerId = Some peer /\
    Mediasoup.canConsume (RoomJs.router room) producerId caps (engine s) = true /\
    RoomJs.findRecvTransport (engine s) peer = Some tid /\
    Mediasoup.consume tid producerId caps true (engine s)
    = Some (RoomJs.ci_id info, c, e') /\
    info = RoomJs.mkConsumerInfo (RoomJs.ci_id info)
             (Mediasoup.consumer_producerId c) (Mediasoup.consumer_kind c) /\
    s' = mkServer (workers s) (nextWorkerIdx s)
           (JsMap.set (rooms s) roomId
              (RoomJs.mkRoom (RoomJs.roomId room) (RoomJs.router room)
                 (JsMap.set (RoomJs.peers room) peerId
                    (RoomJs.mkPeer (RoomJs.displayName peer) (RoomJs.transports peer)
                       (RoomJs.producers peer)
                       (RoomJs.refsSet (RoomJs.consumers peer) (RoomJs.ci_id info))))))
           e'.
Proof.
  cbn [handleRpcRequest]. unfold_room; unfold_js; cbv beta iota delta [fst snd].
  repeat (break_match; try discriminate). intros E. injection E as <- <-.
  repeat match goal with
         | E : (_, _) = (_, _) |- _ => injection E as <- <-
         end.
  cbn [RoomJs.ci_id fst snd].
  match goal with
  | E : negb _ = false |- _ => apply Bool.negb_false_iff in E
  end.
  do 5 eexists. repeat split; eauto.
Qed.

(** The converse: a Consume whose checks pass. *)
Lemma consume_runs s roomId room peerId peer producerId caps tid cid c e' :
  JsMap.get (rooms s) roomId = Some room ->
  JsMap.get (RoomJs.peers room) peerId = Some peer ->
  Mediasoup.canConsume (RoomJs.router room) producerId caps (engine s) = true ->
  RoomJs.findRecvTransport (engine s) peer = Some tid ->
  Mediasoup.consume tid producerId caps true (engine s) = Some (cid, c, e') ->
  handleRpcRequest (Consume roomId peerId producerId caps) s
  = (Return (ConsumeResult
               (RoomJs.mkConsumerInfo cid (Mediasoup.consumer_producerId c)
                                      (Mediasoup.consumer_kind c))),
     mkServer (workers s) (nextWorkerIdx s)
       (JsMap.set (rooms s) roomId
          (RoomJs.mkRoom (RoomJs.roomId room) (RoomJs.router room)
             (JsMap.set (RoomJs.peers room) peerId
                (RoomJs.mkPeer (RoomJs.displayName peer) (RoomJs.transports peer)
                   (RoomJs.producers peer)
                   (RoomJs.refsSet (RoomJs.consumers peer) cid)))))
       e').
Proof.
  intros G P C F E.
  cbn [handleRpcRequest]. unfold_room; unfold_js; cbv beta iota delta [fst snd].
  rewrite G. cbv beta iota delta [fst snd]. rewrite P. cbv beta iota delta [fst snd].
  rewrite C. cbn [negb]. rewrite F. cbv beta iota delta [fst snd]. rewrite E.
  reflexivity.
Qed.

(** [transport.consume] leaves routers, transports and producers alone,
    so the same call passes again, with the next identifier. *)
Lemma consume_again t p caps paused (e : Engine) id c e' :
  Mediasoup.consume t p caps paused e = Some (id, c, e') ->
  Mediasoup.e_transports e' = Mediasoup.e_transports e /\
  Mediasoup.e_producers e' = Mediasoup.e_producers e /\
  Mediasoup.e_consumers e' = JsMap.set (Mediasoup.e_consumers e) id c /\
  Mediasoup.consume t p caps paused e'
  = Some (S id, c,
          Mediasoup.mkEngine (S (S id)) (Mediasoup.e_routers e')
            (Mediasoup.e_transports e') (Mediasoup.e_producers e')
            (JsMap.set (Mediasoup.e_consumers e') (S id) c)
            (Mediasoup.e_routerCloseCalls e')).
Proof.
  unfold Mediasoup.consume, Mediasoup.routerProducer. intros E.
  destruct (JsMap.get (Mediasoup.e_transports e) t) as [tr|] eqn:Gt; [|discriminate].
  destruct (Mediasoup.transport_closed tr) eqn:Ct; [discriminate|].
  destruct (JsMap.get (Mediasoup.e_producers e) p) as [pr|] eqn:Gp; [|discriminate].
  destruct (Mediasoup.producer_closed pr) eqn:Cp; [discriminate|].
  destruct (JsMap.get (Mediasoup.e_transports e) (Mediasoup.producer_transportId pr))
    as [tp|] eqn:Gtp; [|discriminate].
  destruct (Nat.eqb (Mediasoup.transport_routerId tp) (Mediasoup.transport_routerId tr))
    eqn:Er; [|discriminate].
  destruct (ortc_canConsume (Mediasoup.producer_rtpParameters pr) caps) eqn:Oc;
    [|discriminate].
  injection E as <- <- <-.
  cbn [Mediasoup.e_transports Mediasoup.e_producers Mediasoup.e_consumers
       Mediasoup.e_nextId Mediasoup.e_routers Mediasoup.e_routerCloseCalls].
  rewrite Gt, Ct, Gp, Cp, Gtp, Er, Oc. repeat split; reflexivity.
Qed.

Lemma findRecvTransport_same (e e' : Engine) peer :
  Mediasoup.e_transports e' = Mediasoup.e_transports e ->
  RoomJs.findRecvTransport e' peer = RoomJs.findRecvTransport e peer.
Proof.
  intros E. unfold RoomJs.findRecvTransport.
  assert (F : forall l, find (RoomJs.isConsuming e') l = find (RoomJs.isConsuming e) l).
  { intros l. induction l as [|t l IH]; [reflexivity|].
    cbn [find]. unfold RoomJs.isConsuming at 1 3. now rewrite E, IH. }
  now rewrite F.
Qed.

Lemma canConsume_same (e e' : Engine) routerId producerId caps :
  Mediasoup.e_transports e' = Mediasoup.e_transports e ->
  Mediasoup.e_producers e' = Mediasoup.e_producers e ->
  Mediasoup.canConsume routerId producerId caps e'
  = Mediasoup.canConsume routerId producerId caps e.
Proof.
  intros Et Ep. unfold Mediasoup.canConsume, Mediasoup.routerProducer.
  now rewrite Et, Ep.
Qed.

(** X12. The server does not pair a peer with a producer once: a
    Consume that succeeded succeeds again when it is repeated, and makes
    a second consumer, with the next identifier, of the same producer on
    the same transport. The peer then holds both, both open and paused. *)
Theorem repeated_consume_makes_a_second_consumer
    s roomId peerId producerId caps info s' :
  handleRpcRequest (Consume roomId peerId producerId caps) s
  = (Return (ConsumeResult info), s') ->
  exists info2 s2 peer2 c,
    handleRpcRequest (Consume roomId peerId producerId caps) s'
    = (Return (ConsumeResult info2), s2) /\
    RoomJs.ci_id info2 = S (RoomJs.ci_id info) /\
    RoomJs.ci_producerId info2 = producerId /\
    peerOf s2 roomId peerId = Some peer2 /\
    In (RoomJs.ci_id info) (RoomJs.consumers peer2) /\
    In (RoomJs.ci_id info2) (RoomJs.consumers peer2) /\
    JsMap.get (Mediasoup.e_consumers (engine s2)) (RoomJs.ci_id info) = Some c /\
    JsMap.get (Mediasoup.e_consumers (engine s2)) (RoomJs.ci_id info2) = Some c /\
    Mediasoup.consumer_producerId c = producerId /\
    Mediasoup.consumer_paused c = true /\
    Mediasoup.consumer_closed c = false.
Proof.
  intros E.
  destruct (consume_success _ _ _ _ _ _ _ E)
    as (room & peer & tid & c & e' & G & P & C & F & Ec & Ei & ->).
  destruct (consume_again _ _ _ _ _ _ _ _ Ec) as (Et & Ep & Ecs & Ec2).
  destruct (MediasoupFacts.consume_creates _ _ _ _ _ _ _ _ Ec)
    as (_ & _ & Pc & Pp & _ & Cc).
  do 3 eexists. exists c. split.
  { eapply consume_runs.
    - cbn [rooms]. apply JsMapFacts.get_set_same.
    - cbn [RoomJs.peers]. apply JsMapFacts.get_set_same.
    - cbn [engine RoomJs.router]. now rewrite (canConsume_same _ _ _ _ _ Et Ep).
    - cbn [engine]. rewrite (findRecvTransport_same (engine s) e' _ Et).
      unfold RoomJs.findRecvTransport in *. cbn [RoomJs.transports]. exact F.
    - cbn [engine]. exact Ec2. }
  cbn [RoomJs.ci_id RoomJs.ci_producerId engine Mediasoup.e_consumers].
  unfold peerOf. cbn [rooms]. rewrite !JsMapFacts.get_set_same.
  cbn [RoomJs.peers]. rewrite !JsMapFacts.get_set_same.
  split; [reflexivity|]. split; [exact Pp|]. split; [reflexivity|].
  cbn [RoomJs.consumers].
  split; [apply In_refsSet; left; apply In_refsSet; now right|].
  split; [apply In_refsSet; now right|].
  split.
  - rewrite JsMapFacts.get_set_other by lia. rewrite Ecs.
    apply JsMapFacts.get_set_same.
  - repeat split; auto.
Qed.

(** X13. The consumer of a successful Consume sits on a transport of the
    consuming peer: one that [createWebRtcTransport] marked as consuming
    if the peer holds such a transport, and otherwise the first
    transport of the peer, whatever it was created for. *)
Theorem consume_picks_the_receive_transport
    s roomId peerId producerId caps info s' :
  handleRpcRequest (Consume roomId peerId producerId caps) s
  = (Return (ConsumeResult info), s') ->
  exists peer c,
    peerOf s roomId peerId = Some peer /\
    JsMap.get (Mediasoup.e_consumers (engine s')) (RoomJs.ci_id info) = Some c /\
    In (Mediasoup.consumer_transportId c) (RoomJs.transports peer) /\
    (RoomJs.isConsuming (engine s) (Mediasoup.consumer_transportId c) = true \/
     (forall t, In t (RoomJs.transports peer) ->
                RoomJs.isConsuming (engine s) t = false) /\
     hd_error (RoomJs.transports peer) = Some (Mediasoup.consumer_transportId c)).
Proof.
  intros E.
  destruct (consume_success _ _ _ _ _ _ _ E)
    as (room & peer & tid & c & e' & G & P & C & F & Ec & Ei & ->).
  destruct (MediasoupFacts.consume_creates _ _ _ _ _ _ _ _ Ec)
    as (_ & Ecs & _ & _ & Tc & _).
  exists peer, c. unfold peerOf. rewrite G. cbn [engine]. rewrite Ecs, Tc.
  split; [exact P|]. split; [apply JsMapFacts.get_set_same|].
  split; [now apply (findRecvTransport_In (engine s))|].
  unfold RoomJs.findRecvTransport in F.
  destruct (find (RoomJs.isConsuming (engine s)) (RoomJs.transports peer))
    as [t0|] eqn:Fd.
  - injection F as <-. left. now apply find_some in Fd.
  - right. split; [|exact F]. intros t Hin. now apply (find_none _ _ Fd).
Qed.

(** X14. A peer that holds no transport cannot consume: a Consume the
    router would allow fails with 'No transport for consuming' and
    changes nothing. *)
Theorem consume_without_transport s roomId room peerId peer producerId caps :
  JsMap.get (rooms s) roomId = Some room ->
  JsMap.get (RoomJs.peers room) peerId = Some peer ->
  RoomJs.transports peer = [] ->
  Mediasoup.canConsume (RoomJs.router room) producerId caps (engine s) = true ->
  handleRpcRequest (Consume roomId peerId producerId caps) s
  = (Throw NoTransportForConsuming, s).
Proof.
  intros G P T C.
  cbn [handleRpcRequest]. unfold bind at 1. unfold roomOrThrow at 1.
  unfold bind at 1. unfold getState at 1. rewrite G. unfold ret at 1.
  unfold bind at 1.
  rewrite (call_unchanged s roomId room (Throw NoTransportForConsuming));
    [reflexivity | exact G | ].
  unfold RoomJs.consume. unfold_js. cbv beta iota delta [fst snd].
  rewrite P, C. unfold RoomJs.findRecvTransport. now rewrite T.
Qed.

Lemma engine_eta (e : Engine) :
  Mediasoup.mkEngine (Mediasoup.e_nextId e) (Mediasoup.e_routers e)
    (Mediasoup.e_transports e) (Mediasoup.e_producers e) (Mediasoup.e_consumers e)
    (Mediasoup.e_routerCloseCalls e) = e.
Proof. now destruct e. Qed.

(** A pause or a resume by the holder of an open producer. *)
Lemma setPaused_runs (pausing : bool) s roomId room peerId peer producerId p :
  JsMap.get (rooms s) roomId = Some room ->
  JsMap.get (RoomJs.peers room) peerId = Some peer ->
  In producerId (RoomJs.producers peer) ->
  JsMap.get (Mediasoup.e_producers (engine s)) producerId = Some p ->
  Mediasoup.producer_closed p = false ->
  handleRpcRequest (if pausing then PauseProducer roomId peerId producerId
                    else ResumeProducer roomId peerId producerId) s
  = (Return EmptyResult,
     mkServer (workers s) (nextWorkerIdx s) (rooms s)
       (Mediasoup.mkEngine (Mediasoup.e_nextId (engine s))
          (Mediasoup.e_routers (engine s)) (Mediasoup.e_transports (engine s))
          (JsMap.set (Mediasoup.e_producers (engine s)) producerId
             (Mediasoup.setProducerPaused pausing p))
          (Mediasoup.e_consumers (engine s))
          (Mediasoup.e_routerCloseCalls (engine s)))).
Proof.
  intros G P Hin Gp C. apply refsHas_In in Hin.
  destruct pausing; cbn [handleRpcRequest]; unfold_room; unfold_js;
    cbv beta iota delta [fst snd]; rewrite G; cbv beta iota delta [fst snd];
    rewrite P; cbv beta iota delta [fst snd]; rewrite Hin;
    unfold Mediasoup.producerPause, Mediasoup.producerResume, Mediasoup.updateProducer;
    rewrite Gp, C; cbv beta iota delta [fst snd];
    now rewrite (JsMapFacts.set_same _ _ _ G).
Qed.

(** X15. Pausing and then resuming is a round trip on the server: for
    the holder of an open producer that is not paused, [pauseProducer]
    succeeds and leaves the producer paused in the store, and the
    [resumeProducer] that follows succeeds and puts the server back in
    the very state before the pause. *)
Theorem pause_then_resume_restores s roomId room peerId peer producerId p :
  JsMap.get (rooms s) roomId = Some room ->
  JsMap.get (RoomJs.peers room) peerId = Some peer ->
  In producerId (RoomJs.producers peer) ->
  JsMap.get (Mediasoup.e_producers (engine s)) producerId = Some p ->
  Mediasoup.producer_closed p = false ->
  Mediasoup.producer_paused p = false ->
  let out := handleRpcRequest (PauseProducer roomId peerId producerId) s in
  fst out = Return EmptyResult /\
  JsMap.get (Mediasoup.e_producers (engine (snd out))) producerId
  = Some (Mediasoup.setProducerPaused true p) /\
  handleRpcRequest (ResumeProducer roomId peerId producerId) (snd out)
  = (Return EmptyResult, s).
Proof.
  intros G P Hin Gp C Pa out. subst out.
  rewrite (setPaused_runs true _ _ _ _ _ _ _ G P Hin Gp C). cbn [fst snd engine].
  cbn [Mediasoup.e_producers]. rewrite JsMapFacts.get_set_same.
  split; [reflexivity|]. split; [reflexivity|].
  match goal with
  | |- handleRpcRequest _ ?s1 = _ =>
      rewrite (setPaused_runs false s1 roomId room peerId peer producerId
                 (Mediasoup.setProducerPaused true p) G P Hin
                 (JsMapFacts.get_set_same _ _ _) C)
  end.
  cbn [workers nextWorkerIdx rooms engine Mediasoup.e_nextId Mediasoup.e_routers
       Mediasoup.e_transports Mediasoup.e_producers Mediasoup.e_consumers
       Mediasoup.e_routerCloseCalls].
  rewrite JsMapFacts.set_set_same.
  assert (Ep : Mediasoup.setProducerPaused false (Mediasoup.setProducerPaused true p) = p).
  { destruct p as [t k rtp ad pa cl]. cbn in *. now subst. }
  rewrite Ep, (JsMapFacts.set_same _ _ _ Gp), engine_eta. now rewrite server_eta.
Qed.

End Composition.

(** * Invariants of the registry *)

Module SoundFacts.
Section Store.
Context `{Ortc}.
Import Mediasoup.
Import Sound.

Lemma routersKept_refl e : routersKept e e.
Proof. repeat split; auto. Qed.

Lemma routersKept_trans e1 e2 e3 :
  routersKept e1 e2 -> routersKept e2 e3 -> routersKept e1 e3.
Proof.
  intros (A1 & B1 & C1) (A2 & B2 & C2). repeat split; try congruence. lia.
Qed.

Lemma keepsStamps_refl e : keepsStamps e e.
Proof. intros A. split; [exact A|]. split; auto. Qed.

Lemma keepsStamps_trans e1 e2 e3 :
  keepsStamps e1 e2 -> keepsStamps e2 e3 -> keepsStamps e1 e3.
Proof.
  intros K12 K23 A1. destruct (K12 A1) as (A2 & L12 & S12).
  destruct (K23 A2) as (A3 & L23 & S23).
  split; [exact A3|]. split; [lia | auto].
Qed.

Lemma steady_refl e : steady e e.
Proof. split; [apply routersKept_refl | apply keepsStamps_refl]. Qed.

Lemma steady_trans e1 e2 e3 : steady e1 e2 -> steady e2 e3 -> steady e1 e3.
Proof.
  intros (R12 & K12) (R23 & K23). split.
  - now apply routersKept_trans with e2.
  - now apply keepsStamps_trans with e2.
Qed.

Lemma keepsStamps_same e e' :
  e_transports e' = e_transports e -> e_nextId e <= e_nextId e' -> keepsStamps e e'.
Proof.
  intros Et Le (ND & A). split; [split|split; [exact Le|]].
  - now rewrite Et.
  - intros id t G. rewrite Et in G. apply A in G. lia.
  - intros r p tid. unfold transportStamped. now rewrite Et.
Qed.

(** One transport rewritten, its stamps kept. *)
Lemma keepsStamps_set e e' id t t' :
  JsMap.get (e_transports e) id = Some t ->
  e_transports e' = JsMap.set (e_transports e) id t' ->
  transport_routerId t' = transport_routerId t ->
  transport_appData_peerId t' = transport_appData_peerId t ->
  e_nextId e' = e_nextId e ->
  keepsStamps e e'.
Proof.
  intros G Et Er Ep En (ND & A). split; [split|split; [lia|]].
  - rewrite Et. now apply JsMapFacts.NoDup_keys_set.
  - intros id0 t0 G0. rewrite Et in G0. rewrite En.
    destruct (Nat.eq_dec id0 id) as [->|N]; [now apply A in G|].
    rewrite JsMapFacts.get_set_other in G0 by exact N. now apply A in G0.
  - intros r p tid (t0 & G0 & Er0 & Ep0). unfold transportStamped. rewrite Et.
    destruct (Nat.eq_dec tid id) as [->|N].
    + rewrite JsMapFacts.get_set_same. exists t'.
      assert (t0 = t) as -> by congruence. repeat split; congruence.
    + rewrite JsMapFacts.get_set_other by exact N. now exists t0.
Qed.

Lemma steady_same e e' :
  e_routers e' = e_routers e ->
  e_routerCloseCalls e' = e_routerCloseCalls e ->
  e_transports e' = e_transports e ->
  e_nextId e <= e_nextId e' ->
  steady e e'.
Proof.
  intros. split; [repeat split; auto | now apply keepsStamps_same].
Qed.

Lemma transportClose_steady x e : steady e (fst (transportClose x e)).
Proof.
  destruct (MediasoupFacts.transportClose_cases x e) as [[-> _] | (t & G & C & ->)]; cbn [fst].
  - apply steady_refl.
  - split; [repeat split; auto|].
    now apply (keepsStamps_set _ _ x t (closeTransport t)).
Qed.

Lemma fold_transportClose_keepsStamps l e :
  keepsStamps e (fold_left (fun acc tid => fst (transportClose tid acc)) l e).
Proof.
  apply (MediasoupFacts.fold_transportClose_keeps (fun e0 => keepsStamps e e0)).
  - intros x e0 K. eapply keepsStamps_trans; [exact K|].
    apply transportClose_steady.
  - apply keepsStamps_refl.
Qed.

Lemma routerClose_keepsStamps x e : keepsStamps e (routerClose x e).
Proof.
  eapply keepsStamps_trans; [apply (fold_transportClose_keepsStamps
    (idsWhere (transportOfRouter x) (e_transports e)) e)|].
  apply keepsStamps_same; cbn; auto.
Qed.

Lemma createRouter_keepsStamps pid e : keepsStamps e (snd (createRouter pid e)).
Proof. apply keepsStamps_same; cbn; auto. Qed.

(** What [router.createWebRtcTransport] creates. *)
Lemma createWebRtcTransport_creates r p e id e' :
  createWebRtcTransport r p e = Some (id, e') ->
  routerOpen e r /\
  id = e_nextId e /\
  e' = mkEngine (S id) (e_routers e)
         (JsMap.set (e_transports e) id (mkTransport r p false false false))
         (e_producers e) (e_consumers e) (e_routerCloseCalls e).
Proof.
  unfold createWebRtcTransport, routerOpen. intros E.
  destruct (JsMap.get (e_routers e) r) as [rt|]; [|discriminate].
  destruct (router_closed rt) eqn:C; [discriminate|]. injection E as <- <-.
  eauto.
Qed.

Lemma createWebRtcTransport_steady r p e x e' :
  createWebRtcTransport r p e = Some (x, e') -> steady e e'.
Proof.
  intros E. destruct (createWebRtcTransport_creates _ _ _ _ _ E) as (_ & -> & ->).
  split; [repeat split; cbn; auto|].
  intros (ND & A). cbn [e_nextId e_transports]. split; [split|split; [lia|]].
  - cbn [e_transports]. now apply JsMapFacts.NoDup_keys_set.
  - intros id t G. cbn [e_nextId e_transports] in *.
    destruct (Nat.eq_dec id (e_nextId e)) as [->|N]; [lia|].
    rewrite JsMapFacts.get_set_other in G by exact N. apply A in G. lia.
  - intros r0 p0 tid (t & G & St). unfold transportStamped. cbn [e_transports].
    rewrite JsMapFacts.get_set_other; [now exists t|]. apply A in G. lia.
Qed.

Lemma createWebRtcTransport_stamps r p e id e' :
  createWebRtcTransport r p e = Some (id, e') -> transportStamped e' r p id.
Proof.
  intros E. destruct (createWebRtcTransport_creates _ _ _ _ _ E) as (_ & _ & ->).
  eexists. cbn [e_transports]. rewrite JsMapFacts.get_set_same. repeat split.
Qed.

Lemma markConsuming_steady t e : steady e (markConsuming t e).
Proof.
  unfold markConsuming.
  destruct (JsMap.get (e_transports e) t) as [tr|] eqn:G; [|apply steady_refl].
  split; [repeat split; auto|].
  eapply (keepsStamps_set _ _ t tr); [exact G | reflexivity | reflexivity | reflexivity | reflexivity].
Qed.

Lemma connect_steady t e e' : connect t e = Some e' -> steady e e'.
Proof.
  unfold connect. intros E.
  destruct (JsMap.get (e_transports e) t) as [tr|] eqn:G; [|discriminate].
  destruct (transport_closed tr || transport_connected tr); [discriminate|].
  injection E as <-. split; [repeat split; auto|].
  eapply (keepsStamps_set _ _ t tr); [exact G | reflexivity | reflexivity | reflexivity | reflexivity].
Qed.

Lemma produce_steady t k rtp ad e x e' :
  produce t k rtp ad e = Some (x, e') -> steady e e'.
Proof.
  unfold produce. intros E.
  destruct (JsMap.get (e_transports e) t) as [tr|]; [|discriminate].
  destruct (transport_closed tr || collides t rtp e); [discriminate|].
  injection E as _ <-. apply steady_same; cbn; auto.
Qed.

Lemma consume_steady t p caps paused e x e' :
  consume t p caps paused e = Some (x, e') -> steady e e'.
Proof.
  unfold consume. intros E.
  destruct (JsMap.get (e_transports e) t) as [tr|]; [|discriminate].
  destruct (transport_closed tr); [discriminate|].
  destruct (routerProducer (transport_routerId tr) p e) as [pr|]; [|discriminate].
  destruct (ortc_canConsume (producer_rtpParameters pr) caps); [|discriminate].
  injection E as _ <-. apply steady_same; cbn; auto.
Qed.

Lemma updateProducer_steady id f e e' : updateProducer id f e = Some e' -> steady e e'.
Proof.
  unfold updateProducer. intros E.
  destruct (JsMap.get (e_producers e) id) as [p|]; [|discriminate].
  destruct (producer_closed p); [discriminate|]. injection E as <-.
  apply steady_same; cbn; auto.
Qed.

Lemma producerPause_steady id e e' : producerPause id e = Some e' -> steady e e'.
Proof. apply updateProducer_steady. Qed.

Lemma producerResume_steady id e e' : producerResume id e = Some e' -> steady e e'.
Proof. apply updateProducer_steady. Qed.

Lemma producerClose_steady id e : steady e (producerClose id e).
Proof.
  unfold producerClose. destruct (updateProducer id closeProducer e) eqn:E.
  - now apply updateProducer_steady in E.
  - apply steady_refl.
Qed.

Lemma updateConsumer_steady id f e e' : updateConsumer id f e = Some e' -> steady e e'.
Proof.
  unfold updateConsumer. intros E.
  destruct (JsMap.get (e_consumers e) id) as [c|]; [|discriminate].
  destruct (consumer_closed c); [discriminate|]. injection E as <-.
  apply steady_same; cbn; auto.
Qed.

Lemma producerCloseNotification_steady id e e' :
  producerCloseNotification id e = Some e' -> steady e e'.
Proof.
  unfold producerCloseNotification. intros E.
  destruct (JsMap.get (e_consumers e) id) as [c|]; [|discriminate].
  destruct (consumer_closed c); [discriminate|].
  destruct (JsMap.get (e_producers e) (consumer_producerId c)) as [p|]; [|discriminate].
  destruct (producer_closed p); [|discriminate].
  now apply updateConsumer_steady in E.
Qed.

(** The routers after [router.close()]. *)
Lemma routerClose_routers x e :
  e_routers (routerClose x e)
  = match JsMap.get (e_routers e) x with
    | Some r => JsMap.set (e_routers e) x (closeRouter r)
    | None => e_routers e
    end.
Proof.
  unfold routerClose. cbn [e_routers].
  set (e1 := fold_left _ _ e).
  assert (E : e_routers e1 = e_routers e).
  { apply (MediasoupFacts.fold_transportClose_keeps
             (fun e0 => e_routers e0 = e_routers e)); auto.
    intros y e0 E. now rewrite MediasoupFacts.transportClose_routers. }
  now rewrite E.
Qed.

End Store.
End SoundFacts.

Create HintDb steady.

#[export] Hint Resolve
  SoundFacts.steady_refl
  SoundFacts.createWebRtcTransport_steady
  SoundFacts.markConsuming_steady
  SoundFacts.connect_steady
  SoundFacts.produce_steady
  SoundFacts.consume_steady
  SoundFacts.producerPause_steady
  SoundFacts.producerResume_steady
  SoundFacts.producerClose_steady
  SoundFacts.updateConsumer_steady
  SoundFacts.producerCloseNotification_steady
  SoundFacts.transportClose_steady : steady.

Ltac solve_steady :=
  solve [ eauto with steady
        | eapply SoundFacts.steady_trans;
          [ | apply SoundFacts.markConsuming_steady ]; eauto with steady ].

Section RegistrySound.
Context `{Ortc}.
Import ServerJs.
Import Props.
Import Sound.
Abbreviation Engine := Mediasoup.Engine.
Abbreviation Room := RoomJs.Room.

Lemma sound_peers_NoDup s roomId room :
  registrySound s -> JsMap.get (rooms s) roomId = Some room ->
  NoDup (JsMap.keys (RoomJs.peers room)).
Proof. intros (_ & (_ & K) & _) G. now destruct (K _ _ G). Qed.

Lemma steady_routersKept (e e' : Engine) : steady e e' -> routersKept e e'.
Proof. now intros []. Qed.

Lemma steady_keepsStamps (e e' : Engine) : steady e e' -> keepsStamps e e'.
Proof. now intros []. Qed.

Lemma sound_after_call s roomId room room' (e' : Engine) :
  registrySound s ->
  JsMap.get (rooms s) roomId = Some room ->
  RoomJs.roomId room' = RoomJs.roomId room ->
  RoomJs.router room' = RoomJs.router room ->
  NoDup (JsMap.keys (RoomJs.peers room')) ->
  routersKept (engine s) e' ->
  registrySound (mkServer (workers s) (nextWorkerIdx s)
                          (JsMap.set (rooms s) roomId room') e').
Proof.
  intros (W & (ND & K) & R1 & R2 & R3 & R4) G Ei Er NDp (Kr & Kc & Kn).
  assert (Back : forall k x,
            JsMap.get (JsMap.set (rooms s) roomId room') k = Some x ->
            exists y, JsMap.get (rooms s) k = Some y /\
                      RoomJs.router y = RoomJs.router x /\
                      RoomJs.roomId y = RoomJs.roomId x /\
                      (k <> roomId -> y = x)).
  { intros k x Gk. destruct (string_dec k roomId) as [->|N].
    - rewrite JsMapFacts.get_set_same in Gk. injection Gk as <-.
      exists room. intuition congruence.
    - rewrite JsMapFacts.get_set_other in Gk by exact N. eauto. }
  assert (Forth : forall k y, JsMap.get (rooms s) k = Some y ->
            exists x, JsMap.get (JsMap.set (rooms s) roomId room') k = Some x /\
                      RoomJs.router x = RoomJs.router y).
  { intros k y Gk. destruct (string_dec k roomId) as [->|N].
    - rewrite JsMapFacts.get_set_same. eexists. split; [reflexivity|]. congruence.
    - rewrite JsMapFacts.get_set_other by exact N. eauto. }
  split; [exact W|]. split; [split|split; [|split; [|split]]];
    cbn [rooms engine] in *.
  - now apply JsMapFacts.NoDup_keys_set.
  - intros k x Gk. destruct (string_dec k roomId) as [->|N].
    + rewrite JsMapFacts.get_set_same in Gk. injection Gk as <-.
      destruct (K _ _ G). split; [congruence | exact NDp].
    + rewrite JsMapFacts.get_set_other in Gk by exact N. exact (K _ _ Gk).
  - intros k x Gk. destruct (Back _ _ Gk) as (y & Gy & Ey & _).
    destruct (R1 _ _ Gy) as (Op & Nc). unfold routerOpen in *.
    rewrite Kr, Kc, <- Ey. auto.
  - intros r1 r2 x1 x2 G1 G2 E.
    destruct (Back _ _ G1) as (y1 & Gy1 & E1 & _).
    destruct (Back _ _ G2) as (y2 & Gy2 & E2 & _).
    apply (R2 r1 r2 y1 y2); congruence.
  - intros id Hid. rewrite Kr in Hid.
    destruct (R3 id Hid) as (Lt & [(k & y & Gk & Ek) | Cl]); split; try lia.
    + left. destruct (Forth k y Gk) as (x & Gx & Ex).
      exists k, x. cbn [rooms]. split; congruence.
    + right. unfold routerClosedOnce in *. now rewrite Kr, Kc.
  - intros id Hin. rewrite Kr. rewrite Kc in Hin. now apply R4.
Qed.

Lemma sound_new_room s roomId pid peers0 :
  registrySound s ->
  JsMap.get (rooms s) roomId = None ->
  nth_error (workers s) (nextWorkerIdx s) = Some pid ->
  NoDup (JsMap.keys peers0) ->
  registrySound
    (mkServer (workers s) ((nextWorkerIdx s + 1) mod List.length (workers s))
       (JsMap.set (rooms s) roomId
          (RoomJs.mkRoom roomId (Mediasoup.e_nextId (engine s)) peers0))
       (snd (Mediasoup.createRouter pid (engine s)))).
Proof.
  intros (W & (ND & K) & R1 & R2 & R3 & R4) G Wk NDp.
  assert (Fresh : forall k y, JsMap.get (rooms s) k = Some y ->
                              RoomJs.router y < Mediasoup.e_nextId (engine s)).
  { intros k y Gk. destruct (R1 _ _ Gk) as ((r & Gr & _) & _).
    apply R3. unfold JsMap.has. now rewrite Gr. }
  assert (NoCall : ~ In (Mediasoup.e_nextId (engine s))
                        (Mediasoup.e_routerCloseCalls (engine s))).
  { intros Hin. apply R4, R3 in Hin. lia. }
  unfold Mediasoup.createRouter. cbn [snd].
  split; [|split; [split|split; [|split; [|split]]]];
    cbn [rooms engine workers nextWorkerIdx Mediasoup.e_routers
         Mediasoup.e_routerCloseCalls Mediasoup.e_nextId] in *.
  - right. cbn [workers nextWorkerIdx]. apply Nat.mod_upper_bound.
    assert (nth_error (workers s) (nextWorkerIdx s) <> None) as N by congruence.
    apply nth_error_Some in N. lia.
  - now apply JsMapFacts.NoDup_keys_set.
  - intros k x Gk. destruct (string_dec k roomId) as [->|N].
    + rewrite JsMapFacts.get_set_same in Gk. injection Gk as <-. split; auto.
    + rewrite JsMapFacts.get_set_other in Gk by exact N. exact (K _ _ Gk).
  - intros k x Gk. unfold routerOpen. cbn [Mediasoup.e_routers].
    destruct (string_dec k roomId) as [->|N].
    + rewrite JsMapFacts.get_set_same in Gk. injection Gk as <-.
      cbn [RoomJs.router]. rewrite JsMapFacts.get_set_same. split; eauto.
    + rewrite JsMapFacts.get_set_other in Gk by exact N.
      destruct (R1 _ _ Gk) as (Op & Nc). split; [|exact Nc].
      rewrite JsMapFacts.get_set_other; [exact Op|].
      apply Fresh in Gk. lia.
  - intros r1 r2 x1 x2 G1 G2 E.
    destruct (string_dec r1 roomId) as [->|N1];
      destruct (string_dec r2 roomId) as [->|N2]; auto.
    + rewrite JsMapFacts.get_set_same in G1. injection G1 as <-.
      rewrite JsMapFacts.get_set_other in G2 by exact N2.
      apply Fresh in G2. cbn [RoomJs.router] in E. lia.
    + rewrite JsMapFacts.get_set_same in G2. injection G2 as <-.
      rewrite JsMapFacts.get_set_other in G1 by exact N1.
      apply Fresh in G1. cbn [RoomJs.router] in E. lia.
    + rewrite JsMapFacts.get_set_other in G1 by exact N1.
      rewrite JsMapFacts.get_set_other in G2 by exact N2.
      now apply (R2 r1 r2 x1 x2).
  - intros id Hid. apply has_set_inv in Hid. destruct Hid as [->|Hid].
    + split; [lia|]. left. eexists roomId, _. cbn [rooms].
      rewrite JsMapFacts.get_set_same. split; reflexivity.
    + destruct (R3 id Hid) as (Lt & [(k & y & Gk & Ek) | Cl]); split; try lia.
      * left. exists k, y. cbn [rooms]. split; [|exact Ek].
        rewrite JsMapFacts.get_set_other; [exact Gk|]. congruence.
      * right. unfold routerClosedOnce in *.
        cbn [Mediasoup.e_routers Mediasoup.e_routerCloseCalls].
        rewrite JsMapFacts.get_set_other by lia. exact Cl.
  - intros id Hin. now apply has_set_mono, R4.
Qed.

Lemma sound_delete_room s roomId room (e1 : Engine) :
  registrySound s ->
  JsMap.get (rooms s) roomId = Some room ->
  routersKept (engine s) e1 ->
  registrySound
    (mkServer (workers s) (nextWorkerIdx s) (JsMap.delete (rooms s) roomId)
              (Mediasoup.routerClose (RoomJs.router room) e1)).
Proof.
  intros (W & (ND & K) & R1 & R2 & R3 & R4) G (Kr & Kc & Kn).
  destruct (R1 _ _ G) as ((r0 & Gr0 & Op0) & NoCall).
  assert (Back : forall k x, JsMap.get (JsMap.delete (rooms s) roomId) k = Some x ->
                             k <> roomId /\ JsMap.get (rooms s) k = Some x).
  { intros k x Gk. destruct (string_dec k roomId) as [->|N].
    - now rewrite JsMapFacts.get_delete_same in Gk.
    - now rewrite JsMapFacts.get_delete_other in Gk. }
  assert (Rs : Mediasoup.e_routers (Mediasoup.routerClose (RoomJs.router room) e1)
               = JsMap.set (Mediasoup.e_routers (engine s)) (RoomJs.router room)
                           (Mediasoup.closeRouter r0)).
  { now rewrite SoundFacts.routerClose_routers, Kr, Gr0. }
  assert (HasEq : forall x,
            JsMap.has (Mediasoup.e_routers
                         (Mediasoup.routerClose (RoomJs.router room) e1)) x
            = JsMap.has (Mediasoup.e_routers (engine s)) x).
  { intros x. now rewrite MediasoupFacts.routerClose_has_router, Kr. }
  split; [exact W|]. split; [split|split; [|split; [|split]]];
    cbn [rooms engine] in *.
  - now apply JsMapFacts.NoDup_keys_delete.
  - intros k x Gk. destruct (Back _ _ Gk) as (_ & Gk'). exact (K _ _ Gk').
  - intros k x Gk. destruct (Back _ _ Gk) as (N & Gk').
    destruct (R1 _ _ Gk') as (Op & Nc).
    assert (Ne : RoomJs.router x <> RoomJs.router room).
    { intros E. apply N. now apply (R2 k roomId x room). }
    unfold routerOpen. rewrite Rs, MediasoupFacts.routerClose_calls, Kc.
    rewrite JsMapFacts.get_set_other by exact Ne. split; [exact Op|].
    intros [E|Hin]; [now apply Ne | now apply Nc].
  - intros r1 r2 x1 x2 G1 G2 E.
    destruct (Back _ _ G1) as (_ & G1'). destruct (Back _ _ G2) as (_ & G2').
    now apply (R2 r1 r2 x1 x2).
  - intros id Hid. rewrite HasEq in Hid.
    rewrite MediasoupFacts.routerClose_nextId.
    destruct (R3 id Hid) as (Lt & St). split; [lia|].
    unfold routerClosedOnce. rewrite Rs, MediasoupFacts.routerClose_calls, Kc.
    cbn [count_occ].
    destruct (Nat.eq_dec (RoomJs.router room) id) as [E|N].
    + right. subst id. rewrite JsMapFacts.get_set_same. split; [eauto|].
      f_equal. now apply count_occ_not_In.
    + destruct St as [(k & y & Gk & Ek) | Cl]; [left | right].
      * exists k, y. cbn [rooms]. split; [|exact Ek].
        rewrite JsMapFacts.get_delete_other; [exact Gk|].
        intros ->. congruence.
      * rewrite JsMapFacts.get_set_other by congruence. exact Cl.
  - intros id Hin. rewrite HasEq.
    rewrite MediasoupFacts.routerClose_calls, Kc in Hin.
    destruct Hin as [<-|Hin]; [|now apply R4].
    unfold JsMap.has. now rewrite Gr0.
Qed.

Lemma sound_no_worker s idx' :
  registrySound s ->
  nth_error (workers s) (nextWorkerIdx s) = None ->
  registrySound (mkServer (workers s) idx' (rooms s) (engine s)).
Proof.
  intros (W & K & R) N. split; [|split; [exact K | exact R]].
  left. cbn [workers]. destruct W as [W|W]; [exact W|].
  apply nth_error_None in N. lia.
Qed.

Lemma engineAfterRemove_steady (e : Engine) peer : steady e (engineAfterRemove e peer).
Proof.
  destruct peer as [peer|]; cbn [engineAfterRemove]; auto with steady.
  apply (closePeerTransports_keep (fun e0 => steady e e0)); cbn [snd];
    auto with steady.
  intros x e0 N. eapply SoundFacts.steady_trans; eauto with steady.
Qed.

Lemma leave_sound s roomId peerId :
  registrySound s -> registrySound (snd (handleRpcRequest (Leave roomId peerId) s)).
Proof.
  intros S. destruct (JsMap.get (rooms s) roomId) as [room|] eqn:G.
  - rewrite (leave_registered _ _ _ _ G). cbn [snd].
    pose proof (steady_routersKept _ _
                  (engineAfterRemove_steady (engine s)
                     (JsMap.get (RoomJs.peers room) peerId))) as Kr.
    destruct (Nat.eqb _ 0).
    + now apply sound_delete_room.
    + apply (sound_after_call s roomId room); auto.
      cbn [RoomJs.peers]. apply JsMapFacts.NoDup_keys_delete.
      now apply (sound_peers_NoDup s roomId).
  - now rewrite (leave_unregistered _ _ _ G).
Qed.

Lemma getOrCreateRoom_sound s roomId :
  registrySound s -> registrySound (snd (getOrCreateRoom roomId s)).
Proof.
  intros S. destruct (JsMap.get (rooms s) roomId) as [room|] eqn:G.
  - now rewrite (getOrCreateRoom_registered _ _ _ G).
  - rewrite (getOrCreateRoom_unregistered _ _ G).
    destruct (nth_error (workers s) (nextWorkerIdx s)) as [pid|] eqn:W; cbn [snd].
    + apply sound_new_room; auto. constructor.
    + now apply sound_no_worker.
Qed.

Lemma capabilities_sound s roomId :
  registrySound s ->
  registrySound (snd (handleRpcRequest (GetRouterRtpCapabilities roomId) s)).
Proof.
  intros S. cbn [handleRpcRequest]. unfold bind, ret.
  pose proof (getOrCreateRoom_sound s roomId S) as S1.
  now destruct (getOrCreateRoom roomId s) as [[room|e] s1].
Qed.

Lemma join_sound s roomId peerId name :
  registrySound s ->
  registrySound (snd (handleRpcRequest (Join roomId peerId name) s)).
Proof.
  intros S. destruct (JsMap.get (rooms s) roomId) as [room|] eqn:G.
  - rewrite (join_registered _ _ _ _ _ G).
    apply (sound_after_call s roomId room); auto using SoundFacts.routersKept_refl.
    cbn [RoomJs.peers]. pose proof (sound_peers_NoDup s roomId room S G) as ND.
    unfold joinedPeers. destruct (JsMap.has (RoomJs.peers room) peerId); auto.
    now apply JsMapFacts.NoDup_keys_set.
  - destruct (nth_error (workers s) (nextWorkerIdx s)) as [pid|] eqn:W.
    + rewrite (join_unregistered _ _ _ _ _ G W). apply sound_new_room; auto.
      cbn. constructor; [intros [] | constructor].
    + cbn [handleRpcRequest]. unfold bind at 1.
      rewrite (getOrCreateRoom_unregistered _ _ G), W. cbn [snd].
      now apply sound_no_worker.
Qed.

Ltac solve_sound_call :=
  match goal with
  | S : registrySound ?s, G : JsMap.get (rooms ?s) ?r = Some ?room
    |- registrySound (mkServer _ _ (JsMap.set (rooms ?s) ?r _) _) =>
      apply (sound_after_call s r room);
      [ exact S | exact G | reflexivity | reflexivity
      | cbn [RoomJs.peers];
        first [ exact (sound_peers_NoDup s r room S G)
              | apply JsMapFacts.NoDup_keys_set;
                exact (sound_peers_NoDup s r room S G) ]
      | apply steady_routersKept; solve_steady ]
  | S : registrySound ?s |- registrySound ?s => exact S
  end.

Lemma request_sound request s :
  registrySound s -> registrySound (snd (handleRpcRequest request s)).
Proof.
  intros S.
  destruct request;
    try (now apply leave_sound); try (now apply join_sound);
    try (now apply capabilities_sound);
    cbn [handleRpcRequest];
    unfold_room; unfold_js; cbv beta iota delta [fst snd];
    repeat (break_match; cbn [snd]; try discriminate); solve_sound_call.
Qed.

Lemma get_mapPeers f rs roomId :
  JsMap.get (mapPeers f rs) roomId
  = option_map (fun room =>
                  RoomJs.mkRoom (RoomJs.roomId room) (RoomJs.router room)
                    (map (fun p => (fst p, f (snd p))) (RoomJs.peers room)))
               (JsMap.get rs roomId).
Proof.
  unfold mapPeers. induction rs as [|[k room] rs IH]; [reflexivity|].
  cbn [map JsMap.get fst snd]. destruct (keq roomId k); [reflexivity | exact IH].
Qed.

Lemma keys_mapPeers f rs : JsMap.keys (mapPeers f rs) = JsMap.keys rs.
Proof.
  unfold mapPeers, JsMap.keys. rewrite map_map. apply map_ext. now intros [k room].
Qed.

Lemma sound_mapPeers s f (e' : Engine) :
  registrySound s ->
  routersKept (engine s) e' ->
  registrySound (mkServer (workers s) (nextWorkerIdx s) (mapPeers f (rooms s)) e').
Proof.
  intros (W & (ND & K) & R1 & R2 & R3 & R4) (Kr & Kc & Kn).
  assert (Back : forall k x, JsMap.get (mapPeers f (rooms s)) k = Some x ->
            exists y, JsMap.get (rooms s) k = Some y /\
                      RoomJs.router x = RoomJs.router y /\
                      RoomJs.roomId x = RoomJs.roomId y /\
                      JsMap.keys (RoomJs.peers x) = JsMap.keys (RoomJs.peers y)).
  { intros k x Gk. rewrite get_mapPeers in Gk.
    destruct (JsMap.get (rooms s) k) as [y|]; [|discriminate].
    injection Gk as <-. exists y. cbn [RoomJs.router RoomJs.roomId RoomJs.peers].
    repeat split; auto. unfold JsMap.keys. rewrite map_map. now apply map_ext. }
  split; [exact W|]. split; [split|split; [|split; [|split]]];
    cbn [rooms engine] in *.
  - now rewrite keys_mapPeers.
  - intros k x Gk. destruct (Back _ _ Gk) as (y & Gy & _ & Ei & Ek).
    destruct (K _ _ Gy). rewrite Ei, Ek. auto.
  - intros k x Gk. destruct (Back _ _ Gk) as (y & Gy & Er & _).
    destruct (R1 _ _ Gy). unfold routerOpen in *. rewrite Kr, Kc, Er. auto.
  - intros r1 r2 x1 x2 G1 G2 E.
    destruct (Back _ _ G1) as (y1 & Gy1 & E1 & _).
    destruct (Back _ _ G2) as (y2 & Gy2 & E2 & _).
    apply (R2 r1 r2 y1 y2); congruence.
  - intros id Hid. rewrite Kr in Hid.
    destruct (R3 id Hid) as (Lt & [(k & y & Gk & Ek) | Cl]); split; try lia.
    + left. exists k. eexists. cbn [rooms]. rewrite get_mapPeers, Gk.
      split; [reflexivity | exact Ek].
    + right. unfold routerClosedOnce in *. now rewrite Kr, Kc.
  - intros id Hin. rewrite Kr. rewrite Kc in Hin. now apply R4.
Qed.

Lemma event_sound ev s : registrySound s -> registrySound (handleEngineEvent ev s).
Proof.
  intros S. destruct ev; cbn [handleEngineEvent].
  - pose proof (SoundFacts.transportClose_steady transportId (engine s)) as K.
    destruct (Mediasoup.transportClose transportId (engine s)) as [e' [ps cs]].
    apply sound_mapPeers; [exact S | now apply steady_routersKept].
  - destruct (Mediasoup.producerCloseNotification consumerId (engine s)) eqn:E; auto.
    apply sound_mapPeers; [exact S|].
    apply steady_routersKept. eauto with steady.
Qed.

Lemma step_sound i s : registrySound s -> registrySound (step i s).
Proof.
  intros S. destruct i as [[|n request]|ev]; cbn [step processMessage]; auto.
  - pose proof (request_sound request s S) as S1.
    now destruct (handleRpcRequest request s) as [[r|e] s'].
  - now apply event_sound.
Qed.

Lemma run_sound inputs : forall s, registrySound s -> registrySound (run inputs s).
Proof.
  induction inputs as [|i inputs IH]; intros s S; [exact S|].
  cbn [run fold_left]. apply IH. now apply step_sound.
Qed.

Lemma start_sound pids : registrySound (startServer pids).
Proof.
  unfold startServer. split; [|split; [split|split; [|split; [|split]]]].
  - destruct pids; [now left | right; cbn; lia].
  - constructor.
  - intros k x Gk. discriminate.
  - intros k x Gk. discriminate.
  - intros r1 r2 x1 x2 G1. discriminate.
  - intros id Hid. discriminate.
  - intros id [].
Qed.

Lemma reachable_sound s : reachable s -> registrySound s.
Proof. intros (pids & inputs & ->). apply run_sound, start_sound. Qed.

End RegistrySound.

(** * Who holds what *)

Section Ownership.
Context `{Ortc}.
Import ServerJs.
Import Props.
Import Sound.
Import Replies.
Abbreviation Engine := Mediasoup.Engine.
Abbreviation Room := RoomJs.Room.

Lemma transportsEvolve_refl (e' : Engine) r ps : transportsEvolve e' r ps ps.
Proof. intros q peer tid Hq Ht. left. eauto. Qed.

Lemma transportsEvolve_set (e' : Engine) r ps q peer peer' :
  JsMap.get ps q = Some peer ->
  (forall tid, In tid (RoomJs.transports peer') ->
     In tid (RoomJs.transports peer) \/ transportStamped e' r q tid) ->
  transportsEvolve e' r ps (JsMap.set ps q peer').
Proof.
  intros G Each q' peer'' tid Hq Ht.
  apply JsMapFacts.in_set in Hq. destruct Hq as [E | Hq].
  - injection E as -> ->. destruct (Each tid Ht) as [Old | New]; [left | now right].
    exists peer. split; [now apply JsMapFacts.get_Some_in | exact Old].
  - left. eauto.
Qed.

Lemma transportsEvolve_join (e' : Engine) r ps q name :
  transportsEvolve e' r ps (JsMap.set ps q (RoomJs.mkPeer name [] [] [])).
Proof.
  intros q' peer'' tid Hq Ht.
  apply JsMapFacts.in_set in Hq. destruct Hq as [E | Hq].
  - injection E as -> ->. destruct Ht.
  - left. eauto.
Qed.

Lemma transportsEvolve_delete (e' : Engine) r ps q :
  transportsEvolve e' r ps (JsMap.delete ps q).
Proof.
  intros q' peer'' tid Hq Ht. apply JsMapFacts.in_delete in Hq. left. eauto.
Qed.

Lemma owned_changed_store s idx' rs (e' : Engine) :
  transportsOwned s ->
  keepsStamps (engine s) e' ->
  (forall r room', In (r, room') rs ->
     (forall q peer, In (q, peer) (RoomJs.peers room') ->
                     RoomJs.transports peer = []) \/
     exists room, In (r, room) (rooms s) /\
                  RoomJs.router room' = RoomJs.router room /\
                  transportsEvolve e' (RoomJs.router room)
                    (RoomJs.peers room) (RoomJs.peers room')) ->
  transportsOwned (mkServer (workers s) idx' rs e').
Proof.
  intros (A & O) K Sub. destruct (K A) as (A' & _ & St).
  split; [exact A'|]. cbn [rooms engine].
  intros r2 room2 q peer' tid Hin Hq Ht.
  destruct (Sub _ _ Hin) as [E | (room & Hr & Er & Ev)].
  - rewrite (E _ _ Hq) in Ht. destruct Ht.
  - rewrite Er. destruct (Ev q peer' tid Hq Ht) as [(peer & Hp & Hi) | New];
      [|exact New].
    apply St. exact (O _ _ _ _ _ Hr Hp Hi).
Qed.

Lemma owned_after_call s roomId room room' idx' (e' : Engine) :
  transportsOwned s ->
  JsMap.get (rooms s) roomId = Some room ->
  RoomJs.router room' = RoomJs.router room ->
  keepsStamps (engine s) e' ->
  transportsEvolve e' (RoomJs.router room) (RoomJs.peers room) (RoomJs.peers room') ->
  transportsOwned (mkServer (workers s) idx' (JsMap.set (rooms s) roomId room') e').
Proof.
  intros O G Er K Ev. apply owned_changed_store; auto.
  intros r room2 Hin. right. apply JsMapFacts.in_set in Hin.
  destruct Hin as [E | Hin].
  - injection E as -> ->. exists room.
    split; [now apply JsMapFacts.get_Some_in | auto].
  - exists room2. split; [exact Hin|]. split; [reflexivity|].
    apply transportsEvolve_refl.
Qed.

Lemma leave_owned s roomId peerId :
  transportsOwned s -> transportsOwned (snd (handleRpcRequest (Leave roomId peerId) s)).
Proof.
  intros O. destruct (JsMap.get (rooms s) roomId) as [room|] eqn:G.
  - rewrite (leave_registered _ _ _ _ G). cbn [snd].
    pose proof (steady_keepsStamps _ _
                  (engineAfterRemove_steady (engine s)
                     (JsMap.get (RoomJs.peers room) peerId))) as K.
    destruct (Nat.eqb _ 0).
    + apply owned_changed_store; auto.
      * eapply SoundFacts.keepsStamps_trans; [exact K|].
        apply SoundFacts.routerClose_keepsStamps.
      * intros r room' Hin. right. apply JsMapFacts.in_delete in Hin.
        exists room'. split; [exact Hin|]. split; [reflexivity|].
        apply transportsEvolve_refl.
    + apply (owned_after_call s roomId room); auto.
      cbn [RoomJs.peers]. apply transportsEvolve_delete.
  - now rewrite (leave_unregistered _ _ _ G).
Qed.

Lemma getOrCreateRoom_owned s roomId :
  transportsOwned s -> transportsOwned (snd (getOrCreateRoom roomId s)).
Proof.
  intros O. destruct (JsMap.get (rooms s) roomId) as [room|] eqn:G.
  - now rewrite (getOrCreateRoom_registered _ _ _ G).
  - rewrite (getOrCreateRoom_unregistered _ _ G).
    destruct (nth_error (workers s) (nextWorkerIdx s)); cbn [snd].
    + apply owned_changed_store; auto using SoundFacts.createRouter_keepsStamps.
      intros r room' Hin. apply JsMapFacts.in_set in Hin. destruct Hin as [E | Hin].
      * left. injection E as -> ->. intros q peer [].
      * right. exists room'. split; [exact Hin|]. split; [reflexivity|].
        apply transportsEvolve_refl.
    + apply owned_changed_store; auto using SoundFacts.keepsStamps_refl.
      intros r room' Hin. right. exists room'. split; [exact Hin|].
      split; [reflexivity | apply transportsEvolve_refl].
Qed.

Lemma capabilities_owned s roomId :
  transportsOwned s ->
  transportsOwned (snd (handleRpcRequest (GetRouterRtpCapabilities roomId) s)).
Proof.
  intros O. cbn [handleRpcRequest]. unfold bind, ret.
  pose proof (getOrCreateRoom_owned s roomId O) as O1.
  now destruct (getOrCreateRoom roomId s) as [[room|e] s1].
Qed.

Lemma join_owned s roomId peerId name :
  transportsOwned s ->
  transportsOwned (snd (handleRpcRequest (Join roomId peerId name) s)).
Proof.
  intros O. destruct (JsMap.get (rooms s) roomId) as [room|] eqn:G.
  - rewrite (join_registered _ _ _ _ _ G).
    apply (owned_after_call s roomId room); auto using SoundFacts.keepsStamps_refl.
    cbn [RoomJs.peers RoomJs.router]. unfold joinedPeers.
    destruct (JsMap.has (RoomJs.peers room) peerId);
      [apply transportsEvolve_refl | apply transportsEvolve_join].
  - destruct (nth_error (workers s) (nextWorkerIdx s)) as [pid|] eqn:W.
    + rewrite (join_unregistered _ _ _ _ _ G W).
      apply owned_changed_store; auto using SoundFacts.createRouter_keepsStamps.
      intros r room' Hin. apply JsMapFacts.in_set in Hin. destruct Hin as [E | Hin].
      * injection E as -> ->. left. cbn [RoomJs.peers].
        intros q peer [E|[]]. now injection E as <- <-.
      * right. exists room'. split; [exact Hin|]. split; [reflexivity|].
        apply transportsEvolve_refl.
    + pose proof (getOrCreateRoom_owned s roomId O) as O1.
      cbn [handleRpcRequest]. unfold bind at 1.
      rewrite (getOrCreateRoom_unregistered _ _ G), W in *. exact O1.
Qed.

Lemma markConsuming_stamped t (e : Engine) r p tid :
  transportStamped e r p tid -> transportStamped (Mediasoup.markConsuming t e) r p tid.
Proof.
  intros (t0 & G & Er & Ep). unfold Mediasoup.markConsuming, transportStamped.
  destruct (JsMap.get (Mediasoup.e_transports e) t) as [tr|] eqn:Gt; [|now exists t0].
  cbn [Mediasoup.e_transports]. destruct (Nat.eq_dec tid t) as [->|N].
  - rewrite JsMapFacts.get_set_same. eexists. split; [reflexivity|].
    assert (t0 = tr) as -> by congruence. split; assumption.
  - rewrite JsMapFacts.get_set_other by exact N. now exists t0.
Qed.

Ltac solve_keepsStamps := apply steady_keepsStamps; solve_steady.

(** The transports of the peer written back by a method. *)
Ltac solve_transports_of :=
  let tid := fresh "tid" in
  let Htid := fresh "Htid" in
  intros tid Htid; cbn [RoomJs.transports] in Htid;
  first
    [ left; exact Htid
    | apply In_refsSet in Htid; destruct Htid as [Htid | ->];
      [left; exact Htid | right];
      first [ eapply SoundFacts.createWebRtcTransport_stamps; eassumption
            | apply markConsuming_stamped;
              eapply SoundFacts.createWebRtcTransport_stamps; eassumption ] ].

Ltac solve_owned_call :=
  match goal with
  | O : transportsOwned ?s, G : JsMap.get (rooms ?s) ?r = Some ?room
    |- transportsOwned (mkServer _ _ (JsMap.set (rooms ?s) ?r _) _) =>
      apply (owned_after_call s r room);
      [exact O | exact G | reflexivity | solve_keepsStamps | ];
      cbn [RoomJs.peers RoomJs.router];
      first [ apply transportsEvolve_refl
            | eapply transportsEvolve_set; [eassumption | solve_transports_of] ]
  | O : transportsOwned ?s |- transportsOwned ?s => exact O
  end.

Lemma request_owned request s :
  transportsOwned s -> transportsOwned (snd (handleRpcRequest request s)).
Proof.
  intros O.
  destruct request;
    try (now apply leave_owned); try (now apply join_owned);
    try (now apply capabilities_owned);
    cbn [handleRpcRequest];
    unfold_room; unfold_js; cbv beta iota delta [fst snd];
    repeat (break_match; cbn [snd]; try discriminate); solve_owned_call.
Qed.

Lemma in_mapPeers_room f rs r room' :
  In (r, room') (mapPeers f rs) ->
  exists room, In (r, room) rs /\
               room' = RoomJs.mkRoom (RoomJs.roomId room) (RoomJs.router room)
                         (map (fun p => (fst p, f (snd p))) (RoomJs.peers room)).
Proof.
  unfold mapPeers. intros Hin. apply in_map_iff in Hin.
  destruct Hin as ([r0 room] & E & Hin). injection E as -> <-.
  exists room. split; [exact Hin | reflexivity].
Qed.

Lemma owned_mapPeers s f (e' : Engine) :
  transportsOwned s ->
  keepsStamps (engine s) e' ->
  (forall peer, RoomJs.transports (f peer) = RoomJs.transports peer) ->
  transportsOwned (mkServer (workers s) (nextWorkerIdx s) (mapPeers f (rooms s)) e').
Proof.
  intros O K Same. apply owned_changed_store; auto.
  intros r room' Hin. right.
  destruct (in_mapPeers_room _ _ _ _ Hin) as (room & Hr & ->).
  exists room. split; [exact Hr|]. split; [reflexivity|].
  cbn [RoomJs.peers]. intros q peer' tid Hq Ht. left.
  apply in_map_iff in Hq. destruct Hq as ([q0 peer] & E & Hq). injection E as -> <-.
  exists peer. split; [exact Hq|]. cbn [snd] in Ht. now rewrite Same in Ht.
Qed.

Lemma event_owned ev s : transportsOwned s -> transportsOwned (handleEngineEvent ev s).
Proof.
  intros O. destruct ev; cbn [handleEngineEvent].
  - pose proof (steady_keepsStamps _ _
                  (SoundFacts.transportClose_steady transportId (engine s))) as K.
    destruct (Mediasoup.transportClose transportId (engine s)) as [e' [ps cs]].
    apply owned_mapPeers; auto.
    intros peer.
    destruct (RoomJs.refsHas (RoomJs.transports peer) transportId); [|reflexivity].
    destruct (held_onConsumerClose cs
                (fold_left RoomJs.onProducerTransportClose ps peer)) as (_ & Et & _).
    destruct (held_onProducerTransportClose ps peer) as (_ & Et' & _).
    now rewrite Et, Et'.
  - destruct (Mediasoup.producerCloseNotification consumerId (engine s)) eqn:E; auto.
    apply owned_mapPeers; auto.
    + apply steady_keepsStamps. eauto with steady.
    + intros peer. now destruct (RoomJs.refsHas (RoomJs.consumers peer) consumerId).
Qed.

Lemma step_owned i s : transportsOwned s -> transportsOwned (step i s).
Proof.
  intros O. destruct i as [[|n request]|ev]; cbn [step processMessage]; auto.
  - pose proof (request_owned request s O) as O1.
    now destruct (handleRpcRequest request s) as [[r|e] s'].
  - now apply event_owned.
Qed.

Lemma run_owned inputs : forall s, transportsOwned s -> transportsOwned (run inputs s).
Proof.
  induction inputs as [|i inputs IH]; intros s O; [exact O|].
  cbn [run fold_left]. apply IH. now apply step_owned.
Qed.

Lemma reachable_owned s : reachable s -> transportsOwned s.
Proof.
  intros (pids & inputs & ->). apply run_owned.
  split; [split; [constructor | intros id t G; discriminate]
        | intros r room q peer tid []].
Qed.

(** The holder of a transport is one peer of one room. *)
Lemma transport_holder_unique s r1 room1 p1 peer1 r2 room2 p2 peer2 tid :
  reachable s ->
  JsMap.get (rooms s) r1 = Some room1 ->
  JsMap.get (RoomJs.peers room1) p1 = Some peer1 ->
  JsMap.get (rooms s) r2 = Some room2 ->
  JsMap.get (RoomJs.peers room2) p2 = Some peer2 ->
  In tid (RoomJs.transports peer1) ->
  In tid (RoomJs.transports peer2) ->
  r1 = r2 /\ p1 = p2.
Proof.
  intros R G1 P1 G2 P2 H1 H2.
  destruct (reachable_owned s R) as (_ & O).
  destruct (reachable_sound s R) as (_ & _ & _ & Distinct & _).
  destruct (O r1 room1 p1 peer1 tid (JsMapFacts.get_Some_in _ _ _ G1)
              (JsMapFacts.get_Some_in _ _ _ P1) H1) as (t1 & Gt1 & Er1 & Ep1).
  destruct (O r2 room2 p2 peer2 tid (JsMapFacts.get_Some_in _ _ _ G2)
              (JsMapFacts.get_Some_in _ _ _ P2) H2) as (t2 & Gt2 & Er2 & Ep2).
  assert (t1 = t2) as -> by congruence.
  split; [|congruence]. apply (Distinct r1 r2 room1 room2 G1 G2). congruence.
Qed.

(** The holder of anything held is one peer of one room. *)
Lemma holder_unique s r1 room1 p1 peer1 r2 room2 p2 peer2 kind id :
  reachable s ->
  JsMap.get (rooms s) r1 = Some room1 ->
  JsMap.get (RoomJs.peers room1) p1 = Some peer1 ->
  JsMap.get (rooms s) r2 = Some room2 ->
  JsMap.get (RoomJs.peers room2) p2 = Some peer2 ->
  In id (heldBy peer1 kind) ->
  In id (heldBy peer2 kind) ->
  r1 = r2 /\ p1 = p2.
Proof.
  intros R G1 P1 G2 P2 H1 H2.
  destruct (reachable_placed s R) as (_ & _ & Pl).
  pose proof (Pl r1 room1 p1 peer1 (JsMapFacts.get_Some_in _ _ _ G1)
                (JsMapFacts.get_Some_in _ _ _ P1)) as (Pp1 & Pc1).
  pose proof (Pl r2 room2 p2 peer2 (JsMapFacts.get_Some_in _ _ _ G2)
                (JsMapFacts.get_Some_in _ _ _ P2)) as (Pp2 & Pc2).
  destruct kind; cbn [heldBy] in H1, H2.
  - now apply (transport_holder_unique s r1 room1 p1 peer1 r2 room2 p2 peer2 id).
  - destruct (Pp1 id H1) as (t1 & Ht1 & (x1 & Gx1 & Ex1 & _)).
    destruct (Pp2 id H2) as (t2 & Ht2 & (x2 & Gx2 & Ex2 & _)).
    assert (t1 = t2) as -> by congruence.
    now apply (transport_holder_unique s r1 room1 p1 peer1 r2 room2 p2 peer2 t2).
  - destruct (Pc1 id H1) as (t1 & Ht1 & (x1 & Gx1 & Ex1 & _)).
    destruct (Pc2 id H2) as (t2 & Ht2 & (x2 & Gx2 & Ex2 & _)).
    assert (t1 = t2) as -> by congruence.
    now apply (transport_holder_unique s r1 room1 p1 peer1 r2 room2 p2 peer2 t2).
Qed.

(** X16. In a reachable state a transport, a producer or a consumer is
    held by one peer of one room at most. So a request of any other
    peer, or through any other room, that names it does not find it in
    the maps it looks in. *)
Theorem held_objects_have_one_holder
    s r1 room1 p1 peer1 r2 room2 p2 peer2 kind id :
  reachable s ->
  JsMap.get (rooms s) r1 = Some room1 ->
  JsMap.get (RoomJs.peers room1) p1 = Some peer1 ->
  JsMap.get (rooms s) r2 = Some room2 ->
  JsMap.get (RoomJs.peers room2) p2 = Some peer2 ->
  In id (heldBy peer1 kind) ->
  In id (heldBy peer2 kind) ->
  r1 = r2 /\ p1 = p2.
Proof. apply holder_unique. Qed.

(** X17. In every reachable state [close()] has been called at most once
    on any router, and only on a router whose room is registered no
    more; such a router is closed.  The router of a registered room is
    open, [close()] was never called on it, and no two rooms share a
    router.  So no router is closed twice, and none under a room that is
    still there. *)
Theorem router_is_closed_once_and_with_its_room s :
  reachable s ->
  (forall roomId room, JsMap.get (rooms s) roomId = Some room ->
     routerOpen (engine s) (RoomJs.router room) /\
     ~ In (RoomJs.router room) (Mediasoup.e_routerCloseCalls (engine s))) /\
  (forall r1 r2 room1 room2,
     JsMap.get (rooms s) r1 = Some room1 -> JsMap.get (rooms s) r2 = Some room2 ->
     RoomJs.router room1 = RoomJs.router room2 -> r1 = r2) /\
  (forall id, In id (Mediasoup.e_routerCloseCalls (engine s)) ->
     ~ routerOfRegisteredRoom s id /\ routerClosedOnce (engine s) id) /\
  (forall id,
     count_occ Nat.eq_dec (Mediasoup.e_routerCloseCalls (engine s)) id <= 1).
Proof.
  intros R. destruct (reachable_sound s R) as (_ & _ & R1 & R2 & R3 & R4).
  assert (Called : forall id, In id (Mediasoup.e_routerCloseCalls (engine s)) ->
            ~ routerOfRegisteredRoom s id /\ routerClosedOnce (engine s) id).
  { intros id Hin.
    assert (Nr : ~ routerOfRegisteredRoom s id).
    { intros (k & y & Gk & <-). now destruct (R1 _ _ Gk) as (_ & Nc). }
    split; [exact Nr|].
    destruct (R3 id (R4 id Hin)) as (_ & [Reg | Once]); [contradiction | exact Once]. }
  split; [exact R1|]. split; [exact R2|]. split; [exact Called|].
  intros id.
  destruct (in_dec Nat.eq_dec id (Mediasoup.e_routerCloseCalls (engine s)))
    as [Hin | Hn].
  - destruct (Called id Hin) as (_ & (_ & Cnt)). rewrite Cnt. constructor.
  - apply (count_occ_not_In Nat.eq_dec) in Hn. rewrite Hn. auto.
Qed.

End Ownership.

(** * What members can count on *)

Section Members.
Context `{Ortc}.
Import ServerJs.
Import Props.
Import Sound.
Abbreviation Engine := Mediasoup.Engine.
Abbreviation Room := RoomJs.Room.

(** X18. On a server that has a worker a Join never fails: in every
    reachable state it is answered with a peer list that names the
    joiner, and the joiner is then a peer of the room, which is
    registered with an open router. *)
Theorem join_succeeds_on_a_server_with_workers s roomId peerId name :
  reachable s ->
  workers s <> [] ->
  exists list s' room' peer',
    handleRpcRequest (Join roomId peerId name) s = (Return (JoinResult list), s') /\
    In peerId (map RoomJs.pi_peerId list) /\
    JsMap.get (rooms s') roomId = Some room' /\
    JsMap.get (RoomJs.peers room') peerId = Some peer' /\
    routerOpen (engine s') (RoomJs.router room').
Proof.
  intros R Wn.
  pose proof (reachable_sound s R) as S.
  assert (Open : forall s', snd (handleRpcRequest (Join roomId peerId name) s) = s' ->
                 forall room', JsMap.get (rooms s') roomId = Some room' ->
                 routerOpen (engine s') (RoomJs.router room')).
  { intros s' <- room' G'.
    destruct (join_sound s roomId peerId name S) as (_ & _ & R1 & _).
    now destruct (R1 _ _ G'). }
  destruct (JsMap.get (rooms s) roomId) as [room|] eqn:G.
  - destruct (JsMap.get (RoomJs.peers room) peerId) as [peer|] eqn:P.
    + rewrite (join_of_member _ _ _ _ _ _ G P) in *.
      exists (RoomJs.getPeerList room), s, room, peer.
      split; [reflexivity|]. split; [|split; [exact G|split; [exact P|]]].
      * unfold RoomJs.getPeerList. rewrite map_map. cbn [RoomJs.pi_peerId].
        apply JsMapFacts.get_Some_in in P.
        apply in_map_iff. now exists (peerId, peer).
      * now apply (Open s).
    + rewrite (join_of_newcomer _ _ _ _ _ G P) in *.
      do 4 eexists. split; [reflexivity|].
      split; [|split; [cbn [rooms]; apply JsMapFacts.get_set_same|split]].
      * rewrite map_app. apply in_or_app. right. now left.
      * cbn [RoomJs.peers]. rewrite <- (JsMapFacts.set_absent _ _ _ P).
        apply JsMapFacts.get_set_same.
      * eapply Open; [reflexivity|]. cbn [rooms]. apply JsMapFacts.get_set_same.
  - destruct S as ([W|W] & _); [contradiction|].
    destruct (worker_in_range s W) as [pid Wk].
    rewrite (join_of_first_peer _ _ _ _ _ G Wk) in *.
    do 4 eexists. split; [reflexivity|].
    split; [now left|].
    split; [cbn [rooms]; apply JsMapFacts.get_set_same|].
    split; [cbn [RoomJs.peers JsMap.get]; now rewrite keq_refl|].
    eapply Open; [reflexivity|]. cbn [rooms]. apply JsMapFacts.get_set_same.
Qed.

(** X19. When mediasoup creates the transport a peer of a registered room
    asks for, the request, handled alone in a reachable state, is
    answered with it: the transport is new to the store and to the peer,
    open, not connected, stamped with the room's router and the peer,
    marked consuming exactly when the request said so, and added last to
    the transports of the peer.  (Whether mediasoup creates it is not
    settled here: it rejects, for one, when the worker has no port
    left.) *)
Theorem created_transport_goes_to_the_member
    s roomId room peerId peer consuming id e' :
  reachable s ->
  JsMap.get (rooms s) roomId = Some room ->
  JsMap.get (RoomJs.peers room) peerId = Some peer ->
  Mediasoup.createWebRtcTransport (RoomJs.router room) peerId (engine s)
  = Some (id, e') ->
  let out := handleRpcRequest (CreateWebRtcTransport roomId peerId consuming) s in
  fst out = Return (TransportData id) /\
  JsMap.get (Mediasoup.e_transports (engine s)) id = None /\
  ~ In id (RoomJs.transports peer) /\
  peerOf (snd out) roomId peerId
  = Some (RoomJs.mkPeer (RoomJs.displayName peer) (RoomJs.transports peer ++ [id])
                        (RoomJs.producers peer) (RoomJs.consumers peer)) /\
  JsMap.get (Mediasoup.e_transports (engine (snd out))) id
  = Some (Mediasoup.mkTransport (RoomJs.router room) peerId consuming false false).
Proof.
  intros R G P E out.
  destruct (reachable_owned s R) as ((_ & A) & O).
  assert (Made : exists rt,
            JsMap.get (Mediasoup.e_routers (engine s)) (RoomJs.router room) = Some rt /\
            Mediasoup.router_closed rt = false /\
            id = Mediasoup.e_nextId (engine s)).
  { unfold Mediasoup.createWebRtcTransport in E.
    destruct (JsMap.get (Mediasoup.e_routers (engine s)) (RoomJs.router room))
      as [rt|]; [|discriminate E].
    destruct (Mediasoup.router_closed rt) eqn:Op; [discriminate E|].
    injection E as <- _. now exists rt. }
  destruct Made as (rt & Grt & Op & ->). clear E.
  set (id := Mediasoup.e_nextId (engine s)) in *.
  assert (New : JsMap.get (Mediasoup.e_transports (engine s)) id = None).
  { destruct (JsMap.get (Mediasoup.e_transports (engine s)) id) as [t|] eqn:Gt;
      [|reflexivity].
    apply A in Gt. subst id. lia. }
  assert (Fresh : ~ In id (RoomJs.transports peer)).
  { intros Hin.
    destruct (O roomId room peerId peer id (JsMapFacts.get_Some_in _ _ _ G)
                (JsMapFacts.get_Some_in _ _ _ P) Hin) as (t & Gt & _).
    congruence. }
  assert (Eo : out
              = (Return (TransportData id),
                 mkServer (workers s) (nextWorkerIdx s)
                   (JsMap.set (rooms s) roomId
                      (RoomJs.mkRoom (RoomJs.roomId room) (RoomJs.router room)
                         (JsMap.set (RoomJs.peers room) peerId
                            (RoomJs.mkPeer (RoomJs.displayName peer)
                               (RoomJs.transports peer ++ [id])
                               (RoomJs.producers peer) (RoomJs.consumers peer)))))
                   (Mediasoup.mkEngine (S id) (Mediasoup.e_routers (engine s))
                      (JsMap.set (Mediasoup.e_transports (engine s)) id
                         (Mediasoup.mkTransport (RoomJs.router room) peerId
                                                consuming false false))
                      (Mediasoup.e_producers (engine s))
                      (Mediasoup.e_consumers (engine s))
                      (Mediasoup.e_routerCloseCalls (engine s))))).
  { subst out. cbn [handleRpcRequest]. unfold_room. unfold_js.
    cbv beta iota delta [fst snd]. rewrite G. cbv beta iota delta [fst snd].
    rewrite P. cbv beta iota delta [fst snd].
    unfold Mediasoup.createWebRtcTransport. rewrite Grt, Op.
    fold id. rewrite (refsSet_fresh _ _ Fresh).
    destruct consuming; cbv beta iota delta [fst snd]; [|reflexivity].
    cbn [RoomJs.peers]. rewrite JsMapFacts.get_set_same.
    cbn [RoomJs.transports].
    assert (Has : RoomJs.refsHas (RoomJs.transports peer ++ [id]) id = true).
    { apply refsHas_In, in_or_app. right. now left. }
    rewrite Has. unfold Mediasoup.markConsuming. cbn [Mediasoup.e_transports].
    rewrite JsMapFacts.get_set_same.
    cbn [Mediasoup.transport_routerId Mediasoup.transport_appData_peerId
         Mediasoup.transport_connected Mediasoup.transport_closed
         Mediasoup.e_nextId Mediasoup.e_routers Mediasoup.e_producers
         Mediasoup.e_consumers Mediasoup.e_routerCloseCalls].
    now rewrite JsMapFacts.set_set_same. }
  rewrite Eo. cbn [fst snd engine Mediasoup.e_transports]. unfold peerOf.
  cbn [rooms]. rewrite JsMapFacts.get_set_same. cbn [RoomJs.peers].
  rewrite !JsMapFacts.get_set_same. auto.
Qed.

Lemma run_without_workers inputs : forall s,
  workers s = [] -> rooms s = [] -> engine s = Mediasoup.emptyEngine ->
  workers (run inputs s) = [] /\ rooms (run inputs s) = [] /\
  engine (run inputs s) = Mediasoup.emptyEngine.
Proof.
  induction inputs as [|i inputs IH]; intros s W Rs E; [auto|].
  cbn [run fold_left]. apply IH; destruct s as [w idx rs e]; cbn in W, Rs, E; subst;
    (destruct i as [[|n request]|[tid|cid]];
       [reflexivity | destruct request, idx; reflexivity | reflexivity | reflexivity]).
Qed.

(** X20. A server started with no worker never has a room: whatever it
    is sent, its registry and its store stay empty, and every [join] and
    every [getRouterRtpCapabilities] fails on the worker that is not
    there. *)
Theorem no_worker_no_room inputs roomId peerId name :
  let s := run inputs (startServer []) in
  rooms s = [] /\
  engine s = Mediasoup.emptyEngine /\
  fst (handleRpcRequest (Join roomId peerId name) s) = Throw TypeErrorUndefined /\
  fst (handleRpcRequest (GetRouterRtpCapabilities roomId) s) = Throw TypeErrorUndefined.
Proof.
  intros s.
  destruct (run_without_workers inputs (startServer []) eq_refl eq_refl eq_refl)
    as (W & Rs & E).
  fold s in W, Rs, E. split; [exact Rs|]. split; [exact E|].
  destruct s as [w idx rs e]. cbn in W, Rs, E. subst.
  destruct idx; split; reflexivity.
Qed.

End Members.

(** * Closing producers, leaving, and what the others are shown *)

Section MapsOnce.
Context {K V : Type} `{EqKey K}.
Import JsMap.
Implicit Types (m : JsMap.t K V) (k : K) (v : V).

(** In a map, [set] leaves no other entry under the key. *)
Lemma in_set_NoDup m k v x :
  NoDup (keys m) -> In x (set m k v) -> x = (k, v) \/ (In x m /\ fst x <> k).
Proof.
  induction m as [|[k0 v0] m IH]; intros ND; cbn [set].
  - intros [E | []]. now left.
  - cbn [keys map fst] in ND. inversion ND as [|? ? Hn ND']; subst.
    destruct (keq k k0) eqn:E0.
    + apply keq_true in E0. subst k0.
      intros [E | Hin]; [now left | right]. split; [now right|].
      intros <-. apply Hn. now apply (in_map fst) in Hin.
    + apply keq_false in E0. intros [E | Hin].
      * right. subst x. split; [now left | cbn; congruence].
      * destruct (IH ND' Hin) as [E | (Hin' & N)]; [now left | right].
        split; [now right | exact N].
Qed.

End MapsOnce.

Section Listing.
Context `{Ortc}.
Import ServerJs.
Import Props.
Import Sound.
Abbreviation Engine := Mediasoup.Engine.
Abbreviation Room := RoomJs.Room.

Lemma in_getProducersForPeer room (e : Engine) peerId entry :
  In entry (RoomJs.getProducersForPeer room e peerId) ->
  exists other,
    In (RoomJs.pr_peerId entry, other) (RoomJs.peers room) /\
    In (RoomJs.pr_producerId entry) (RoomJs.producers other).
Proof.
  unfold RoomJs.getProducersForPeer. intros Hin.
  apply in_flat_map in Hin. destruct Hin as ([q other] & Hq & Hin).
  cbn [fst snd] in Hin. destruct (keq q peerId); [destruct Hin|].
  unfold RoomJs.producerEntries in Hin. apply in_flat_map in Hin.
  destruct Hin as (id & Hid & Hin).
  destruct (JsMap.get (Mediasoup.e_producers e) id); [|destruct Hin].
  destruct Hin as [<-|[]]. exists other. auto.
Qed.

(** What a CloseProducer by the holder does. *)
Lemma closeProducer_runs s roomId room peerId peer producerId :
  JsMap.get (rooms s) roomId = Some room ->
  JsMap.get (RoomJs.peers room) peerId = Some peer ->
  In producerId (RoomJs.producers peer) ->
  handleRpcRequest (CloseProducer roomId peerId producerId) s
  = (Return EmptyResult,
     mkServer (workers s) (nextWorkerIdx s)
       (JsMap.set (rooms s) roomId
          (RoomJs.mkRoom (RoomJs.roomId room) (RoomJs.router room)
             (JsMap.set (RoomJs.peers room) peerId
                (RoomJs.mkPeer (RoomJs.displayName peer) (RoomJs.transports peer)
                   (RoomJs.refsDelete (RoomJs.producers peer) producerId)
                   (RoomJs.consumers peer)))))
       (Mediasoup.producerClose producerId (engine s))).
Proof.
  intros G P Hin. apply refsHas_In in Hin.
  cbn [handleRpcRequest]. unfold_room. unfold_js. cbv beta iota delta [fst snd].
  rewrite G. cbv beta iota delta [fst snd]. rewrite P.
  cbv beta iota delta [fst snd]. rewrite Hin. reflexivity.
Qed.

Lemma producerClose_closes (e : Engine) id p :
  JsMap.get (Mediasoup.e_producers e) id = Some p ->
  producerIsClosed (Mediasoup.producerClose id e) id.
Proof.
  intros G. unfold Mediasoup.producerClose, Mediasoup.updateProducer, producerIsClosed.
  rewrite G. destruct (Mediasoup.producer_closed p) eqn:C.
  - exists p. auto.
  - cbn [Mediasoup.e_producers]. rewrite JsMapFacts.get_set_same.
    eexists. split; [reflexivity|]. reflexivity.
Qed.

(** X21. When a peer closes a producer it holds, in a reachable state,
    the request succeeds, the producer is closed in the store, no peer of
    the room holds it any more, and [getProducers] lists it to nobody. *)
Theorem closed_producer_is_held_and_listed_nowhere
    s roomId room peerId peer producerId :
  reachable s ->
  JsMap.get (rooms s) roomId = Some room ->
  JsMap.get (RoomJs.peers room) peerId = Some peer ->
  In producerId (RoomJs.producers peer) ->
  let out := handleRpcRequest (CloseProducer roomId peerId producerId) s in
  fst out = Return EmptyResult /\
  producerIsClosed (engine (snd out)) producerId /\
  exists room',
    JsMap.get (rooms (snd out)) roomId = Some room' /\
    (forall q other, In (q, other) (RoomJs.peers room') ->
                     ~ In producerId (RoomJs.producers other)) /\
    (forall q entry,
       In entry (RoomJs.getProducersForPeer room' (engine (snd out)) q) ->
       RoomJs.pr_producerId entry <> producerId).
Proof.
  intros R G P Hin out. subst out.
  rewrite (closeProducer_runs _ _ _ _ _ _ G P Hin). cbn [fst snd engine rooms].
  destruct (reachable_consistent s R) as (_ & O).
  pose proof (O roomId room (JsMapFacts.get_Some_in _ _ _ G)) as Or.
  pose proof (sound_peers_NoDup s roomId room (reachable_sound s R) G) as ND.
  split; [reflexivity|]. split.
  - destruct (Or peerId peer producerId (JsMapFacts.get_Some_in _ _ _ P) Hin)
      as (p & Gp & _).
    now apply (producerClose_closes _ _ p).
  - eexists. split; [apply JsMapFacts.get_set_same|]. cbn [RoomJs.peers].
    assert (Nobody : forall q other,
              In (q, other)
                 (JsMap.set (RoomJs.peers room) peerId
                    (RoomJs.mkPeer (RoomJs.displayName peer) (RoomJs.transports peer)
                       (RoomJs.refsDelete (RoomJs.producers peer) producerId)
                       (RoomJs.consumers peer))) ->
              ~ In producerId (RoomJs.producers other)).
    { intros q other Hq Hid.
      destruct (in_set_NoDup _ _ _ _ ND Hq) as [E | (Hq' & N)].
      - injection E as -> ->. cbn [RoomJs.producers] in Hid.
        apply In_refsDelete in Hid. now destruct Hid.
      - cbn [fst] in N.
        destruct (Or q other producerId Hq' Hid) as (p1 & G1 & E1).
        destruct (Or peerId peer producerId (JsMapFacts.get_Some_in _ _ _ P) Hin)
          as (p2 & G2 & E2).
        congruence. }
    split; [exact Nobody|].
    intros q entry He Eid.
    destruct (in_getProducersForPeer _ _ _ _ He) as (other & Hq & Hid).
    cbn [RoomJs.peers] in Hq. rewrite Eid in Hid. exact (Nobody _ _ Hq Hid).
Qed.

Lemma producerEntries_peerId (e : Engine) q peer entry :
  In entry (RoomJs.producerEntries e q peer) -> RoomJs.pr_peerId entry = q.
Proof.
  unfold RoomJs.producerEntries. intros Hin. apply in_flat_map in Hin.
  destruct Hin as (id & _ & Hin).
  destruct (JsMap.get (Mediasoup.e_producers e) id); [|destruct Hin].
  now destruct Hin as [<-|[]].
Qed.

Lemma filter_all {A} (f : A -> bool) l :
  (forall x, In x l -> f x = true) -> filter f l = l.
Proof.
  induction l as [|a l IH]; intros All; [reflexivity|].
  cbn [filter]. rewrite (All a (or_introl eq_refl)). f_equal.
  apply IH. intros x Hx. apply All. now right.
Qed.

Lemma filter_none {A} (f : A -> bool) l :
  (forall x, In x l -> f x = false) -> filter f l = [].
Proof.
  induction l as [|a l IH]; intros All; [reflexivity|].
  cbn [filter]. rewrite (All a (or_introl eq_refl)).
  apply IH. intros x Hx. apply All. now right.
Qed.

(** The entries of one peer in the listing made for another. *)
Lemma listing_of_one_peer (e : Engine) ps peerId peer other :
  NoDup (JsMap.keys ps) ->
  JsMap.get ps peerId = Some peer ->
  other <> peerId ->
  (forall id, In id (RoomJs.producers peer) ->
     exists p, JsMap.get (Mediasoup.e_producers e) id = Some p) ->
  map RoomJs.pr_producerId
    (filter (fun entry => keq (RoomJs.pr_peerId entry) peerId)
       (flat_map (fun entry =>
                    if keq (fst entry) other then []
                    else RoomJs.producerEntries e (fst entry) (snd entry))
                 ps))
  = RoomJs.producers peer.
Proof.
  intros ND G No Store.
  assert (Tail : forall l, ~ In peerId (JsMap.keys l) ->
            filter (fun entry => keq (RoomJs.pr_peerId entry) peerId)
              (flat_map (fun entry =>
                           if keq (fst entry) other then []
                           else RoomJs.producerEntries e (fst entry) (snd entry))
                        l) = []).
  { intros l Nin. apply filter_none. intros entry Hin.
    apply in_flat_map in Hin. destruct Hin as ([q x] & Hq & Hin). cbn [fst snd] in Hin.
    destruct (keq q other); [destruct Hin|].
    apply producerEntries_peerId in Hin. rewrite Hin. apply keq_false.
    intros ->. apply Nin. now apply (in_map fst) in Hq. }
  induction ps as [|[k x] ps IH]; [discriminate|].
  cbn [JsMap.keys map fst] in ND. inversion ND as [|? ? Hn ND']; subst.
  cbn [JsMap.get] in G. cbn [flat_map fst snd]. rewrite filter_app, map_app.
  destruct (keq peerId k) eqn:Ek.
  - apply keq_true in Ek. subst k. injection G as ->.
    rewrite (Tail ps Hn), app_nil_r.
    apply keq_false in No. rewrite keq_sym in No.
    rewrite No, filter_all.
    + now apply producerEntries_ids.
    + intros entry Hin. apply producerEntries_peerId in Hin. rewrite Hin.
      apply keq_refl.
  - rewrite (IH ND' G).
    assert (Hd : filter (fun entry => keq (RoomJs.pr_peerId entry) peerId)
                   (if keq k other then [] else RoomJs.producerEntries e k x) = []).
    { apply filter_none. intros entry Hin.
      destruct (keq k other); [destruct Hin|].
      apply producerEntries_peerId in Hin. rewrite Hin. now rewrite keq_sym. }
    now rewrite Hd.
Qed.

(** X22. What a Leave reports closed is what the others were shown: in
    a reachable state the reply to the Leave of a peer of the room lists
    the producers that [getProducers] listed for that peer to any other
    peer, in the same order. *)
Theorem leave_reports_the_listed_producers s roomId room peerId peer other :
  reachable s ->
  JsMap.get (rooms s) roomId = Some room ->
  JsMap.get (RoomJs.peers room) peerId = Some peer ->
  other <> peerId ->
  fst (handleRpcRequest (Leave roomId peerId) s)
  = Return (LeaveResult
              (map RoomJs.pr_producerId
                 (filter (fun entry => keq (RoomJs.pr_peerId entry) peerId)
                    (RoomJs.getProducersForPeer room (engine s) other)))).
Proof.
  intros R G P No.
  rewrite (leave_registered _ _ _ _ G). cbn [fst]. rewrite P. cbn [closedByRemove].
  destruct (reachable_consistent s R) as (_ & O).
  pose proof (O roomId room (JsMapFacts.get_Some_in _ _ _ G)) as Or.
  pose proof (sound_peers_NoDup s roomId room (reachable_sound s R) G) as ND.
  unfold RoomJs.getProducersForPeer.
  rewrite (listing_of_one_peer (engine s) (RoomJs.peers room) peerId peer other);
    auto.
  intros id Hid.
  destruct (Or peerId peer id (JsMapFacts.get_Some_in _ _ _ P) Hid) as (p & Gp & _).
  eauto.
Qed.

End Listing.

(** * Shutdown *)

Section ShutdownFacts.
Context `{Ortc}.
Import ServerJs.
Import Props.
Import Sound.
Import ShutdownJs.
Abbreviation Engine := Mediasoup.Engine.
Abbreviation Room := RoomJs.Room.

Lemma close_runs (room : Room) (e : Engine) :
  RoomJs.close (room, e) = (Return tt, (closedRoom room, storeAfterClose e room)).
Proof. reflexivity. Qed.

Lemma forEach_rooms l : forall s,
  forEach l (fun entry => call (fst entry) (snd entry) RoomJs.close) s
  = (Return tt,
     mkServer (workers s) (nextWorkerIdx s)
       (fold_left (fun rs entry => JsMap.set rs (fst entry) (closedRoom (snd entry)))
                  l (rooms s))
       (fold_left (fun e entry => storeAfterClose e (snd entry)) l (engine s))).
Proof.
  induction l as [|[r room] l IH]; intros s.
  - cbn [forEach fold_left]. unfold ret. now rewrite server_eta.
  - cbn [forEach fold_left fst snd]. unfold bind at 1. unfold call at 1.
    rewrite close_runs. now rewrite IH.
Qed.

Lemma forEach_workers l : forall s,
  forEach l (fun pid => bind getState
                          (fun s1 => setServerEngine (workerClose pid (engine s1)))) s
  = (Return tt,
     mkServer (workers s) (nextWorkerIdx s) (rooms s)
              (fold_left (fun e pid => workerClose pid e) l (engine s))).
Proof.
  induction l as [|pid l IH]; intros s.
  - cbn [forEach fold_left]. unfold ret. now rewrite server_eta.
  - cbn [forEach fold_left]. unfold bind at 1. unfold_js. now rewrite IH.
Qed.

Lemma shutdown_runs s :
  shutdown s
  = (Return tt,
     mkServer (workers s) (nextWorkerIdx s)
       (fold_left (fun rs entry => JsMap.set rs (fst entry) (closedRoom (snd entry)))
                  (rooms s) (rooms s))
       (fold_left (fun e pid => workerClose pid e) (workers s)
          (fold_left (fun e entry => storeAfterClose e (snd entry))
                     (rooms s) (engine s)))).
Proof.
  unfold shutdown. unfold bind at 1. unfold getState at 1. unfold bind at 1.
  rewrite forEach_rooms. now rewrite forEach_workers.
Qed.

(** *** The registry *)

Lemma get_fold_closed_other l : forall (rs : JsMap.t RoomId Room) r,
  ~ In r (JsMap.keys l) ->
  JsMap.get (fold_left (fun rs entry => JsMap.set rs (fst entry) (closedRoom (snd entry)))
                       l rs) r
  = JsMap.get rs r.
Proof.
  induction l as [|[k x] l IH]; intros rs r Nin; [reflexivity|].
  cbn [fold_left fst snd]. cbn [JsMap.keys map fst] in Nin.
  rewrite IH by (intros Hin; apply Nin; now right).
  apply JsMapFacts.get_set_other. intros ->. apply Nin. now left.
Qed.

Lemma get_fold_closed l : forall (rs : JsMap.t RoomId Room) r room,
  NoDup (JsMap.keys l) -> In (r, room) l ->
  JsMap.get (fold_left (fun rs entry => JsMap.set rs (fst entry) (closedRoom (snd entry)))
                       l rs) r
  = Some (closedRoom room).
Proof.
  induction l as [|[k x] l IH]; intros rs r room ND Hin; [destruct Hin|].
  cbn [JsMap.keys map fst] in ND. inversion ND as [|? ? Hn ND']; subst.
  cbn [fold_left fst snd]. destruct Hin as [E|Hin].
  - injection E as -> ->. rewrite get_fold_closed_other by exact Hn.
    apply JsMapFacts.get_set_same.
  - now apply IH.
Qed.

(** *** The store *)

Section Keep.
Variable P : Engine -> Prop.
Hypothesis KeepT : forall x e0, P e0 -> P (fst (Mediasoup.transportClose x e0)).
Hypothesis KeepR : forall x e0, P e0 -> P (Mediasoup.routerClose x e0).
Hypothesis KeepW : forall x e0, P e0 -> P (workerClosesRouter e0 x).

Lemma fold_peers_keep (l : list RoomJs.Peer) : forall e : Engine,
  P e ->
  P (fold_left (fun acc peer =>
                  snd (fold_left RoomJs.closePeerTransport (RoomJs.transports peer)
                                 (peer, acc)))
               l e).
Proof.
  induction l as [|peer l IH]; intros e Pe; [exact Pe|].
  cbn [fold_left]. apply IH.
  now apply (closePeerTransports_keep P (RoomJs.transports peer) (peer, e) KeepT).
Qed.

Lemma closeAllTransports_keep ps (e : Engine) :
  P e -> P (RoomJs.closeAllTransports e ps).
Proof. apply fold_peers_keep. Qed.

Lemma storeAfterClose_keep room (e : Engine) : P e -> P (storeAfterClose e room).
Proof. intros Pe. unfold storeAfterClose. now apply KeepR, closeAllTransports_keep. Qed.

Lemma fold_storeAfterClose_keep (l : list (RoomId * Room)) : forall e : Engine,
  P e -> P (fold_left (fun e entry => storeAfterClose e (snd entry)) l e).
Proof.
  induction l as [|entry l IH]; intros e Pe; [exact Pe|].
  cbn [fold_left]. now apply IH, storeAfterClose_keep.
Qed.

Lemma workerClose_keep pid (e : Engine) : P e -> P (workerClose pid e).
Proof.
  unfold workerClose.
  generalize (Mediasoup.idsWhere (openOnWorker pid) (Mediasoup.e_routers e)) as l.
  intros l. revert e. induction l as [|x l IH]; intros e Pe; [exact Pe|].
  cbn [fold_left]. now apply IH, KeepW.
Qed.

Lemma fold_workerClose_keep (l : list nat) : forall e : Engine,
  P e -> P (fold_left (fun e pid => workerClose pid e) l e).
Proof.
  induction l as [|pid l IH]; intros e Pe; [exact Pe|].
  cbn [fold_left]. now apply IH, workerClose_keep.
Qed.

End Keep.

(** Closing the rooms one by one reaches [Q] as soon as the transport
    [tid] of a peer of one of them comes up, when the closes before it
    keep [D] and the closes after it keep [Q]. *)
Section Reach.
Variables D Q : Engine -> Prop.
Variable tid : Id.
Hypothesis Hit : forall e0, D e0 -> Q (fst (Mediasoup.transportClose tid e0)).
Hypothesis MissT : forall x e0, D e0 -> D (fst (Mediasoup.transportClose x e0)).
Hypothesis MissR : forall x e0, D e0 -> D (Mediasoup.routerClose x e0).
Hypothesis KeepT : forall x e0, Q e0 -> Q (fst (Mediasoup.transportClose x e0)).
Hypothesis KeepR : forall x e0, Q e0 -> Q (Mediasoup.routerClose x e0).

Lemma closeAllTransports_reach (ps : JsMap.t PeerId RoomJs.Peer) q peer (e : Engine) :
  In (q, peer) ps -> In tid (RoomJs.transports peer) -> D e ->
  Q (RoomJs.closeAllTransports e ps).
Proof.
  intros Hq Ht. unfold RoomJs.closeAllTransports.
  assert (Hp : In peer (JsMap.values ps)).
  { unfold JsMap.values. now apply (in_map snd) in Hq. }
  revert Hp. generalize (JsMap.values ps) as l. intros l. revert e.
  induction l as [|peer0 l IH]; intros e Hp De; [destruct Hp|].
  cbn [fold_left]. destruct Hp as [->|Hp].
  - apply (fold_peers_keep Q KeepT).
    apply (closePeerTransports_reach D Q tid); auto.
  - apply IH; [exact Hp|].
    now apply (closePeerTransports_keep D (RoomJs.transports peer0) (peer0, e) MissT).
Qed.

Lemma fold_storeAfterClose_reach (l : list (RoomId * Room)) r room q peer :
  forall e : Engine,
  In (r, room) l -> In (q, peer) (RoomJs.peers room) ->
  In tid (RoomJs.transports peer) -> D e ->
  Q (fold_left (fun e entry => storeAfterClose e (snd entry)) l e).
Proof.
  intros e Hr Hq Ht. revert e.
  induction l as [|entry l IH]; intros e De; [destruct Hr|].
  cbn [fold_left]. destruct Hr as [->|Hr].
  - apply (fold_storeAfterClose_keep Q KeepT KeepR). cbn [snd].
    unfold storeAfterClose. apply KeepR.
    now apply (closeAllTransports_reach (RoomJs.peers room) q peer).
  - apply IH; [exact Hr|]. now apply (storeAfterClose_keep D MissT MissR).
Qed.

End Reach.

(** *** Transports, producers and consumers under the closes *)

Lemma routerClose_keeps_known x (e : Engine) id :
  (exists t, JsMap.get (Mediasoup.e_transports e) id = Some t) ->
  exists t, JsMap.get (Mediasoup.e_transports (Mediasoup.routerClose x e)) id = Some t.
Proof.
  intros K. unfold Mediasoup.routerClose. cbn [Mediasoup.e_transports].
  apply (MediasoupFacts.fold_transportClose_keeps
           (fun e0 => exists t, JsMap.get (Mediasoup.e_transports e0) id = Some t));
    [|exact K].
  intros y e0 (t & G). now apply (MediasoupFacts.transportClose_keeps_known y e0 id t).
Qed.

Lemma routerClose_due_producer x (e : Engine) tid id :
  producerDueOn e tid id -> producerDueOn (Mediasoup.routerClose x e) tid id.
Proof.
  intros D. unfold Mediasoup.routerClose, producerDueOn.
  cbn [Mediasoup.e_transports Mediasoup.e_producers].
  apply (MediasoupFacts.fold_transportClose_keeps
           (fun e0 => producerDueOn e0 tid id)); [|exact D].
  intros y e0. apply MediasoupFacts.transportClose_due_producer.
Qed.

Lemma routerClose_due_consumer x (e : Engine) tid id :
  consumerDueOn e tid id -> consumerDueOn (Mediasoup.routerClose x e) tid id.
Proof.
  intros D. unfold Mediasoup.routerClose, consumerDueOn.
  cbn [Mediasoup.e_transports Mediasoup.e_consumers].
  apply (MediasoupFacts.fold_transportClose_keeps
           (fun e0 => consumerDueOn e0 tid id)); [|exact D].
  intros y e0. apply MediasoupFacts.transportClose_due_consumer.
Qed.

Lemma workerClosesRouter_keeps_transport x (e : Engine) id :
  transportIsClosed e id -> transportIsClosed (workerClosesRouter e x) id.
Proof. intros C. now apply (MediasoupFacts.routerClose_keeps_transport x) in C. Qed.

Lemma workerClosesRouter_keeps_producer x (e : Engine) id :
  producerIsClosed e id -> producerIsClosed (workerClosesRouter e x) id.
Proof. intros C. now apply (MediasoupFacts.routerClose_keeps_producer x) in C. Qed.

Lemma workerClosesRouter_keeps_consumer x (e : Engine) id :
  consumerIsClosed e id -> consumerIsClosed (workerClosesRouter e x) id.
Proof. intros C. now apply (MediasoupFacts.routerClose_keeps_consumer x) in C. Qed.

(** *** Routers under the closes *)

Lemma closeAllTransports_routers ps (e : Engine) :
  Mediasoup.e_routers (RoomJs.closeAllTransports e ps) = Mediasoup.e_routers e /\
  Mediasoup.e_routerCloseCalls (RoomJs.closeAllTransports e ps)
  = Mediasoup.e_routerCloseCalls e.
Proof.
  apply (closeAllTransports_keep
           (fun e0 => Mediasoup.e_routers e0 = Mediasoup.e_routers e /\
                      Mediasoup.e_routerCloseCalls e0 = Mediasoup.e_routerCloseCalls e));
    [|auto].
  intros x e0 (A & B).
  now rewrite MediasoupFacts.transportClose_routers, MediasoupFacts.transportClose_calls.
Qed.

Lemma storeAfterClose_calls (e : Engine) room :
  Mediasoup.e_routerCloseCalls (storeAfterClose e room)
  = RoomJs.router room :: Mediasoup.e_routerCloseCalls e.
Proof.
  unfold storeAfterClose. rewrite MediasoupFacts.routerClose_calls.
  now destruct (closeAllTransports_routers (RoomJs.peers room) e) as (_ & ->).
Qed.

Lemma storeAfterClose_routers (e : Engine) room :
  Mediasoup.e_routers (storeAfterClose e room)
  = match JsMap.get (Mediasoup.e_routers e) (RoomJs.router room) with
    | Some r => JsMap.set (Mediasoup.e_routers e) (RoomJs.router room)
                          (Mediasoup.closeRouter r)
    | None => Mediasoup.e_routers e
    end.
Proof.
  unfold storeAfterClose. rewrite SoundFacts.routerClose_routers.
  now destruct (closeAllTransports_routers (RoomJs.peers room) e) as (-> & _).
Qed.

Lemma count_calls_fold (l : list (RoomId * Room)) : forall (e : Engine) id,
  count_occ Nat.eq_dec
    (Mediasoup.e_routerCloseCalls
       (fold_left (fun e entry => storeAfterClose e (snd entry)) l e)) id
  = count_occ Nat.eq_dec (map (fun entry => RoomJs.router (snd entry)) l) id
    + count_occ Nat.eq_dec (Mediasoup.e_routerCloseCalls e) id.
Proof.
  induction l as [|[r room] l IH]; intros e id; [reflexivity|].
  cbn [fold_left map snd]. rewrite IH, storeAfterClose_calls. cbn [count_occ].
  destruct (Nat.eq_dec (RoomJs.router room) id); lia.
Qed.

(** A closed router stays closed, and a router stays in the store. *)
Lemma storeAfterClose_router_closed (e : Engine) room id :
  (exists r, JsMap.get (Mediasoup.e_routers e) id = Some r /\
             Mediasoup.router_closed r = true) ->
  exists r, JsMap.get (Mediasoup.e_routers (storeAfterClose e room)) id = Some r /\
            Mediasoup.router_closed r = true.
Proof.
  intros (r & G & C). rewrite storeAfterClose_routers.
  destruct (JsMap.get (Mediasoup.e_routers e) (RoomJs.router room)) as [r0|] eqn:G0;
    [|eauto].
  destruct (Nat.eq_dec id (RoomJs.router room)) as [->|N].
  - rewrite JsMapFacts.get_set_same. eexists. split; reflexivity.
  - rewrite JsMapFacts.get_set_other by exact N. eauto.
Qed.

Lemma storeAfterClose_has (e : Engine) room id :
  JsMap.has (Mediasoup.e_routers (storeAfterClose e room)) id
  = JsMap.has (Mediasoup.e_routers e) id.
Proof.
  unfold storeAfterClose. rewrite MediasoupFacts.routerClose_has_router.
  now destruct (closeAllTransports_routers (RoomJs.peers room) e) as (-> & _).
Qed.

Lemma storeAfterClose_closes_router (e : Engine) room :
  JsMap.has (Mediasoup.e_routers e) (RoomJs.router room) = true ->
  exists r, JsMap.get (Mediasoup.e_routers (storeAfterClose e room))
                      (RoomJs.router room) = Some r /\
            Mediasoup.router_closed r = true.
Proof.
  intros Hs. apply JsMapFacts.has_get in Hs. destruct Hs as (r0 & G0).
  rewrite storeAfterClose_routers, G0, JsMapFacts.get_set_same.
  eexists. split; reflexivity.
Qed.

Lemma fold_storeAfterClose_has (l : list (RoomId * Room)) : forall (e : Engine) id,
  JsMap.has (Mediasoup.e_routers
               (fold_left (fun e entry => storeAfterClose e (snd entry)) l e)) id
  = JsMap.has (Mediasoup.e_routers e) id.
Proof.
  induction l as [|entry l IH]; intros e id; [reflexivity|].
  cbn [fold_left]. now rewrite IH, storeAfterClose_has.
Qed.

Lemma fold_storeAfterClose_router_closed (l : list (RoomId * Room)) :
  forall (e : Engine) id,
  (exists r, JsMap.get (Mediasoup.e_routers e) id = Some r /\
             Mediasoup.router_closed r = true) ->
  exists r, JsMap.get (Mediasoup.e_routers
                         (fold_left (fun e entry => storeAfterClose e (snd entry)) l e))
                      id = Some r /\
            Mediasoup.router_closed r = true.
Proof.
  induction l as [|entry l IH]; intros e id C; [exact C|].
  cbn [fold_left]. now apply IH, storeAfterClose_router_closed.
Qed.

Lemma fold_storeAfterClose_closes_router (l : list (RoomId * Room)) r room :
  forall e : Engine,
  In (r, room) l ->
  JsMap.has (Mediasoup.e_routers e) (RoomJs.router room) = true ->
  exists rt, JsMap.get (Mediasoup.e_routers
                          (fold_left (fun e entry => storeAfterClose e (snd entry)) l e))
                       (RoomJs.router room) = Some rt /\
             Mediasoup.router_closed rt = true.
Proof.
  intros e Hin. revert e.
  induction l as [|entry l IH]; intros e Hs; [destruct Hin|].
  cbn [fold_left]. destruct Hin as [->|Hin].
  - apply fold_storeAfterClose_router_closed. cbn [snd].
    now apply storeAfterClose_closes_router.
  - apply IH; [exact Hin|]. now rewrite storeAfterClose_has.
Qed.

(** What [worker.close()] does to the routers and to the log. *)
Lemma workerClosesRouter_routers x (e : Engine) :
  Mediasoup.e_routerCloseCalls (workerClosesRouter e x) = Mediasoup.e_routerCloseCalls e /\
  (forall id, JsMap.has (Mediasoup.e_routers (workerClosesRouter e x)) id
              = JsMap.has (Mediasoup.e_routers e) id) /\
  (forall id,
     (exists r, JsMap.get (Mediasoup.e_routers e) id = Some r /\
                Mediasoup.router_closed r = true) ->
     exists r, JsMap.get (Mediasoup.e_routers (workerClosesRouter e x)) id = Some r /\
               Mediasoup.router_closed r = true).
Proof.
  unfold workerClosesRouter. cbn [Mediasoup.e_routerCloseCalls Mediasoup.e_routers].
  split; [reflexivity|]. split.
  - intros id. apply MediasoupFacts.routerClose_has_router.
  - intros id (r & G & C). rewrite SoundFacts.routerClose_routers.
    destruct (JsMap.get (Mediasoup.e_routers e) x) as [r0|] eqn:G0; [|eauto].
    destruct (Nat.eq_dec id x) as [->|N].
    + rewrite JsMapFacts.get_set_same. eexists. split; reflexivity.
    + rewrite JsMapFacts.get_set_other by exact N. eauto.
Qed.

Lemma NoDup_map_on {A B} (f : A -> B) (l : list A) :
  NoDup l ->
  (forall x y, In x l -> In y l -> f x = f y -> x = y) ->
  NoDup (map f l).
Proof.
  induction l as [|a l IH]; intros ND Inj; cbn [map]; [constructor|].
  inversion ND as [|? ? Hn ND']; subst. constructor.
  - intros Hin. apply in_map_iff in Hin. destruct Hin as (x & E & Hx).
    apply Hn. rewrite <- (Inj x a); auto; [now right | now left].
  - apply IH; [exact ND'|]. intros x y Hx Hy. apply Inj; now right.
Qed.

(** X23. [shutdown] from a reachable state leaves nothing open: it
    returns, every room stays registered with its router and no peer,
    every transport, producer and consumer a peer held is closed, and
    every router of the store is closed, with no more than one call of
    [close()] on it. *)
Theorem shutdown_closes_everything s :
  reachable s ->
  let s' := snd (shutdown s) in
  fst (shutdown s) = Return tt /\
  (forall roomId room, JsMap.get (rooms s) roomId = Some room ->
     JsMap.get (rooms s') roomId = Some (closedRoom room)) /\
  (forall roomId room peerId peer,
     JsMap.get (rooms s) roomId = Some room ->
     JsMap.get (RoomJs.peers room) peerId = Some peer ->
     (forall id, In id (RoomJs.transports peer) -> transportIsClosed (engine s') id) /\
     (forall id, In id (RoomJs.producers peer) -> producerIsClosed (engine s') id) /\
     (forall id, In id (RoomJs.consumers peer) -> consumerIsClosed (engine s') id)) /\
  (forall id, JsMap.has (Mediasoup.e_routers (engine s')) id = true ->
     (exists r, JsMap.get (Mediasoup.e_routers (engine s')) id = Some r /\
                Mediasoup.router_closed r = true) /\
     count_occ Nat.eq_dec (Mediasoup.e_routerCloseCalls (engine s')) id <= 1).
Proof.
  intros R s'. subst s'. rewrite shutdown_runs. cbn [fst snd rooms engine].
  destruct (reachable_sound s R) as (_ & (ND & K) & R1 & R2 & R3 & R4).
  destruct (reachable_owned s R) as (_ & O).
  destruct (reachable_placed s R) as (_ & _ & Pl).
  split; [reflexivity|]. split; [|split].
  - intros r room G. apply get_fold_closed; [exact ND|].
    now apply JsMapFacts.get_Some_in.
  - intros r room q peer G P.
    apply JsMapFacts.get_Some_in in G. apply JsMapFacts.get_Some_in in P.
    destruct (Pl r room q peer G P) as (Pp & Pc).
    split; [|split].
    + intros tid Ht.
      apply (fold_workerClose_keep (fun e0 => transportIsClosed e0 tid)).
      { intros. now apply workerClosesRouter_keeps_transport. }
      destruct (O r room q peer tid G P Ht) as (t & Gt & _).
      apply (fold_storeAfterClose_reach
               (fun e0 => exists t0, JsMap.get (Mediasoup.e_transports e0) tid = Some t0)
               (fun e0 => transportIsClosed e0 tid) tid) with r room q peer; eauto.
      * intros e0 (t0 & G0). now apply (MediasoupFacts.transportClose_closes _ _ _ G0).
      * intros x e0 (t0 & G0).
        now apply (MediasoupFacts.transportClose_keeps_known _ _ _ _ G0).
      * intros. now apply routerClose_keeps_known.
      * intros. now apply MediasoupFacts.transportClose_keeps_transport.
      * intros. now apply MediasoupFacts.routerClose_keeps_transport.
    + intros id Hid. destruct (Pp id Hid) as (tid & Ht & Due).
      apply (fold_workerClose_keep (fun e0 => producerIsClosed e0 id)).
      { intros. now apply workerClosesRouter_keeps_producer. }
      apply (fold_storeAfterClose_reach
               (fun e0 => producerDueOn e0 tid id)
               (fun e0 => producerIsClosed e0 id) tid) with r room q peer; auto.
      * intros. now apply MediasoupFacts.transportClose_reaches_producer.
      * intros. now apply MediasoupFacts.transportClose_due_producer.
      * intros. now apply routerClose_due_producer.
      * intros. now apply MediasoupFacts.transportClose_keeps_producer.
      * intros. now apply MediasoupFacts.routerClose_keeps_producer.
    + intros id Hid. destruct (Pc id Hid) as (tid & Ht & Due).
      apply (fold_workerClose_keep (fun e0 => consumerIsClosed e0 id)).
      { intros. now apply workerClosesRouter_keeps_consumer. }
      apply (fold_storeAfterClose_reach
               (fun e0 => consumerDueOn e0 tid id)
               (fun e0 => consumerIsClosed e0 id) tid) with r room q peer; auto.
      * intros. now apply MediasoupFacts.transportClose_reaches_consumer.
      * intros. now apply MediasoupFacts.transportClose_due_consumer.
      * intros. now apply routerClose_due_consumer.
      * intros. now apply MediasoupFacts.transportClose_keeps_consumer.
      * intros. now apply MediasoupFacts.routerClose_keeps_consumer.
  - intros id Hid.
    match goal with
    | |- _ /\ count_occ _ (Mediasoup.e_routerCloseCalls ?e) _ <= 1 =>
        enough (Once : routerClosedOnce e id)
          by (destruct Once as (Cl & Cnt); split; [exact Cl | now rewrite Cnt])
    end.
    set (E1 := fold_left (fun e entry => storeAfterClose e (snd entry))
                         (rooms s) (engine s)) in *.
    assert (Hs : JsMap.has (Mediasoup.e_routers (engine s)) id = true).
    { rewrite <- (fold_storeAfterClose_has (rooms s) (engine s) id). fold E1.
      revert Hid.
      apply (fold_workerClose_keep
               (fun e0 => JsMap.has (Mediasoup.e_routers e0) id = true ->
                          JsMap.has (Mediasoup.e_routers E1) id = true));
        [|auto].
      intros x e0 IH Hx. apply IH.
      destruct (workerClosesRouter_routers x e0) as (_ & Eh & _).
      now rewrite <- Eh. }
    assert (Once1 : routerClosedOnce E1 id).
    { assert (NDr : NoDup (map (fun entry : RoomId * Room => RoomJs.router (snd entry))
                               (rooms s))).
      { apply NoDup_map_on.
        - now apply NoDup_map_inv in ND.
        - intros [k1 y1] [k2 y2] H1 H2 E. cbn [snd] in E.
          apply (JsMapFacts.in_get_NoDup _ _ _ ND) in H1.
          apply (JsMapFacts.in_get_NoDup _ _ _ ND) in H2.
          assert (k1 = k2) as -> by now apply (R2 k1 k2 y1 y2).
          congruence. }
      unfold routerClosedOnce. subst E1. rewrite count_calls_fold.
      destruct (R3 id Hs) as (_ & [(k & y & Gk & Ek) | (Cl & Cnt)]).
      - split.
        + rewrite <- Ek. apply (fold_storeAfterClose_closes_router _ k y).
          * now apply JsMapFacts.get_Some_in.
          * now rewrite Ek.
        + destruct (R1 _ _ Gk) as (_ & Nc). rewrite Ek in Nc.
          apply (count_occ_not_In Nat.eq_dec) in Nc. rewrite Nc, Nat.add_0_r.
          apply NoDup_count_occ'; [exact NDr|].
          apply in_map_iff. exists (k, y). split; [exact Ek|].
          now apply JsMapFacts.get_Some_in.
      - split; [now apply fold_storeAfterClose_router_closed|].
        rewrite Cnt.
        assert (Z : count_occ Nat.eq_dec
                      (map (fun entry : RoomId * Room => RoomJs.router (snd entry))
                           (rooms s)) id = 0).
        { apply count_occ_not_In. intros Hin. apply in_map_iff in Hin.
          destruct Hin as ([k y] & Ek & Hk). cbn [snd] in Ek.
          apply (JsMapFacts.in_get_NoDup _ _ _ ND) in Hk.
          destruct (R1 _ _ Hk) as (_ & Nc). rewrite Ek in Nc.
          apply (count_occ_not_In Nat.eq_dec) in Nc. lia. }
        now rewrite Z. }
    revert Once1.
    apply (fold_workerClose_keep (fun e0 => routerClosedOnce E1 id ->
                                            routerClosedOnce e0 id)); [|auto].
    intros x e0 IH Once. specialize (IH Once). destruct IH as (Cl & Cnt).
    destruct (workerClosesRouter_routers x e0) as (Ec & _ & Kc).
    split; [now apply Kc | now rewrite Ec].
Qed.


End ShutdownFacts.

(** * The controls of the client *)

Section ClientControls.
Import RibbonRTC.

Lemma onProducer_set kind f c p :
  JsMap.get (_producers c) kind = Some p ->
  onProducer kind f c
  = mkClient (JsMap.set (_producers c) kind (f p)) (_screenStream c) (emitted c).
Proof. intros G. unfold onProducer. now rewrite G. Qed.

Lemma client_eta c : mkClient (_producers c) (_screenStream c) (emitted c) = c.
Proof. now destruct c. Qed.

(** A toggle on an open producer, in one equation. *)
Lemma toggle_open (mic : bool) c p :
  JsMap.get (_producers c) (if mic then "audio" else "video") = Some p ->
  producer_closed p = false ->
  (if mic then toggleMic else toggleCamera) c
  = (producer_paused p,
     mkClient (JsMap.set (_producers c) (if mic then "audio" else "video")
                 (mkProducer (producer_id p) (negb (producer_paused p)) false))
              (_screenStream c)
              (emitted c ++ [if producer_paused p
                             then EmitResumeProducer (producer_id p)
                             else EmitPauseProducer (producer_id p)])).
Proof.
  intros G C.
  destruct mic; unfold toggleMic, toggleCamera; rewrite G;
    destruct (producer_paused p); rewrite (onProducer_set _ _ _ _ G);
    unfold pause, resume; rewrite C; reflexivity.
Qed.

(** X24. With an open audio (video) producer, [toggleMic]
    ([toggleCamera]) flips it: the value returned is the negation of
    what [isMicEnabled] ([isCameraEnabled]) said before and is what it
    says afterwards, one message goes out that names the producer,
    [resumeProducer] when the result is true and [pauseProducer] when it
    is false, and the producers of the other kinds are untouched. A
    second toggle returns the opposite and puts the producers back as
    they were. *)
Theorem toggle_flips_the_producer (mic : bool) c p :
  let kind := if mic then "audio" else "video" in
  let toggle := if mic then toggleMic else toggleCamera in
  let isEnabled := if mic then isMicEnabled else isCameraEnabled in
  JsMap.get (_producers c) kind = Some p ->
  producer_closed p = false ->
  let on := fst (toggle c) in
  let c' := snd (toggle c) in
  on = negb (truthy (isEnabled c)) /\
  isEnabled c' = Some on /\
  emitted c' = emitted c ++ [if on then EmitResumeProducer (producer_id p)
                             else EmitPauseProducer (producer_id p)] /\
  (forall other, other <> kind ->
     JsMap.get (_producers c') other = JsMap.get (_producers c) other) /\
  fst (toggle c') = negb on /\
  _producers (snd (toggle c')) = _producers c.
Proof.
  cbv zeta. intros G C.
  assert (Ei : forall c0, (if mic then isMicEnabled else isCameraEnabled) c0
                          = match JsMap.get (_producers c0)
                                            (if mic then "audio" else "video") with
                            | Some p0 => Some (negb (producer_paused p0))
                            | None => None
                            end).
  { intros c0. now destruct mic. }
  rewrite (toggle_open mic c p G C). cbn [fst snd].
  match goal with
  | |- context [(if mic then toggleMic else toggleCamera) (mkClient ?m ?ss ?em)] =>
      rewrite (toggle_open mic (mkClient m ss em) _
                 (JsMapFacts.get_set_same _ _ _) eq_refl)
  end.
  rewrite !Ei, G.
  cbn [fst snd _producers emitted producer_paused producer_id truthy].
  rewrite JsMapFacts.get_set_same. cbn [producer_paused].
  rewrite !Bool.negb_involutive.
  split; [reflexivity|]. split; [reflexivity|]. split; [reflexivity|].
  split; [intros other N; now apply JsMapFacts.get_set_other|].
  split; [reflexivity|].
  rewrite JsMapFacts.set_set_same. apply JsMapFacts.set_same. rewrite G.
  f_equal. destruct p as [i pa cl]. cbn in *. now subst.
Qed.

(** [stopScreen] in one equation. *)
Lemma stopScreen_eq c :
  stopScreen c
  = mkClient (JsMap.delete (_producers c) "screen") false
             (emitted c ++ match JsMap.get (_producers c) "screen" with
                           | Some producer => [EmitCloseProducer (producer_id producer)]
                           | None => []
                           end).
Proof.
  unfold stopScreen, emit.
  destruct (JsMap.get (_producers c) "screen") as [producer|] eqn:G;
    cbn [_producers _screenStream emitted].
  - now destruct (_screenStream c).
  - rewrite (JsMapFacts.delete_absent _ _ G), app_nil_r.
    destruct (_screenStream c) eqn:S; [reflexivity|].
    rewrite <- S. now rewrite client_eta.
Qed.

(** X25. After [stopScreen] the client shares no screen and has no
    screen stream; a [closeProducer] naming the screen producer went out
    if there was one, and nothing otherwise; the other producers are
    untouched; and a second [stopScreen] changes nothing. *)
Theorem stopScreen_stops_and_is_idempotent c :
  let c' := stopScreen c in
  isScreenSharing c' = false /\
  _screenStream c' = false /\
  emitted c'
  = emitted c ++ match JsMap.get (_producers c) "screen" with
                 | Some producer => [EmitCloseProducer (producer_id producer)]
                 | None => []
                 end /\
  (forall kind, kind <> "screen" ->
     JsMap.get (_producers c') kind = JsMap.get (_producers c) kind) /\
  stopScreen c' = c'.
Proof.
  intros c'. subst c'. rewrite !stopScreen_eq.
  cbn [_producers _screenStream emitted]. unfold isScreenSharing, JsMap.has.
  cbn [_producers]. rewrite !JsMapFacts.get_delete_same.
  split; [reflexivity|]. split; [reflexivity|]. split; [reflexivity|].
  split; [intros kind N; now apply JsMapFacts.get_delete_other|].
  rewrite app_nil_r. f_equal.
  apply JsMapFacts.delete_absent, JsMapFacts.get_delete_same.
Qed.

End ClientControls.

(** * What a peer holds is open *)

Module OpenFacts.
Section Store.
Context `{Ortc}.
Import Mediasoup.
Import Props.
Import Open.

Lemma keepsOpen_refl e : keepsOpen e e.
Proof. intros A B. auto. Qed.

Lemma keepsOpen_trans e1 e2 e3 : keepsOpen e1 e2 -> keepsOpen e2 e3 -> keepsOpen e1 e3.
Proof.
  intros K12 K23 A1 B1. destruct (K12 A1 B1) as (A2 & B2 & P12 & C12).
  destruct (K23 A2 B2) as (A3 & B3 & P23 & C23). repeat split; auto.
Qed.

(** Producers and consumers untouched. *)
Lemma keepsOpen_same e e' :
  e_producers e' = e_producers e -> e_consumers e' = e_consumers e ->
  e_nextId e <= e_nextId e' -> keepsOpen e e'.
Proof.
  intros Ep Ec Le A B. split; [|split; [|split]].
  - intros id p G. rewrite Ep in G. apply A in G. lia.
  - intros id c G. rewrite Ec in G. apply B in G. lia.
  - intros id. unfold producerOpen. now rewrite Ep.
  - intros id. unfold consumerOpen. now rewrite Ec.
Qed.

Lemma createRouter_keepsOpen pid e : keepsOpen e (snd (createRouter pid e)).
Proof. apply keepsOpen_same; cbn; auto. Qed.

Lemma createWebRtcTransport_keepsOpen r p e x e' :
  createWebRtcTransport r p e = Some (x, e') -> keepsOpen e e'.
Proof.
  unfold createWebRtcTransport. intros E.
  destruct (JsMap.get (e_routers e) r) as [rt|]; [|discriminate].
  destruct (router_closed rt); [discriminate|]. injection E as _ <-.
  apply keepsOpen_same; cbn; auto.
Qed.

Lemma markConsuming_keepsOpen t e : keepsOpen e (markConsuming t e).
Proof.
  unfold markConsuming.
  destruct (JsMap.get (e_transports e) t);
    [apply keepsOpen_same; cbn; auto | apply keepsOpen_refl].
Qed.

Lemma connect_keepsOpen t e e' : connect t e = Some e' -> keepsOpen e e'.
Proof.
  unfold connect. intros E.
  destruct (JsMap.get (e_transports e) t) as [tr|]; [|discriminate].
  destruct (transport_closed tr || transport_connected tr); [discriminate|].
  injection E as <-. apply keepsOpen_same; cbn; auto.
Qed.

Lemma produce_keepsOpen t k rtp ad e x e' :
  produce t k rtp ad e = Some (x, e') -> keepsOpen e e'.
Proof.
  intros E A B.
  pose proof (MediasoupFacts.produce_grows _ _ _ _ _ _ _ E A) as ((Le & _) & A').
  destruct (MediasoupFacts.produce_creates _ _ _ _ _ _ _ E) as (-> & En & Ep).
  assert (Ec : e_consumers e' = e_consumers e).
  { revert E. unfold produce.
    destruct (JsMap.get (e_transports e) t) as [tr|]; [|discriminate].
    destruct (transport_closed tr || collides t rtp e); [discriminate|].
    intros E. now injection E as <-. }
  split; [exact A'|]. split; [|split].
  - intros id c G. rewrite Ec in G. apply B in G. lia.
  - intros id (p & G & C). exists p. rewrite Ep.
    rewrite JsMapFacts.get_set_other; [auto|]. apply A in G. lia.
  - intros id. unfold consumerOpen. now rewrite Ec.
Qed.

Lemma produce_opens t k rtp ad e id e' :
  produce t k rtp ad e = Some (id, e') -> producerOpen e' id.
Proof.
  intros E. destruct (MediasoupFacts.produce_creates _ _ _ _ _ _ _ E) as (_ & _ & Ep).
  eexists. rewrite Ep, JsMapFacts.get_set_same. split; reflexivity.
Qed.

Lemma consume_keepsOpen t p caps paused e x e' :
  consume t p caps paused e = Some (x, e') -> keepsOpen e e'.
Proof.
  intros E A B. destruct x as [id c].
  destruct (MediasoupFacts.consume_creates _ _ _ _ _ _ _ _ E) as (-> & Ec & _).
  pose proof (MediasoupFacts.consume_grows _ _ _ _ _ _ _ E A) as ((Le & _) & A').
  assert (En : e_nextId e' = S (e_nextId e) /\ e_producers e' = e_producers e).
  { revert E. unfold consume.
    destruct (JsMap.get (e_transports e) t) as [tr|]; [|discriminate].
    destruct (transport_closed tr); [discriminate|].
    destruct (routerProducer (transport_routerId tr) p e) as [pr|]; [|discriminate].
    destruct (ortc_canConsume (producer_rtpParameters pr) caps); [|discriminate].
    intros E. injection E as _ <-. cbn. auto. }
  destruct En as (En & Ep).
  split; [exact A'|]. split; [|split].
  - intros id c0 G. rewrite Ec in G. rewrite En.
    destruct (Nat.eq_dec id (e_nextId e)) as [->|N]; [lia|].
    rewrite JsMapFacts.get_set_other in G by exact N. apply B in G. lia.
  - intros id. unfold producerOpen. now rewrite Ep.
  - intros id (c0 & G & C). exists c0. rewrite Ec.
    rewrite JsMapFacts.get_set_other; [auto|]. apply B in G. lia.
Qed.

Lemma consume_opens t p caps paused e id c e' :
  consume t p caps paused e = Some (id, c, e') -> consumerOpen e' id.
Proof.
  intros E.
  destruct (MediasoupFacts.consume_creates _ _ _ _ _ _ _ _ E) as (_ & Ec & _ & _ & _ & C).
  exists c. rewrite Ec, JsMapFacts.get_set_same. auto.
Qed.

Lemma updateProducer_keepsOpen id f e e' :
  (forall p, producer_closed (f p) = producer_closed p) ->
  updateProducer id f e = Some e' -> keepsOpen e e'.
Proof.
  unfold updateProducer. intros Keep E A B.
  destruct (JsMap.get (e_producers e) id) as [p0|] eqn:G0; [|discriminate].
  destruct (producer_closed p0) eqn:C0; [discriminate|]. injection E as <-.
  cbn [e_producers e_consumers e_nextId]. split; [|split; [exact B|split]].
  - intros id' p G. cbn [e_producers e_nextId] in *.
    destruct (Nat.eq_dec id' id) as [->|N]; [now apply A in G0|].
    rewrite JsMapFacts.get_set_other in G by exact N. now apply A in G.
  - intros id' (p & G & C). unfold producerOpen. cbn [e_producers].
    destruct (Nat.eq_dec id' id) as [->|N].
    + rewrite JsMapFacts.get_set_same. exists (f p0). split; [reflexivity|].
      now rewrite Keep.
    + rewrite JsMapFacts.get_set_other by exact N. eauto.
  - intros id' Op. exact Op.
Qed.

Lemma producerPause_keepsOpen id e e' : producerPause id e = Some e' -> keepsOpen e e'.
Proof. apply updateProducer_keepsOpen. reflexivity. Qed.

Lemma producerResume_keepsOpen id e e' : producerResume id e = Some e' -> keepsOpen e e'.
Proof. apply updateProducer_keepsOpen. reflexivity. Qed.

Lemma updateConsumer_keepsOpen id f e e' :
  (forall c, consumer_closed (f c) = consumer_closed c) ->
  updateConsumer id f e = Some e' -> keepsOpen e e'.
Proof.
  unfold updateConsumer. intros Keep E A B.
  destruct (JsMap.get (e_consumers e) id) as [c0|] eqn:G0; [|discriminate].
  destruct (consumer_closed c0) eqn:C0; [discriminate|]. injection E as <-.
  cbn [e_producers e_consumers e_nextId]. split; [exact A|split; [|split]].
  - intros id' c G. cbn [e_consumers e_nextId] in *.
    destruct (Nat.eq_dec id' id) as [->|N]; [now apply B in G0|].
    rewrite JsMapFacts.get_set_other in G by exact N. now apply B in G.
  - intros id' Op. exact Op.
  - intros id' (c & G & C). unfold consumerOpen. cbn [e_consumers].
    destruct (Nat.eq_dec id' id) as [->|N].
    + rewrite JsMapFacts.get_set_same. exists (f c0). split; [reflexivity|].
      now rewrite Keep.
    + rewrite JsMapFacts.get_set_other by exact N. eauto.
Qed.

Lemma consumerResume_keepsOpen id e e' : consumerResume id e = Some e' -> keepsOpen e e'.
Proof. apply updateConsumer_keepsOpen. reflexivity. Qed.

Lemma consumerSetPreferredLayers_keepsOpen id l e e' :
  consumerSetPreferredLayers id l e = Some e' -> keepsOpen e e'.
Proof. apply updateConsumer_keepsOpen. reflexivity. Qed.

(** *** The calls that close *)

(** [transport.close()] closes the producers and consumers on the
    transport, and no other. *)
Lemma transportClose_spares_producer x e id p :
  JsMap.get (e_producers e) id = Some p ->
  producer_closed p = false ->
  producer_transportId p <> x ->
  JsMap.get (e_producers (fst (transportClose x e))) id = Some p.
Proof.
  intros G C N.
  destruct (MediasoupFacts.transportClose_cases x e) as [[-> _] | (t & _ & _ & ->)];
    cbn [fst]; [exact G|].
  cbn [e_producers]. rewrite MediasoupFacts.get_updateWhere, G. cbn [option_map].
  unfold producerOn. apply Nat.eqb_neq in N. now rewrite N.
Qed.

Lemma transportClose_spares_consumer x e id c :
  JsMap.get (e_consumers e) id = Some c ->
  consumer_closed c = false ->
  consumer_transportId c <> x ->
  JsMap.get (e_consumers (fst (transportClose x e))) id = Some c.
Proof.
  intros G C N.
  destruct (MediasoupFacts.transportClose_cases x e) as [[-> _] | (t & _ & _ & ->)];
    cbn [fst]; [exact G|].
  cbn [e_consumers]. rewrite MediasoupFacts.get_updateWhere, G. cbn [option_map].
  unfold consumerOn. apply Nat.eqb_neq in N. now rewrite N.
Qed.

(** What [transport.close()] reports closed is what was open on it. *)
Lemma transportClose_reports_producer x e id p :
  JsMap.get (e_producers e) id = Some p ->
  producer_closed p = false ->
  producer_transportId p = x ->
  (exists t, JsMap.get (e_transports e) x = Some t /\ transport_closed t = false) ->
  In id (fst (snd (transportClose x e))).
Proof.
  intros G C T (t & Gt & Ct). unfold transportClose. rewrite Gt, Ct. cbn [fst snd].
  unfold idsWhere, JsMap.keys. apply in_map_iff. exists (id, p). split; [reflexivity|].
  apply filter_In. split; [now apply JsMapFacts.get_Some_in|].
  cbn [snd]. unfold producerOn. now rewrite T, Nat.eqb_refl, C.
Qed.

Lemma transportClose_reports_consumer x e id c :
  JsMap.get (e_consumers e) id = Some c ->
  consumer_closed c = false ->
  consumer_transportId c = x ->
  (exists t, JsMap.get (e_transports e) x = Some t /\ transport_closed t = false) ->
  In id (snd (snd (transportClose x e))).
Proof.
  intros G C T (t & Gt & Ct). unfold transportClose. rewrite Gt, Ct. cbn [fst snd].
  unfold idsWhere, JsMap.keys. apply in_map_iff. exists (id, c). split; [reflexivity|].
  apply filter_In. split; [now apply JsMapFacts.get_Some_in|].
  cbn [snd]. unfold consumerOn. now rewrite T, Nat.eqb_refl, C.
Qed.

End Store.
End OpenFacts.

Create HintDb open.

#[export] Hint Resolve
  OpenFacts.keepsOpen_refl
  OpenFacts.createRouter_keepsOpen
  OpenFacts.createWebRtcTransport_keepsOpen
  OpenFacts.markConsuming_keepsOpen
  OpenFacts.connect_keepsOpen
  OpenFacts.produce_keepsOpen
  OpenFacts.consume_keepsOpen
  OpenFacts.producerPause_keepsOpen
  OpenFacts.producerResume_keepsOpen
  OpenFacts.consumerResume_keepsOpen
  OpenFacts.consumerSetPreferredLayers_keepsOpen : open.

Ltac solve_keepsOpen :=
  solve [ eauto with open
        | eapply OpenFacts.keepsOpen_trans;
          [ | apply OpenFacts.markConsuming_keepsOpen ]; eauto with open ].

Section HeldOpen.
Context `{Ortc}.
Import ServerJs.
Import Props.
Import Sound.
Import Open.
Abbreviation Engine := Mediasoup.Engine.
Abbreviation Room := RoomJs.Room.

Lemma holdsEvolve_refl (e' : Engine) ps : holdsEvolve e' ps ps.
Proof. intros q peer Hq. split; intros id Hid; left; eauto. Qed.

Lemma holdsEvolve_set (e' : Engine) ps q peer peer' :
  JsMap.get ps q = Some peer ->
  (forall id, In id (RoomJs.producers peer') ->
     In id (RoomJs.producers peer) \/ producerOpen e' id) ->
  (forall id, In id (RoomJs.consumers peer') ->
     In id (RoomJs.consumers peer) \/ consumerOpen e' id) ->
  holdsEvolve e' ps (JsMap.set ps q peer').
Proof.
  intros G Pp Pc q' peer'' Hq.
  apply JsMapFacts.in_set in Hq. destruct Hq as [E | Hq].
  - injection E as -> ->. apply JsMapFacts.get_Some_in in G.
    split; intros id Hid; [destruct (Pp id Hid) | destruct (Pc id Hid)]; eauto.
  - split; intros id Hid; left; eauto.
Qed.

Lemma holdsEvolve_join (e' : Engine) ps q name :
  holdsEvolve e' ps (JsMap.set ps q (RoomJs.mkPeer name [] [] [])).
Proof.
  intros q' peer'' Hq.
  apply JsMapFacts.in_set in Hq. destruct Hq as [E | Hq].
  - injection E as -> ->. split; intros id [].
  - split; intros id Hid; left; eauto.
Qed.

Lemma heldOpen_changed_store s idx' rs (e' : Engine) :
  heldOpen s ->
  producersAllocated (engine s) -> consumersAllocated (engine s) ->
  keepsOpen (engine s) e' ->
  (forall r room', In (r, room') rs ->
     (forall q peer, In (q, peer) (RoomJs.peers room') ->
                     RoomJs.producers peer = [] /\ RoomJs.consumers peer = []) \/
     exists room, In (r, room) (rooms s) /\
                  holdsEvolve e' (RoomJs.peers room) (RoomJs.peers room')) ->
  heldOpen (mkServer (workers s) idx' rs e').
Proof.
  intros HO A B K Sub. destruct (K A B) as (_ & _ & Kp & Kc).
  intros r2 room2 q peer' Hin Hq. cbn [rooms engine] in *.
  destruct (Sub _ _ Hin) as [E | (room & Hr & Ev)].
  - destruct (E _ _ Hq) as (-> & ->). split; intros id [].
  - destruct (Ev q peer' Hq) as (Ep & Ec). split; intros id Hid.
    + destruct (Ep id Hid) as [(peer & Hp & Hi) | New]; [|exact New].
      apply Kp. now apply (HO r2 room q peer Hr Hp).
    + destruct (Ec id Hid) as [(peer & Hp & Hi) | New]; [|exact New].
      apply Kc. now apply (HO r2 room q peer Hr Hp).
Qed.

Lemma heldOpen_after_call s roomId room room' idx' (e' : Engine) :
  heldOpen s ->
  producersAllocated (engine s) -> consumersAllocated (engine s) ->
  JsMap.get (rooms s) roomId = Some room ->
  keepsOpen (engine s) e' ->
  holdsEvolve e' (RoomJs.peers room) (RoomJs.peers room') ->
  heldOpen (mkServer (workers s) idx' (JsMap.set (rooms s) roomId room') e').
Proof.
  intros HO A B G K Ev. apply heldOpen_changed_store; auto.
  intros r room2 Hin. right. apply JsMapFacts.in_set in Hin.
  destruct Hin as [E | Hin].
  - injection E as -> ->. exists room.
    split; [now apply JsMapFacts.get_Some_in | exact Ev].
  - exists room2. split; [exact Hin | apply holdsEvolve_refl].
Qed.

Lemma getOrCreateRoom_heldOpen s roomId :
  producersAllocated (engine s) -> consumersAllocated (engine s) ->
  heldOpen s -> heldOpen (snd (getOrCreateRoom roomId s)).
Proof.
  intros A B HO. destruct (JsMap.get (rooms s) roomId) as [room|] eqn:G.
  - now rewrite (getOrCreateRoom_registered _ _ _ G).
  - rewrite (getOrCreateRoom_unregistered _ _ G).
    destruct (nth_error (workers s) (nextWorkerIdx s)); cbn [snd].
    + apply heldOpen_changed_store; auto with open.
      intros r room' Hin. apply JsMapFacts.in_set in Hin. destruct Hin as [E | Hin].
      * left. injection E as -> ->. intros q peer [].
      * right. exists room'. split; [exact Hin | apply holdsEvolve_refl].
    + apply heldOpen_changed_store; auto with open.
      intros r room' Hin. right. exists room'.
      split; [exact Hin | apply holdsEvolve_refl].
Qed.

Lemma capabilities_heldOpen s roomId :
  producersAllocated (engine s) -> consumersAllocated (engine s) ->
  heldOpen s ->
  heldOpen (snd (handleRpcRequest (GetRouterRtpCapabilities roomId) s)).
Proof.
  intros A B HO. cbn [handleRpcRequest]. unfold bind, ret.
  pose proof (getOrCreateRoom_heldOpen s roomId A B HO) as H1.
  now destruct (getOrCreateRoom roomId s) as [[room|e] s1].
Qed.

Lemma join_heldOpen s roomId peerId name :
  producersAllocated (engine s) -> consumersAllocated (engine s) ->
  heldOpen s ->
  heldOpen (snd (handleRpcRequest (Join roomId peerId name) s)).
Proof.
  intros A B HO. destruct (JsMap.get (rooms s) roomId) as [room|] eqn:G.
  - rewrite (join_registered _ _ _ _ _ G).
    apply (heldOpen_after_call s roomId room); auto with open.
    cbn [RoomJs.peers]. unfold joinedPeers.
    destruct (JsMap.has (RoomJs.peers room) peerId);
      [apply holdsEvolve_refl | apply holdsEvolve_join].
  - destruct (nth_error (workers s) (nextWorkerIdx s)) as [pid|] eqn:W.
    + rewrite (join_unregistered _ _ _ _ _ G W).
      apply heldOpen_changed_store; auto with open.
      intros r room' Hin. apply JsMapFacts.in_set in Hin. destruct Hin as [E | Hin].
      * injection E as -> ->. left. cbn [RoomJs.peers].
        intros q peer [E|[]]. injection E as <- <-. auto.
      * right. exists room'. split; [exact Hin | apply holdsEvolve_refl].
    + pose proof (getOrCreateRoom_heldOpen s roomId A B HO) as H1.
      cbn [handleRpcRequest]. unfold bind at 1.
      rewrite (getOrCreateRoom_unregistered _ _ G), W in *. exact H1.
Qed.

(** What the peer written back by a method holds. *)
Ltac solve_holds :=
  let id := fresh "id" in
  let Hid := fresh "Hid" in
  intros id Hid; cbn [RoomJs.producers RoomJs.consumers fst] in Hid;
  first
    [ left; exact Hid
    | apply In_refsSet in Hid; destruct Hid as [Hid | ->]; [left; exact Hid | right];
      first [ eapply OpenFacts.produce_opens; eassumption
            | eapply OpenFacts.consume_opens;
              match goal with
              | E : Mediasoup.consume _ _ _ _ _ = Some (?x, _) |- _ =>
                  rewrite (surjective_pairing x) in E; exact E
              end ] ].

Ltac solve_heldOpen_call :=
  match goal with
  | HO : heldOpen ?s, G : JsMap.get (rooms ?s) ?r = Some ?room
    |- heldOpen (mkServer _ _ (JsMap.set (rooms ?s) ?r _) _) =>
      apply (heldOpen_after_call s r room);
      [exact HO | assumption | assumption | exact G | solve_keepsOpen | ];
      cbn [RoomJs.peers];
      first [ apply holdsEvolve_refl
            | eapply holdsEvolve_set; [eassumption | solve_holds | solve_holds] ]
  | HO : heldOpen ?s |- heldOpen ?s => exact HO
  end.

(** The requests that close nothing. *)
Lemma quiet_request_heldOpen request s :
  (forall r p, request <> Leave r p) ->
  (forall r p id, request <> CloseProducer r p id) ->
  producersAllocated (engine s) -> consumersAllocated (engine s) ->
  heldOpen s -> heldOpen (snd (handleRpcRequest request s)).
Proof.
  intros NotLeave NotClose A B HO.
  destruct request;
    try (exfalso; eapply NotLeave; reflexivity);
    try (exfalso; eapply NotClose; reflexivity);
    try (now apply join_heldOpen);
    try (now apply capabilities_heldOpen);
    cbn [handleRpcRequest];
    unfold_room; unfold_js; cbv beta iota delta [fst snd];
    repeat (break_match; cbn [snd]; try discriminate); solve_heldOpen_call.
Qed.

(** *** What the reachable states give *)

Lemma reachable_entry s r room q peer :
  reachable s ->
  In (r, room) (rooms s) -> In (q, peer) (RoomJs.peers room) ->
  JsMap.get (rooms s) r = Some room /\ JsMap.get (RoomJs.peers room) q = Some peer.
Proof.
  intros R Hr Hq. destruct (reachable_sound s R) as (_ & (ND & K) & _).
  assert (G : JsMap.get (rooms s) r = Some room)
    by now apply JsMapFacts.in_get_NoDup.
  split; [exact G|]. destruct (K _ _ G) as (_ & NDp).
  now apply JsMapFacts.in_get_NoDup.
Qed.

(** An open producer a peer holds sits on an open transport of the peer,
    on the router of the room. *)
Lemma held_producer_placed s r room q peer id :
  reachable s -> heldOpen s ->
  In (r, room) (rooms s) -> In (q, peer) (RoomJs.peers room) ->
  In id (RoomJs.producers peer) ->
  exists p t,
    JsMap.get (Mediasoup.e_producers (engine s)) id = Some p /\
    Mediasoup.producer_closed p = false /\
    In (Mediasoup.producer_transportId p) (RoomJs.transports peer) /\
    JsMap.get (Mediasoup.e_transports (engine s)) (Mediasoup.producer_transportId p)
    = Some t /\
    Mediasoup.transport_closed t = false /\
    Mediasoup.transport_routerId t = RoomJs.router room.
Proof.
  intros R HO Hr Hq Hid.
  destruct (HO r room q peer Hr Hq) as (Op & _).
  destruct (Op id Hid) as (p & G & C).
  destruct (reachable_placed s R) as (_ & _ & Pl).
  destruct (Pl r room q peer Hr Hq) as (Pp & _).
  destruct (Pp id Hid) as (tid & Ht & (p' & G' & T & D)).
  assert (p' = p) as -> by congruence.
  destruct D as [D | (t & Gt & Ct)]; [congruence|].
  destruct (reachable_owned s R) as (_ & O).
  destruct (O r room q peer tid Hr Hq Ht) as (t' & Gt' & Er & _).
  assert (t' = t) as -> by congruence.
  exists p, t. rewrite T. repeat split; assumption.
Qed.

Lemma held_consumer_placed s r room q peer id :
  reachable s -> heldOpen s ->
  In (r, room) (rooms s) -> In (q, peer) (RoomJs.peers room) ->
  In id (RoomJs.consumers peer) ->
  exists c t,
    JsMap.get (Mediasoup.e_consumers (engine s)) id = Some c /\
    Mediasoup.consumer_closed c = false /\
    In (Mediasoup.consumer_transportId c) (RoomJs.transports peer) /\
    JsMap.get (Mediasoup.e_transports (engine s)) (Mediasoup.consumer_transportId c)
    = Some t /\
    Mediasoup.transport_closed t = false /\
    Mediasoup.transport_routerId t = RoomJs.router room.
Proof.
  intros R HO Hr Hq Hid.
  destruct (HO r room q peer Hr Hq) as (_ & Oc).
  destruct (Oc id Hid) as (c & G & C).
  destruct (reachable_placed s R) as (_ & _ & Pl).
  destruct (Pl r room q peer Hr Hq) as (_ & Pc).
  destruct (Pc id Hid) as (tid & Ht & (c' & G' & T & D)).
  assert (c' = c) as -> by congruence.
  destruct D as [D | (t & Gt & Ct)]; [congruence|].
  destruct (reachable_owned s R) as (_ & O).
  destruct (O r room q peer tid Hr Hq Ht) as (t' & Gt' & Er & _).
  assert (t' = t) as -> by congruence.
  exists c, t. rewrite T. repeat split; assumption.
Qed.

(** *** Closes that spare *)

Lemma closePeerTransports_fold l : forall st : RoomJs.Peer * Engine,
  snd (fold_left RoomJs.closePeerTransport l st)
  = fold_left (fun acc tid => fst (Mediasoup.transportClose tid acc)) l (snd st).
Proof.
  induction l as [|x l IH]; intros st; [reflexivity|].
  cbn [fold_left]. now rewrite IH, closePeerTransport_engine.
Qed.

Lemma fold_transportClose_spares_producer l : forall (e : Engine) id p,
  (forall x, In x l -> x <> Mediasoup.producer_transportId p) ->
  JsMap.get (Mediasoup.e_producers e) id = Some p ->
  Mediasoup.producer_closed p = false ->
  JsMap.get (Mediasoup.e_producers
               (fold_left (fun acc tid => fst (Mediasoup.transportClose tid acc)) l e))
            id = Some p.
Proof.
  induction l as [|x l IH]; intros e id p N G C; [exact G|].
  cbn [fold_left]. apply IH; [intros y Hy; apply N; now right | | exact C].
  apply OpenFacts.transportClose_spares_producer; auto.
  intros E. apply (N x); [now left | now symmetry].
Qed.

Lemma fold_transportClose_spares_consumer l : forall (e : Engine) id c,
  (forall x, In x l -> x <> Mediasoup.consumer_transportId c) ->
  JsMap.get (Mediasoup.e_consumers e) id = Some c ->
  Mediasoup.consumer_closed c = false ->
  JsMap.get (Mediasoup.e_consumers
               (fold_left (fun acc tid => fst (Mediasoup.transportClose tid acc)) l e))
            id = Some c.
Proof.
  induction l as [|x l IH]; intros e id c N G C; [exact G|].
  cbn [fold_left]. apply IH; [intros y Hy; apply N; now right | | exact C].
  apply OpenFacts.transportClose_spares_consumer; auto.
  intros E. apply (N x); [now left | now symmetry].
Qed.

(** The transports [router.close()] closes are those of the router. *)
Lemma transports_of_router_only (e : Engine) routerId tid t :
  NoDup (JsMap.keys (Mediasoup.e_transports e)) ->
  JsMap.get (Mediasoup.e_transports e) tid = Some t ->
  Mediasoup.transport_routerId t <> routerId ->
  ~ In tid (Mediasoup.idsWhere (Mediasoup.transportOfRouter routerId)
                               (Mediasoup.e_transports e)).
Proof.
  intros ND G N Hin. unfold Mediasoup.idsWhere, JsMap.keys in Hin.
  apply in_map_iff in Hin. destruct Hin as ([x tx] & E & Hin). cbn [fst] in E. subst x.
  apply filter_In in Hin. destruct Hin as (Hin & Sel). cbn [snd] in Sel.
  apply (JsMapFacts.in_get_NoDup _ _ _ ND) in Hin.
  assert (tx = t) as -> by congruence.
  unfold Mediasoup.transportOfRouter in Sel. apply andb_prop in Sel.
  destruct Sel as (Sel & _). apply Nat.eqb_eq in Sel. contradiction.
Qed.

Lemma routerClose_spares_producer (e : Engine) routerId id p t :
  NoDup (JsMap.keys (Mediasoup.e_transports e)) ->
  JsMap.get (Mediasoup.e_producers e) id = Some p ->
  Mediasoup.producer_closed p = false ->
  JsMap.get (Mediasoup.e_transports e) (Mediasoup.producer_transportId p) = Some t ->
  Mediasoup.transport_routerId t <> routerId ->
  JsMap.get (Mediasoup.e_producers (Mediasoup.routerClose routerId e)) id = Some p.
Proof.
  intros ND G C Gt N. unfold Mediasoup.routerClose. cbn [Mediasoup.e_producers].
  apply fold_transportClose_spares_producer; auto.
  intros x Hx ->. exact (transports_of_router_only e routerId _ t ND Gt N Hx).
Qed.

Lemma routerClose_spares_consumer (e : Engine) routerId id c t :
  NoDup (JsMap.keys (Mediasoup.e_transports e)) ->
  JsMap.get (Mediasoup.e_consumers e) id = Some c ->
  Mediasoup.consumer_closed c = false ->
  JsMap.get (Mediasoup.e_transports e) (Mediasoup.consumer_transportId c) = Some t ->
  Mediasoup.transport_routerId t <> routerId ->
  JsMap.get (Mediasoup.e_consumers (Mediasoup.routerClose routerId e)) id = Some c.
Proof.
  intros ND G C Gt N. unfold Mediasoup.routerClose. cbn [Mediasoup.e_consumers].
  apply fold_transportClose_spares_consumer; auto.
  intros x Hx ->. exact (transports_of_router_only e routerId _ t ND Gt N Hx).
Qed.

Lemma in_delete_key {V} (m : JsMap.t string V) k x :
  In x (JsMap.delete m k) -> In x m /\ fst x <> k.
Proof.
  unfold JsMap.delete. intros Hin. apply filter_In in Hin.
  destruct Hin as (Hin & Sel). split; [exact Hin|].
  apply Bool.negb_true_iff, keq_false in Sel. congruence.
Qed.

(** *** Leave *)

Lemma engineAfterRemove_fold (e : Engine) peer :
  engineAfterRemove e (Some peer)
  = fold_left (fun acc tid => fst (Mediasoup.transportClose tid acc))
              (RoomJs.transports peer) e.
Proof. cbn [engineAfterRemove]. now rewrite closePeerTransports_fold. Qed.

(** What another peer holds is on no transport of the peer that leaves. *)
Lemma not_on_transport_of_leaver s roomId room peerId peer r2 room2 q peer2 tid :
  reachable s ->
  JsMap.get (rooms s) roomId = Some room ->
  JsMap.get (RoomJs.peers room) peerId = Some peer ->
  In (r2, room2) (rooms s) -> In (q, peer2) (RoomJs.peers room2) ->
  r2 <> roomId \/ q <> peerId ->
  In tid (RoomJs.transports peer2) ->
  forall x, In x (RoomJs.transports peer) -> x <> tid.
Proof.
  intros R G P Hr Hq N Ht x Hx ->.
  destruct (reachable_entry s r2 room2 q peer2 R Hr Hq) as (G2 & P2).
  destruct (holder_unique s roomId room peerId peer r2 room2 q peer2
              Replies.HeldTransport tid R G P G2 P2 Hx Ht) as (E1 & E2).
  destruct N as [N | N]; congruence.
Qed.

Lemma remove_spares_producer s roomId room peerId r2 room2 q peer2 id :
  reachable s -> heldOpen s ->
  JsMap.get (rooms s) roomId = Some room ->
  In (r2, room2) (rooms s) -> In (q, peer2) (RoomJs.peers room2) ->
  r2 <> roomId \/ q <> peerId ->
  In id (RoomJs.producers peer2) ->
  let e1 := engineAfterRemove (engine s) (JsMap.get (RoomJs.peers room) peerId) in
  exists p t,
    JsMap.get (Mediasoup.e_producers e1) id = Some p /\
    Mediasoup.producer_closed p = false /\
    JsMap.get (Mediasoup.e_transports e1) (Mediasoup.producer_transportId p) = Some t /\
    Mediasoup.transport_routerId t = RoomJs.router room2.
Proof.
  intros R HO G Hr Hq N Hid e1.
  destruct (held_producer_placed s r2 room2 q peer2 id R HO Hr Hq Hid)
    as (p & t & Gp & Cp & Ht & Gt & Ct & Er).
  destruct (reachable_owned s R) as (A & _).
  destruct (steady_keepsStamps _ _
              (engineAfterRemove_steady (engine s)
                 (JsMap.get (RoomJs.peers room) peerId)) A) as (_ & _ & St).
  destruct (St (RoomJs.router room2) (Mediasoup.transport_appData_peerId t)
               (Mediasoup.producer_transportId p))
    as (t1 & Gt1 & Er1 & _); [now exists t|].
  exists p, t1. fold e1 in Gt1. repeat split; try assumption.
  subst e1. destruct (JsMap.get (RoomJs.peers room) peerId) as [peer|] eqn:P;
    [|exact Gp].
  rewrite engineAfterRemove_fold.
  apply fold_transportClose_spares_producer; auto.
  now apply (not_on_transport_of_leaver s roomId room peerId peer r2 room2 q peer2).
Qed.

Lemma remove_spares_consumer s roomId room peerId r2 room2 q peer2 id :
  reachable s -> heldOpen s ->
  JsMap.get (rooms s) roomId = Some room ->
  In (r2, room2) (rooms s) -> In (q, peer2) (RoomJs.peers room2) ->
  r2 <> roomId \/ q <> peerId ->
  In id (RoomJs.consumers peer2) ->
  let e1 := engineAfterRemove (engine s) (JsMap.get (RoomJs.peers room) peerId) in
  exists c t,
    JsMap.get (Mediasoup.e_consumers e1) id = Some c /\
    Mediasoup.consumer_closed c = false /\
    JsMap.get (Mediasoup.e_transports e1) (Mediasoup.consumer_transportId c) = Some t /\
    Mediasoup.transport_routerId t = RoomJs.router room2.
Proof.
  intros R HO G Hr Hq N Hid e1.
  destruct (held_consumer_placed s r2 room2 q peer2 id R HO Hr Hq Hid)
    as (c & t & Gc & Cc & Ht & Gt & Ct & Er).
  destruct (reachable_owned s R) as (A & _).
  destruct (steady_keepsStamps _ _
              (engineAfterRemove_steady (engine s)
                 (JsMap.get (RoomJs.peers room) peerId)) A) as (_ & _ & St).
  destruct (St (RoomJs.router room2) (Mediasoup.transport_appData_peerId t)
               (Mediasoup.consumer_transportId c))
    as (t1 & Gt1 & Er1 & _); [now exists t|].
  exists c, t1. fold e1 in Gt1. repeat split; try assumption.
  subst e1. destruct (JsMap.get (RoomJs.peers room) peerId) as [peer|] eqn:P;
    [|exact Gc].
  rewrite engineAfterRemove_fold.
  apply fold_transportClose_spares_consumer; auto.
  now apply (not_on_transport_of_leaver s roomId room peerId peer r2 room2 q peer2).
Qed.

Lemma leave_heldOpen s roomId peerId :
  reachable s -> heldOpen s ->
  heldOpen (snd (handleRpcRequest (Leave roomId peerId) s)).
Proof.
  intros R HO. destruct (JsMap.get (rooms s) roomId) as [room|] eqn:G.
  2: now rewrite (leave_unregistered _ _ _ G).
  rewrite (leave_registered _ _ _ _ G). cbn [snd].
  destruct (reachable_sound s R) as (_ & (ND & K) & (_ & Dist & _)).
  destruct (reachable_owned s R) as (A & _).
  destruct (steady_keepsStamps _ _
              (engineAfterRemove_steady (engine s)
                 (JsMap.get (RoomJs.peers room) peerId)) A) as ((ND1 & _) & _).
  destruct (Nat.eqb _ 0).
  - intros r2 room2 q peer2 Hin Hq. cbn [rooms engine] in *.
    apply in_delete_key in Hin. destruct Hin as (Hin & Nr). cbn [fst] in Nr.
    assert (Rt : RoomJs.router room2 <> RoomJs.router room).
    { intros E. apply Nr.
      apply (Dist r2 roomId room2 room); auto.
      now apply JsMapFacts.in_get_NoDup. }
    split; intros id Hid.
    + destruct (remove_spares_producer s roomId room peerId r2 room2 q peer2 id
                  R HO G Hin Hq (or_introl Nr) Hid) as (p & t & Gp & Cp & Gt & Er).
      exists p. split; [|exact Cp].
      apply (routerClose_spares_producer _ _ _ _ t); auto. congruence.
    + destruct (remove_spares_consumer s roomId room peerId r2 room2 q peer2 id
                  R HO G Hin Hq (or_introl Nr) Hid) as (c & t & Gc & Cc & Gt & Er).
      exists c. split; [|exact Cc].
      apply (routerClose_spares_consumer _ _ _ _ t); auto. congruence.
  - intros r2 room2 q peer2 Hin Hq. cbn [rooms engine] in *.
    apply (in_set_NoDup _ _ _ _ ND) in Hin.
    assert (Old : exists room0, In (r2, room0) (rooms s) /\
                                In (q, peer2) (RoomJs.peers room0) /\
                                (r2 <> roomId \/ q <> peerId)).
    { destruct Hin as [E | (Hin & Nr)].
      - injection E as -> ->. cbn [RoomJs.peers] in Hq.
        apply in_delete_key in Hq. destruct Hq as (Hq & Nq).
        exists room. split; [now apply JsMapFacts.get_Some_in|]. auto.
      - exists room2. auto. }
    destruct Old as (room0 & Hr0 & Hq0 & N).
    split; intros id Hid.
    + destruct (remove_spares_producer s roomId room peerId r2 room0 q peer2 id
                  R HO G Hr0 Hq0 N Hid) as (p & t & Gp & Cp & _).
      now exists p.
    + destruct (remove_spares_consumer s roomId room peerId r2 room0 q peer2 id
                  R HO G Hr0 Hq0 N Hid) as (c & t & Gc & Cc & _).
      now exists c.
Qed.

(** *** CloseProducer *)

Lemma producerClose_consumers (e : Engine) id :
  Mediasoup.e_consumers (Mediasoup.producerClose id e) = Mediasoup.e_consumers e.
Proof.
  unfold Mediasoup.producerClose, Mediasoup.updateProducer.
  destruct (JsMap.get (Mediasoup.e_producers e) id) as [p|]; [|reflexivity].
  now destruct (Mediasoup.producer_closed p).
Qed.

Lemma producerClose_spares (e : Engine) id x :
  x <> id -> producerOpen e x -> producerOpen (Mediasoup.producerClose id e) x.
Proof.
  intros N (p & G & C). exists p. split; [|exact C].
  unfold Mediasoup.producerClose, Mediasoup.updateProducer.
  destruct (JsMap.get (Mediasoup.e_producers e) id) as [p0|]; [|exact G].
  destruct (Mediasoup.producer_closed p0); [exact G|].
  cbn [Mediasoup.e_producers]. rewrite JsMapFacts.get_set_other; auto.
Qed.

Lemma closeProducer_state_heldOpen s roomId room peerId peer producerId :
  reachable s -> heldOpen s ->
  JsMap.get (rooms s) roomId = Some room ->
  JsMap.get (RoomJs.peers room) peerId = Some peer ->
  RoomJs.refsHas (RoomJs.producers peer) producerId = true ->
  heldOpen
    (mkServer (workers s) (nextWorkerIdx s)
       (JsMap.set (rooms s) roomId
          (RoomJs.mkRoom (RoomJs.roomId room) (RoomJs.router room)
             (JsMap.set (RoomJs.peers room) peerId
                (RoomJs.mkPeer (RoomJs.displayName peer) (RoomJs.transports peer)
                   (RoomJs.refsDelete (RoomJs.producers peer) producerId)
                   (RoomJs.consumers peer)))))
       (Mediasoup.producerClose producerId (engine s))).
Proof.
  intros R HO G P Has. apply refsHas_In in Has.
  destruct (reachable_sound s R) as (_ & (ND & K) & _).
  destruct (K _ _ G) as (_ & NDp).
  assert (Kc : forall id, consumerOpen (engine s) id ->
                          consumerOpen (Mediasoup.producerClose producerId (engine s)) id).
  { intros id Hc. unfold consumerOpen. now rewrite producerClose_consumers. }
  intros r2 room2 q peer2 Hin Hq. cbn [rooms engine] in *.
  assert (Old : (r2 = roomId /\ q = peerId /\
                 peer2 = RoomJs.mkPeer (RoomJs.displayName peer) (RoomJs.transports peer)
                           (RoomJs.refsDelete (RoomJs.producers peer) producerId)
                           (RoomJs.consumers peer)) \/
                exists room0, In (r2, room0) (rooms s) /\
                              In (q, peer2) (RoomJs.peers room0) /\
                              (r2 <> roomId \/ q <> peerId)).
  { apply (in_set_NoDup _ _ _ _ ND) in Hin. destruct Hin as [E | (Hin & Nr)].
    - injection E as -> ->. cbn [RoomJs.peers] in Hq.
      apply (in_set_NoDup _ _ _ _ NDp) in Hq. destruct Hq as [E | (Hq & Nq)].
      + injection E as -> ->. now left.
      + right. exists room. split; [now apply JsMapFacts.get_Some_in|]. auto.
    - right. exists room2. auto. }
  destruct Old as [(-> & -> & ->) | (room0 & Hr0 & Hq0 & N)].
  - pose proof (HO roomId room peerId peer (JsMapFacts.get_Some_in _ _ _ G)
                  (JsMapFacts.get_Some_in _ _ _ P)) as (Op & Oc).
    cbn [RoomJs.producers RoomJs.consumers]. split; [|now auto].
    intros id Hid. apply In_refsDelete in Hid. destruct Hid as (Hid & Nid).
    apply producerClose_spares; auto.
  - pose proof (HO r2 room0 q peer2 Hr0 Hq0) as (Op & Oc).
    split; [|now auto].
    intros id Hid. apply producerClose_spares; auto.
    intros ->.
    destruct (reachable_entry s r2 room0 q peer2 R Hr0 Hq0) as (G2 & P2).
    destruct (holder_unique s roomId room peerId peer r2 room0 q peer2
                Replies.HeldProducer producerId R G P G2 P2 Has Hid) as (E1 & E2).
    destruct N as [N | N]; congruence.
Qed.

Lemma closeProducer_heldOpen s roomId peerId producerId :
  reachable s -> heldOpen s ->
  heldOpen (snd (handleRpcRequest (CloseProducer roomId peerId producerId) s)).
Proof.
  intros R HO. destruct (reachable_placed s R) as (A & B & _).
  cbn [handleRpcRequest].
  unfold_room; unfold_js; cbv beta iota delta [fst snd];
    repeat (break_match; cbn [snd]; try discriminate);
    first [ solve_heldOpen_call
          | eapply closeProducer_state_heldOpen; eassumption ].
Qed.

Lemma request_heldOpen request s :
  reachable s -> heldOpen s -> heldOpen (snd (handleRpcRequest request s)).
Proof.
  intros R HO. destruct (reachable_placed s R) as (A & B & _).
  destruct request;
    try (now apply leave_heldOpen);
    try (now apply closeProducer_heldOpen);
    apply quiet_request_heldOpen; auto; discriminate.
Qed.

(** *** Events *)

Lemma producers_after_listeners ps : forall peer x,
  In x (RoomJs.producers (fold_left RoomJs.onProducerTransportClose ps peer)) ->
  In x (RoomJs.producers peer) /\ ~ In x ps.
Proof.
  induction ps as [|i ps IH]; intros peer x Hin; cbn [fold_left] in Hin.
  - split; [exact Hin | intros []].
  - apply IH in Hin. destruct Hin as (Hin & N).
    cbn [RoomJs.onProducerTransportClose RoomJs.producers] in Hin.
    apply In_refsDelete in Hin. destruct Hin as (Hin & Ni).
    split; [exact Hin|]. intros [E | Hi]; [congruence | contradiction].
Qed.

Lemma consumers_after_listeners cs : forall peer x,
  In x (RoomJs.consumers (fold_left RoomJs.onConsumerClose cs peer)) ->
  In x (RoomJs.consumers peer) /\ ~ In x cs.
Proof.
  induction cs as [|i cs IH]; intros peer x Hin; cbn [fold_left] in Hin.
  - split; [exact Hin | intros []].
  - apply IH in Hin. destruct Hin as (Hin & N).
    cbn [RoomJs.onConsumerClose RoomJs.consumers] in Hin.
    apply In_refsDelete in Hin. destruct Hin as (Hin & Ni).
    split; [exact Hin|]. intros [E | Hi]; [congruence | contradiction].
Qed.

(** What [transport.close()] does not report closed stays open. *)
Lemma transportClose_unreported_producer x (e : Engine) id :
  producerOpen e id ->
  ~ In id (fst (snd (Mediasoup.transportClose x e))) ->
  producerOpen (fst (Mediasoup.transportClose x e)) id.
Proof.
  intros (p & G & C) N.
  destruct (MediasoupFacts.transportClose_cases x e) as [[E _] | (t & Gt & Ct & E)].
  - rewrite E. now exists p.
  - exists p. split; [|exact C].
    apply OpenFacts.transportClose_spares_producer; auto.
    intros T. apply N. apply (OpenFacts.transportClose_reports_producer x e id p); auto.
    now exists t.
Qed.

Lemma transportClose_unreported_consumer x (e : Engine) id :
  consumerOpen e id ->
  ~ In id (snd (snd (Mediasoup.transportClose x e))) ->
  consumerOpen (fst (Mediasoup.transportClose x e)) id.
Proof.
  intros (c & G & C) N.
  destruct (MediasoupFacts.transportClose_cases x e) as [[E _] | (t & Gt & Ct & E)].
  - rewrite E. now exists c.
  - exists c. split; [|exact C].
    apply OpenFacts.transportClose_spares_consumer; auto.
    intros T. apply N. apply (OpenFacts.transportClose_reports_consumer x e id c); auto.
    now exists t.
Qed.

Lemma in_mapPeers_peer f (rs : JsMap.t RoomId Room) r room' q peer' :
  In (r, room') (mapPeers f rs) -> In (q, peer') (RoomJs.peers room') ->
  exists room peer, In (r, room) rs /\ In (q, peer) (RoomJs.peers room) /\
                    peer' = f peer.
Proof.
  intros Hin Hq. apply in_mapPeers_room in Hin. destruct Hin as (room & Hin & ->).
  cbn [RoomJs.peers] in Hq. apply in_map_iff in Hq.
  destruct Hq as ([q0 peer] & E & Hq). cbn [fst snd] in E. injection E as -> <-.
  now exists room, peer.
Qed.

Lemma producerCloseNotification_spares consumerId (e e' : Engine) :
  Mediasoup.producerCloseNotification consumerId e = Some e' ->
  (forall id, producerOpen e id -> producerOpen e' id) /\
  (forall id, id <> consumerId -> consumerOpen e id -> consumerOpen e' id).
Proof.
  unfold Mediasoup.producerCloseNotification, Mediasoup.updateConsumer. intros E.
  destruct (JsMap.get (Mediasoup.e_consumers e) consumerId) as [c|]; [|discriminate].
  destruct (Mediasoup.consumer_closed c); [discriminate|].
  destruct (JsMap.get (Mediasoup.e_producers e) (Mediasoup.consumer_producerId c))
    as [p|]; [|discriminate].
  destruct (Mediasoup.producer_closed p); [|discriminate].
  injection E as <-. split.
  - intros id Hp. exact Hp.
  - intros id N (c0 & G & C). exists c0. split; [|exact C].
    cbn [Mediasoup.e_consumers]. rewrite JsMapFacts.get_set_other; auto.
Qed.

Lemma event_heldOpen ev s :
  reachable s -> heldOpen s -> heldOpen (handleEngineEvent ev s).
Proof.
  intros R HO. destruct ev; cbn [handleEngineEvent].
  - pose proof (transportClose_unreported_producer transportId (engine s)) as Up.
    pose proof (transportClose_unreported_consumer transportId (engine s)) as Uc.
    pose proof (fun id p => OpenFacts.transportClose_spares_producer
                              transportId (engine s) id p) as Sp.
    pose proof (fun id c => OpenFacts.transportClose_spares_consumer
                              transportId (engine s) id c) as Sc.
    destruct (Mediasoup.transportClose transportId (engine s)) as [e' [ps cs]].
    cbn [fst snd] in Up, Uc, Sp, Sc.
    intros r room' q peer' Hin Hq. cbn [rooms engine] in *.
    destruct (in_mapPeers_peer _ _ _ _ _ _ Hin Hq) as (room & peer & Hr & Hp & ->).
    destruct (HO r room q peer Hr Hp) as (Op & Oc).
    destruct (RoomJs.refsHas (RoomJs.transports peer) transportId) eqn:Has.
    + destruct (held_onConsumerClose cs
                  (fold_left RoomJs.onProducerTransportClose ps peer)) as (Ep & _).
      destruct (held_onProducerTransportClose ps peer) as (Ec & _).
      split; intros id Hid.
      * rewrite Ep in Hid. apply producers_after_listeners in Hid.
        destruct Hid as (Hid & N). auto.
      * apply consumers_after_listeners in Hid. rewrite Ec in Hid.
        destruct Hid as (Hid & N). auto.
    + assert (Not : ~ In transportId (RoomJs.transports peer)).
      { intros Hin'. apply refsHas_In in Hin'. congruence. }
      split; intros id Hid.
      * destruct (held_producer_placed s r room q peer id R HO Hr Hp Hid)
          as (p & t & Gp & Cp & Ht & _).
        exists p. split; [|exact Cp]. apply Sp; auto. congruence.
      * destruct (held_consumer_placed s r room q peer id R HO Hr Hp Hid)
          as (c & t & Gc & Cc & Ht & _).
        exists c. split; [|exact Cc]. apply Sc; auto. congruence.
  - destruct (Mediasoup.producerCloseNotification consumerId (engine s))
      as [e'|] eqn:E; [|exact HO].
    destruct (producerCloseNotification_spares _ _ _ E) as (Kp & Kc).
    intros r room' q peer' Hin Hq. cbn [rooms engine] in *.
    destruct (in_mapPeers_peer _ _ _ _ _ _ Hin Hq) as (room & peer & Hr & Hp & ->).
    destruct (HO r room q peer Hr Hp) as (Op & Oc).
    destruct (RoomJs.refsHas (RoomJs.consumers peer) consumerId) eqn:Has.
    + cbn [RoomJs.onConsumerClose RoomJs.producers RoomJs.consumers].
      split; intros id Hid; [now auto|].
      apply In_refsDelete in Hid. destruct Hid as (Hid & N). auto.
    + split; intros id Hid; [now auto|].
      apply Kc; auto. intros ->. apply refsHas_In in Hid. congruence.
Qed.

Lemma step_heldOpen i s : reachable s -> heldOpen s -> heldOpen (step i s).
Proof.
  intros R HO. destruct i as [[|n request]|ev]; cbn [step processMessage]; auto.
  - pose proof (request_heldOpen request s R HO) as H1.
    now destruct (handleRpcRequest request s) as [[r|e] s'].
  - now apply event_heldOpen.
Qed.

(** In a reachable state every producer and consumer a peer holds is
    open in the store. *)
Lemma reachable_heldOpen s : reachable s -> heldOpen s.
Proof.
  intros (pids & inputs & ->).
  induction inputs as [|i inputs IH] using rev_ind.
  - intros r room q peer [].
  - rewrite run_snoc. apply step_heldOpen; [|exact IH].
    now exists pids, inputs.
Qed.

End HeldOpen.
(** * What [getProducers] lists can be consumed *)

Section Consumable.
Context `{Ortc}.
Import ServerJs.
Import Props.
Import Sound.
Import Open.

(** An entry of the listing, traced back to its producer and the
    transport the producer is on. *)
Lemma listed_producer s roomId room peerId entry :
  reachable s ->
  JsMap.get (rooms s) roomId = Some room ->
  In entry (RoomJs.getProducersForPeer room (engine s) peerId) ->
  exists other p t,
    RoomJs.pr_peerId entry <> peerId /\
    In (RoomJs.pr_peerId entry, other) (RoomJs.peers room) /\
    In (RoomJs.pr_producerId entry) (RoomJs.producers other) /\
    JsMap.get (Mediasoup.e_producers (engine s)) (RoomJs.pr_producerId entry) = Some p /\
    Mediasoup.producer_closed p = false /\
    JsMap.get (Mediasoup.e_transports (engine s)) (Mediasoup.producer_transportId p)
    = Some t /\
    Mediasoup.transport_closed t = false /\
    Mediasoup.transport_routerId t = RoomJs.router room /\
    RoomJs.pr_kind entry = Mediasoup.producer_kind p /\
    RoomJs.pr_appData entry = Mediasoup.producer_appData p.
Proof.
  intros R G Hin. unfold RoomJs.getProducersForPeer in Hin.
  apply in_flat_map in Hin. destruct Hin as ([q other] & Hq & Hin).
  cbn [fst snd] in Hin. destruct (keq q peerId) eqn:Nq; [destruct Hin|].
  apply keq_false in Nq.
  unfold RoomJs.producerEntries in Hin. apply in_flat_map in Hin.
  destruct Hin as (id & Hid & Hin).
  destruct (JsMap.get (Mediasoup.e_producers (engine s)) id) as [p0|] eqn:Gp0;
    [|destruct Hin].
  destruct Hin as [<-|[]]. cbn [RoomJs.pr_peerId RoomJs.pr_producerId RoomJs.pr_kind
                                 RoomJs.pr_appData].
  destruct (held_producer_placed s roomId room q other id R (reachable_heldOpen s R)
              (JsMapFacts.get_Some_in _ _ _ G) Hq Hid)
    as (p & t & Gp & Cp & _ & Gt & Ct & Er).
  assert (p0 = p) as -> by congruence.
  exists other, p, t. repeat split; assumption.
Qed.

(** X26. In a reachable state the maps of a peer hold no stale object:
    every producer and every consumer a peer holds is open in the store
    and sits on a transport that the same peer holds, that is open, and
    that was created on the router of the peer's room.  The listeners
    for 'transportclose' and 'producerclose' and the deletes in
    [closeProducer] and [removePeer] keep it so. *)
Theorem held_objects_are_open_on_held_transports s roomId room peerId peer :
  reachable s ->
  JsMap.get (rooms s) roomId = Some room ->
  JsMap.get (RoomJs.peers room) peerId = Some peer ->
  (forall id, In id (RoomJs.producers peer) ->
     exists p t,
       JsMap.get (Mediasoup.e_producers (engine s)) id = Some p /\
       Mediasoup.producer_closed p = false /\
       In (Mediasoup.producer_transportId p) (RoomJs.transports peer) /\
       JsMap.get (Mediasoup.e_transports (engine s)) (Mediasoup.producer_transportId p)
       = Some t /\
       Mediasoup.transport_closed t = false /\
       Mediasoup.transport_routerId t = RoomJs.router room) /\
  (forall id, In id (RoomJs.consumers peer) ->
     exists c t,
       JsMap.get (Mediasoup.e_consumers (engine s)) id = Some c /\
       Mediasoup.consumer_closed c = false /\
       In (Mediasoup.consumer_transportId c) (RoomJs.transports peer) /\
       JsMap.get (Mediasoup.e_transports (engine s)) (Mediasoup.consumer_transportId c)
       = Some t /\
       Mediasoup.transport_closed t = false /\
       Mediasoup.transport_routerId t = RoomJs.router room).
Proof.
  intros R G P.
  pose proof (JsMapFacts.get_Some_in _ _ _ G) as Hr.
  pose proof (JsMapFacts.get_Some_in _ _ _ P) as Hq.
  split; intros id Hid.
  - exact (held_producer_placed s roomId room peerId peer id R
             (reachable_heldOpen s R) Hr Hq Hid).
  - exact (held_consumer_placed s roomId room peerId peer id R
             (reachable_heldOpen s R) Hr Hq Hid).
Qed.

(** X27. In a reachable state every entry [getProducers] lists for a
    peer names a producer of another peer that the router of the room
    knows and that is open; the kind and the appData of the entry are
    those of the producer in the store. *)
Theorem listed_producers_are_open s roomId room peerId entry :
  reachable s ->
  JsMap.get (rooms s) roomId = Some room ->
  In entry (RoomJs.getProducersForPeer room (engine s) peerId) ->
  RoomJs.pr_peerId entry <> peerId /\
  exists p,
    Mediasoup.routerProducer (RoomJs.router room) (RoomJs.pr_producerId entry) (engine s)
    = Some p /\
    Mediasoup.producer_closed p = false /\
    RoomJs.pr_kind entry = Mediasoup.producer_kind p /\
    RoomJs.pr_appData entry = Mediasoup.producer_appData p.
Proof.
  intros R G Hin.
  destruct (listed_producer s roomId room peerId entry R G Hin)
    as (other & p & t & Nq & _ & _ & Gp & Cp & Gt & Ct & Er & Ek & Ea).
  split; [exact Nq|]. exists p. repeat split; try assumption.
  unfold Mediasoup.routerProducer. rewrite Gp, Cp, Gt, Er.
  now rewrite Nat.eqb_refl.
Qed.

(** X28. In a reachable state a member can consume what [getProducers]
    lists to it: if the transport [consume] picks for the peer is open
    and ortc accepts the peer's capabilities for the producer, the
    Consume is answered with a new consumer, of the next identifier, for
    the listed producer and of the listed kind; the consumer is created
    paused on the picked transport. *)
Theorem listed_producer_can_be_consumed
    s roomId room peerId peer entry tid t caps :
  reachable s ->
  JsMap.get (rooms s) roomId = Some room ->
  JsMap.get (RoomJs.peers room) peerId = Some peer ->
  In entry (RoomJs.getProducersForPeer room (engine s) peerId) ->
  RoomJs.findRecvTransport (engine s) peer = Some tid ->
  JsMap.get (Mediasoup.e_transports (engine s)) tid = Some t ->
  Mediasoup.transport_closed t = false ->
  (forall p,
     JsMap.get (Mediasoup.e_producers (engine s)) (RoomJs.pr_producerId entry) = Some p ->
     ortc_canConsume (Mediasoup.producer_rtpParameters p) caps = true) ->
  let out := handleRpcRequest
               (Consume roomId peerId (RoomJs.pr_producerId entry) caps) s in
  fst out = Return (ConsumeResult
                      (RoomJs.mkConsumerInfo (Mediasoup.e_nextId (engine s))
                         (RoomJs.pr_producerId entry) (RoomJs.pr_kind entry))) /\
  JsMap.get (Mediasoup.e_consumers (engine (snd out))) (Mediasoup.e_nextId (engine s))
  = Some (Mediasoup.mkConsumer tid (RoomJs.pr_producerId entry) (RoomJs.pr_kind entry)
            true None false).
Proof.
  intros R G P Hin F Gt Ct Can out.
  destruct (listed_producer s roomId room peerId entry R G Hin)
    as (other & p & tp & Nq & _ & _ & Gp & Cp & Gtp & Ctp & Erp & Ek & Ea).
  destruct (reachable_owned s R) as (_ & O).
  destruct (O roomId room peerId peer tid (JsMapFacts.get_Some_in _ _ _ G)
              (JsMapFacts.get_Some_in _ _ _ P)
              (findRecvTransport_In (engine s) peer tid F)) as (t' & Gt' & Er & _).
  assert (t' = t) as -> by congruence.
  assert (RP : Mediasoup.routerProducer (RoomJs.router room)
                 (RoomJs.pr_producerId entry) (engine s) = Some p).
  { unfold Mediasoup.routerProducer. rewrite Gp, Cp, Gtp, Erp.
    now rewrite Nat.eqb_refl. }
  assert (C : Mediasoup.canConsume (RoomJs.router room) (RoomJs.pr_producerId entry)
                caps (engine s) = true).
  { unfold Mediasoup.canConsume. rewrite RP. now apply Can. }
  assert (E : Mediasoup.consume tid (RoomJs.pr_producerId entry) caps true (engine s)
              = Some (Mediasoup.e_nextId (engine s),
                      Mediasoup.mkConsumer tid (RoomJs.pr_producerId entry)
                        (Mediasoup.producer_kind p) true None false,
                      Mediasoup.mkEngine (S (Mediasoup.e_nextId (engine s)))
                        (Mediasoup.e_routers (engine s))
                        (Mediasoup.e_transports (engine s))
                        (Mediasoup.e_producers (engine s))
                        (JsMap.set (Mediasoup.e_consumers (engine s))
                           (Mediasoup.e_nextId (engine s))
                           (Mediasoup.mkConsumer tid (RoomJs.pr_producerId entry)
                              (Mediasoup.producer_kind p) true None false))
                        (Mediasoup.e_routerCloseCalls (engine s)))).
  { unfold Mediasoup.consume. rewrite Gt, Ct, Er, RP. now rewrite (Can p Gp). }
  subst out. rewrite (consume_runs s roomId room peerId peer _ caps tid _ _ _ G P C F E).
  cbn [fst snd engine Mediasoup.e_consumers Mediasoup.consumer_producerId
       Mediasoup.consumer_kind].
  rewrite Ek. split; [reflexivity|]. apply JsMapFacts.get_set_same.
Qed.

(** X29. A closed transport stays in the peer's map.  When the transport
    [consume] picks for the peer is closed, the Consume passes the
    [canConsume] check, is rejected by the transport, and changes
    nothing. *)
Theorem consume_on_a_closed_transport_is_rejected
    s roomId room peerId peer producerId caps tid t :
  JsMap.get (rooms s) roomId = Some room ->
  JsMap.get (RoomJs.peers room) peerId = Some peer ->
  Mediasoup.canConsume (RoomJs.router room) producerId caps (engine s) = true ->
  RoomJs.findRecvTransport (engine s) peer = Some tid ->
  JsMap.get (Mediasoup.e_transports (engine s)) tid = Some t ->
  Mediasoup.transport_closed t = true ->
  handleRpcRequest (Consume roomId peerId producerId caps) s
  = (Throw EngineRejected, s).
Proof.
  intros G P C F Gt Ct.
  cbn [handleRpcRequest]. unfold_room; unfold_js; cbv beta iota delta [fst snd].
  rewrite G. cbv beta iota delta [fst snd]. rewrite P. cbv beta iota delta [fst snd].
  rewrite C. cbn [negb]. rewrite F. cbv beta iota delta [fst snd].
  unfold Mediasoup.consume. rewrite Gt, Ct.
  rewrite (JsMapFacts.set_same _ _ _ G). now rewrite server_eta.
Qed.

End Consumable.
(** * Join and Leave: one request at a time, and requests that overlap *)

Section MemberHistories.
Context `{Ortc}.
Import ServerJs.
Import Props.
Import Sound.
Import Overlap.

(** The two halves of [getOrCreateRoom] are the function: run one after
    the other with nothing in between, they are [getOrCreateRoom]. *)
Lemma getOrCreateRoom_cut roomId s :
  getOrCreateRoom roomId s
  = match getOrCreateRoom_toAwait roomId s with
    | (Return (inl room), s1) => (Return room, s1)
    | (Return (inr pid), s1) => getOrCreateRoom_fromAwait roomId pid s1
    | (Throw e, s1) => (Throw e, s1)
    end.
Proof.
  unfold getOrCreateRoom, getOrCreateRoom_toAwait, getOrCreateRoom_fromAwait,
    getNextWorker.
  unfold_js. destruct (JsMap.get (rooms s) roomId); [reflexivity|].
  cbv beta iota delta [fst snd].
  now destruct (nth_error (workers s) (nextWorkerIdx s)).
Qed.

Lemma join_cut roomId peerId name s pid :
  JsMap.get (rooms s) roomId = None ->
  nth_error (workers s) (nextWorkerIdx s) = Some pid ->
  fst (getOrCreateRoom_toAwait roomId s) = Return (inr pid) /\
  handleRpcRequest (Join roomId peerId name) s
  = join_fromAwait roomId peerId name pid (snd (getOrCreateRoom_toAwait roomId s)).
Proof.
  intros G W. cbn [handleRpcRequest]. unfold join_fromAwait.
  unfold bind at 1. rewrite getOrCreateRoom_cut.
  unfold getOrCreateRoom_toAwait, getNextWorker. unfold_js.
  rewrite G. cbv beta iota delta [fst snd]. rewrite W.
  cbv beta iota delta [fst snd]. split; reflexivity.
Qed.

(** C3, as amended.  After any history of Join and Leave from the start
    of a server with a worker, each request handled to its end before
    the next begins: the peers of a room are, without repetition,
    exactly the peer identifiers that joined it and have not left since,
    and the peer count is their number; a room is registered exactly
    when that number is not zero, so no registered room is empty; the
    router of a registered room is in the store, open, was never closed,
    and is the router of no other room; every other router of the store
    is closed, by exactly one call of [close()]. *)
Theorem join_leave_histories pids history :
  pids <> [] ->
  let s := run (map memberInput history) (startServer pids) in
  (forall roomId peerId,
     In peerId (peerIds s roomId) <-> joinedNotLeft history roomId peerId = true) /\
  (forall roomId, NoDup (peerIds s roomId)) /\
  (forall roomId, registered s roomId = true <-> peerIds s roomId <> []) /\
  (forall roomId room, JsMap.get (rooms s) roomId = Some room ->
     RoomJs.getPeerCount room = List.length (peerIds s roomId) /\
     RoomJs.getPeerCount room <> 0) /\
  (forall roomId room, JsMap.get (rooms s) roomId = Some room ->
     routerOpen (engine s) (RoomJs.router room) /\
     count_occ Nat.eq_dec (Mediasoup.e_routerCloseCalls (engine s))
               (RoomJs.router room) = 0) /\
  (forall r1 r2 room1 room2,
     JsMap.get (rooms s) r1 = Some room1 -> JsMap.get (rooms s) r2 = Some room2 ->
     RoomJs.router room1 = RoomJs.router room2 -> r1 = r2) /\
  (forall routerId,
     JsMap.has (Mediasoup.e_routers (engine s)) routerId = true ->
     (routerOfRegisteredRoom s routerId /\
      count_occ Nat.eq_dec (Mediasoup.e_routerCloseCalls (engine s)) routerId = 0)
     \/
     (~ routerOfRegisteredRoom s routerId /\ routerClosedOnce (engine s) routerId)).
Proof.
  intros Ne s.
  pose proof (history_invariant pids history Ne) as (W & A & _).
  fold s in W, A.
  assert (R : reachable s) by (now exists pids, (map memberInput history)).
  destruct (reachable_sound s R) as (_ & _ & R1 & R2 & R3 & _).
  assert (Never : forall roomId room, JsMap.get (rooms s) roomId = Some room ->
            count_occ Nat.eq_dec (Mediasoup.e_routerCloseCalls (engine s))
                      (RoomJs.router room) = 0).
  { intros roomId room G. destruct (R1 _ _ G) as (_ & Nc).
    now apply (count_occ_not_In Nat.eq_dec). }
  split; [|split; [|split; [|split; [|split; [|split]]]]].
  - intros roomId peerId. now apply history_members.
  - intros roomId. unfold peerIds.
    destruct (JsMap.get (rooms s) roomId) as [room|] eqn:G; [|constructor].
    now destruct (A _ _ G) as (_ & ND & _).
  - intros roomId. unfold registered, peerIds, JsMap.has.
    destruct (JsMap.get (rooms s) roomId) as [room|] eqn:G.
    + destruct (A _ _ G) as (Np & _). split; [|reflexivity].
      intros _ E. apply Np. unfold JsMap.keys in E. now apply map_eq_nil in E.
    + split; [discriminate | intros N; now elim N].
  - intros roomId room G. unfold peerIds, RoomJs.getPeerCount, JsMap.size, JsMap.keys.
    rewrite G, length_map. split; [reflexivity|].
    destruct (A _ _ G) as (Np & _). intros E. apply Np.
    now apply length_zero_iff_nil.
  - intros roomId room G. split; [now destruct (R1 _ _ G) | now apply (Never roomId)].
  - exact R2.
  - intros rid Hr. destruct (R3 rid Hr) as (_ & [Reg | Once]).
    + left. split; [exact Reg|]. destruct Reg as (k & y & Gk & <-).
      now apply (Never k).
    + right. split; [|exact Once]. intros (k & y & Gk & <-).
      destruct Once as (_ & Cnt). rewrite (Never k y Gk) in Cnt. discriminate.
Qed.

End MemberHistories.

(** * The further properties on the worked session *)

Section WorkedSocket.
Import SocketJs.

Lemma onData_messages_are_trimmed_lines_witness :
  In [123; 125]%N (fst (onData [32; 123]%N [125; 13; 10; 91]%N)) /\
  ~ In LF [123; 125]%N /\
  isWhiteSpace (last [123; 125]%N 0%N) = false.
Proof.
  assert (Hin : In [123; 125]%N (fst (onData [32; 123]%N [125; 13; 10; 91]%N))).
  { vm_compute. left. reflexivity. }
  destruct (onData_messages_are_trimmed_lines _ _ _ Hin) as (_ & N & _ & L).
  split; [exact Hin|]. split; [exact N | exact (L 0%N)].
Defined.

End WorkedSocket.

Section WorkedMore.
Import ServerJs.
Import Props.
Import Sound.
Import Replies.
Import ShutdownJs.
Import Open.
Import Overlap.
#[local] Existing Instance plainOrtc.

Lemma request_on_unregistered_room_witness :
  JsMap.get (rooms Session.state) "nowhere" = None /\
  handleRpcRequest (Produce "nowhere" "alice" 1 audio 1 []) Session.state
  = (Throw RoomNotFound, Session.state) /\
  handleRpcRequest (GetProducers "nowhere" "alice") Session.state
  = (Return (ProducersResult []), Session.state).
Proof.
  split; [reflexivity|]. split.
  - exact (request_on_unregistered_room Session.state
             (Produce "nowhere" "alice" 1 audio 1 []) "nowhere"
             eq_refl eq_refl eq_refl).
  - exact (request_on_unregistered_room Session.state
             (GetProducers "nowhere" "alice") "nowhere" eq_refl eq_refl eq_refl).
Defined.

Lemma acting_peer_not_in_room_witness :
  JsMap.get (rooms Session.state) "r" = Some Session.room /\
  JsMap.get (RoomJs.peers Session.room) "carol" = None /\
  handleRpcRequest (ConnectTransport "r" "carol" 1 tt) Session.state
  = (Throw (PeerNotFound "carol"), Session.state).
Proof.
  split; [reflexivity|]. split; [reflexivity|].
  exact (acting_peer_not_in_room Session.state (ConnectTransport "r" "carol" 1 tt)
           "r" Session.room "carol" eq_refl eq_refl eq_refl eq_refl).
Defined.

(** Bob names the producer of alice. *)
Lemma object_not_held_by_peer_witness :
  JsMap.get (RoomJs.peers Session.room) "bob" = Some Session.bob /\
  ~ In 2 (heldBy Session.bob HeldProducer) /\
  JsMap.has (Mediasoup.e_producers (engine Session.state)) 2 = true /\
  handleRpcRequest (PauseProducer "r" "bob" 2) Session.state
  = (Throw (ProducerNotFound 2), Session.state).
Proof.
  assert (N : ~ In 2 (heldBy Session.bob HeldProducer)) by (simpl; tauto).
  split; [reflexivity|]. split; [exact N|]. split; [reflexivity|].
  exact (object_not_held_by_peer Session.state (PauseProducer "r" "bob" 2)
           "r" Session.room "bob" Session.bob HeldProducer 2
           eq_refl eq_refl eq_refl eq_refl eq_refl N).
Defined.

(** Capabilities no producer fits. *)
Lemma failed_request_changes_nothing_witness :
  nextWorkerIdx Session.state < List.length (workers Session.state) /\
  fst (handleRpcRequest (Consume "r" "bob" 2 false) Session.state)
  = Throw CannotConsume /\
  snd (handleRpcRequest (Consume "r" "bob" 2 false) Session.state) = Session.state.
Proof.
  assert (L : nextWorkerIdx Session.state < List.length (workers Session.state))
    by (simpl; lia).
  split; [exact L|]. split; [reflexivity|].
  exact (failed_request_changes_nothing Session.state (Consume "r" "bob" 2 false)
           CannotConsume L eq_refl).
Defined.

Lemma join_appends_the_peer_witness :
  let out := handleRpcRequest (Join "r" "carol" "Carol") Session.state in
  peerOf Session.state "r" "carol" = None /\
  nextWorkerIdx Session.state < List.length (workers Session.state) /\
  fst out = Return (JoinResult [RoomJs.mkPeerInfo "alice" "Alice" [2];
                                RoomJs.mkPeerInfo "bob" "Bob" [];
                                RoomJs.mkPeerInfo "carol" "Carol" []]) /\
  peerIds (snd out) "r" = ["alice"; "bob"; "carol"].
Proof.
  assert (L : nextWorkerIdx Session.state < List.length (workers Session.state))
    by (simpl; lia).
  cbv zeta. split; [reflexivity|]. split; [exact L|].
  destruct (join_appends_the_peer Session.state "r" "carol" "Carol" eq_refl L)
    as (Reply & Ids & _).
  split; [exact Reply | exact Ids].
Defined.

Lemma join_then_leave_restores_witness :
  peerOf Session.state "r" "carol" = None /\
  peerIds Session.state "r" <> [] /\
  handleRpcRequest (Leave "r" "carol")
    (snd (handleRpcRequest (Join "r" "carol" "Carol") Session.state))
  = (Return (LeaveResult []), Session.state).
Proof.
  assert (N : peerIds Session.state "r" <> []) by (vm_compute; discriminate).
  split; [reflexivity|]. split; [exact N|].
  exact (join_then_leave_restores Session.state "r" "carol" "Carol" eq_refl N).
Defined.

Lemma getProducers_agrees_with_peer_list_witness :
  reachable Session.state /\
  JsMap.get (rooms Session.state) "r" = Some Session.room /\
  map RoomJs.pr_producerId
      (RoomJs.getProducersForPeer Session.room (engine Session.state) "bob")
  = flat_map RoomJs.pi_producers
      (filter (fun info => negb (keq (RoomJs.pi_peerId info) "bob"))
              (RoomJs.getPeerList Session.room)).
Proof.
  split; [exact session_reachable|]. split; [reflexivity|].
  exact (getProducers_agrees_with_peer_list Session.state "r" Session.room "bob"
           session_reachable eq_refl).
Defined.

Lemma repeated_consume_makes_a_second_consumer_witness :
  let out := handleRpcRequest (Consume "r" "bob" 2 true) Session.state in
  fst out = Return (ConsumeResult (RoomJs.mkConsumerInfo 4 2 audio)) /\
  exists info2 s2,
    handleRpcRequest (Consume "r" "bob" 2 true) (snd out)
    = (Return (ConsumeResult info2), s2) /\
    RoomJs.ci_id info2 = 5.
Proof.
  cbv zeta. split; [reflexivity|].
  destruct (repeated_consume_makes_a_second_consumer Session.state "r" "bob" 2 true
              (RoomJs.mkConsumerInfo 4 2 audio) _ eq_refl)
    as (info2 & s2 & _ & _ & Run & Id & _).
  exists info2, s2. split; [exact Run | exact Id].
Defined.

Lemma consume_picks_the_receive_transport_witness :
  let out := handleRpcRequest (Consume "r" "bob" 2 true) Session.state in
  fst out = Return (ConsumeResult (RoomJs.mkConsumerInfo 4 2 audio)) /\
  exists peer c,
    peerOf Session.state "r" "bob" = Some peer /\
    JsMap.get (Mediasoup.e_consumers (engine (snd out))) 4 = Some c /\
    In (Mediasoup.consumer_transportId c) (RoomJs.transports peer).
Proof.
  cbv zeta. split; [reflexivity|].
  destruct (consume_picks_the_receive_transport Session.state "r" "bob" 2 true
              (RoomJs.mkConsumerInfo 4 2 audio) _ eq_refl)
    as (peer & c & P & G & Hin & _).
  exists peer, c. repeat split; assumption.
Defined.

(** Carol has joined and holds no transport yet. *)
Lemma consume_without_transport_witness :
  let s := snd (handleRpcRequest (Join "r" "carol" "Carol") Session.state) in
  let carol := RoomJs.mkPeer "Carol" [] [] [] in
  let room := RoomJs.mkRoom "r" 0 [("alice", Session.alice); ("bob", Session.bob);
                                   ("carol", carol)] in
  JsMap.get (rooms s) "r" = Some room /\
  JsMap.get (RoomJs.peers room) "carol" = Some carol /\
  Mediasoup.canConsume (RoomJs.router room) 2 true (engine s) = true /\
  handleRpcRequest (Consume "r" "carol" 2 true) s
  = (Throw NoTransportForConsuming, s).
Proof.
  cbv zeta. split; [reflexivity|]. split; [reflexivity|]. split; [reflexivity|].
  exact (consume_without_transport
           (snd (handleRpcRequest (Join "r" "carol" "Carol") Session.state)) "r"
           (RoomJs.mkRoom "r" 0 [("alice", Session.alice); ("bob", Session.bob);
                                 ("carol", RoomJs.mkPeer "Carol" [] [] [])])
           "carol" (RoomJs.mkPeer "Carol" [] [] []) 2 true
           eq_refl eq_refl eq_refl eq_refl).
Defined.

Lemma held_objects_have_one_holder_witness :
  reachable Session.state /\
  JsMap.get (rooms Session.state) "r" = Some Session.room /\
  JsMap.get (RoomJs.peers Session.room) "alice" = Some Session.alice /\
  In 2 (heldBy Session.alice HeldProducer) /\
  ("r" = "r" /\ "alice" = "alice").
Proof.
  assert (Hin : In 2 (heldBy Session.alice HeldProducer)) by (simpl; tauto).
  split; [exact session_reachable|]. split; [reflexivity|]. split; [reflexivity|].
  split; [exact Hin|].
  exact (held_objects_have_one_holder Session.state
           "r" Session.room "alice" Session.alice
           "r" Session.room "alice" Session.alice HeldProducer 2
           session_reachable eq_refl eq_refl eq_refl eq_refl Hin Hin).
Defined.

Lemma histories_reachable : reachable Histories.state.
Proof. exists [100], Histories.inputs. reflexivity. Qed.

Lemma router_is_closed_once_and_with_its_room_witness :
  reachable Histories.state /\
  routerOpen (engine Histories.state) 0 /\
  In 1 (Mediasoup.e_routerCloseCalls (engine Histories.state)) /\
  routerClosedOnce (engine Histories.state) 1 /\
  count_occ Nat.eq_dec (Mediasoup.e_routerCloseCalls (engine Histories.state)) 1 <= 1.
Proof.
  destruct (router_is_closed_once_and_with_its_room Histories.state
              histories_reachable) as (Open & _ & Called & Count).
  split; [exact histories_reachable|]. split.
  - exact (proj1 (Open "r" (RoomJs.mkRoom "r" 0 [("a", RoomJs.mkPeer "A" [] [] [])])
                    eq_refl)).
  - split; [now left|]. split; [|exact (Count 1)].
    apply Called. now left.
Defined.

Lemma join_succeeds_on_a_server_with_workers_witness :
  reachable Session.state /\
  workers Session.state <> [] /\
  exists list s',
    handleRpcRequest (Join "lobby" "carol" "Carol") Session.state
    = (Return (JoinResult list), s') /\
    In "carol" (map RoomJs.pi_peerId list).
Proof.
  assert (W : workers Session.state <> []) by (vm_compute; discriminate).
  split; [exact session_reachable|]. split; [exact W|].
  destruct (join_succeeds_on_a_server_with_workers Session.state "lobby" "carol"
              "Carol" session_reachable W)
    as (list & s' & _ & _ & Run & Hin & _).
  exists list, s'. split; [exact Run | exact Hin].
Defined.

Lemma created_transport_goes_to_the_member_witness :
  let out := handleRpcRequest (CreateWebRtcTransport "r" "bob" true) Session.state in
  reachable Session.state /\
  JsMap.get (rooms Session.state) "r" = Some Session.room /\
  JsMap.get (RoomJs.peers Session.room) "bob" = Some Session.bob /\
  (exists e', Mediasoup.createWebRtcTransport 0 "bob" (engine Session.state)
              = Some (4, e')) /\
  fst out = Return (TransportData 4) /\
  peerOf (snd out) "r" "bob" = Some (RoomJs.mkPeer "Bob" [3; 4] [] []) /\
  JsMap.get (Mediasoup.e_transports (engine (snd out))) 4
  = Some (Mediasoup.mkTransport 0 "bob" true false false).
Proof.
  cbv zeta. split; [exact session_reachable|]. split; [reflexivity|].
  split; [reflexivity|]. split; [eexists; reflexivity|].
  destruct (created_transport_goes_to_the_member Session.state "r" Session.room
              "bob" Session.bob true 4 _ session_reachable eq_refl eq_refl eq_refl)
    as (Reply & _ & _ & Peer & Tr).
  split; [exact Reply|]. split; [exact Peer | exact Tr].
Defined.

Lemma closed_producer_is_held_and_listed_nowhere_witness :
  let out := handleRpcRequest (CloseProducer "r" "alice" 2) Session.state in
  reachable Session.state /\
  JsMap.get (rooms Session.state) "r" = Some Session.room /\
  JsMap.get (RoomJs.peers Session.room) "alice" = Some Session.alice /\
  In 2 (RoomJs.producers Session.alice) /\
  fst out = Return EmptyResult /\
  producerIsClosed (engine (snd out)) 2.
Proof.
  assert (Hin : In 2 (RoomJs.producers Session.alice)) by (simpl; tauto).
  cbv zeta. split; [exact session_reachable|]. split; [reflexivity|].
  split; [reflexivity|]. split; [exact Hin|].
  destruct (closed_producer_is_held_and_listed_nowhere Session.state "r" Session.room
              "alice" Session.alice 2 session_reachable eq_refl eq_refl Hin)
    as (Reply & Closed & _).
  split; [exact Reply | exact Closed].
Defined.

Lemma leave_reports_the_listed_producers_witness :
  reachable Session.state /\
  JsMap.get (rooms Session.state) "r" = Some Session.room /\
  JsMap.get (RoomJs.peers Session.room) "alice" = Some Session.alice /\
  "bob" <> "alice" /\
  fst (handleRpcRequest (Leave "r" "alice") Session.state)
  = Return (LeaveResult
              (map RoomJs.pr_producerId
                 (filter (fun entry => keq (RoomJs.pr_peerId entry) "alice")
                    (RoomJs.getProducersForPeer Session.room (engine Session.state)
                       "bob")))).
Proof.
  assert (N : "bob" <> "alice") by discriminate.
  split; [exact session_reachable|]. split; [reflexivity|]. split; [reflexivity|].
  split; [exact N|].
  exact (leave_reports_the_listed_producers Session.state "r" Session.room "alice"
           Session.alice "bob" session_reachable eq_refl eq_refl N).
Defined.

Lemma shutdown_closes_everything_witness :
  reachable Session.state /\
  fst (shutdown Session.state) = Return tt /\
  JsMap.get (rooms (snd (shutdown Session.state))) "r"
  = Some (closedRoom Session.room) /\
  producerIsClosed (engine (snd (shutdown Session.state))) 2 /\
  exists r, JsMap.get (Mediasoup.e_routers (engine (snd (shutdown Session.state)))) 0
            = Some r /\ Mediasoup.router_closed r = true.
Proof.
  split; [exact session_reachable|].
  destruct (shutdown_closes_everything Session.state session_reachable)
    as (Ret & Rooms & Held & Routers).
  split; [exact Ret|]. split; [exact (Rooms "r" Session.room eq_refl)|].
  split.
  - destruct (Held "r" Session.room "alice" Session.alice eq_refl eq_refl)
      as (_ & Pr & _).
    apply (Pr 2). simpl. tauto.
  - apply Routers. reflexivity.
Defined.

Lemma pause_then_resume_restores_witness :
  let out := handleRpcRequest (PauseProducer "r" "alice" 2) Session.state in
  JsMap.get (rooms Session.state) "r" = Some Session.room /\
  JsMap.get (RoomJs.peers Session.room) "alice" = Some Session.alice /\
  In 2 (RoomJs.producers Session.alice) /\
  JsMap.get (Mediasoup.e_producers (engine Session.state)) 2
  = Some (@Mediasoup.mkProducer plainOrtc 1 audio 0 [("peerId", "alice")] false false) /\
  fst out = Return EmptyResult /\
  handleRpcRequest (ResumeProducer "r" "alice" 2) (snd out)
  = (Return EmptyResult, Session.state).
Proof.
  assert (Hin : In 2 (RoomJs.producers Session.alice)) by (simpl; tauto).
  cbv zeta. split; [reflexivity|]. split; [reflexivity|]. split; [exact Hin|].
  split; [reflexivity|].
  destruct (pause_then_resume_restores Session.state "r" Session.room "alice"
              Session.alice 2
              (@Mediasoup.mkProducer plainOrtc 1 audio 0 [("peerId", "alice")] false false)
              eq_refl eq_refl Hin eq_refl eq_refl eq_refl)
    as (Reply & _ & Back).
  split; [exact Reply | exact Back].
Defined.

Lemma held_objects_are_open_on_held_transports_witness :
  reachable Session.state /\
  JsMap.get (rooms Session.state) "r" = Some Session.room /\
  JsMap.get (RoomJs.peers Session.room) "alice" = Some Session.alice /\
  exists p t,
    JsMap.get (Mediasoup.e_producers (engine Session.state)) 2 = Some p /\
    Mediasoup.producer_closed p = false /\
    In (Mediasoup.producer_transportId p) (RoomJs.transports Session.alice) /\
    JsMap.get (Mediasoup.e_transports (engine Session.state))
              (Mediasoup.producer_transportId p) = Some t /\
    Mediasoup.transport_closed t = false /\
    Mediasoup.transport_routerId t = 0.
Proof.
  split; [exact session_reachable|]. split; [reflexivity|]. split; [reflexivity|].
  destruct (held_objects_are_open_on_held_transports Session.state "r" Session.room
              "alice" Session.alice session_reachable eq_refl eq_refl) as (Pr & _).
  apply (Pr 2). now left.
Defined.

Lemma listed_producers_are_open_witness :
  let entry := RoomJs.mkProducerInfo 2 "alice" audio [("peerId", "alice")] in
  In entry (RoomJs.getProducersForPeer Session.room (engine Session.state) "bob") /\
  RoomJs.pr_peerId entry <> "bob" /\
  exists p, Mediasoup.routerProducer 0 2 (engine Session.state) = Some p /\
            Mediasoup.producer_closed p = false.
Proof.
  cbv zeta. split; [now left|].
  destruct (listed_producers_are_open Session.state "r" Session.room "bob"
              (RoomJs.mkProducerInfo 2 "alice" audio [("peerId", "alice")])
              session_reachable eq_refl (or_introl eq_refl)) as (N & p & RP & C & _).
  split; [exact N|]. exists p. split; assumption.
Defined.

Lemma listed_producer_can_be_consumed_witness :
  let entry := RoomJs.mkProducerInfo 2 "alice" audio [("peerId", "alice")] in
  let out := handleRpcRequest (Consume "r" "bob" 2 true) Session.state in
  In entry (RoomJs.getProducersForPeer Session.room (engine Session.state) "bob") /\
  RoomJs.findRecvTransport (engine Session.state) Session.bob = Some 3 /\
  fst out = Return (ConsumeResult (RoomJs.mkConsumerInfo 4 2 audio)) /\
  JsMap.get (Mediasoup.e_consumers (engine (snd out))) 4
  = Some (Mediasoup.mkConsumer 3 2 audio true None false).
Proof.
  cbv zeta. split; [now left|]. split; [reflexivity|].
  exact (listed_producer_can_be_consumed Session.state "r" Session.room "bob"
           Session.bob (RoomJs.mkProducerInfo 2 "alice" audio [("peerId", "alice")])
           3 (Mediasoup.mkTransport 0 "bob" true false false) true
           session_reachable eq_refl eq_refl (or_introl eq_refl) eq_refl eq_refl
           eq_refl (fun p _ => eq_refl)).
Defined.

(** Bob's transport has closed by DTLS: it stays in his map, and a
    Consume picks it. *)
Lemma consume_on_a_closed_transport_is_rejected_witness :
  let s := step (Event (DtlsStateClosed 3)) Session.state in
  reachable s /\
  JsMap.get (rooms s) "r" = Some Session.room /\
  RoomJs.findRecvTransport (engine s) Session.bob = Some 3 /\
  handleRpcRequest (Consume "r" "bob" 2 true) s = (Throw EngineRejected, s).
Proof.
  cbv zeta. split.
  { exists [100; 200], (Session.inputs ++ [Event (DtlsStateClosed 3)]). reflexivity. }
  split; [reflexivity|]. split; [reflexivity|].
  exact (consume_on_a_closed_transport_is_rejected
           (step (Event (DtlsStateClosed 3)) Session.state) "r" Session.room "bob"
           Session.bob 2 true 3 (Mediasoup.mkTransport 0 "bob" true false true)
           eq_refl eq_refl eq_refl eq_refl eq_refl eq_refl).
Defined.

(** C3, the claim as stated, fails.  Two first joins of room r come in
    one chunk, on a server with workers 100 and 200.  Each runs
    [getOrCreateRoom] up to its [await]: neither finds the room, and
    each asks its worker for a router.  When the routers are there, the
    first join registers a room on router 0 and adds a to it; the
    second registers a room on router 1 over it and adds b.  Both joins
    are answered with success.  Of the two peers that joined and did not
    leave, the room has one; router 0 is open and is the router of no
    room.  When b leaves, the room is destroyed and router 0 is still
    open: [close()] was never called on it. *)
Lemma overlapping_first_joins_lose_a_peer_and_a_router :
  let s0 := startServer [100; 200] in
  let s1 := snd (getOrCreateRoom_toAwait "r" s0) in
  let s2 := snd (getOrCreateRoom_toAwait "r" s1) in
  let s3 := snd (join_fromAwait "r" "a" "A" 100 s2) in
  let s4 := snd (join_fromAwait "r" "b" "B" 200 s3) in
  let s5 := snd (handleRpcRequest (Leave "r" "b") s4) in
  fst (getOrCreateRoom_toAwait "r" s0) = Return (inr 100) /\
  fst (getOrCreateRoom_toAwait "r" s1) = Return (inr 200) /\
  fst (join_fromAwait "r" "a" "A" 100 s2)
  = Return (JoinResult [RoomJs.mkPeerInfo "a" "A" []]) /\
  fst (join_fromAwait "r" "b" "B" 200 s3)
  = Return (JoinResult [RoomJs.mkPeerInfo "b" "B" []]) /\
  joinedNotLeft [MJoin "r" "a" "A"; MJoin "r" "b" "B"] "r" "a" = true /\
  joinedNotLeft [MJoin "r" "a" "A"; MJoin "r" "b" "B"] "r" "b" = true /\
  peerIds s4 "r" = ["b"] /\
  routerOpen (engine s4) 0 /\
  ~ routerOfRegisteredRoom s4 0 /\
  rooms s5 = [] /\
  routerOpen (engine s5) 0 /\
  count_occ Nat.eq_dec (Mediasoup.e_routerCloseCalls (engine s5)) 0 = 0.
Proof.
  cbv zeta. repeat (split; [reflexivity|]).
  split; [eexists; split; reflexivity|].
  split.
  { intros (k & y & G & E). apply JsMapFacts.get_Some_in in G.
    vm_compute in G. destruct G as [G | []]. injection G as <- <-.
    discriminate E. }
  split; [reflexivity|].
  split; [eexists; split; reflexivity | reflexivity].
Qed.

Lemma join_leave_histories_witness :
  let history := [MJoin "r" "a" "A"; MJoin "r" "b" "B"; MLeave "r" "a";
                  MJoin "q" "a" "A"; MLeave "q" "a"] in
  let s := run (map memberInput history) (startServer [100]) in
  [100] <> [] /\
  (forall peerId, In peerId (peerIds s "r") <-> joinedNotLeft history "r" peerId = true) /\
  (registered s "q" = true <-> peerIds s "q" <> []) /\
  routerOpen (engine s) 0 /\
  routerClosedOnce (engine s) 1.
Proof.
  cbv zeta. split; [discriminate|].
  destruct (join_leave_histories [100]
              [MJoin "r" "a" "A"; MJoin "r" "b" "B"; MLeave "r" "a";
               MJoin "q" "a" "A"; MLeave "q" "a"])
    as (Members & _ & Reg & _ & Open & _ & Routers); [discriminate|].
  split; [intros peerId; apply Members|]. split; [apply Reg|].
  split.
  - exact (proj1 (Open "r" (RoomJs.mkRoom "r" 0 [("b", RoomJs.mkPeer "B" [] [] [])])
                    eq_refl)).
  - destruct (Routers 1 eq_refl) as [(_ & Cnt) | (_ & Once)];
      [discriminate Cnt | exact Once].
Defined.

End WorkedMore.

Section WorkedClient.
Import RibbonRTC.

(** A client with an open audio producer that is not paused. *)
Lemma toggle_flips_the_producer_witness :
  let c := mkClient [("audio", mkProducer "p1" false false)] false [] in
  JsMap.get (_producers c) "audio" = Some (mkProducer "p1" false false) /\
  fst (toggleMic c) = false /\
  isMicEnabled (snd (toggleMic c)) = Some false /\
  emitted (snd (toggleMic c)) = [EmitPauseProducer "p1"] /\
  fst (toggleMic (snd (toggleMic c))) = true.
Proof.
  cbv zeta. split; [reflexivity|].
  destruct (toggle_flips_the_producer true
              (mkClient [("audio", mkProducer "p1" false false)] false [])
              (mkProducer "p1" false false) eq_refl eq_refl)
    as (On & En & Em & _ & Again & _).
  split; [exact On|]. split; [exact En|]. split; [exact Em | exact Again].
Defined.

End WorkedClient.
